(** * CCC: a shallow embedding of the C-to-COIL compiler

    The development follows the pipeline of the compiler:
    token model, diagnostics, lexer, AST, parser, semantic analyzer,
    code generator and driver.  Every definition of the first part is a
    transcription of the C++ function of the same name; the second part
    states and proves properties of those definitions. *)

From Stdlib Require Import ZArith Ascii String List Lia Bool.
From stdpp Require Import gmap strings list fin_maps pretty.

Local Open Scope string_scope.
Local Open Scope Z_scope.

(** ** Outcomes of imperative code

    A C++ member function either returns, or leaves by an exception
    ([throw std::runtime_error(what)], the state changes made so far being
    kept), or has no defined behaviour (indexing past the end of a vector,
    dereferencing a null [unique_ptr], [top()] of an empty stack).
    [OutOfFuel] is an artefact of the embedding: recursion that is not
    structural is cut by a fuel argument. *)

Inductive Outcome (S A : Type) : Type :=
| Return (a : A) (s : S)
| Throw (what : string) (s : S)
| Undefined
| OutOfFuel.

Arguments Return {S A} a s.
Arguments Throw {S A} what s.
Arguments Undefined {S A}.
Arguments OutOfFuel {S A}.

Definition M (S A : Type) : Type := S -> Outcome S A.

Definition ret {S A} (a : A) : M S A := fun s => Return a s.

Definition bind {S A B} (m : M S A) (k : A -> M S B) : M S B :=
  fun s =>
    match m s with
    | Return a s' => k a s'
    | Throw w s' => Throw w s'
    | Undefined => Undefined
    | OutOfFuel => OutOfFuel
    end.

Definition throw {S A} (what : string) : M S A := fun s => Throw what s.
Definition undefined {S A} : M S A := fun _ => Undefined.
Definition out_of_fuel {S A} : M S A := fun _ => OutOfFuel.
Definition get {S} : M S S := fun s => Return s s.
Definition gets {S A} (f : S -> A) : M S A := fun s => Return (f s) s.
Definition modify {S} (f : S -> S) : M S unit := fun s => Return tt (f s).

(** [try { body } catch (const std::exception& e) { handler(e.what()) }] *)
Definition try_catch {S A} (body : M S A) (handler : string -> M S A) : M S A :=
  fun s =>
    match body s with
    | Throw w s' => handler w s'
    | o => o
    end.

Notation "x <- m ;; k" := (bind m (fun x => k))
  (at level 20, m at level 99, k at level 200, only parsing).
Notation "m ;; k" := (bind m (fun _ => k))
  (at level 100, k at level 200, right associativity, only parsing).
Notation "' pat <- m ;; k" := (bind m (fun x => match x with pat => k end))
  (at level 20, pat pattern, m at level 99, k at level 200, only parsing).

(** ** token.h *)

Inductive TokenType : Type :=
| END_OF_FILE | UNKNOWN
| IDENTIFIER | INTEGER_LITERAL | FLOAT_LITERAL | STRING_LITERAL | CHAR_LITERAL
| KW_AUTO | KW_BREAK | KW_CASE | KW_CHAR | KW_CONST | KW_CONTINUE | KW_DEFAULT
| KW_DO | KW_DOUBLE | KW_ELSE | KW_ENUM | KW_EXTERN | KW_FLOAT | KW_FOR
| KW_GOTO | KW_IF | KW_INT | KW_LONG | KW_REGISTER | KW_RETURN | KW_SHORT
| KW_SIGNED | KW_SIZEOF | KW_STATIC | KW_STRUCT | KW_SWITCH | KW_TYPEDEF
| KW_UNION | KW_UNSIGNED | KW_VOID | KW_VOLATILE | KW_WHILE
| OP_PLUS | OP_MINUS | OP_STAR | OP_SLASH | OP_PERCENT | OP_AMPERSAND
| OP_PIPE | OP_CARET | OP_TILDE | OP_EXCLAMATION | OP_EQUALS | OP_LESS
| OP_GREATER | OP_DOT | OP_ARROW | OP_PLUS_PLUS | OP_MINUS_MINUS
| OP_PLUS_EQUALS | OP_MINUS_EQUALS | OP_STAR_EQUALS | OP_SLASH_EQUALS
| OP_PERCENT_EQUALS | OP_AND_EQUALS | OP_OR_EQUALS | OP_XOR_EQUALS
| OP_SHL_EQUALS | OP_SHR_EQUALS | OP_EQUALS_EQUALS | OP_NOT_EQUALS
| OP_LESS_EQUALS | OP_GREATER_EQUALS | OP_SHL | OP_SHR | OP_LOGICAL_AND
| OP_LOGICAL_OR | OP_QUESTION
| SEMICOLON | COLON | COMMA | LEFT_PAREN | RIGHT_PAREN | LEFT_BRACE
| RIGHT_BRACE | LEFT_BRACKET | RIGHT_BRACKET | HASH | ELLIPSIS.

#[global] Instance TokenType_eq_dec : EqDecision TokenType.
Proof. solve_decision. Defined.

Record Token : Type := mkToken {
  type : TokenType;
  lexeme : string;
  filename : string;
  line : Z;
  column : Z;
}.

(** The keyword map of token.cpp (32 entries, exact match). *)
Definition Keywords : list (string * TokenType) :=
  [ ("auto", KW_AUTO); ("break", KW_BREAK); ("case", KW_CASE);
    ("char", KW_CHAR); ("const", KW_CONST); ("continue", KW_CONTINUE);
    ("default", KW_DEFAULT); ("do", KW_DO); ("double", KW_DOUBLE);
    ("else", KW_ELSE); ("enum", KW_ENUM); ("extern", KW_EXTERN);
    ("float", KW_FLOAT); ("for", KW_FOR); ("goto", KW_GOTO); ("if", KW_IF);
    ("int", KW_INT); ("long", KW_LONG); ("register", KW_REGISTER);
    ("return", KW_RETURN); ("short", KW_SHORT); ("signed", KW_SIGNED);
    ("sizeof", KW_SIZEOF); ("static", KW_STATIC); ("struct", KW_STRUCT);
    ("switch", KW_SWITCH); ("typedef", KW_TYPEDEF); ("union", KW_UNION);
    ("unsigned", KW_UNSIGNED); ("void", KW_VOID); ("volatile", KW_VOLATILE);
    ("while", KW_WHILE) ].

Fixpoint Keywords_find (table : list (string * TokenType)) (text : string)
  : option TokenType :=
  match table with
  | [] => None
  | (k, t) :: rest => if String.eqb k text then Some t else Keywords_find rest text
  end.

(** ** error.h *)

Inductive ErrorLevel : Type := INFO | WARNING | ERROR.

#[global] Instance ErrorLevel_eq_dec : EqDecision ErrorLevel.
Proof. solve_decision. Defined.

Record ErrorEntry : Type := mkErrorEntry {
  level : ErrorLevel;
  message : string;
  efilename : string;
  eline : Z;
  ecolumn : Z;
}.

Record ErrorHandler : Type := mkErrorHandler {
  errors : list ErrorEntry;
  currentFilename : string;
  hadError : bool;
}.

Module Errors.

Definition empty_handler : ErrorHandler :=
  mkErrorHandler [] EmptyString false.

Definition addError (lvl : ErrorLevel) (msg : string) (fname : string)
    (l c : Z) (h : ErrorHandler) : ErrorHandler :=
  let fname' := if String.eqb fname EmptyString then currentFilename h else fname in
  mkErrorHandler (errors h ++ [mkErrorEntry lvl msg fname' l c])
    (currentFilename h)
    (match lvl with ERROR => true | _ => hadError h end).

(** The three entry points are always called with the default (empty)
    [filename] argument in the compiler. *)
Definition info (l c : Z) (msg : string) (h : ErrorHandler) : ErrorHandler :=
  addError INFO msg EmptyString l c h.

Definition warning (l c : Z) (msg : string) (h : ErrorHandler) : ErrorHandler :=
  addError WARNING msg EmptyString l c h.

Definition error (l c : Z) (msg : string) (h : ErrorHandler) : ErrorHandler :=
  let h' := addError ERROR msg EmptyString l c h in
  mkErrorHandler (errors h') (currentFilename h') true.

Definition hasErrors (h : ErrorHandler) : bool := hadError h.

Definition count_level (lvl : ErrorLevel) (h : ErrorHandler) : nat :=
  length (filter (fun e => level e = lvl) (errors h)).

Definition errorCount (h : ErrorHandler) : nat := count_level ERROR h.
Definition warningCount (h : ErrorHandler) : nat := count_level WARNING h.

Definition setCurrentFilename (fname : string) (h : ErrorHandler) : ErrorHandler :=
  mkErrorHandler (errors h) fname (hadError h).

Definition hasWarnings (h : ErrorHandler) : bool :=
  existsb (fun e => bool_decide (level e = WARNING)) (errors h).

Definition clear (h : ErrorHandler) : ErrorHandler :=
  mkErrorHandler [] (currentFilename h) false.

End Errors.

(** ** Characters and strings of the C++ standard library *)

Definition NUL : ascii := "000"%char.
Definition TAB : ascii := "009"%char.
Definition NEWLINE : ascii := "010"%char.
Definition CR : ascii := "013"%char.
Definition DQUOTE : ascii := "034"%char.
Definition SQUOTE : ascii := "039"%char.
Definition BACKSLASH : ascii := "092"%char.

Definition char_between (lo hi c : ascii) : bool :=
  (N.leb (N_of_ascii lo) (N_of_ascii c) && N.leb (N_of_ascii c) (N_of_ascii hi))%bool.

(** [std::isdigit], [std::isalpha], [std::isalnum], [std::isspace] in the
    "C" locale. *)
Definition isdigit (c : ascii) : bool := char_between "0" "9" c.
Definition isalpha (c : ascii) : bool :=
  (char_between "a" "z" c || char_between "A" "Z" c)%bool.
Definition isalnum (c : ascii) : bool := (isalpha c || isdigit c)%bool.
Definition isspace (c : ascii) : bool :=
  (Ascii.eqb c " " || char_between TAB CR c)%bool.

(** [s[i]] for [i <= s.length()]: the character, or the terminating NUL. *)
Definition char_at (s : string) (i : nat) : ascii :=
  nth i (list_ascii_of_string s) NUL.

(** [s.substr(pos, len)] for [pos <= s.length()]. *)
Definition substr (s : string) (pos len : nat) : string :=
  string_of_list_ascii (firstn len (skipn pos (list_ascii_of_string s))).

(** [std::string(1, c)] *)
Definition string_of_char (c : ascii) : string := String c EmptyString.

(** Conversion of an integer value to the 32-bit [int]. *)
Definition to_int (z : Z) : Z := (z + 2147483648) mod 4294967296 - 2147483648.

(** Conversion to [uint16_t]. *)
Definition to_uint16 (z : Z) : Z := z mod 65536.

(** ** lexer.cpp *)

Module Lexer.

Record Lexer : Type := mkLexer {
  source : string;
  filename : string;
  errorHandler : ErrorHandler;
  start : nat;
  current : nat;
  line : Z;
  column : Z;
  tokens : list Token;   (* the vector filled by [tokenize] *)
}.

Definition set_errorHandler (h : ErrorHandler) (lx : Lexer) : Lexer :=
  mkLexer (source lx) (filename lx) h (start lx) (current lx) (line lx)
    (column lx) (tokens lx).
Definition set_start (n : nat) (lx : Lexer) : Lexer :=
  mkLexer (source lx) (filename lx) (errorHandler lx) n (current lx) (line lx)
    (column lx) (tokens lx).
Definition set_current (n : nat) (lx : Lexer) : Lexer :=
  mkLexer (source lx) (filename lx) (errorHandler lx) (start lx) n (line lx)
    (column lx) (tokens lx).
Definition set_line (l : Z) (lx : Lexer) : Lexer :=
  mkLexer (source lx) (filename lx) (errorHandler lx) (start lx) (current lx) l
    (column lx) (tokens lx).
Definition set_column (c : Z) (lx : Lexer) : Lexer :=
  mkLexer (source lx) (filename lx) (errorHandler lx) (start lx) (current lx)
    (line lx) c (tokens lx).
Definition set_tokens (ts : list Token) (lx : Lexer) : Lexer :=
  mkLexer (source lx) (filename lx) (errorHandler lx) (start lx) (current lx)
    (line lx) (column lx) ts.

Definition report (l c : Z) (msg : string) (lx : Lexer) : Lexer :=
  set_errorHandler (Errors.error l c msg (errorHandler lx)) lx.

Definition isAtEnd (lx : Lexer) : bool :=
  (String.length (source lx) <=? current lx)%nat.

(** [column++; return source[current++];]  It is only called when
    [isAtEnd] is false. *)
Definition advance (lx : Lexer) : ascii * Lexer :=
  (char_at (source lx) (current lx),
   set_current (S (current lx)) (set_column (column lx + 1) lx)).

Definition advance_ (lx : Lexer) : Lexer := snd (advance lx).

Definition peek (lx : Lexer) : ascii :=
  if isAtEnd lx then NUL else char_at (source lx) (current lx).

Definition peekNext (lx : Lexer) : ascii :=
  if (String.length (source lx) <=? current lx + 1)%nat then NUL
  else char_at (source lx) (current lx + 1).

Definition match_ (expected : ascii) (lx : Lexer) : bool * Lexer :=
  if (isAtEnd lx || negb (Ascii.eqb (char_at (source lx) (current lx)) expected))%bool
  then (false, lx)
  else (true, set_column (column lx + 1) (set_current (S (current lx)) lx)).

Definition makeToken (ty : TokenType) (lx : Lexer) : Token :=
  let lexeme := substr (source lx) (start lx) (current lx - start lx) in
  mkToken ty lexeme (filename lx) (line lx)
    (to_int (column lx - Z.of_nat (String.length lexeme))).

Definition addToken (ty : TokenType) (lx : Lexer) : Lexer :=
  set_tokens (tokens lx ++ [makeToken ty lx]) lx.

(** [while (cond) advance();]  Every iteration consumes one character
    and every condition used fails at the end of the source, so
    [String.length source] iterations are enough. *)
Fixpoint advance_while (cond : Lexer -> bool) (fuel : nat) (lx : Lexer) : Lexer :=
  match fuel with
  | O => lx
  | S fuel' =>
      if cond lx then advance_while cond fuel' (advance_ lx) else lx
  end.

Definition fuel_of (lx : Lexer) : nat := S (String.length (source lx)).

(** The body of the block-comment loop of [comment]; [true] in the
    result means that the closing [*/] was consumed and [comment]
    returned from inside the loop. *)
Fixpoint block_comment_loop (fuel : nat) (lx : Lexer) : bool * Lexer :=
  match fuel with
  | O => (false, lx)
  | S fuel' =>
      if isAtEnd lx then (false, lx)
      else if (Ascii.eqb (peek lx) "*" && Ascii.eqb (peekNext lx) "/")%bool
      then (true, advance_ (advance_ lx))
      else
        let lx1 := if Ascii.eqb (peek lx) NEWLINE
                   then set_column 1 (set_line (line lx + 1) lx) else lx in
        block_comment_loop fuel' (advance_ lx1)
  end.

Definition comment (lx : Lexer) : Lexer :=
  if (Ascii.eqb (peek lx) "/" && Ascii.eqb (peekNext lx) "/")%bool then
    let lx1 := advance_ (advance_ lx) in
    advance_while
      (fun l => negb (Ascii.eqb (peek l) NEWLINE) && negb (isAtEnd l))%bool
      (fuel_of lx) lx1
  else if (Ascii.eqb (peek lx) "/" && Ascii.eqb (peekNext lx) "*")%bool then
    let lx1 := advance_ (advance_ lx) in
    let startLine := line lx1 in
    let startColumn := column lx1 - 2 in
    let '(closed, lx2) := block_comment_loop (fuel_of lx) lx1 in
    if closed then lx2
    else report startLine startColumn "Unterminated block comment" lx2
  else lx.

(** The loop of [skipWhitespace]. *)
Fixpoint skipWhitespace_loop (fuel : nat) (lx : Lexer) : Lexer :=
  match fuel with
  | O => lx
  | S fuel' =>
      let c := peek lx in
      if (Ascii.eqb c " " || Ascii.eqb c TAB || Ascii.eqb c CR)%bool then
        skipWhitespace_loop fuel' (advance_ lx)
      else if Ascii.eqb c NEWLINE then
        skipWhitespace_loop fuel'
          (advance_ (set_column 1 (set_line (line lx + 1) lx)))
      else if Ascii.eqb c "/" then
        if (Ascii.eqb (peekNext lx) "/" || Ascii.eqb (peekNext lx) "*")%bool
        then skipWhitespace_loop fuel' (comment lx)
        else lx
      else lx
  end.

Definition skipWhitespace (lx : Lexer) : Lexer :=
  skipWhitespace_loop (fuel_of lx) lx.

Definition identifier (lx : Lexer) : Lexer :=
  let lx1 :=
    advance_while
      (fun l => isalnum (peek l) || Ascii.eqb (peek l) "_")%bool
      (fuel_of lx) lx in
  let text := substr (source lx1) (start lx1) (current lx1 - start lx1) in
  match Keywords_find Keywords text with
  | Some kw => addToken kw lx1
  | None => addToken IDENTIFIER lx1
  end.

Definition digits (lx : Lexer) : Lexer :=
  advance_while (fun l => isdigit (peek l)) (fuel_of lx) lx.

Definition is_e (c : ascii) : bool := (Ascii.eqb c "e" || Ascii.eqb c "E")%bool.
Definition is_f (c : ascii) : bool := (Ascii.eqb c "f" || Ascii.eqb c "F")%bool.
Definition is_l (c : ascii) : bool := (Ascii.eqb c "l" || Ascii.eqb c "L")%bool.
Definition is_u (c : ascii) : bool := (Ascii.eqb c "u" || Ascii.eqb c "U")%bool.
Definition is_sign (c : ascii) : bool := (Ascii.eqb c "+" || Ascii.eqb c "-")%bool.

(** The blocks of [number], in the order of the source.  Each returns
    the value of [isFloat] and the lexer after the block. *)

(** "Check for fractional part" *)
Definition number_fraction (lx : Lexer) : bool * Lexer :=
  if (Ascii.eqb (peek lx) "." && isdigit (peekNext lx))%bool
  then (true, digits (advance_ lx))
  else (false, lx).

(** "Check for exponent"; [None] is the early [return] after the error
    "exponent has no digits". *)
Definition number_exponent (isFloat : bool) (lx : Lexer) : option bool * Lexer :=
  if is_e (peek lx) then
    let lx := advance_ lx in
    let lx := if is_sign (peek lx) then advance_ lx else lx in
    if negb (isdigit (peek lx)) then
      (None,
       report (line lx) (column lx)
         "Invalid floating point number: exponent has no digits" lx)
    else (Some true, digits lx)
  else (Some isFloat, lx).

(** "Check for suffixes (f, F, l, L, u, U, etc.)" *)
Definition number_suffix (isFloat : bool) (lx : Lexer) : bool * Lexer :=
  if is_f (peek lx) then (true, advance_ lx)
  else if is_l (peek lx) then
    let lx := advance_ lx in
    (isFloat, if is_u (peek lx) then advance_ lx else lx)
  else if is_u (peek lx) then
    let lx := advance_ lx in
    (isFloat, if is_l (peek lx) then advance_ lx else lx)
  else (isFloat, lx).

(** [number], up to the point where the token is added: the final value
    of [isFloat] and the state, or [None] when the function returned
    early from the exponent check (the state then holds the error). *)
Definition number_scan (lx : Lexer) : option bool * Lexer :=
  let lx := digits lx in
  let '(isFloat, lx) := number_fraction lx in
  match number_exponent isFloat lx with
  | (None, lx) => (None, lx)
  | (Some isFloat, lx) =>
      let '(isFloat, lx) := number_suffix isFloat lx in
      (Some isFloat, lx)
  end.

Definition number (lx : Lexer) : Lexer :=
  match number_scan lx with
  | (None, lx') => lx'
  | (Some isFloat, lx') =>
      addToken (if isFloat then FLOAT_LITERAL else INTEGER_LITERAL) lx'
  end.

(** The loop of [string]; it is left by [break] when the source ends
    after a backslash. *)
Fixpoint string_loop (startLine startColumn : Z) (fuel : nat) (lx : Lexer) : Lexer :=
  match fuel with
  | O => lx
  | S fuel' =>
      if (negb (Ascii.eqb (peek lx) DQUOTE) && negb (isAtEnd lx))%bool then
        let lx := if Ascii.eqb (peek lx) NEWLINE
                  then set_column 1 (set_line (line lx + 1) lx) else lx in
        if Ascii.eqb (peek lx) BACKSLASH then
          let lx := advance_ lx in
          if isAtEnd lx then
            report startLine startColumn
              "Unterminated string literal: expected escape sequence" lx
          else string_loop startLine startColumn fuel' (advance_ lx)
        else string_loop startLine startColumn fuel' (advance_ lx)
      else lx
  end.

Definition string_ (lx : Lexer) : Lexer :=
  let startLine := line lx in
  let startColumn := column lx - 1 in
  let lx := string_loop startLine startColumn (fuel_of lx) lx in
  if isAtEnd lx then
    report startLine startColumn "Unterminated string literal" lx
  else addToken STRING_LITERAL (advance_ lx).

Definition character (lx : Lexer) : Lexer :=
  let startLine := line lx in
  let startColumn := column lx - 1 in
  (* the part of the function after the first character of the literal *)
  let closing (lx : Lexer) : Lexer :=
    let lx :=
      if negb (Ascii.eqb (peek lx) SQUOTE) then
        let lx := report startLine startColumn
                    "Multi-character character literal or missing closing quote" lx in
        advance_while
          (fun l => negb (Ascii.eqb (peek l) SQUOTE) && negb (isAtEnd l))%bool
          (fuel_of lx) lx
      else lx in
    if Ascii.eqb (peek lx) SQUOTE then addToken CHAR_LITERAL (advance_ lx)
    else report startLine startColumn "Unterminated character literal" lx in
  if Ascii.eqb (peek lx) BACKSLASH then
    let lx := advance_ lx in
    if isAtEnd lx then
      report startLine startColumn
        "Unterminated character literal: expected escape sequence" lx
    else closing (advance_ lx)
  else if (negb (Ascii.eqb (peek lx) SQUOTE) && negb (isAtEnd lx))%bool then
    closing (advance_ lx)
  else
    let lx := report startLine startColumn "Empty character literal" lx in
    if Ascii.eqb (peek lx) SQUOTE then advance_ lx else lx.

(** [if (match(c1)) addToken(t1); else if (match(c2)) ...; else addToken(t)] *)
Fixpoint match_chain (alts : list (ascii * TokenType)) (otherwise : TokenType)
    (lx : Lexer) : Lexer :=
  match alts with
  | [] => addToken otherwise lx
  | (c, t) :: rest =>
      let '(b, lx') := match_ c lx in
      if b then addToken t lx' else match_chain rest otherwise lx
  end.

Definition scanToken (lx : Lexer) : Lexer :=
  let lx := skipWhitespace lx in
  if isAtEnd lx then lx else
  let '(c, lx) := advance lx in
  if (isalpha c || Ascii.eqb c "_")%bool then
    identifier (set_column (column lx - 1) (set_current (current lx - 1) lx))
  else if isdigit c then
    number (set_column (column lx - 1) (set_current (current lx - 1) lx))
  else if Ascii.eqb c "(" then addToken LEFT_PAREN lx
  else if Ascii.eqb c ")" then addToken RIGHT_PAREN lx
  else if Ascii.eqb c "{" then addToken LEFT_BRACE lx
  else if Ascii.eqb c "}" then addToken RIGHT_BRACE lx
  else if Ascii.eqb c "[" then addToken LEFT_BRACKET lx
  else if Ascii.eqb c "]" then addToken RIGHT_BRACKET lx
  else if Ascii.eqb c ";" then addToken SEMICOLON lx
  else if Ascii.eqb c ":" then addToken COLON lx
  else if Ascii.eqb c "," then addToken COMMA lx
  else if Ascii.eqb c "." then
    if (Ascii.eqb (peek lx) "." && Ascii.eqb (peekNext lx) ".")%bool
    then addToken ELLIPSIS (advance_ (advance_ lx))
    else addToken OP_DOT lx
  else if Ascii.eqb c "~" then addToken OP_TILDE lx
  else if Ascii.eqb c "?" then addToken OP_QUESTION lx
  else if Ascii.eqb c "#" then addToken HASH lx
  else if Ascii.eqb c "+" then
    match_chain [("+"%char, OP_PLUS_PLUS); ("="%char, OP_PLUS_EQUALS)] OP_PLUS lx
  else if Ascii.eqb c "-" then
    match_chain [(">"%char, OP_ARROW); ("-"%char, OP_MINUS_MINUS);
                 ("="%char, OP_MINUS_EQUALS)] OP_MINUS lx
  else if Ascii.eqb c "*" then match_chain [("="%char, OP_STAR_EQUALS)] OP_STAR lx
  else if Ascii.eqb c "/" then match_chain [("="%char, OP_SLASH_EQUALS)] OP_SLASH lx
  else if Ascii.eqb c "%" then match_chain [("="%char, OP_PERCENT_EQUALS)] OP_PERCENT lx
  else if Ascii.eqb c "&" then
    match_chain [("&"%char, OP_LOGICAL_AND); ("="%char, OP_AND_EQUALS)] OP_AMPERSAND lx
  else if Ascii.eqb c "|" then
    match_chain [("|"%char, OP_LOGICAL_OR); ("="%char, OP_OR_EQUALS)] OP_PIPE lx
  else if Ascii.eqb c "^" then match_chain [("="%char, OP_XOR_EQUALS)] OP_CARET lx
  else if Ascii.eqb c "!" then match_chain [("="%char, OP_NOT_EQUALS)] OP_EXCLAMATION lx
  else if Ascii.eqb c "=" then match_chain [("="%char, OP_EQUALS_EQUALS)] OP_EQUALS lx
  else if Ascii.eqb c "<" then
    let '(b, lx1) := match_ "=" lx in
    if b then addToken OP_LESS_EQUALS lx1 else
    let '(b, lx1) := match_ "<" lx in
    if b then match_chain [("="%char, OP_SHL_EQUALS)] OP_SHL lx1
    else addToken OP_LESS lx
  else if Ascii.eqb c ">" then
    let '(b, lx1) := match_ "=" lx in
    if b then addToken OP_GREATER_EQUALS lx1 else
    let '(b, lx1) := match_ ">" lx in
    if b then match_chain [("="%char, OP_SHR_EQUALS)] OP_SHR lx1
    else addToken OP_GREATER lx
  else if Ascii.eqb c DQUOTE then string_ lx
  else if Ascii.eqb c SQUOTE then character lx
  else
    report (line lx) (column lx)
      ("Unexpected character: " ++ string_of_char c) lx.

(** The loop of [tokenize]: [scanToken] consumes at least one character
    whenever the source is not at its end. *)
Fixpoint tokenize_loop (fuel : nat) (lx : Lexer) : Lexer :=
  match fuel with
  | O => lx
  | S fuel' =>
      if isAtEnd lx then lx
      else tokenize_loop fuel' (scanToken (set_start (current lx) lx))
  end.

(** [Lexer(source, filename, errorHandler)] followed by [tokenize()];
    the result is the token vector and the diagnostics. *)
Definition new (source filename : string) (h : ErrorHandler) : Lexer :=
  mkLexer source filename h 0 0 1 1 [].

Definition tokenize (lx : Lexer) : list Token * Lexer :=
  let lx := set_tokens [] (set_column 1 (set_line 1 (set_current 0 (set_start 0 lx)))) in
  let lx := tokenize_loop (fuel_of lx) lx in
  let lx := set_tokens
              (tokens lx ++ [mkToken END_OF_FILE EmptyString (filename lx) (line lx) (column lx)])
              lx in
  (tokens lx, lx).

End Lexer.

(** ** ast.h

    A [std::unique_ptr<ExpressionNode>] is an [option ExpressionNode]:
    [None] is the null pointer.  Statement pointers that the parser never
    leaves null (bodies, branches, block elements) are plain statements;
    the optional ones ([elseBranch], the [for] initializer, a function
    body) are options. *)

#[local] Set Warnings "-register-all".

Inductive ExpressionNode : Type :=
| LiteralNode (token : Token)
| VariableNode (name : Token)
| UnaryNode (op : Token) (operand : option ExpressionNode)
| BinaryNode (left : option ExpressionNode) (op : Token)
    (right : option ExpressionNode)
| CallNode (callee : option ExpressionNode)
    (arguments : list (option ExpressionNode))
| ArrayAccessNode (array index : option ExpressionNode)
| MemberAccessNode (object : option ExpressionNode) (op member : Token)
| ConditionalNode (condition trueExpr falseExpr : option ExpressionNode).

Abbreviation ExprPtr := (option ExpressionNode).

Record TypeNode : Type := mkTypeNode {
  tname : Token;
  isConst : bool;
  isVolatile : bool;
  isPointer : bool;
  pointerLevel : Z;
}.

Inductive StatementNode : Type :=
| ExpressionStatementNode (expression : ExprPtr)
| BlockNode (statements : list StatementNode)
| VariableDeclarationNode (vtype : TypeNode) (name : Token) (initializer : ExprPtr)
| IfNode (condition : ExprPtr) (thenBranch : StatementNode)
    (elseBranch : option StatementNode)
| WhileNode (condition : ExprPtr) (body : StatementNode)
| DoWhileNode (body : StatementNode) (condition : ExprPtr)
| ForNode (initializer : option StatementNode) (condition increment : ExprPtr)
    (body : StatementNode)
| ReturnNode (value : ExprPtr)
| BreakNode
| ContinueNode.

Record ParameterNode : Type := mkParameterNode {
  ptype : TypeNode;
  pname : Token;
}.

Record FunctionDeclarationNode : Type := mkFunctionDeclarationNode {
  returnType : TypeNode;
  fname : Token;
  parameters : list ParameterNode;
  fbody : option (list StatementNode);   (* the statements of the body block *)
}.

(** The elements of [ProgramNode::declarations]. *)
Inductive ASTNode : Type :=
| FunctionDeclaration (f : FunctionDeclarationNode)
| Statement (s : StatementNode).

Record ProgramNode : Type := mkProgramNode {
  declarations : list ASTNode;
}.

(** [std::move(p)] passed to a by-value [unique_ptr] parameter: the callee
    receives the pointer and the variable is left null. *)
Definition move {A} (p : option A) : option A * option A := (p, None).

(** ** parser.cpp *)

Module Parser.

Record Parser : Type := mkParser {
  tokens : list Token;
  errorHandler : ErrorHandler;
  current : nat;
}.

Abbreviation P := (M Parser).

Definition new (tokens : list Token) (h : ErrorHandler) : Parser :=
  mkParser tokens h 0.

Definition set_current (n : nat) : P unit :=
  modify (fun p => mkParser (tokens p) (errorHandler p) n).

Definition report (l c : Z) (msg : string) : P unit :=
  modify (fun p => mkParser (tokens p) (Errors.error l c msg (errorHandler p)) (current p)).

Definition isAtEnd : P bool :=
  gets (fun p =>
    (length (tokens p) <=? current p)%nat ||
    match tokens p !! current p with
    | Some t => bool_decide (type t = END_OF_FILE)
    | None => true
    end).

(** [tokens[current]]; indexing past the end has no defined behaviour. *)
Definition peek : P Token :=
  fun p => match tokens p !! current p with
           | Some t => Return t p
           | None => Undefined
           end.

(** [tokens[current - 1]]; at [current = 0] the index wraps around. *)
Definition previous : P Token :=
  fun p => match current p with
           | O => Undefined
           | S n => match tokens p !! n with
                    | Some t => Return t p
                    | None => Undefined
                    end
           end.

Definition advance : P Token :=
  e <- isAtEnd ;;
  (if e then ret tt else c <- gets current ;; set_current (S c)) ;;
  previous.

Definition check (ty : TokenType) : P bool :=
  e <- isAtEnd ;;
  if e then ret false
  else t <- peek ;; ret (bool_decide (type t = ty)).

Definition match_ (ty : TokenType) : P bool :=
  b <- check ty ;;
  if b then advance ;; ret true else ret false.

(** [match(std::initializer_list<TokenType>)] *)
Fixpoint match_any (types : list TokenType) : P bool :=
  match types with
  | [] => ret false
  | ty :: rest => b <- match_ ty ;; if b then ret true else match_any rest
  end.

Definition consume (ty : TokenType) (msg : string) : P unit :=
  b <- check ty ;;
  if b then advance ;; ret tt
  else
    t <- peek ;;
    report (line t) (column t) msg ;;
    throw msg.

Definition isTypeSpecifier (token : Token) : bool :=
  bool_decide (type token ∈
    [KW_VOID; KW_CHAR; KW_SHORT; KW_INT; KW_LONG; KW_FLOAT; KW_DOUBLE;
     KW_SIGNED; KW_UNSIGNED; KW_CONST; KW_VOLATILE]).

Fixpoint synchronize_loop (fuel : nat) : P unit :=
  match fuel with
  | O => out_of_fuel
  | S fuel' =>
      e <- isAtEnd ;;
      if e then ret tt else
      t <- previous ;;
      if bool_decide (type t = SEMICOLON) then ret tt else
      t <- peek ;;
      if bool_decide (type t ∈
           [KW_IF; KW_WHILE; KW_FOR; KW_RETURN; KW_BREAK; KW_CONTINUE;
            KW_VOID; KW_CHAR; KW_SHORT; KW_INT; KW_LONG; KW_FLOAT; KW_DOUBLE])
      then ret tt
      else advance ;; synchronize_loop fuel'
  end.

Definition synchronize : P unit :=
  advance ;;
  n <- gets (fun p => length (tokens p)) ;;
  synchronize_loop (S n).

Definition typeSpecifier_qualifiers_step (acc : bool * bool) : P (bool * bool) :=
  t <- previous ;;
  if bool_decide (type t = KW_CONST) then ret (true, snd acc)
  else if bool_decide (type t = KW_VOLATILE) then ret (fst acc, true)
  else ret acc.

Fixpoint typeSpecifier_qualifiers (fuel : nat) (acc : bool * bool) : P (bool * bool) :=
  match fuel with
  | O => out_of_fuel
  | S fuel' =>
      b <- match_any [KW_CONST; KW_VOLATILE] ;;
      if b then
        acc' <- typeSpecifier_qualifiers_step acc ;;
        typeSpecifier_qualifiers fuel' acc'
      else ret acc
  end.

Fixpoint typeSpecifier_pointers (fuel : nat) (acc : bool * Z) : P (bool * Z) :=
  match fuel with
  | O => out_of_fuel
  | S fuel' =>
      b <- match_ OP_STAR ;;
      if b then typeSpecifier_pointers fuel' (true, to_int (snd acc + 1))
      else ret acc
  end.

Definition typeSpecifier : P TypeNode :=
  n <- gets (fun p => length (tokens p)) ;;
  '(isConst, isVolatile) <- typeSpecifier_qualifiers (S n) (false, false) ;;
  t <- peek ;;
  if negb (isTypeSpecifier t) then
    report (line t) (column t) "Expected type specifier" ;;
    throw "Expected type specifier"
  else
    baseType <- advance ;;
    '(isPointer, pointerLevel) <- typeSpecifier_pointers (S n) (false, 0) ;;
    ret (mkTypeNode baseType isConst isVolatile isPointer pointerLevel).

(** [Token name = {"", TokenType::IDENTIFIER, "", 0, 0}] is written with
    the arguments in an order the constructor does not take; the
    embedding reads it as the unnamed identifier token it stands for. *)
Definition parameter : P ParameterNode :=
  ty <- typeSpecifier ;;
  b <- check IDENTIFIER ;;
  name <- (if b then advance
           else ret (mkToken IDENTIFIER EmptyString EmptyString 0 0)) ;;
  ret (mkParameterNode ty name).

Fixpoint parameterList_loop (fuel : nat) (acc : list ParameterNode)
  : P (list ParameterNode) :=
  match fuel with
  | O => out_of_fuel
  | S fuel' =>
      b <- match_ COMMA ;;
      if b then p <- parameter ;; parameterList_loop fuel' (acc ++ [p])%list
      else ret acc
  end.

Definition parameterList : P (list ParameterNode) :=
  p <- parameter ;;
  n <- gets (fun p => length (tokens p)) ;;
  parameterList_loop (S n) [p].

Definition tokens_size : P nat := gets (fun p => length (tokens p)).

(** The loop shared by the left-associative binary levels:
    [while (match(ops)) { op = previous(); right = operand();
     expr = make_unique<BinaryNode>(move(expr), op, move(right)); }] *)
Fixpoint binary_loop (ops : list TokenType) (operand : P ExprPtr)
    (iters : nat) (expr : ExprPtr) : P ExprPtr :=
  match iters with
  | O => out_of_fuel
  | S iters' =>
      b <- match_any ops ;;
      if b then
        op <- previous ;;
        right <- operand ;;
        binary_loop ops operand iters' (Some (BinaryNode expr op right))
      else ret expr
  end.

Definition binary_level (ops : list TokenType) (operand : P ExprPtr) : P ExprPtr :=
  expr <- operand ;;
  n <- tokens_size ;;
  binary_loop ops operand (S n) expr.

(** [do { arguments.push_back(expression()); } while (match(COMMA));] *)
Fixpoint arguments_loop (expression : P ExprPtr) (iters : nat)
    (acc : list ExprPtr) : P (list ExprPtr) :=
  match iters with
  | O => out_of_fuel
  | S iters' =>
      e <- expression ;;
      b <- match_ COMMA ;;
      if b then arguments_loop expression iters' (acc ++ [e])%list
      else ret (acc ++ [e])%list
  end.

(** The [while (true)] loop of [postfix]. *)
Fixpoint postfix_loop (expression : P ExprPtr) (iters : nat) (expr : ExprPtr)
  : P ExprPtr :=
  match iters with
  | O => out_of_fuel
  | S iters' =>
      b <- match_ LEFT_BRACKET ;;
      if b then
        index <- expression ;;
        consume RIGHT_BRACKET "Expected ']' after array index" ;;
        postfix_loop expression iters' (Some (ArrayAccessNode expr index))
      else
      b <- match_ LEFT_PAREN ;;
      if b then
        c <- check RIGHT_PAREN ;;
        n <- tokens_size ;;
        arguments <- (if negb c then arguments_loop expression (S n) []
                      else ret []) ;;
        consume RIGHT_PAREN "Expected ')' after arguments" ;;
        postfix_loop expression iters' (Some (CallNode expr arguments))
      else
      b <- match_any [OP_DOT; OP_ARROW] ;;
      if b then
        op <- previous ;;
        member <- peek ;;
        consume IDENTIFIER "Expected identifier after '.' or '->'" ;;
        postfix_loop expression iters' (Some (MemberAccessNode expr op member))
      else
      b <- match_any [OP_PLUS_PLUS; OP_MINUS_MINUS] ;;
      if b then
        op <- previous ;;
        postfix_loop expression iters' (Some (UnaryNode op expr))
      else ret expr
  end.

Definition assignment_operators : list TokenType :=
  [OP_EQUALS; OP_PLUS_EQUALS; OP_MINUS_EQUALS; OP_STAR_EQUALS;
   OP_SLASH_EQUALS; OP_PERCENT_EQUALS; OP_AND_EQUALS; OP_OR_EQUALS;
   OP_XOR_EQUALS; OP_SHL_EQUALS; OP_SHR_EQUALS].

(** The [switch] of [assignment] ("Convert += to +, etc."). *)
Definition binaryOp_of (ty : TokenType) : TokenType :=
  match ty with
  | OP_PLUS_EQUALS => OP_PLUS
  | OP_MINUS_EQUALS => OP_MINUS
  | OP_STAR_EQUALS => OP_STAR
  | OP_SLASH_EQUALS => OP_SLASH
  | OP_PERCENT_EQUALS => OP_PERCENT
  | OP_AND_EQUALS => OP_AMPERSAND
  | OP_OR_EQUALS => OP_PIPE
  | OP_XOR_EQUALS => OP_CARET
  | OP_SHL_EQUALS => OP_SHL
  | OP_SHR_EQUALS => OP_SHR
  | _ => UNKNOWN
  end.

(** The tail of [assignment] once [expr], [op] and [value] are known.
    [expr] is moved from twice: the first [std::move(expr)] hands the
    pointer to the inner [BinaryNode] and leaves [expr] null, so the
    second one hands a null pointer to the outer node. *)
Definition assignment_build (expr : ExprPtr) (op : Token) (value : ExprPtr)
  : ExprPtr :=
  let binaryOp := binaryOp_of (type op) in
  if negb (bool_decide (binaryOp = UNKNOWN)) then
    let binaryToken :=
      mkToken binaryOp
        (substr (lexeme op) 0 (String.length (lexeme op) - 1))
        (filename op) (line op) (column op) in
    let '(arg_left, expr) := move expr in
    let '(arg_right, value) := move value in
    let right_node := Some (BinaryNode arg_left binaryToken arg_right) in
    let equalsToken := mkToken OP_EQUALS "=" (filename op) (line op) (column op) in
    let '(arg_left, expr) := move expr in
    let '(arg_right, right_node) := move right_node in
    Some (BinaryNode arg_left equalsToken arg_right)
  else
    let '(arg_left, expr) := move expr in
    let '(arg_right, value) := move value in
    Some (BinaryNode arg_left op arg_right).

Fixpoint expression (fuel : nat) : P ExprPtr :=
  match fuel with
  | O => out_of_fuel
  | S fuel' => assignment fuel'
  end

with assignment (fuel : nat) : P ExprPtr :=
  match fuel with
  | O => out_of_fuel
  | S fuel' =>
      expr <- conditionalExpr fuel' ;;
      b <- match_any assignment_operators ;;
      if b then
        op <- previous ;;
        value <- assignment fuel' ;;
        ret (assignment_build expr op value)
      else ret expr
  end

with conditionalExpr (fuel : nat) : P ExprPtr :=
  match fuel with
  | O => out_of_fuel
  | S fuel' =>
      condition <- logicalOr fuel' ;;
      b <- match_ OP_QUESTION ;;
      if b then
        trueExpr <- expression fuel' ;;
        consume COLON "Expected ':' in conditional expression" ;;
        falseExpr <- conditionalExpr fuel' ;;
        ret (Some (ConditionalNode condition trueExpr falseExpr))
      else ret condition
  end

with logicalOr (fuel : nat) : P ExprPtr :=
  match fuel with
  | O => out_of_fuel
  | S fuel' => binary_level [OP_LOGICAL_OR] (logicalAnd fuel')
  end

with logicalAnd (fuel : nat) : P ExprPtr :=
  match fuel with
  | O => out_of_fuel
  | S fuel' => binary_level [OP_LOGICAL_AND] (bitwiseOr fuel')
  end

with bitwiseOr (fuel : nat) : P ExprPtr :=
  match fuel with
  | O => out_of_fuel
  | S fuel' => binary_level [OP_PIPE] (bitwiseXor fuel')
  end

with bitwiseXor (fuel : nat) : P ExprPtr :=
  match fuel with
  | O => out_of_fuel
  | S fuel' => binary_level [OP_CARET] (bitwiseAnd fuel')
  end

with bitwiseAnd (fuel : nat) : P ExprPtr :=
  match fuel with
  | O => out_of_fuel
  | S fuel' => binary_level [OP_AMPERSAND] (equality fuel')
  end

with equality (fuel : nat) : P ExprPtr :=
  match fuel with
  | O => out_of_fuel
  | S fuel' => binary_level [OP_EQUALS_EQUALS; OP_NOT_EQUALS] (comparison fuel')
  end

with comparison (fuel : nat) : P ExprPtr :=
  match fuel with
  | O => out_of_fuel
  | S fuel' =>
      binary_level [OP_LESS; OP_LESS_EQUALS; OP_GREATER; OP_GREATER_EQUALS]
        (shift fuel')
  end

with shift (fuel : nat) : P ExprPtr :=
  match fuel with
  | O => out_of_fuel
  | S fuel' => binary_level [OP_SHL; OP_SHR] (term fuel')
  end

with term (fuel : nat) : P ExprPtr :=
  match fuel with
  | O => out_of_fuel
  | S fuel' => binary_level [OP_PLUS; OP_MINUS] (factor fuel')
  end

with factor (fuel : nat) : P ExprPtr :=
  match fuel with
  | O => out_of_fuel
  | S fuel' => binary_level [OP_STAR; OP_SLASH; OP_PERCENT] (unary fuel')
  end

with unary (fuel : nat) : P ExprPtr :=
  match fuel with
  | O => out_of_fuel
  | S fuel' =>
      b <- match_any [OP_MINUS; OP_PLUS; OP_EXCLAMATION; OP_TILDE; OP_STAR;
                      OP_AMPERSAND; OP_PLUS_PLUS; OP_MINUS_MINUS] ;;
      if b then
        op <- previous ;;
        operand <- unary fuel' ;;
        ret (Some (UnaryNode op operand))
      else postfix fuel'
  end

with postfix (fuel : nat) : P ExprPtr :=
  match fuel with
  | O => out_of_fuel
  | S fuel' =>
      expr <- primary fuel' ;;
      n <- tokens_size ;;
      postfix_loop (expression fuel') (S n) expr
  end

with primary (fuel : nat) : P ExprPtr :=
  match fuel with
  | O => out_of_fuel
  | S fuel' =>
      b <- match_any [INTEGER_LITERAL; FLOAT_LITERAL; CHAR_LITERAL; STRING_LITERAL] ;;
      if b then t <- previous ;; ret (Some (LiteralNode t)) else
      b <- match_ IDENTIFIER ;;
      if b then t <- previous ;; ret (Some (VariableNode t)) else
      b <- match_ LEFT_PAREN ;;
      if b then
        expr <- expression fuel' ;;
        consume RIGHT_PAREN "Expected ')' after expression" ;;
        ret expr
      else
        t <- peek ;;
        report (line t) (column t) "Expected expression" ;;
        throw "Expected expression"
  end.

Definition variableDeclaration (efuel : nat) : P StatementNode :=
  ty <- typeSpecifier ;;
  name <- peek ;;
  consume IDENTIFIER "Expected variable name" ;;
  b <- match_ OP_EQUALS ;;
  initializer <- (if b then expression efuel else ret None) ;;
  consume SEMICOLON "Expected ';' after variable declaration" ;;
  ret (VariableDeclarationNode ty name initializer).

Definition expressionStatement (efuel : nat) : P StatementNode :=
  expr <- expression efuel ;;
  consume SEMICOLON "Expected ';' after expression" ;;
  ret (ExpressionStatementNode expr).

Definition returnStatement (efuel : nat) : P StatementNode :=
  c <- check SEMICOLON ;;
  value <- (if negb c then expression efuel else ret None) ;;
  consume SEMICOLON "Expected ';' after return value" ;;
  ret (ReturnNode value).

Definition breakStatement : P StatementNode :=
  consume SEMICOLON "Expected ';' after 'break'" ;;
  ret BreakNode.

Definition continueStatement : P StatementNode :=
  consume SEMICOLON "Expected ';' after 'continue'" ;;
  ret ContinueNode.

(** The loop of [block], with its [try]/[catch] around each statement. *)
Fixpoint block_loop (statement : P StatementNode) (iters : nat)
    (acc : list StatementNode) : P (list StatementNode) :=
  match iters with
  | O => out_of_fuel
  | S iters' =>
      c <- check RIGHT_BRACE ;;
      e <- isAtEnd ;;
      if (negb c && negb e)%bool then
        acc' <- try_catch
                  (stmt <- statement ;; ret (acc ++ [stmt])%list)
                  (fun what =>
                     t <- peek ;;
                     report (line t) (column t) what ;;
                     synchronize ;;
                     ret acc) ;;
        block_loop statement iters' acc'
      else ret acc
  end.

Fixpoint statement (efuel fuel : nat) : P StatementNode :=
  match fuel with
  | O => out_of_fuel
  | S fuel' =>
      b <- match_ LEFT_BRACE ;;
      if b then
        c <- gets current ;; set_current (c - 1) ;;
        stmts <- block efuel fuel' ;; ret (BlockNode stmts)
      else
      b <- match_ KW_IF ;; if b then ifStatement efuel fuel' else
      b <- match_ KW_WHILE ;; if b then whileStatement efuel fuel' else
      b <- match_ KW_DO ;; if b then doWhileStatement efuel fuel' else
      b <- match_ KW_FOR ;; if b then forStatement efuel fuel' else
      b <- match_ KW_RETURN ;; if b then returnStatement efuel else
      b <- match_ KW_BREAK ;; if b then breakStatement else
      b <- match_ KW_CONTINUE ;; if b then continueStatement else
      t <- peek ;;
      if isTypeSpecifier t then variableDeclaration efuel
      else expressionStatement efuel
  end

with block (efuel fuel : nat) : P (list StatementNode) :=
  match fuel with
  | O => out_of_fuel
  | S fuel' =>
      consume LEFT_BRACE "Expected '{' before block" ;;
      n <- tokens_size ;;
      statements <- block_loop (statement efuel fuel') (S n) [] ;;
      consume RIGHT_BRACE "Expected '}' after block" ;;
      ret statements
  end

with ifStatement (efuel fuel : nat) : P StatementNode :=
  match fuel with
  | O => out_of_fuel
  | S fuel' =>
      consume LEFT_PAREN "Expected '(' after 'if'" ;;
      condition <- expression efuel ;;
      consume RIGHT_PAREN "Expected ')' after if condition" ;;
      thenBranch <- statement efuel fuel' ;;
      b <- match_ KW_ELSE ;;
      elseBranch <- (if b then s <- statement efuel fuel' ;; ret (Some s)
                     else ret None) ;;
      ret (IfNode condition thenBranch elseBranch)
  end

with whileStatement (efuel fuel : nat) : P StatementNode :=
  match fuel with
  | O => out_of_fuel
  | S fuel' =>
      consume LEFT_PAREN "Expected '(' after 'while'" ;;
      condition <- expression efuel ;;
      consume RIGHT_PAREN "Expected ')' after while condition" ;;
      body <- statement efuel fuel' ;;
      ret (WhileNode condition body)
  end

with doWhileStatement (efuel fuel : nat) : P StatementNode :=
  match fuel with
  | O => out_of_fuel
  | S fuel' =>
      body <- statement efuel fuel' ;;
      consume KW_WHILE "Expected 'while' after do body" ;;
      consume LEFT_PAREN "Expected '(' after 'while'" ;;
      condition <- expression efuel ;;
      consume RIGHT_PAREN "Expected ')' after while condition" ;;
      consume SEMICOLON "Expected ';' after do-while statement" ;;
      ret (DoWhileNode body condition)
  end

with forStatement (efuel fuel : nat) : P StatementNode :=
  match fuel with
  | O => out_of_fuel
  | S fuel' =>
      consume LEFT_PAREN "Expected '(' after 'for'" ;;
      c <- check SEMICOLON ;;
      initializer <-
        (if negb c then
           t <- peek ;;
           if isTypeSpecifier t
           then s <- variableDeclaration efuel ;; ret (Some s)
           else s <- expressionStatement efuel ;; ret (Some s)
         else consume SEMICOLON "Expected ';'" ;; ret None) ;;
      c <- check SEMICOLON ;;
      condition <- (if negb c then expression efuel else ret None) ;;
      consume SEMICOLON "Expected ';' after for condition" ;;
      c <- check RIGHT_PAREN ;;
      increment <- (if negb c then expression efuel else ret None) ;;
      consume RIGHT_PAREN "Expected ')' after for clauses" ;;
      body <- statement efuel fuel' ;;
      ret (ForNode initializer condition increment body)
  end.

Definition functionDeclaration (fuel : nat) : P FunctionDeclarationNode :=
  returnType <- typeSpecifier ;;
  name <- peek ;;
  consume IDENTIFIER "Expected function name" ;;
  consume LEFT_PAREN "Expected '(' after function name" ;;
  c <- check RIGHT_PAREN ;;
  parameters <- (if negb c then parameterList else ret []) ;;
  consume RIGHT_PAREN "Expected ')' after parameters" ;;
  b <- match_ LEFT_BRACE ;;
  body <- (if b then
             c <- gets current ;; set_current (c - 1) ;;
             stmts <- block fuel fuel ;; ret (Some stmts)
           else
             consume SEMICOLON "Expected ';' after function declaration" ;;
             ret None) ;;
  ret (mkFunctionDeclarationNode returnType name parameters body).

Definition declaration (fuel : nat) : P (option ASTNode) :=
  t <- peek ;;
  if isTypeSpecifier t then
    startPos <- gets current ;;
    typeSpecifier ;;
    c <- check IDENTIFIER ;;
    next_is_paren <- gets (fun p =>
      (current p + 1 <? length (tokens p))%nat &&
      match tokens p !! (current p + 1)%nat with
      | Some t' => bool_decide (type t' = LEFT_PAREN)
      | None => false
      end) ;;
    if (c && next_is_paren)%bool then
      set_current startPos ;;
      f <- functionDeclaration fuel ;; ret (Some (FunctionDeclaration f))
    else
      set_current startPos ;;
      s <- variableDeclaration fuel ;; ret (Some (Statement s))
  else
    report (line t) (column t) "Unsupported declaration" ;;
    synchronize ;;
    ret None.

Fixpoint program_loop (fuel iters : nat) (acc : list ASTNode) : P (list ASTNode) :=
  match iters with
  | O => out_of_fuel
  | S iters' =>
      e <- isAtEnd ;;
      if e then ret acc else
      acc' <- try_catch
                (decl <- declaration fuel ;;
                 ret (match decl with
                      | Some d => (acc ++ [d])%list
                      | None => acc
                      end))
                (fun what =>
                   t <- peek ;;
                   report (line t) (column t) what ;;
                   synchronize ;;
                   ret acc) ;;
      program_loop fuel iters' acc'
  end.

Definition program (fuel : nat) : P ProgramNode :=
  n <- tokens_size ;;
  decls <- program_loop fuel (S n) [] ;;
  ret (mkProgramNode decls).

(** [parse]: the root ([None] is [nullptr]). *)
Definition parse (fuel : nat) : P (option ProgramNode) :=
  try_catch
    (prog <- program fuel ;; ret (Some prog))
    (fun what => report 0 0 ("Parse error: " ++ what) ;; ret None).

(** Fuel that covers the recursion depth of the descent on [tokens]:
    one nesting level of an expression costs seventeen calls.  The
    program has no such bound: its descent is limited by the call stack
    only, and [OutOfFuel] stands for a descent deeper than the fuel. *)
Definition fuel_for (tokens : list Token) : nat := 20 * S (length tokens).

End Parser.

(** ** semantic.h: TypeInfo, SymbolInfo, SymbolTable *)

Inductive Kind : Type :=
| VOID | CHAR | INT | FLOAT | DOUBLE | STRUCT | ARRAY | POINTER | FUNCTION.

#[global] Instance Kind_eq_dec : EqDecision Kind.
Proof. solve_decision. Defined.

(** [static_cast<int>(kind)] *)
Definition Kind_to_int (k : Kind) : Z :=
  match k with
  | VOID => 0 | CHAR => 1 | INT => 2 | FLOAT => 3 | DOUBLE => 4
  | STRUCT => 5 | ARRAY => 6 | POINTER => 7 | FUNCTION => 8
  end.

(** [struct TypeInfo]; copies are deep, so a value is a tree.  [base] is
    the [unique_ptr] member, null unless set by [createPointer],
    [createArray] or [createFunction]. *)
Inductive TypeInfo : Type :=
| mkTypeInfo (kind : Kind) (isConst isVolatile : bool) (size : Z)
    (base : option TypeInfo) (parameters : list TypeInfo).

Definition kind (t : TypeInfo) : Kind :=
  match t with mkTypeInfo k _ _ _ _ _ => k end.
Definition tconst (t : TypeInfo) : bool :=
  match t with mkTypeInfo _ c _ _ _ _ => c end.
Definition tvolatile (t : TypeInfo) : bool :=
  match t with mkTypeInfo _ _ v _ _ _ => v end.
Definition tsize (t : TypeInfo) : Z :=
  match t with mkTypeInfo _ _ _ s _ _ => s end.
Definition base (t : TypeInfo) : option TypeInfo :=
  match t with mkTypeInfo _ _ _ _ b _ => b end.
Definition tparameters (t : TypeInfo) : list TypeInfo :=
  match t with mkTypeInfo _ _ _ _ _ ps => ps end.

Definition isScalar (t : TypeInfo) : bool :=
  bool_decide (kind t ∈ [CHAR; INT; FLOAT; DOUBLE; POINTER]).
Definition isNumeric (t : TypeInfo) : bool :=
  bool_decide (kind t ∈ [CHAR; INT; FLOAT; DOUBLE]).
Definition isInteger (t : TypeInfo) : bool :=
  bool_decide (kind t ∈ [CHAR; INT]).
Definition isFloatingPoint (t : TypeInfo) : bool :=
  bool_decide (kind t ∈ [FLOAT; DOUBLE]).

Definition createVoid : TypeInfo := mkTypeInfo VOID false false 0 None [].
Definition createChar : TypeInfo := mkTypeInfo CHAR false false 1 None [].
Definition createInt : TypeInfo := mkTypeInfo INT false false 4 None [].
Definition createFloat : TypeInfo := mkTypeInfo FLOAT false false 4 None [].
Definition createDouble : TypeInfo := mkTypeInfo DOUBLE false false 8 None [].
Definition createPointer (baseType : TypeInfo) : TypeInfo :=
  mkTypeInfo POINTER false false 8 (Some baseType) [].
Definition createArray (elementType : TypeInfo) (n : Z) : TypeInfo :=
  mkTypeInfo ARRAY false false (to_int (tsize elementType * n)) (Some elementType) [].
Definition createFunction (returnType : TypeInfo) (paramTypes : list TypeInfo)
  : TypeInfo :=
  mkTypeInfo FUNCTION false false 0 (Some returnType) paramTypes.

Inductive SymbolKind : Type := VARIABLE | FUNCTION_SYMBOL | PARAMETER | TYPEDEF.

#[global] Instance SymbolKind_eq_dec : EqDecision SymbolKind.
Proof. solve_decision. Defined.

Record SymbolInfo : Type := mkSymbolInfo {
  skind : SymbolKind;
  stype : TypeInfo;
  sname : string;
  scopeLevel : nat;
}.

(** ** semantic.cpp: SymbolTable

    [scopes] is the vector of frames and [currentScope] the index of the
    top frame.  The index is an [int] that only moves by one with the
    nesting of the program, so it is a natural number here. *)

Module SymbolTable.

Record SymbolTable : Type := mkSymbolTable {
  scopes : list (gmap string SymbolInfo);
  currentScope : nat;
}.

Abbreviation T := (M SymbolTable).

(** The constructor: "Create the global scope". *)
Definition new : SymbolTable := mkSymbolTable [∅] 0.

Definition enterScope : T unit :=
  modify (fun st =>
    let cs := S (currentScope st) in
    mkSymbolTable
      (if (length (scopes st) <=? cs)%nat then scopes st ++ [∅] else scopes st)
      cs).

Definition leaveScope : T unit :=
  fun st =>
    match currentScope st with
    | O => Throw "Cannot leave global scope" st
    | S n => Return tt (mkSymbolTable (scopes st) n)
    end.

Definition currentScopeLevel : T nat := gets currentScope.

(** [scopes[i][name] = sym]; [scopes[i]] past the end of the vector has
    no defined behaviour. *)
Definition assign (i : nat) (name : string) (sym : SymbolInfo) : T unit :=
  fun st =>
    match scopes st !! i with
    | Some frame =>
        Return tt (mkSymbolTable (<[i := <[name := sym]> frame]> (scopes st))
                     (currentScope st))
    | None => Undefined
    end.

Definition addVariable (name : string) (ty : TypeInfo) : T unit :=
  cs <- gets currentScope ;;
  assign cs name (mkSymbolInfo VARIABLE ty name cs).

Definition addFunction (name : string) (ty : TypeInfo) : T unit :=
  assign 0 name (mkSymbolInfo FUNCTION_SYMBOL ty name 0).

Definition addParameter (name : string) (ty : TypeInfo) : T unit :=
  cs <- gets currentScope ;;
  assign cs name (mkSymbolInfo PARAMETER ty name cs).

Definition addTypedef (name : string) (ty : TypeInfo) : T unit :=
  cs <- gets currentScope ;;
  assign cs name (mkSymbolInfo TYPEDEF ty name cs).

(** [for (int i = currentScope; i >= 0; i--)] of [exists] and [lookup]. *)
Fixpoint lookup_from (name : string) (i : nat) : T (option SymbolInfo) :=
  fun st =>
    match scopes st !! i with
    | None => Undefined
    | Some frame =>
        match frame !! name with
        | Some sym => Return (Some sym) st
        | None =>
            match i with
            | O => Return None st
            | S j => lookup_from name j st
            end
        end
    end.

Definition lookup (name : string) : T (option SymbolInfo) :=
  cs <- gets currentScope ;; lookup_from name cs.

Definition exists_ (name : string) : T bool :=
  r <- lookup name ;; ret (bool_decide (is_Some r)).

Definition existsInCurrentScope (name : string) : T bool :=
  fun st =>
    match scopes st !! currentScope st with
    | Some frame => Return (bool_decide (is_Some (frame !! name))) st
    | None => Undefined
    end.

Definition clear : T unit := modify (fun _ => mkSymbolTable [∅] 0).

End SymbolTable.

(** ** semantic.cpp: SemanticAnalyzer *)

Module SemanticAnalyzer.

Record SemanticAnalyzer : Type := mkSemanticAnalyzer {
  errorHandler : ErrorHandler;
  symbolTable : SymbolTable.SymbolTable;
  (* [TypeInfo* currentFunctionReturnType], null outside a function *)
  currentFunctionReturnType : option TypeInfo;
  hasReturn : bool;
}.

Abbreviation Sem := (M SemanticAnalyzer).

Definition new (h : ErrorHandler) : SemanticAnalyzer :=
  mkSemanticAnalyzer h SymbolTable.new None false.

Definition error (l c : Z) (msg : string) : Sem unit :=
  modify (fun a => mkSemanticAnalyzer (Errors.error l c msg (errorHandler a))
                     (symbolTable a) (currentFunctionReturnType a) (hasReturn a)).

Definition warning (l c : Z) (msg : string) : Sem unit :=
  modify (fun a => mkSemanticAnalyzer (Errors.warning l c msg (errorHandler a))
                     (symbolTable a) (currentFunctionReturnType a) (hasReturn a)).

Definition set_currentFunctionReturnType (r : option TypeInfo) : Sem unit :=
  modify (fun a => mkSemanticAnalyzer (errorHandler a) (symbolTable a) r (hasReturn a)).

Definition set_hasReturn (b : bool) : Sem unit :=
  modify (fun a => mkSemanticAnalyzer (errorHandler a) (symbolTable a)
                     (currentFunctionReturnType a) b).

(** A call of a [SymbolTable] member on the [symbolTable] field. *)
Definition on_table {A} (op : SymbolTable.T A) : Sem A :=
  fun a =>
    let rebuild st := mkSemanticAnalyzer (errorHandler a) st
                        (currentFunctionReturnType a) (hasReturn a) in
    match op (symbolTable a) with
    | Return x st => Return x (rebuild st)
    | Throw w st => Throw w (rebuild st)
    | Undefined => Undefined
    | OutOfFuel => OutOfFuel
    end.

Definition hasErrors (a : SemanticAnalyzer) : bool :=
  Errors.hasErrors (errorHandler a).

(** [*t.base]: dereferencing the null pointer has no defined behaviour. *)
Definition deref_base {S} (t : TypeInfo) : M S TypeInfo :=
  match base t with
  | Some b => ret b
  | None => undefined
  end.

(** [areTypesCompatible]; [None] when a null [base] is dereferenced. *)
Fixpoint areTypesCompatible (source target : TypeInfo) : option bool :=
  match source with
  | mkTypeInfo skind _ _ _ sbase _ =>
      if bool_decide (skind = kind target) then
        if bool_decide (skind ∈ [ARRAY; POINTER; FUNCTION]) then
          match sbase, base target with
          | Some sb, Some tb => areTypesCompatible sb tb
          | _, _ => None
          end
        else Some true
      else if bool_decide (skind = CHAR ∧ kind target = INT) then Some true
      else if bool_decide (skind = FLOAT ∧ kind target = DOUBLE) then Some true
      else if (bool_decide (skind ∈ [CHAR; INT]) && isFloatingPoint target)%bool
      then Some true
      else if bool_decide (skind = ARRAY ∧ kind target = POINTER) then
        match sbase, base target with
        | Some sb, Some tb => areTypesCompatible sb tb
        | _, _ => None
        end
      else Some false
  end.

Definition compatible (source target : TypeInfo) : Sem bool :=
  match areTypesCompatible source target with
  | Some b => ret b
  | None => undefined
  end.

Definition getCommonType (a b : TypeInfo) : TypeInfo :=
  if bool_decide (kind a = kind b) then a
  else if bool_decide (kind a = DOUBLE ∨ kind b = DOUBLE) then createDouble
  else if bool_decide (kind a = FLOAT ∨ kind b = FLOAT) then createFloat
  else if (isInteger a && isInteger b)%bool then
    (if (tsize b <=? tsize a) then a else b)
  else a.

(** [for (int i = 0; i < pointerLevel; i++) result = createPointer(result)] *)
Fixpoint wrap_pointers (n : nat) (result : TypeInfo) : TypeInfo :=
  match n with
  | O => result
  | S n' => wrap_pointers n' (createPointer result)
  end.

Definition getTypeFromTypeNode (node : TypeNode) : Sem TypeInfo :=
  let ty := type (tname node) in
  '(k, sz) <-
    (if bool_decide (ty = KW_VOID) then ret (VOID, 0)
     else if bool_decide (ty = KW_CHAR) then ret (CHAR, 1)
     else if bool_decide (ty = KW_INT) then ret (INT, 4)
     else if bool_decide (ty = KW_FLOAT) then ret (FLOAT, 4)
     else if bool_decide (ty = KW_DOUBLE) then ret (DOUBLE, 8)
     else
       error (line (tname node)) (column (tname node))
         ("Unknown type: " ++ lexeme (tname node)) ;;
       ret (VOID, 0)) ;;
  let result := mkTypeInfo k (isConst node) (isVolatile node) sz None [] in
  ret (if isPointer node then wrap_pointers (Z.to_nat (pointerLevel node)) result
       else result).

Definition visitLiteral (token : Token) : Sem TypeInfo :=
  match type token with
  | INTEGER_LITERAL => ret createInt
  | FLOAT_LITERAL => ret createFloat
  | CHAR_LITERAL => ret createChar
  | STRING_LITERAL =>
      ret (createArray createChar
             (to_int (Z.of_nat (String.length (lexeme token)) - 2 + 1)))
  | _ =>
      error (line token) (column token) "Unknown literal type" ;;
      ret createVoid
  end.

Definition visitVariable (name : Token) : Sem TypeInfo :=
  symbol <- on_table (SymbolTable.lookup (lexeme name)) ;;
  match symbol with
  | None =>
      error (line name) (column name)
        ("Undefined variable '" ++ lexeme name ++ "'") ;;
      ret createVoid
  | Some sym => ret (stype sym)
  end.

Definition visitUnary (op : Token) (operandType : TypeInfo) : Sem TypeInfo :=
  match type op with
  | OP_MINUS | OP_PLUS =>
      if negb (isNumeric operandType) then
        error (line op) (column op)
          ("Unary operator " ++ lexeme op ++ " requires numeric operand") ;;
        ret createVoid
      else ret operandType
  | OP_EXCLAMATION =>
      if negb (isScalar operandType) then
        error (line op) (column op) "Unary operator ! requires scalar operand" ;;
        ret createVoid
      else ret createInt
  | OP_TILDE =>
      if negb (isInteger operandType) then
        error (line op) (column op) "Unary operator ~ requires integer operand" ;;
        ret createVoid
      else ret operandType
  | OP_STAR =>
      if negb (bool_decide (kind operandType = POINTER)) then
        error (line op) (column op) "Cannot dereference non-pointer type" ;;
        ret createVoid
      else deref_base operandType
  | OP_AMPERSAND => ret (createPointer operandType)
  | OP_PLUS_PLUS | OP_MINUS_MINUS =>
      if (negb (isNumeric operandType) &&
          negb (bool_decide (kind operandType = POINTER)))%bool then
        error (line op) (column op)
          ("Unary operator " ++ lexeme op ++ " requires numeric or pointer operand") ;;
        ret createVoid
      else ret operandType
  | _ =>
      error (line op) (column op) ("Unknown unary operator: " ++ lexeme op) ;;
      ret createVoid
  end.

Definition is_pointer (t : TypeInfo) : bool := bool_decide (kind t = POINTER).

Definition visitBinary (op : Token) (leftType rightType : TypeInfo) : Sem TypeInfo :=
  match type op with
  | OP_PLUS =>
      if (is_pointer leftType && isInteger rightType)%bool then ret leftType
      else if (isInteger leftType && is_pointer rightType)%bool then ret rightType
      else if (isNumeric leftType && isNumeric rightType)%bool
      then ret (getCommonType leftType rightType)
      else
        error (line op) (column op) "Invalid operands to binary +" ;;
        ret createVoid
  | OP_MINUS =>
      if (is_pointer leftType && isInteger rightType)%bool then ret leftType
      else if (is_pointer leftType && is_pointer rightType)%bool then ret createInt
      else if (isNumeric leftType && isNumeric rightType)%bool
      then ret (getCommonType leftType rightType)
      else
        error (line op) (column op) "Invalid operands to binary -" ;;
        ret createVoid
  | OP_STAR | OP_SLASH | OP_PERCENT =>
      if (isNumeric leftType && isNumeric rightType)%bool
      then ret (getCommonType leftType rightType)
      else
        error (line op) (column op) ("Invalid operands to binary " ++ lexeme op) ;;
        ret createVoid
  | OP_LESS | OP_LESS_EQUALS | OP_GREATER | OP_GREATER_EQUALS
  | OP_EQUALS_EQUALS | OP_NOT_EQUALS =>
      c1 <- compatible leftType rightType ;;
      c2 <- (if c1 then ret true else compatible rightType leftType) ;;
      if (negb c1 && negb c2)%bool then
        error (line op) (column op) "Incompatible types for comparison" ;;
        ret createVoid
      else ret createInt
  | OP_AMPERSAND | OP_PIPE | OP_CARET | OP_SHL | OP_SHR =>
      if (negb (isInteger leftType) || negb (isInteger rightType))%bool then
        error (line op) (column op) "Bitwise operators require integer operands" ;;
        ret createVoid
      else ret (getCommonType leftType rightType)
  | OP_LOGICAL_AND | OP_LOGICAL_OR =>
      if (negb (isScalar leftType) || negb (isScalar rightType))%bool then
        error (line op) (column op) "Logical operators require scalar operands" ;;
        ret createVoid
      else ret createInt
  | OP_EQUALS =>
      c <- compatible rightType leftType ;;
      if negb c then
        error (line op) (column op) "Cannot assign incompatible type" ;;
        ret createVoid
      else ret leftType
  | _ =>
      error (line op) (column op) ("Unknown binary operator: " ++ lexeme op) ;;
      ret createVoid
  end.

(** The tail of [visitMemberAccess] after the object has been visited. *)
Definition visitMemberAccess (op : Token) (objectType : TypeInfo) : Sem TypeInfo :=
  let unfinished :=
    warning (line op) (column op) "Struct member access not fully implemented" ;;
    ret createInt in
  if bool_decide (type op = OP_DOT) then
    if negb (bool_decide (kind objectType = STRUCT)) then
      error (line op) (column op) "Left operand of '.' must be a struct" ;;
      ret createVoid
    else unfinished
  else if bool_decide (type op = OP_ARROW) then
    if (negb (is_pointer objectType) ||
        match base objectType with
        | Some b => negb (bool_decide (kind b = STRUCT))
        | None => false
        end)%bool then
      error (line op) (column op) "Left operand of '->' must be a pointer to a struct" ;;
      ret createVoid
    else unfinished
  else unfinished.

(** The tail of [visitConditional] for a scalar condition. *)
Definition visitConditional_types (trueType falseType : TypeInfo) : Sem TypeInfo :=
  c1 <- compatible trueType falseType ;;
  if c1 then ret trueType else
  c2 <- compatible falseType trueType ;;
  if c2 then ret falseType else
  error 0 0 "Incompatible types in conditional expression" ;;
  ret createVoid.

(** The argument loop of [visitCall]: [parameters[i]] is in range
    because the sizes were compared before. *)
Fixpoint visitCall_arguments (visit : ExprPtr -> Sem TypeInfo)
    (arguments : list ExprPtr) (parameters : list TypeInfo) : Sem unit :=
  match arguments with
  | [] => ret tt
  | arg :: rest =>
      argType <- visit arg ;;
      match parameters with
      | [] => undefined
      | param :: params =>
          c <- compatible argType param ;;
          (if negb c then error 0 0 "Argument type mismatch in function call"
           else ret tt) ;;
          visitCall_arguments visit rest params
      end
  end.

(** [visitExpression] and the visitors it dispatches to.  The recursion
    is on the expression; [visitExpression] takes the pointer. *)
Fixpoint visitExpressionNode (e : ExpressionNode) : Sem TypeInfo :=
  let visitExpression (node : ExprPtr) : Sem TypeInfo :=
    match node with
    | None => ret createVoid
    | Some e' => visitExpressionNode e'
    end in
  match e with
  | LiteralNode token => visitLiteral token
  | VariableNode name => visitVariable name
  | UnaryNode op operand =>
      operandType <- visitExpression operand ;;
      visitUnary op operandType
  | BinaryNode lhs op rhs =>
      leftType <- visitExpression lhs ;;
      rightType <- visitExpression rhs ;;
      visitBinary op leftType rightType
  | CallNode callee arguments =>
      calleeType <- visitExpression callee ;;
      if negb (bool_decide (kind calleeType = FUNCTION)) then
        error 0 0 "Called object is not a function" ;;
        ret createVoid
      else if negb (length arguments =? length (tparameters calleeType))%nat then
        error 0 0 "Wrong number of arguments to function call" ;;
        ret createVoid
      else
        visitCall_arguments visitExpression arguments (tparameters calleeType) ;;
        deref_base calleeType
  | ArrayAccessNode array index =>
      arrayType <- visitExpression array ;;
      indexType <- visitExpression index ;;
      if negb (bool_decide (kind arrayType ∈ [ARRAY; POINTER])) then
        error 0 0 "Subscripted value is not an array or pointer" ;;
        ret createVoid
      else if negb (isInteger indexType) then
        error 0 0 "Array index must be an integer" ;;
        ret createVoid
      else deref_base arrayType
  | MemberAccessNode object op member =>
      objectType <- visitExpression object ;;
      visitMemberAccess op objectType
  | ConditionalNode condition trueExpr falseExpr =>
      condType <- visitExpression condition ;;
      if negb (isScalar condType) then
        error 0 0 "Conditional operator requires scalar condition" ;;
        ret createVoid
      else
        trueType <- visitExpression trueExpr ;;
        falseType <- visitExpression falseExpr ;;
        visitConditional_types trueType falseType
  end.

Definition visitExpression (node : ExprPtr) : Sem TypeInfo :=
  match node with
  | None => ret createVoid
  | Some e => visitExpressionNode e
  end.

Definition visitExpressionStatement (expression : ExprPtr) : Sem unit :=
  visitExpression expression ;; ret tt.

Definition visitVariableDeclaration (vtype : TypeNode) (name : Token)
    (initializer : ExprPtr) : Sem unit :=
  ty <- getTypeFromTypeNode vtype ;;
  declared <- on_table (SymbolTable.existsInCurrentScope (lexeme name)) ;;
  if declared then
    error (line name) (column name)
      ("Variable '" ++ lexeme name ++ "' already declared in this scope")
  else
    match initializer with
    | Some _ =>
        initType <- visitExpression initializer ;;
        c <- compatible initType ty ;;
        if negb c then
          error (line name) (column name)
            ("Cannot initialize variable of type '" ++ pretty (Kind_to_int (kind ty))
             ++ "' with expression of type '"
             ++ pretty (Kind_to_int (kind initType)) ++ "'")
        else ret tt
    | None => ret tt
    end ;;
    on_table (SymbolTable.addVariable (lexeme name) ty).

Definition visitReturnStatement (value : ExprPtr) : Sem unit :=
  expected <- gets currentFunctionReturnType ;;
  match expected with
  | None => error 0 0 "Return statement outside of function"
  | Some returnType =>
      set_hasReturn true ;;
      match value with
      | Some _ =>
          valueType <- visitExpression value ;;
          c <- compatible valueType returnType ;;
          if negb c then error 0 0 "Cannot return value of incompatible type"
          else ret tt
      | None =>
          if negb (bool_decide (kind returnType = VOID))
          then error 0 0 "Non-void function should return a value"
          else ret tt
      end
  end.

(** "Could check if we're inside a loop or switch (not implemented)" *)
Definition visitBreakStatement : Sem unit := ret tt.

(** "Could check if we're inside a loop (not implemented)" *)
Definition visitContinueStatement : Sem unit := ret tt.

Definition check_condition (what : string) (condition : ExprPtr) : Sem unit :=
  condType <- visitExpression condition ;;
  if negb (isScalar condType) then error 0 0 (what ++ " condition must be a scalar type")
  else ret tt.

Fixpoint visit_each (visit : StatementNode -> Sem unit)
    (statements : list StatementNode) : Sem unit :=
  match statements with
  | [] => ret tt
  | statement :: rest => visit statement ;; visit_each visit rest
  end.

(** The visitors of compound statements, with the statement dispatch
    [visit] (the [if]/[else if] chain on [getNodeType()]) as a
    parameter. *)
Definition visitBlock_rec (visit : StatementNode -> Sem unit)
    (statements : list StatementNode) : Sem unit :=
  on_table SymbolTable.enterScope ;;
  visit_each visit statements ;;
  on_table SymbolTable.leaveScope.

(** A branch or loop body: a block is visited as a block, any other
    statement inside an implicit scope. *)
Definition visitNested (visit : StatementNode -> Sem unit) (s : StatementNode)
  : Sem unit :=
  match s with
  | BlockNode statements => visitBlock_rec visit statements
  | _ =>
      on_table SymbolTable.enterScope ;;
      visit s ;;
      on_table SymbolTable.leaveScope
  end.

Definition visitIfStatement_rec (visit : StatementNode -> Sem unit)
    (condition : ExprPtr) (thenBranch : StatementNode)
    (elseBranch : option StatementNode) : Sem unit :=
  check_condition "If" condition ;;
  visitNested visit thenBranch ;;
  match elseBranch with
  | Some s => visitNested visit s
  | None => ret tt
  end.

Definition visitWhileStatement_rec (visit : StatementNode -> Sem unit)
    (condition : ExprPtr) (body : StatementNode) : Sem unit :=
  check_condition "While" condition ;;
  visitNested visit body.

Definition visitDoWhileStatement_rec (visit : StatementNode -> Sem unit)
    (body : StatementNode) (condition : ExprPtr) : Sem unit :=
  visitNested visit body ;;
  check_condition "Do-while" condition.

Definition visitForStatement_rec (visit : StatementNode -> Sem unit)
    (initializer : option StatementNode) (condition increment : ExprPtr)
    (body : StatementNode) : Sem unit :=
  on_table SymbolTable.enterScope ;;
  match initializer with
  | Some (ExpressionStatementNode e) => visitExpressionStatement e
  | Some (VariableDeclarationNode ty name init) => visitVariableDeclaration ty name init
  | _ => ret tt
  end ;;
  match condition with
  | Some _ => check_condition "For" condition
  | None => ret tt
  end ;;
  match increment with
  | Some _ => visitExpression increment ;; ret tt
  | None => ret tt
  end ;;
  visitNested visit body ;;
  on_table SymbolTable.leaveScope.

(** The dispatch on the node type written out in [visitBlock]. *)
Fixpoint visitStatement (s : StatementNode) : Sem unit :=
  match s with
  | ExpressionStatementNode e => visitExpressionStatement e
  | VariableDeclarationNode ty name init => visitVariableDeclaration ty name init
  | BlockNode statements => visitBlock_rec visitStatement statements
  | IfNode c t e => visitIfStatement_rec visitStatement c t e
  | WhileNode c b => visitWhileStatement_rec visitStatement c b
  | DoWhileNode b c => visitDoWhileStatement_rec visitStatement b c
  | ForNode i c u b => visitForStatement_rec visitStatement i c u b
  | ReturnNode v => visitReturnStatement v
  | BreakNode => visitBreakStatement
  | ContinueNode => visitContinueStatement
  end.

Definition visitBlock : list StatementNode -> Sem unit :=
  visitBlock_rec visitStatement.
Definition visitIfStatement := visitIfStatement_rec visitStatement.
Definition visitWhileStatement := visitWhileStatement_rec visitStatement.
Definition visitDoWhileStatement := visitDoWhileStatement_rec visitStatement.
Definition visitForStatement := visitForStatement_rec visitStatement.

Definition visitParameter (node : ParameterNode) : Sem unit :=
  ty <- getTypeFromTypeNode (ptype node) ;;
  if String.eqb (lexeme (pname node)) EmptyString then ret tt else
  declared <- on_table (SymbolTable.existsInCurrentScope (lexeme (pname node))) ;;
  if declared then
    error (line (pname node)) (column (pname node))
      ("Parameter '" ++ lexeme (pname node) ++ "' already declared")
  else on_table (SymbolTable.addParameter (lexeme (pname node)) ty).

Fixpoint param_types (params : list ParameterNode) : Sem (list TypeInfo) :=
  match params with
  | [] => ret []
  | param :: rest =>
      paramType <- getTypeFromTypeNode (ptype param) ;;
      tys <- param_types rest ;;
      ret (paramType :: tys)
  end.

Fixpoint visit_parameters (params : list ParameterNode) : Sem unit :=
  match params with
  | [] => ret tt
  | param :: rest => visitParameter param ;; visit_parameters rest
  end.

Definition visitFunctionDeclaration (node : FunctionDeclarationNode) : Sem unit :=
  returnType <- getTypeFromTypeNode (returnType node) ;;
  paramTypes <- param_types (parameters node) ;;
  let functionType := createFunction returnType paramTypes in
  let name := lexeme (fname node) in
  declared <- on_table (SymbolTable.existsInCurrentScope name) ;;
  if declared then
    error (line (fname node)) (column (fname node))
      ("Function '" ++ name ++ "' already declared in this scope")
  else
    on_table (SymbolTable.addFunction name functionType) ;;
    match fbody node with
    | Some statements =>
        on_table SymbolTable.enterScope ;;
        set_currentFunctionReturnType (Some returnType) ;;
        set_hasReturn (bool_decide (kind returnType = VOID)) ;;
        visit_parameters (parameters node) ;;
        visitBlock statements ;;
        seen <- gets hasReturn ;;
        (if (negb seen && negb (bool_decide (kind returnType = VOID)))%bool then
           error (line (fname node)) (column (fname node))
             ("Function '" ++ name ++ "' may not return a value")
         else ret tt) ;;
        set_currentFunctionReturnType None ;;
        on_table SymbolTable.leaveScope
    | None => ret tt
    end.

Fixpoint visitProgram_loop (declarations : list ASTNode) : Sem unit :=
  match declarations with
  | [] => ret tt
  | declaration :: rest =>
      match declaration with
      | FunctionDeclaration f => visitFunctionDeclaration f
      | Statement (VariableDeclarationNode ty name init) =>
          visitVariableDeclaration ty name init
      | Statement _ => ret tt
      end ;;
      visitProgram_loop rest
  end.

Definition visitProgram (node : ProgramNode) : Sem unit :=
  visitProgram_loop (declarations node).

(** [analyze(root)]; the root the parser hands over is a program or null. *)
Definition analyze (root : option ProgramNode) : Sem unit :=
  match root with
  | None => ret tt
  | Some program =>
      on_table SymbolTable.clear ;;
      visitProgram program
  end.

End SemanticAnalyzer.

(** ** The COIL object builder (collaborator of the code generator) *)

(** Modelled from the spec: the [coil::] library ([CoilObject], [Symbol],
    [Section], [Instruction], [Operand], the opcode, type and flag
    constants) is not part of the sources.  The model follows the
    contract of the specification: append-only symbol and section arrays
    whose [add] operations return the index of the new element,
    [findSymbol] returning the first index with the given name or
    [UINT16_MAX], and per-section append-only instruction streams.  The
    numeric values of the constants are not known, so opcodes, types and
    flags are symbolic. *)
Inductive Opcode : Type :=
| PROC | SYM | VAR | SCOPEE | SCOPEL | MOV | CMP | BR | ADD | SUB | MUL | DIV
| MOD | NEG | NOT | INC | DEC | INDEX | CALL | RET.

Inductive CoilType : Type :=
| T_INT32 | T_INT8 | T_FP32 | T_FP64 | T_VOID | T_PTR
| T_ABICTL_PARAM     (* [coil::Type::ABICTL | coil::Type::PARAM] *)
| T_ABICTL_RET.      (* [coil::Type::ABICTL | coil::Type::RET] *)

Inductive SymbolFlag : Type := GLOBAL | FUNCTION_FLAG | DATA.

Inductive SectionFlag : Type :=
| EXECUTABLE | READABLE | WRITABLE | INITIALIZED | UNINITIALIZED.

Inductive Operand : Type :=
| createVariable (varId : Z)
| createSymbol (symbolIndex : Z)
| createImmediateType (t : CoilType)      (* [createImmediate<uint16_t>] of a type constant *)
| createImmediate_uint8 (v : Z)
| createImmediate_uint16 (v : Z)
| createImmediate_int8 (v : Z)
| createImmediate_int32 (v : Z)
| createImmediate_float (text : string).  (* the value of [std::stof(text)] *)

#[global] Instance Opcode_eq_dec : EqDecision Opcode.
Proof. solve_decision. Defined.

Record Instruction : Type := mkInstruction {
  opcode : Opcode;
  operands : list Operand;
}.

Record Symbol : Type := mkSymbol {
  sym_name : string;
  name_length : Z;
  sym_attributes : list SymbolFlag;
  sym_value : Z;
  section_index : Z;
  sym_processor_type : Z;
}.

Record Section : Type := mkSection {
  name_index : Z;
  sec_attributes : list SectionFlag;
  sec_offset : Z;
  sec_size : Z;
  sec_address : Z;
  alignment : Z;
  sec_processor_type : Z;
}.

Record CoilObject : Type := mkCoilObject {
  symbols : list Symbol;
  sections : list Section;
  instructions : list (Z * Instruction);   (* section index, instruction *)
}.

Definition UINT16_MAX : Z := 65535.

Module Coil.

Definition empty : CoilObject := mkCoilObject [] [] [].

Definition addSymbol (sym : Symbol) (obj : CoilObject) : Z * CoilObject :=
  (to_uint16 (Z.of_nat (length (symbols obj))),
   mkCoilObject (symbols obj ++ [sym]) (sections obj) (instructions obj)).

Fixpoint find_from (name : string) (i : Z) (syms : list Symbol) : Z :=
  match syms with
  | [] => UINT16_MAX
  | sym :: rest =>
      if String.eqb (sym_name sym) name then to_uint16 i
      else find_from name (i + 1) rest
  end.

Definition findSymbol (name : string) (obj : CoilObject) : Z :=
  find_from name 0 (symbols obj).

Definition addSection (sec : Section) (obj : CoilObject) : Z * CoilObject :=
  (to_uint16 (Z.of_nat (length (sections obj))),
   mkCoilObject (symbols obj) (sections obj ++ [sec]) (instructions obj)).

Definition addInstruction (sectionIndex : Z) (i : Instruction) (obj : CoilObject)
  : CoilObject :=
  mkCoilObject (symbols obj) (sections obj) (instructions obj ++ [(sectionIndex, i)]).

End Coil.

(** [std::stoi(text)]: leading white space, an optional sign and the
    longest run of decimal digits; [None] is the exception thrown when
    there is no digit or the value does not fit an [int]. *)
Fixpoint drop_while {A} (p : A -> bool) (l : list A) : list A :=
  match l with
  | x :: r => if p x then drop_while p r else l
  | [] => []
  end.

Fixpoint take_while {A} (p : A -> bool) (l : list A) : list A :=
  match l with
  | x :: r => if p x then x :: take_while p r else []
  | [] => []
  end.

Definition digit_value (c : ascii) : Z := Z.of_N (N_of_ascii c) - 48.

Definition decimal_value (ds : list ascii) : Z :=
  fold_left (fun acc c => 10 * acc + digit_value c) ds 0.

Definition stoi (text : string) : option Z :=
  let cs := drop_while isspace (list_ascii_of_string text) in
  let '(negative, cs) :=
    match cs with
    | c :: r => if Ascii.eqb c "-" then (true, r)
                else if Ascii.eqb c "+" then (false, r) else (false, cs)
    | [] => (false, cs)
    end in
  match take_while isdigit cs with
  | [] => None
  | ds =>
      let v := if negative then - decimal_value ds else decimal_value ds in
      if ((-2147483648 <=? v) && (v <=? 2147483647))%bool then Some v else None
  end.

(** Conversion of a [char] to [int8_t]. *)
Definition to_int8 (c : ascii) : Z :=
  let n := Z.of_N (N_of_ascii c) in if n <? 128 then n else n - 256.

(** ** codegen.h, codegen.cpp *)

(** [struct Variable] ([Variable] is a reserved word here). *)
Record Variable_ : Type := mkVariable {
  vname : string;
  varId : Z;
  vartype : CoilType;
}.

Module CodeGenerator.

Record CodeGenerator : Type := mkCodeGenerator {
  optimizationLevel : Z;
  errorHandler : ErrorHandler;
  coilObject : CoilObject;
  textSectionIndex : Z;
  dataSectionIndex : Z;
  bssSectionIndex : Z;
  variables : gmap string Variable_;
  nextVarId : Z;
  scopeStack : list (list string);   (* the top of the stack is the head *)
  currentFunction : string;
  labelCounter : Z;
}.

Abbreviation Gen := (M CodeGenerator).

(** The constructor; the section indices are set by [initialize]. *)
Definition new (optimizationLevel : Z) (h : ErrorHandler) : CodeGenerator :=
  mkCodeGenerator optimizationLevel h Coil.empty 0 0 0 ∅ 1 [] EmptyString 0.

Definition set_errorHandler (h : ErrorHandler) (g : CodeGenerator) :=
  mkCodeGenerator (optimizationLevel g) h (coilObject g) (textSectionIndex g)
    (dataSectionIndex g) (bssSectionIndex g) (variables g) (nextVarId g)
    (scopeStack g) (currentFunction g) (labelCounter g).
Definition set_coilObject (o : CoilObject) (g : CodeGenerator) :=
  mkCodeGenerator (optimizationLevel g) (errorHandler g) o (textSectionIndex g)
    (dataSectionIndex g) (bssSectionIndex g) (variables g) (nextVarId g)
    (scopeStack g) (currentFunction g) (labelCounter g).
Definition set_sections (t d b : Z) (g : CodeGenerator) :=
  mkCodeGenerator (optimizationLevel g) (errorHandler g) (coilObject g) t d b
    (variables g) (nextVarId g) (scopeStack g) (currentFunction g) (labelCounter g).
Definition set_variables (v : gmap string Variable_) (g : CodeGenerator) :=
  mkCodeGenerator (optimizationLevel g) (errorHandler g) (coilObject g)
    (textSectionIndex g) (dataSectionIndex g) (bssSectionIndex g) v (nextVarId g)
    (scopeStack g) (currentFunction g) (labelCounter g).
Definition set_nextVarId (n : Z) (g : CodeGenerator) :=
  mkCodeGenerator (optimizationLevel g) (errorHandler g) (coilObject g)
    (textSectionIndex g) (dataSectionIndex g) (bssSectionIndex g) (variables g) n
    (scopeStack g) (currentFunction g) (labelCounter g).
Definition set_scopeStack (s : list (list string)) (g : CodeGenerator) :=
  mkCodeGenerator (optimizationLevel g) (errorHandler g) (coilObject g)
    (textSectionIndex g) (dataSectionIndex g) (bssSectionIndex g) (variables g)
    (nextVarId g) s (currentFunction g) (labelCounter g).
Definition set_currentFunction (f : string) (g : CodeGenerator) :=
  mkCodeGenerator (optimizationLevel g) (errorHandler g) (coilObject g)
    (textSectionIndex g) (dataSectionIndex g) (bssSectionIndex g) (variables g)
    (nextVarId g) (scopeStack g) f (labelCounter g).
Definition set_labelCounter (n : Z) (g : CodeGenerator) :=
  mkCodeGenerator (optimizationLevel g) (errorHandler g) (coilObject g)
    (textSectionIndex g) (dataSectionIndex g) (bssSectionIndex g) (variables g)
    (nextVarId g) (scopeStack g) (currentFunction g) n.

Definition error (l c : Z) (msg : string) : Gen unit :=
  modify (fun g => set_errorHandler (Errors.error l c msg (errorHandler g)) g).

Definition warning (l c : Z) (msg : string) : Gen unit :=
  modify (fun g => set_errorHandler (Errors.warning l c msg (errorHandler g)) g).

(** [return nextVarId++;] on a [uint16_t]. *)
Definition getNextVarId : Gen Z :=
  fun g => Return (nextVarId g) (set_nextVarId (to_uint16 (nextVarId g + 1)) g).

Definition emitInstruction (op : Opcode) (operands : list Operand) : Gen unit :=
  modify (fun g =>
    set_coilObject
      (Coil.addInstruction (textSectionIndex g) (mkInstruction op operands)
         (coilObject g)) g).

Definition emitScopeEnter : Gen unit := emitInstruction SCOPEE [].
Definition emitScopeLeave : Gen unit := emitInstruction SCOPEL [].

(** [emitVarDeclaration(varId, type, initializer = 0)] *)
Definition emitVarDeclaration (varId : Z) (ty : CoilType) (initializer : Z) : Gen unit :=
  emitInstruction VAR
    ([createVariable varId; createImmediateType ty] ++
     (if negb (initializer =? 0) then [createVariable initializer] else []))%list.

(** [addSymbol(name, attributes = 0, sectionIndex = 0)] *)
Definition addSymbol (name : string) (attributes : list SymbolFlag)
    (sectionIndex : Z) : Gen Z :=
  fun g =>
    let existingSymbol := Coil.findSymbol name (coilObject g) in
    if negb (existingSymbol =? UINT16_MAX) then Return existingSymbol g
    else
      let symbol := mkSymbol name (Z.of_nat (String.length name)) attributes 0
                      sectionIndex 1 in
      let '(index, obj) := Coil.addSymbol symbol (coilObject g) in
      Return index (set_coilObject obj g).

Definition emitLabel (label : string) : Gen unit :=
  text <- gets textSectionIndex ;;
  symbolIndex <- addSymbol label [] text ;;
  emitInstruction SYM [createSymbol symbolIndex].

Definition emitJump (label : string) : Gen unit :=
  symbolIndex <- addSymbol label [] 0 ;;
  emitInstruction BR [createSymbol symbolIndex].

Definition emitConditionalJump (label condition : string) : Gen unit :=
  symbolIndex <- addSymbol label [] 0 ;;
  emitInstruction BR [createSymbol symbolIndex].

Definition createTempVar (ty : CoilType) : Gen Z :=
  varId <- getNextVarId ;;
  emitVarDeclaration varId ty 0 ;;
  ret varId.

Definition generateLabel (prefix : string) : Gen string :=
  fun g =>
    Return (prefix ++ "_" ++ pretty (labelCounter g))
      (set_labelCounter (to_int (labelCounter g + 1)) g).

Definition enterScope : Gen unit :=
  modify (fun g => set_scopeStack ([] :: scopeStack g) g).

Definition leaveScope : Gen unit :=
  modify (fun g =>
    match scopeStack g with
    | top :: rest =>
        set_scopeStack rest
          (set_variables (foldl (fun vars varName => delete varName vars)
                            (variables g) top) g)
    | [] => g
    end).

(** [scopeStack.top().push_back(name)]; [top()] of an empty stack has no
    defined behaviour. *)
Definition push_name (name : string) : Gen unit :=
  fun g =>
    match scopeStack g with
    | top :: rest => Return tt (set_scopeStack ((top ++ [name])%list :: rest) g)
    | [] => Undefined
    end.

(** [variables[name] = Variable(name, varId, type)] *)
Definition bind_variable (name : string) (varId : Z) (ty : CoilType) : Gen unit :=
  modify (fun g => set_variables (<[name := mkVariable name varId ty]> (variables g)) g).

Definition translateType (typeNode : TypeNode) : Gen CoilType :=
  let ty := type (tname typeNode) in
  if bool_decide (ty = KW_INT) then
    ret (if isPointer typeNode then T_PTR else T_INT32)
  else if bool_decide (ty = KW_CHAR) then
    ret (if isPointer typeNode then T_PTR else T_INT8)
  else if bool_decide (ty = KW_FLOAT) then ret T_FP32
  else if bool_decide (ty = KW_DOUBLE) then ret T_FP64
  else if bool_decide (ty = KW_VOID) then
    ret (if isPointer typeNode then T_PTR else T_VOID)
  else
    warning (line (tname typeNode)) (column (tname typeNode))
      ("Unknown type '" ++ lexeme (tname typeNode) ++ "', defaulting to int") ;;
    ret T_INT32.

Definition initialize : Gen unit :=
  modify (set_coilObject Coil.empty) ;;
  let section_symbol name := mkSymbol name (Z.of_nat (String.length name)) [GLOBAL] 0 0 1 in
  let add_symbol sym : Gen Z :=
    fun g => let '(i, o) := Coil.addSymbol sym (coilObject g) in
             Return i (set_coilObject o g) in
  let add_section sec : Gen Z :=
    fun g => let '(i, o) := Coil.addSection sec (coilObject g) in
             Return i (set_coilObject o g) in
  textSymbolIndex <- add_symbol (section_symbol ".text") ;;
  text <- add_section (mkSection textSymbolIndex [EXECUTABLE; READABLE] 0 0 0 16 1) ;;
  modify (fun g => set_sections text (dataSectionIndex g) (bssSectionIndex g) g) ;;
  dataSymbolIndex <- add_symbol (section_symbol ".data") ;;
  data <- add_section (mkSection dataSymbolIndex [WRITABLE; READABLE; INITIALIZED] 0 0 0 16 1) ;;
  modify (fun g => set_sections (textSectionIndex g) data (bssSectionIndex g) g) ;;
  bssSymbolIndex <- add_symbol (section_symbol ".bss") ;;
  bss <- add_section (mkSection bssSymbolIndex [WRITABLE; READABLE; UNINITIALIZED] 0 0 0 16 1) ;;
  modify (fun g => set_sections (textSectionIndex g) (dataSectionIndex g) bss g) ;;
  modify (set_variables ∅) ;;
  modify (set_nextVarId 1) ;;
  modify (set_scopeStack []) ;;
  modify (set_labelCounter 0) ;;
  emitInstruction PROC [createImmediate_uint8 1].

Section Generate.

(** [stof_ok text] tells whether [std::stof(text)] returns (instead of
    throwing [std::invalid_argument] or [std::out_of_range]); the
    value it returns is kept symbolic in [createImmediate_float]. *)
Variable stof_ok : string -> bool.

Definition escape_value (escape : ascii) : ascii :=
  if Ascii.eqb escape "n" then NEWLINE
  else if Ascii.eqb escape "t" then TAB
  else if Ascii.eqb escape "r" then CR
  else if Ascii.eqb escape "0" then NUL
  else if Ascii.eqb escape BACKSLASH then BACKSLASH
  else if Ascii.eqb escape SQUOTE then SQUOTE
  else if Ascii.eqb escape DQUOTE then DQUOTE
  else escape.

Definition generateLiteral (token : Token) : Gen Z :=
  resultVarId <- getNextVarId ;;
  match type token with
  | INTEGER_LITERAL =>
      match stoi (lexeme token) with
      | None => throw "stoi"
      | Some value =>
          emitVarDeclaration resultVarId T_INT32 0 ;;
          emitInstruction MOV
            [createVariable resultVarId; createImmediate_int32 value] ;;
          ret resultVarId
      end
  | FLOAT_LITERAL =>
      if stof_ok (lexeme token) then
        emitVarDeclaration resultVarId T_FP32 0 ;;
        emitInstruction MOV
          [createVariable resultVarId; createImmediate_float (lexeme token)] ;;
        ret resultVarId
      else throw "stof"
  | CHAR_LITERAL =>
      let value := char_at (lexeme token) 1 in
      let value :=
        if (Ascii.eqb value BACKSLASH && (2 <? String.length (lexeme token))%nat)%bool
        then escape_value (char_at (lexeme token) 2)
        else value in
      emitVarDeclaration resultVarId T_INT8 0 ;;
      emitInstruction MOV
        [createVariable resultVarId; createImmediate_int8 (to_int8 value)] ;;
      ret resultVarId
  | STRING_LITERAL =>
      warning 0 0 "String literals not fully implemented" ;;
      emitVarDeclaration resultVarId T_PTR 0 ;;
      emitInstruction MOV [createVariable resultVarId; createImmediate_int32 0] ;;
      ret resultVarId
  | _ =>
      error 0 0 "Unknown literal type" ;;
      ret 0
  end.

Definition generateVariable (name : Token) : Gen Z :=
  vars <- gets variables ;;
  match vars !! lexeme name with
  | None =>
      error (line name) (column name) ("Undefined variable: " ++ lexeme name) ;;
      ret 0
  | Some v => ret (varId v)
  end.

(** The part of [generateUnary] after the operand has been generated. *)
Definition generateUnary (op : Token) (operandVarId : Z) : Gen Z :=
  resultVarId <- getNextVarId ;;
  let resultType := T_INT32 in
  let two_operand (opc : Opcode) : Gen Z :=
    emitVarDeclaration resultVarId resultType 0 ;;
    emitInstruction opc [createVariable resultVarId; createVariable operandVarId] ;;
    ret resultVarId in
  match type op with
  | OP_MINUS => two_operand NEG
  | OP_PLUS => two_operand MOV
  | OP_EXCLAMATION =>
      emitVarDeclaration resultVarId resultType 0 ;;
      emitInstruction CMP [createVariable operandVarId; createImmediate_int32 0] ;;
      emitInstruction MOV [createVariable resultVarId; createImmediate_int32 1] ;;
      ret resultVarId
  | OP_TILDE => two_operand NOT
  | OP_PLUS_PLUS =>
      emitVarDeclaration resultVarId resultType 0 ;;
      emitInstruction MOV [createVariable resultVarId; createVariable operandVarId] ;;
      emitInstruction INC [createVariable operandVarId] ;;
      ret resultVarId
  | OP_MINUS_MINUS =>
      emitVarDeclaration resultVarId resultType 0 ;;
      emitInstruction MOV [createVariable resultVarId; createVariable operandVarId] ;;
      emitInstruction DEC [createVariable operandVarId] ;;
      ret resultVarId
  | OP_STAR =>
      warning 0 0 "Dereference operator not fully implemented" ;;
      ret operandVarId
  | OP_AMPERSAND =>
      warning 0 0 "Address-of operator not fully implemented" ;;
      ret operandVarId
  | _ =>
      error (line op) (column op) ("Unknown unary operator: " ++ lexeme op) ;;
      ret 0
  end.

(** The part of [generateBinary] after both operands have been
    generated. *)
Definition generateBinary (op : Token) (leftVarId rightVarId : Z) : Gen Z :=
  resultVarId <- getNextVarId ;;
  let resultType := T_INT32 in
  let arithmetic (opc : Opcode) : Gen Z :=
    emitVarDeclaration resultVarId resultType 0 ;;
    emitInstruction opc
      [createVariable resultVarId; createVariable leftVarId;
       createVariable rightVarId] ;;
    ret resultVarId in
  match type op with
  | OP_PLUS => arithmetic ADD
  | OP_MINUS => arithmetic SUB
  | OP_STAR => arithmetic MUL
  | OP_SLASH => arithmetic DIV
  | OP_PERCENT => arithmetic MOD
  | OP_EQUALS =>
      emitInstruction MOV [createVariable leftVarId; createVariable rightVarId] ;;
      ret leftVarId
  | _ =>
      error (line op) (column op) ("Binary operator not implemented: " ++ lexeme op) ;;
      ret 0
  end.

Fixpoint generate_arguments (generate : ExprPtr -> Gen Z) (arguments : list ExprPtr)
  : Gen (list Z) :=
  match arguments with
  | [] => ret []
  | arg :: rest =>
      argId <- generate arg ;;
      ids <- generate_arguments generate rest ;;
      ret (argId :: ids)
  end.

(** The part of [generateCall] after the arguments have been generated. *)
Definition generateCall_emit (funcName : string) (argVarIds : list Z) : Gen Z :=
  returnVarId <- getNextVarId ;;
  emitVarDeclaration returnVarId T_INT32 0 ;;
  funcSymbol <- addSymbol funcName [] 0 ;;
  emitInstruction CALL
    ([createSymbol funcSymbol; createImmediateType T_ABICTL_PARAM] ++
     map createVariable argVarIds)%list ;;
  emitInstruction MOV [createVariable returnVarId; createImmediateType T_ABICTL_RET] ;;
  ret returnVarId.

Definition compare_with_zero (condVarId : Z) : Gen unit :=
  emitInstruction CMP [createVariable condVarId; createImmediate_int32 0].

(** [emitInstruction(BR, {createSymbol(addSymbol(label))})] *)
Definition branch_to (label : string) : Gen unit :=
  symbolIndex <- addSymbol label [] 0 ;;
  emitInstruction BR [createSymbol symbolIndex].

Fixpoint generateExpressionNode (e : ExpressionNode) : Gen Z :=
  let generateExpression (node : ExprPtr) : Gen Z :=
    match node with
    | None => error 0 0 "Null expression" ;; ret 0
    | Some e' => generateExpressionNode e'
    end in
  match e with
  | LiteralNode token => generateLiteral token
  | VariableNode name => generateVariable name
  | UnaryNode op operand =>
      operandVarId <- generateExpression operand ;;
      generateUnary op operandVarId
  | BinaryNode lhs op rhs =>
      leftVarId <- generateExpression lhs ;;
      rightVarId <- generateExpression rhs ;;
      generateBinary op leftVarId rightVarId
  | CallNode callee arguments =>
      match callee with
      | None => undefined      (* [node->callee->getNodeType()] on a null pointer *)
      | Some (VariableNode name) =>
          argVarIds <- generate_arguments generateExpression arguments ;;
          generateCall_emit (lexeme name) argVarIds
      | Some _ =>
          error 0 0 "Only simple function calls supported" ;;
          ret 0
      end
  | ArrayAccessNode array index =>
      arrayVarId <- generateExpression array ;;
      indexVarId <- generateExpression index ;;
      resultVarId <- getNextVarId ;;
      emitVarDeclaration resultVarId T_INT32 0 ;;
      emitInstruction INDEX
        [createVariable resultVarId; createVariable arrayVarId;
         createVariable indexVarId] ;;
      ret resultVarId
  | MemberAccessNode object op member =>
      warning 0 0 "Member access not implemented" ;;
      ret 0
  | ConditionalNode condition trueExpr falseExpr =>
      condVarId <- generateExpression condition ;;
      falseLabel <- generateLabel "cond_false" ;;
      endLabel <- generateLabel "cond_end" ;;
      resultVarId <- getNextVarId ;;
      emitVarDeclaration resultVarId T_INT32 0 ;;
      compare_with_zero condVarId ;;
      branch_to falseLabel ;;
      trueVarId <- generateExpression trueExpr ;;
      emitInstruction MOV [createVariable resultVarId; createVariable trueVarId] ;;
      branch_to endLabel ;;
      emitLabel falseLabel ;;
      falseVarId <- generateExpression falseExpr ;;
      emitInstruction MOV [createVariable resultVarId; createVariable falseVarId] ;;
      emitLabel endLabel ;;
      ret resultVarId
  end.

Definition generateExpression (node : ExprPtr) : Gen Z :=
  match node with
  | None => error 0 0 "Null expression" ;; ret 0
  | Some e => generateExpressionNode e
  end.

Definition generateExpressionStatement (expression : ExprPtr) : Gen unit :=
  generateExpression expression ;; ret tt.

Definition generateVariableDeclaration (vtype : TypeNode) (name : Token)
    (initializer : ExprPtr) (isGlobal : bool) : Gen unit :=
  varType <- translateType vtype ;;
  if isGlobal then
    sectionIndex <- gets (fun g => match initializer with
                                   | Some _ => dataSectionIndex g
                                   | None => bssSectionIndex g
                                   end) ;;
    addSymbol (lexeme name) [GLOBAL; DATA] sectionIndex ;;
    ret tt
  else
    varId <- getNextVarId ;;
    bind_variable (lexeme name) varId varType ;;
    push_name (lexeme name) ;;
    match initializer with
    | Some _ =>
        initVarId <- generateExpression initializer ;;
        emitVarDeclaration varId varType initVarId
    | None => emitVarDeclaration varId varType 0
    end.

Definition generateReturnStatement (value : ExprPtr) : Gen unit :=
  match value with
  | Some _ =>
      returnVarId <- generateExpression value ;;
      emitInstruction RET
        [createImmediateType T_ABICTL_RET; createVariable returnVarId]
  | None => emitInstruction RET [createImmediateType T_ABICTL_RET]
  end.

Definition generateBreakStatement : Gen unit :=
  warning 0 0 "Break statement not fully implemented".

Definition generateContinueStatement : Gen unit :=
  warning 0 0 "Continue statement not fully implemented".

Fixpoint generate_each (generate : StatementNode -> Gen unit)
    (statements : list StatementNode) : Gen unit :=
  match statements with
  | [] => ret tt
  | stmt :: rest => generate stmt ;; generate_each generate rest
  end.

Definition generateBlock_rec (generate : StatementNode -> Gen unit)
    (statements : list StatementNode) : Gen unit :=
  emitScopeEnter ;;
  enterScope ;;
  generate_each generate statements ;;
  leaveScope ;;
  emitScopeLeave.

Definition generateIfStatement_rec (generate : StatementNode -> Gen unit)
    (condition : ExprPtr) (thenBranch : StatementNode)
    (elseBranch : option StatementNode) : Gen unit :=
  elseLabel <- generateLabel "else" ;;
  endIfLabel <- generateLabel "endif" ;;
  condVarId <- generateExpression condition ;;
  compare_with_zero condVarId ;;
  branch_to elseLabel ;;
  generate thenBranch ;;
  branch_to endIfLabel ;;
  emitLabel elseLabel ;;
  match elseBranch with
  | Some s => generate s
  | None => ret tt
  end ;;
  emitLabel endIfLabel.

Definition generateWhileStatement_rec (generate : StatementNode -> Gen unit)
    (condition : ExprPtr) (body : StatementNode) : Gen unit :=
  startLabel <- generateLabel "while_start" ;;
  endLabel <- generateLabel "while_end" ;;
  emitLabel startLabel ;;
  condVarId <- generateExpression condition ;;
  compare_with_zero condVarId ;;
  branch_to endLabel ;;
  generate body ;;
  branch_to startLabel ;;
  emitLabel endLabel.

Definition generateDoWhileStatement_rec (generate : StatementNode -> Gen unit)
    (body : StatementNode) (condition : ExprPtr) : Gen unit :=
  startLabel <- generateLabel "dowhile_start" ;;
  conditionLabel <- generateLabel "dowhile_condition" ;;
  endLabel <- generateLabel "dowhile_end" ;;
  emitLabel startLabel ;;
  generate body ;;
  emitLabel conditionLabel ;;
  condVarId <- generateExpression condition ;;
  compare_with_zero condVarId ;;
  branch_to endLabel ;;
  branch_to startLabel ;;
  emitLabel endLabel.

Definition generateForStatement_rec (generate : StatementNode -> Gen unit)
    (initializer : option StatementNode) (condition increment : ExprPtr)
    (body : StatementNode) : Gen unit :=
  startLabel <- generateLabel "for_start" ;;
  incrementLabel <- generateLabel "for_increment" ;;
  endLabel <- generateLabel "for_end" ;;
  emitScopeEnter ;;
  enterScope ;;
  match initializer with
  | Some s => generate s
  | None => ret tt
  end ;;
  emitLabel startLabel ;;
  match condition with
  | Some _ =>
      condVarId <- generateExpression condition ;;
      compare_with_zero condVarId ;;
      branch_to endLabel
  | None => ret tt
  end ;;
  generate body ;;
  emitLabel incrementLabel ;;
  match increment with
  | Some _ => generateExpression increment ;; ret tt
  | None => ret tt
  end ;;
  branch_to startLabel ;;
  emitLabel endLabel ;;
  leaveScope ;;
  emitScopeLeave.

Fixpoint generateStatement (s : StatementNode) : Gen unit :=
  match s with
  | BlockNode statements => generateBlock_rec generateStatement statements
  | ExpressionStatementNode e => generateExpressionStatement e
  | VariableDeclarationNode ty name init =>
      generateVariableDeclaration ty name init false
  | IfNode c t e => generateIfStatement_rec generateStatement c t e
  | WhileNode c b => generateWhileStatement_rec generateStatement c b
  | DoWhileNode b c => generateDoWhileStatement_rec generateStatement b c
  | ForNode i c u b => generateForStatement_rec generateStatement i c u b
  | ReturnNode v => generateReturnStatement v
  | BreakNode => generateBreakStatement
  | ContinueNode => generateContinueStatement
  end.

Definition generateBlock : list StatementNode -> Gen unit :=
  generateBlock_rec generateStatement.
Definition generateIfStatement := generateIfStatement_rec generateStatement.
Definition generateWhileStatement := generateWhileStatement_rec generateStatement.
Definition generateDoWhileStatement := generateDoWhileStatement_rec generateStatement.
Definition generateForStatement := generateForStatement_rec generateStatement.

(** The parameter loop of [generateFunctionDeclaration]. *)
Fixpoint generate_parameters (i : Z) (params : list ParameterNode) : Gen unit :=
  match params with
  | [] => ret tt
  | param :: rest =>
      (if negb (String.eqb (lexeme (pname param)) EmptyString) then
         paramType <- translateType (ptype param) ;;
         paramVarId <- getNextVarId ;;
         bind_variable (lexeme (pname param)) paramVarId paramType ;;
         push_name (lexeme (pname param)) ;;
         emitVarDeclaration paramVarId paramType 0 ;;
         emitInstruction MOV
           [createVariable paramVarId; createImmediateType T_ABICTL_PARAM;
            createImmediate_uint16 (to_uint16 i)]
       else ret tt) ;;
      generate_parameters (i + 1) rest
  end.

Definition generateFunctionDeclaration (node : FunctionDeclarationNode) : Gen unit :=
  let name := lexeme (fname node) in
  modify (set_currentFunction name) ;;
  text <- gets textSectionIndex ;;
  functionSymbol <- addSymbol name [GLOBAL; FUNCTION_FLAG] text ;;
  emitLabel name ;;
  emitInstruction SYM [createSymbol functionSymbol] ;;
  match fbody node with
  | Some statements =>
      enterScope ;;
      generate_parameters 0 (parameters node) ;;
      generateBlock statements ;;
      f <- gets currentFunction ;;
      (if String.eqb f "main" then
         emitInstruction RET
           [createImmediateType T_ABICTL_RET; createImmediate_int32 0]
       else emitInstruction RET []) ;;
      leaveScope
  | None => ret tt
  end ;;
  modify (set_currentFunction EmptyString).

Fixpoint generateProgram_loop (declarations : list ASTNode) : Gen unit :=
  match declarations with
  | [] => ret tt
  | declaration :: rest =>
      match declaration with
      | FunctionDeclaration f => generateFunctionDeclaration f
      | Statement (VariableDeclarationNode ty name init) =>
          generateVariableDeclaration ty name init true
      | Statement _ => ret tt
      end ;;
      generateProgram_loop rest
  end.

Definition generateProgram (node : ProgramNode) : Gen unit :=
  generateProgram_loop (declarations node).

(** [generate(root)]; the object is read from the final state. *)
Definition generate (root : option ProgramNode) : Gen unit :=
  match root with
  | None => error 0 0 "Empty AST"
  | Some program =>
      initialize ;;
      generateProgram program
  end.

End Generate.

End CodeGenerator.

(** ** main.cpp: the driver

    [compile] is the [try] block of [main] after the command line has been
    read and the input file loaded: the four phases, each followed by the
    [hasErrors] check.  Writing the output file is taken to succeed.  An
    exception that reaches [main] is caught there and gives exit code 1. *)

Inductive Exit : Type :=
| Exited (code : Z) (diagnostics : list ErrorEntry)
| ExitUndefined
| ExitOutOfFuel.

Section Driver.

Variable stof_ok : string -> bool.

Definition compile (inputFile sourceCode : string) : Exit :=
  let errorHandler := Errors.empty_handler in
  (* Lexical analysis *)
  let '(tokens, lexer) := Lexer.tokenize (Lexer.new sourceCode inputFile errorHandler) in
  let errorHandler := Lexer.errorHandler lexer in
  if Errors.hasErrors errorHandler then Exited 1 (errors errorHandler) else
  (* Syntax analysis *)
  match Parser.parse (Parser.fuel_for tokens) (Parser.new tokens errorHandler) with
  | Undefined => ExitUndefined
  | OutOfFuel => ExitOutOfFuel
  | Throw _ parser => Exited 1 (errors (Parser.errorHandler parser))
  | Return ast parser =>
      let errorHandler := Parser.errorHandler parser in
      if Errors.hasErrors errorHandler then Exited 1 (errors errorHandler) else
      (* Semantic analysis *)
      match SemanticAnalyzer.analyze ast (SemanticAnalyzer.new errorHandler) with
      | Undefined => ExitUndefined
      | OutOfFuel => ExitOutOfFuel
      | Throw _ analyzer => Exited 1 (errors (SemanticAnalyzer.errorHandler analyzer))
      | Return _ analyzer =>
          let errorHandler := SemanticAnalyzer.errorHandler analyzer in
          if Errors.hasErrors errorHandler then Exited 1 (errors errorHandler) else
          (* Code generation *)
          match CodeGenerator.generate stof_ok ast (CodeGenerator.new 0 errorHandler) with
          | Undefined => ExitUndefined
          | OutOfFuel => ExitOutOfFuel
          | Throw _ codeGen => Exited 1 (errors (CodeGenerator.errorHandler codeGen))
          | Return _ codeGen =>
              let errorHandler := CodeGenerator.errorHandler codeGen in
              if Errors.hasErrors errorHandler then Exited 1 (errors errorHandler)
              else Exited 0 (errors errorHandler)
          end
      end
  end.

End Driver.


(** * Properties *)

(** ** Reasoning about outcomes *)

Lemma bind_Return {S A B} (m : M S A) (k : A -> M S B) s a s1 :
  m s = Return a s1 -> bind m k s = k a s1.
Proof. unfold bind. intros ->. reflexivity. Qed.

Lemma bind_Return_inv {S A B} (m : M S A) (k : A -> M S B) s b s' :
  bind m k s = Return b s' ->
  exists a s1, m s = Return a s1 /\ k a s1 = Return b s'.
Proof.
  unfold bind. destruct (m s) as [a s1| | |]; try discriminate.
  intros H. exists a, s1. split; [reflexivity | exact H].
Qed.

(** ** The usual arithmetic conversions ([getCommonType]) *)

(** The byte sizes of the data model: every [TypeInfo] the analyzer
    builds for a numeric kind carries the size of that kind. *)
Definition canonical_size (t : TypeInfo) : Prop :=
  match kind t with
  | CHAR => tsize t = 1
  | INT => tsize t = 4
  | FLOAT => tsize t = 4
  | DOUBLE => tsize t = 8
  | _ => True
  end.

Lemma create_canonical :
  canonical_size createVoid /\ canonical_size createChar /\
  canonical_size createInt /\ canonical_size createFloat /\
  canonical_size createDouble.
Proof. repeat split. Qed.

Lemma wrap_pointers_kind n t :
  (0 < n)%nat -> kind (SemanticAnalyzer.wrap_pointers n t) = POINTER.
Proof.
  revert t. induction n as [|n IH]; intros t Hn; [lia|].
  destruct n as [|n]; [reflexivity|]. apply IH. lia.
Qed.

Lemma wrap_pointers_canonical n t :
  canonical_size t -> canonical_size (SemanticAnalyzer.wrap_pointers n t).
Proof.
  destruct n as [|n]; [trivial|]. intros _.
  unfold canonical_size. rewrite wrap_pointers_kind by lia. exact I.
Qed.

(** Types read off a declaration are canonical. *)
Lemma getTypeFromTypeNode_canonical node a t a' :
  SemanticAnalyzer.getTypeFromTypeNode node a = Return t a' -> canonical_size t.
Proof.
  unfold SemanticAnalyzer.getTypeFromTypeNode. intros H.
  apply bind_Return_inv in H as ([k sz] & a1 & Hk & H).
  unfold ret in H. injection H as <- _.
  assert (Hc : canonical_size (mkTypeInfo k (isConst node) (isVolatile node) sz None [])).
  { repeat case_bool_decide; unfold ret in Hk;
      try (injection Hk as <- <- _; reflexivity). }
  destruct (isPointer node); [apply wrap_pointers_canonical|]; exact Hc.
Qed.

(** C6.  For numeric operands carrying the byte size of their kind,
    [getCommonType a b] is a [Double] if either operand is a [Double];
    otherwise a [Float] if either operand is a [Float]; otherwise, both
    being integer types, it is the operand with the larger byte size, the
    left one when the sizes are equal.  The result again carries the size
    of its kind. *)
Theorem getCommonType_usual_arithmetic_conversions (a b : TypeInfo) :
  isNumeric a = true -> isNumeric b = true ->
  canonical_size a -> canonical_size b ->
  let r := SemanticAnalyzer.getCommonType a b in
  (kind a = DOUBLE \/ kind b = DOUBLE -> kind r = DOUBLE) /\
  (kind a <> DOUBLE -> kind b <> DOUBLE ->
   kind a = FLOAT \/ kind b = FLOAT -> kind r = FLOAT) /\
  (isInteger a = true -> isInteger b = true ->
   (tsize b <= tsize a -> r = a) /\ (tsize a < tsize b -> r = b)) /\
  canonical_size r.
Proof.
  intros Ha Hb Ca Cb r. subst r.
  unfold SemanticAnalyzer.getCommonType, isNumeric, isInteger, canonical_size in *.
  destruct a as [ka ca va sa ba pa], b as [kb cb vb sb bb pb]; simpl in *.
  destruct ka, kb; try discriminate Ha; try discriminate Hb; simpl in *;
    subst; simpl; repeat split; intros; try reflexivity; try lia;
    try discriminate; try tauto; try (destruct H; discriminate);
    try (destruct H1; discriminate).
Qed.

Lemma getCommonType_usual_arithmetic_conversions_witness :
  let r := SemanticAnalyzer.getCommonType createChar createInt in
  (kind createChar = DOUBLE \/ kind createInt = DOUBLE -> kind r = DOUBLE) /\
  (kind createChar <> DOUBLE -> kind createInt <> DOUBLE ->
   kind createChar = FLOAT \/ kind createInt = FLOAT -> kind r = FLOAT) /\
  (isInteger createChar = true -> isInteger createInt = true ->
   (tsize createInt <= tsize createChar -> r = createChar) /\
   (tsize createChar < tsize createInt -> r = createInt)) /\
  canonical_size r.
Proof.
  apply (getCommonType_usual_arithmetic_conversions createChar createInt);
    reflexivity.
Defined.

(** ** Undefined identifiers in the semantic analyzer *)

Lemma lookup_from_unbound name st i :
  (forall j frame, (j <= i)%nat -> SymbolTable.scopes st !! j = Some frame ->
                   frame !! name = None) ->
  (i < length (SymbolTable.scopes st))%nat ->
  SymbolTable.lookup_from name i st = Return None st.
Proof.
  induction i as [|i IH]; intros Hfree Hlen; simpl.
  - destruct (SymbolTable.scopes st !! 0%nat) as [frame|] eqn:E.
    + rewrite (Hfree 0%nat frame); [reflexivity | lia | exact E].
    + apply lookup_ge_None in E. lia.
  - destruct (SymbolTable.scopes st !! S i) as [frame|] eqn:E.
    + rewrite (Hfree (S i) frame); [| lia | exact E].
      apply IH; [|lia]. intros j fr Hj. apply Hfree. lia.
    + apply lookup_ge_None in E. lia.
Qed.

(** C7.  A [Variable] expression whose identifier no frame from the
    global one up to the current one binds: the analyzer appends exactly
    one diagnostic, of error severity, with the message
    [Undefined variable '<name>'] at the line and column of the
    identifier, leaves the symbol table as it is, and the type computed
    for the expression is [Void]. *)
Theorem visitVariable_unbound (a : SemanticAnalyzer.SemanticAnalyzer) (name : Token) :
  let st := SemanticAnalyzer.symbolTable a in
  (SymbolTable.currentScope st < length (SymbolTable.scopes st))%nat ->
  (forall i frame, (i <= SymbolTable.currentScope st)%nat ->
     SymbolTable.scopes st !! i = Some frame -> frame !! lexeme name = None) ->
  exists a',
    SemanticAnalyzer.visitExpression (Some (VariableNode name)) a
      = Return createVoid a' /\
    errors (SemanticAnalyzer.errorHandler a')
      = (errors (SemanticAnalyzer.errorHandler a) ++
         [mkErrorEntry ERROR ("Undefined variable '" ++ lexeme name ++ "'")
            (currentFilename (SemanticAnalyzer.errorHandler a))
            (line name) (column name)])%list /\
    hadError (SemanticAnalyzer.errorHandler a') = true /\
    SemanticAnalyzer.symbolTable a' = SemanticAnalyzer.symbolTable a.
Proof.
  intros st Hlen Hfree. eexists.
  unfold SemanticAnalyzer.visitExpression; simpl.
  unfold SemanticAnalyzer.visitVariable, SemanticAnalyzer.on_table,
    SymbolTable.lookup, bind, gets.
  fold st. rewrite (lookup_from_unbound _ st _ Hfree Hlen). simpl.
  repeat split.
Qed.

Definition token_x : Token := mkToken IDENTIFIER "x" "t.c" 1 19.

Lemma visitVariable_unbound_witness :
  exists a',
    SemanticAnalyzer.visitExpression (Some (VariableNode token_x))
      (SemanticAnalyzer.new Errors.empty_handler) = Return createVoid a' /\
    errors (SemanticAnalyzer.errorHandler a')
      = [mkErrorEntry ERROR "Undefined variable 'x'" EmptyString 1 19] /\
    hadError (SemanticAnalyzer.errorHandler a') = true /\
    SemanticAnalyzer.symbolTable a' = SymbolTable.new.
Proof.
  apply (visitVariable_unbound (SemanticAnalyzer.new Errors.empty_handler) token_x).
  - simpl. lia.
  - simpl. intros i frame Hi. assert (i = 0%nat) as -> by lia.
    simpl. intros [= <-]. reflexivity.
Defined.

(** ** Binary operators in the code generator *)

Section CodeGeneratorFacts.

Variable stof_ok : string -> bool.

Lemma generateExpression_Binary lhs op rhs :
  CodeGenerator.generateExpression stof_ok (Some (BinaryNode lhs op rhs)) =
  (leftVarId <- CodeGenerator.generateExpression stof_ok lhs ;;
   rightVarId <- CodeGenerator.generateExpression stof_ok rhs ;;
   CodeGenerator.generateBinary op leftVarId rightVarId).
Proof. reflexivity. Qed.

Definition unimplemented_binary_operators : list TokenType :=
  [OP_LESS; OP_LESS_EQUALS; OP_GREATER; OP_GREATER_EQUALS; OP_EQUALS_EQUALS;
   OP_NOT_EQUALS;
   OP_AMPERSAND; OP_PIPE; OP_CARET; OP_SHL; OP_SHR;
   OP_LOGICAL_AND; OP_LOGICAL_OR].

(** C2, amended.  A [Binary] expression whose operator is a comparison,
    bitwise or logical operator and whose two operands are generated
    without an exception (leaving the generator in state [g2]):
    [generateBinary] appends no instruction, records one diagnostic of
    error severity with the message
    [Binary operator not implemented: <lexeme>] at the operator, and the
    var id returned for the expression is 0. *)
Theorem generateBinary_not_implemented
    (lhs rhs : ExprPtr) (op : Token) (g g1 g2 : CodeGenerator.CodeGenerator)
    (leftVarId rightVarId : Z) :
  type op ∈ unimplemented_binary_operators ->
  CodeGenerator.generateExpression stof_ok lhs g = Return leftVarId g1 ->
  CodeGenerator.generateExpression stof_ok rhs g1 = Return rightVarId g2 ->
  exists g',
    CodeGenerator.generateExpression stof_ok (Some (BinaryNode lhs op rhs)) g
      = Return 0 g' /\
    instructions (CodeGenerator.coilObject g')
      = instructions (CodeGenerator.coilObject g2) /\
    errors (CodeGenerator.errorHandler g')
      = (errors (CodeGenerator.errorHandler g2) ++
         [mkErrorEntry ERROR ("Binary operator not implemented: " ++ lexeme op)
            (currentFilename (CodeGenerator.errorHandler g2))
            (line op) (column op)])%list /\
    hadError (CodeGenerator.errorHandler g') = true.
Proof.
  intros Hop Hl Hr. eexists.
  rewrite generateExpression_Binary.
  rewrite (bind_Return _ _ _ _ _ Hl), (bind_Return _ _ _ _ _ Hr).
  unfold unimplemented_binary_operators in Hop.
  unfold CodeGenerator.generateBinary, bind, CodeGenerator.getNextVarId.
  repeat (apply elem_of_cons in Hop as [Hop|Hop]; [rewrite Hop; simpl; repeat split|]).
  apply elem_of_nil in Hop. contradiction.
Qed.

End CodeGeneratorFacts.

(** The final state of a run that returned. *)
Definition state_after {S A} (o : Outcome S A) (otherwise : S) : S :=
  match o with
  | Return _ s => s
  | _ => otherwise
  end.

Definition token_1 : Token := mkToken INTEGER_LITERAL "1" "t.c" 1 1.
Definition token_less : Token := mkToken OP_LESS "<" "t.c" 1 2.
Definition token_2 : Token := mkToken INTEGER_LITERAL "2" "t.c" 1 3.

Lemma generateBinary_not_implemented_witness :
  let stof_ok := fun _ : string => true in
  let g := CodeGenerator.new 0 Errors.empty_handler in
  let lhs := Some (LiteralNode token_1) in
  let rhs := Some (LiteralNode token_2) in
  let g1 := state_after (CodeGenerator.generateExpression stof_ok lhs g) g in
  let g2 := state_after (CodeGenerator.generateExpression stof_ok rhs g1) g in
  exists g',
    CodeGenerator.generateExpression stof_ok (Some (BinaryNode lhs token_less rhs)) g
      = Return 0 g' /\
    instructions (CodeGenerator.coilObject g')
      = instructions (CodeGenerator.coilObject g2) /\
    errors (CodeGenerator.errorHandler g')
      = (errors (CodeGenerator.errorHandler g2) ++
         [mkErrorEntry ERROR ("Binary operator not implemented: " ++ lexeme token_less)
            (currentFilename (CodeGenerator.errorHandler g2))
            (line token_less) (column token_less)])%list /\
    hadError (CodeGenerator.errorHandler g') = true.
Proof.
  intros stof_ok g lhs rhs g1 g2.
  apply (generateBinary_not_implemented stof_ok lhs rhs token_less g g1 g2 1 2).
  - unfold unimplemented_binary_operators. apply elem_of_cons. left. reflexivity.
  - reflexivity.
  - reflexivity.
Defined.

(** C2, as stated, fails: the operands are generated before the
    operator is looked at, and the generation of an operand can throw.
    In [2147483648 < 1] the conversion of the left literal by
    [std::stoi] throws [std::out_of_range]; the exception leaves
    [generateBinary] before its [switch], so no diagnostic is recorded
    and no var id is returned.  The driver ends with exit code 1 and an
    empty list of diagnostics. *)
Definition token_2147483648 : Token := mkToken INTEGER_LITERAL "2147483648" "t.c" 1 1.

Lemma comparison_of_out_of_range_literal_throws :
  type token_less ∈ unimplemented_binary_operators /\
  (exists what g',
     CodeGenerator.generateExpression (fun _ => true)
       (Some (BinaryNode (Some (LiteralNode token_2147483648)) token_less
                (Some (LiteralNode token_1))))
       (CodeGenerator.new 0 Errors.empty_handler) = Throw what g' /\
     errors (CodeGenerator.errorHandler g') = []) /\
  compile (fun _ => true) "t.c" "void f(){2147483648<1;}" = Exited 1 [].
Proof.
  split; [apply elem_of_cons; left; reflexivity|].
  split; [|vm_compute; reflexivity].
  do 2 eexists. split; vm_compute; reflexivity.
Qed.

(** ** Re-entering a scope frame of the symbol table *)

(** When the frame above the current one already exists, [enterScope]
    makes it the top frame as it stands. *)
Lemma enterScope_existing_frame (st : SymbolTable.SymbolTable) :
  (S (SymbolTable.currentScope st) < length (SymbolTable.scopes st))%nat ->
  SymbolTable.enterScope st
    = Return tt (SymbolTable.mkSymbolTable (SymbolTable.scopes st)
                   (S (SymbolTable.currentScope st))).
Proof.
  intros H. unfold SymbolTable.enterScope, modify.
  destruct (Nat.leb_spec (length (SymbolTable.scopes st)) (S (SymbolTable.currentScope st)));
    [lia | reflexivity].
Qed.

(** C4.  The invariant fails on the code: [leaveScope] keeps the frame it
    leaves and [enterScope] does not clear the frame it re-enters.  After
    [enterScope; addVariable x; leaveScope; enterScope] the new top frame
    still binds [x], and the program [void f(){{int x;}{int x;}}], whose
    two declarations of [x] are in disjoint sibling blocks, is rejected
    with "already declared in this scope". *)
Theorem enterScope_keeps_old_bindings :
  exists st,
    (SymbolTable.enterScope ;;
     SymbolTable.addVariable "x" createInt ;;
     SymbolTable.leaveScope ;;
     SymbolTable.enterScope) SymbolTable.new = Return tt st /\
    SymbolTable.existsInCurrentScope "x" st = Return true st /\
    compile (fun _ => true) "t.c" "void f(){{int x;}{int x;}}"
      = Exited 1 [mkErrorEntry ERROR "Variable ' x' already declared in this scope"
                    EmptyString 1 22].
Proof.
  eexists. split; [vm_compute; reflexivity|].
  split; vm_compute; reflexivity.
Qed.

(** ** [break] and [continue] *)

(** A [break] or [continue] that is not lexically inside a loop. *)
Fixpoint stray_jump (s : StatementNode) : bool :=
  match s with
  | BreakNode | ContinueNode => true
  | BlockNode statements => existsb stray_jump statements
  | IfNode _ thenBranch elseBranch =>
      stray_jump thenBranch ||
      match elseBranch with
      | Some s' => stray_jump s'
      | None => false
      end
  | _ => false
  end.

Definition program_stray_jump (program : ProgramNode) : bool :=
  existsb (fun d => match d with
                    | FunctionDeclaration f =>
                        match fbody f with
                        | Some statements => existsb stray_jump statements
                        | None => false
                        end
                    | Statement _ => false
                    end) (declarations program).

(** The first two phases of [compile]: the AST of a source text. *)
Definition parse_source (inputFile sourceCode : string) : option ProgramNode :=
  let tokens := fst (Lexer.tokenize (Lexer.new sourceCode inputFile Errors.empty_handler)) in
  match Parser.parse (Parser.fuel_for tokens) (Parser.new tokens Errors.empty_handler) with
  | Return ast _ => ast
  | _ => None
  end.

(** C3, as stated, fails: the program [void f(){break;}] has a [break]
    outside any loop, yet compilation records no diagnostic of error
    severity (only a warning) and the driver exits with code 0. *)
Lemma stray_break_compiles :
  exists program diagnostics,
    parse_source "t.c" "void f(){break;}" = Some program /\
    program_stray_jump program = true /\
    compile (fun _ => true) "t.c" "void f(){break;}" = Exited 0 diagnostics /\
    Forall (fun e => level e <> ERROR) diagnostics.
Proof.
  do 2 eexists. split; [vm_compute; reflexivity|].
  split; [reflexivity|]. split; [vm_compute; reflexivity|].
  repeat constructor. discriminate.
Qed.

(** C3, amended.  A [break] or [continue] statement, inside a loop or
    not: the semantic analyzer returns with its state unchanged (no
    diagnostic), and the code generator returns having appended exactly
    one diagnostic, of warning severity ("... statement not fully
    implemented"), without touching the error flag, the instruction
    stream or anything else. *)
Theorem break_continue_only_warn (stof_ok : string -> bool) :
  (forall a, SemanticAnalyzer.visitStatement BreakNode a = Return tt a) /\
  (forall a, SemanticAnalyzer.visitStatement ContinueNode a = Return tt a) /\
  (forall g, exists g',
     CodeGenerator.generateStatement stof_ok BreakNode g = Return tt g' /\
     g' = CodeGenerator.set_errorHandler (CodeGenerator.errorHandler g') g /\
     errors (CodeGenerator.errorHandler g')
       = (errors (CodeGenerator.errorHandler g) ++
          [mkErrorEntry WARNING "Break statement not fully implemented"
             (currentFilename (CodeGenerator.errorHandler g)) 0 0])%list /\
     hadError (CodeGenerator.errorHandler g') = hadError (CodeGenerator.errorHandler g)) /\
  (forall g, exists g',
     CodeGenerator.generateStatement stof_ok ContinueNode g = Return tt g' /\
     g' = CodeGenerator.set_errorHandler (CodeGenerator.errorHandler g') g /\
     errors (CodeGenerator.errorHandler g')
       = (errors (CodeGenerator.errorHandler g) ++
          [mkErrorEntry WARNING "Continue statement not fully implemented"
             (currentFilename (CodeGenerator.errorHandler g)) 0 0])%list /\
     hadError (CodeGenerator.errorHandler g') = hadError (CodeGenerator.errorHandler g)).
Proof.
  repeat split; intros; try (eexists; repeat split).
Qed.

(** ** Compound assignment in the parser *)

Lemma assignment_build_compound (expr value : ExprPtr) (op : Token) :
  Parser.binaryOp_of (type op) <> UNKNOWN ->
  Parser.assignment_build expr op value =
  Some (BinaryNode None
          (mkToken OP_EQUALS "=" (filename op) (line op) (column op))
          (Some (BinaryNode expr
                   (mkToken (Parser.binaryOp_of (type op))
                      (substr (lexeme op) 0 (String.length (lexeme op) - 1))
                      (filename op) (line op) (column op))
                   value))).
Proof.
  intros H. unfold Parser.assignment_build.
  rewrite bool_decide_eq_false_2 by exact H. reflexivity.
Qed.

(** The expression parser run on a source text. *)
Definition parse_expression (sourceCode : string) : Outcome Parser.Parser ExprPtr :=
  let tokens := fst (Lexer.tokenize (Lexer.new sourceCode "t.c" Errors.empty_handler)) in
  Parser.expression (Parser.fuel_for tokens) (Parser.new tokens Errors.empty_handler).

Definition compound_assignments : list (string * TokenType) :=
  [ ("a+=b", OP_PLUS); ("a-=b", OP_MINUS); ("a*=b", OP_STAR); ("a/=b", OP_SLASH);
    ("a%=b", OP_PERCENT); ("a&=b", OP_AMPERSAND); ("a|=b", OP_PIPE);
    ("a^=b", OP_CARET); ("a<<=b", OP_SHL); ("a>>=b", OP_SHR) ].

(** C1.  The code does not build the tree the claim describes: for each
    of the ten compound operators, parsing [a OP= b] returns a [Binary]
    node with operator [=] whose right operand is [a OP b] but whose left
    operand is the null pointer, the subtree for [a] having been moved
    into the right operand. *)
Theorem compound_assignment_left_operand_is_null :
  Forall (fun '(sourceCode, binaryOp) =>
    exists equalsToken binaryToken a b p,
      parse_expression sourceCode
        = Return (Some (BinaryNode None equalsToken
                          (Some (BinaryNode (Some (VariableNode a)) binaryToken
                                   (Some (VariableNode b)))))) p /\
      type equalsToken = OP_EQUALS /\ type binaryToken = binaryOp /\
      lexeme a = "a" /\ lexeme b = "b")
    compound_assignments.
Proof.
  unfold compound_assignments.
  repeat (apply Forall_cons; split;
          [do 5 eexists; split; [vm_compute; reflexivity | repeat split]|]).
  apply Forall_nil. exact I.
Qed.

(** ** Induction on expressions and statements

    The AST is nested through [option] and [list]; the induction
    principles carry the hypothesis to every child pointer. *)

Section ExpressionNode_induction.

Variable P : ExpressionNode -> Prop.

Definition on_ptr (p : ExprPtr) : Prop :=
  match p with
  | Some e => P e
  | None => True
  end.

Hypothesis HLiteral : forall token, P (LiteralNode token).
Hypothesis HVariable : forall name, P (VariableNode name).
Hypothesis HUnary : forall op operand, on_ptr operand -> P (UnaryNode op operand).
Hypothesis HBinary :
  forall lhs op rhs, on_ptr lhs -> on_ptr rhs -> P (BinaryNode lhs op rhs).
Hypothesis HCall :
  forall callee arguments,
    on_ptr callee -> Forall on_ptr arguments -> P (CallNode callee arguments).
Hypothesis HArrayAccess :
  forall array index, on_ptr array -> on_ptr index -> P (ArrayAccessNode array index).
Hypothesis HMemberAccess :
  forall object op member, on_ptr object -> P (MemberAccessNode object op member).
Hypothesis HConditional :
  forall c t f, on_ptr c -> on_ptr t -> on_ptr f -> P (ConditionalNode c t f).

Fixpoint ExpressionNode_nested_ind (e : ExpressionNode) : P e :=
  let ptr (p : ExprPtr) : on_ptr p :=
    match p with
    | Some e' => ExpressionNode_nested_ind e'
    | None => I
    end in
  match e with
  | LiteralNode token => HLiteral token
  | VariableNode name => HVariable name
  | UnaryNode op operand => HUnary op operand (ptr operand)
  | BinaryNode lhs op rhs => HBinary lhs op rhs (ptr lhs) (ptr rhs)
  | CallNode callee arguments =>
      HCall callee arguments (ptr callee)
        ((fix all (l : list ExprPtr) : Forall on_ptr l :=
            match l with
            | [] => List.Forall_nil _
            | p :: rest => List.Forall_cons _ p rest (ptr p) (all rest)
            end) arguments)
  | ArrayAccessNode array index => HArrayAccess array index (ptr array) (ptr index)
  | MemberAccessNode object op member => HMemberAccess object op member (ptr object)
  | ConditionalNode c t f => HConditional c t f (ptr c) (ptr t) (ptr f)
  end.

End ExpressionNode_induction.

Section StatementNode_induction.

Variable P : StatementNode -> Prop.

Hypothesis HExpressionStatement : forall e, P (ExpressionStatementNode e).
Hypothesis HBlock : forall statements, Forall P statements -> P (BlockNode statements).
Hypothesis HVariableDeclaration :
  forall ty name init, P (VariableDeclarationNode ty name init).
Hypothesis HIf :
  forall c t e, P t -> (forall s, e = Some s -> P s) -> P (IfNode c t e).
Hypothesis HWhile : forall c b, P b -> P (WhileNode c b).
Hypothesis HDoWhile : forall b c, P b -> P (DoWhileNode b c).
Hypothesis HFor :
  forall i c u b, (forall s, i = Some s -> P s) -> P b -> P (ForNode i c u b).
Hypothesis HReturn : forall v, P (ReturnNode v).
Hypothesis HBreak : P BreakNode.
Hypothesis HContinue : P ContinueNode.

Fixpoint StatementNode_nested_ind (s : StatementNode) : P s :=
  let opt (o : option StatementNode) : forall s', o = Some s' -> P s' :=
    match o with
    | Some s0 => fun s' H =>
        eq_ind s0 P (StatementNode_nested_ind s0) s'
          (f_equal (fun x => match x with Some y => y | None => s0 end) H)
    | None => fun s' H =>
        False_ind _ (eq_ind None (fun x => match x with None => True | Some _ => False end) I _ H)
    end in
  match s with
  | ExpressionStatementNode e => HExpressionStatement e
  | BlockNode statements =>
      HBlock statements
        ((fix all (l : list StatementNode) : Forall P l :=
            match l with
            | [] => List.Forall_nil _
            | x :: rest => List.Forall_cons _ x rest (StatementNode_nested_ind x) (all rest)
            end) statements)
  | VariableDeclarationNode ty name init => HVariableDeclaration ty name init
  | IfNode c t e => HIf c t e (StatementNode_nested_ind t) (opt e)
  | WhileNode c b => HWhile c b (StatementNode_nested_ind b)
  | DoWhileNode b c => HDoWhile b c (StatementNode_nested_ind b)
  | ForNode i c u b => HFor i c u b (opt i) (StatementNode_nested_ind b)
  | ReturnNode v => HReturn v
  | BreakNode => HBreak
  | ContinueNode => HContinue
  end.

End StatementNode_induction.

(** ** Bindings of the code generator

    [keeps_bindings m]: whenever [m] returns or throws, the [variables]
    map and the [scopeStack] are what they were.  Everything the
    generator does for an expression is of this kind; only declarations,
    parameters and scope exits change the bindings. *)

Definition keeps_bindings {A} (m : CodeGenerator.Gen A) : Prop :=
  forall g,
    match m g with
    | Return _ g' | Throw _ g' =>
        CodeGenerator.variables g' = CodeGenerator.variables g /\
        CodeGenerator.scopeStack g' = CodeGenerator.scopeStack g
    | _ => True
    end.

Lemma keeps_ret {A} (a : A) : keeps_bindings (ret a).
Proof. intros g. split; reflexivity. Qed.

Lemma keeps_throw {A} w : keeps_bindings (@throw _ A w).
Proof. intros g. split; reflexivity. Qed.

Lemma keeps_undefined {A} : keeps_bindings (@undefined _ A).
Proof. intros g. exact I. Qed.

Lemma keeps_bind {A B} (m : CodeGenerator.Gen A) (k : A -> CodeGenerator.Gen B) :
  keeps_bindings m -> (forall a, keeps_bindings (k a)) -> keeps_bindings (bind m k).
Proof.
  intros Hm Hk g. unfold bind. specialize (Hm g).
  destruct (m g) as [a g1|w g1| |]; try exact Hm; try exact I.
  specialize (Hk a g1). destruct Hm as [Hv Hs].
  destruct (k a g1); try exact I; rewrite <- Hv, <- Hs; exact Hk.
Qed.

Lemma keeps_gets {A} (f : CodeGenerator.CodeGenerator -> A) : keeps_bindings (gets f).
Proof. intros g. split; reflexivity. Qed.

Lemma keeps_error l c msg : keeps_bindings (CodeGenerator.error l c msg).
Proof. intros g. split; reflexivity. Qed.

Lemma keeps_warning l c msg : keeps_bindings (CodeGenerator.warning l c msg).
Proof. intros g. split; reflexivity. Qed.

Lemma keeps_getNextVarId : keeps_bindings CodeGenerator.getNextVarId.
Proof. intros g. split; reflexivity. Qed.

Lemma keeps_emitInstruction op ops : keeps_bindings (CodeGenerator.emitInstruction op ops).
Proof. intros g. split; reflexivity. Qed.

Lemma keeps_emitVarDeclaration v ty i :
  keeps_bindings (CodeGenerator.emitVarDeclaration v ty i).
Proof. intros g. split; reflexivity. Qed.

Lemma keeps_generateLabel prefix : keeps_bindings (CodeGenerator.generateLabel prefix).
Proof. intros g. split; reflexivity. Qed.

Lemma keeps_addSymbol name attrs sec :
  keeps_bindings (CodeGenerator.addSymbol name attrs sec).
Proof.
  intros g. unfold CodeGenerator.addSymbol.
  destruct (negb _); [split; reflexivity|].
  destruct (Coil.addSymbol _ _). split; reflexivity.
Qed.

Create HintDb keeps.
#[local] Hint Resolve keeps_ret keeps_throw keeps_undefined keeps_gets keeps_error
  keeps_warning keeps_getNextVarId keeps_emitInstruction keeps_emitVarDeclaration
  keeps_generateLabel keeps_addSymbol : keeps.

(** Splits a monadic term along its binds and case distinctions. *)
Ltac keeps_step :=
  match goal with
  | |- keeps_bindings (bind _ _) => apply keeps_bind; [|intros]
  | |- keeps_bindings (match ?x with _ => _ end) => destruct x
  | |- keeps_bindings (let _ := _ in _) => cbv zeta
  | |- keeps_bindings _ => solve [auto with keeps]
  end.

Ltac keeps_auto := repeat keeps_step.

Lemma keeps_emitLabel label : keeps_bindings (CodeGenerator.emitLabel label).
Proof. unfold CodeGenerator.emitLabel. keeps_auto. Qed.

Lemma keeps_branch_to label : keeps_bindings (CodeGenerator.branch_to label).
Proof. unfold CodeGenerator.branch_to. keeps_auto. Qed.

Lemma keeps_compare_with_zero v : keeps_bindings (CodeGenerator.compare_with_zero v).
Proof. unfold CodeGenerator.compare_with_zero. keeps_auto. Qed.

#[local] Hint Resolve keeps_emitLabel keeps_branch_to keeps_compare_with_zero : keeps.

Section CodeGeneratorBindings.

Variable stof_ok : string -> bool.

Lemma keeps_generateLiteral token :
  keeps_bindings (CodeGenerator.generateLiteral stof_ok token).
Proof. unfold CodeGenerator.generateLiteral. keeps_auto. Qed.

Lemma keeps_generateVariable name :
  keeps_bindings (CodeGenerator.generateVariable name).
Proof. unfold CodeGenerator.generateVariable. keeps_auto. Qed.

Lemma keeps_generateUnary op v : keeps_bindings (CodeGenerator.generateUnary op v).
Proof. unfold CodeGenerator.generateUnary. keeps_auto. Qed.

Lemma keeps_generateBinary op l r :
  keeps_bindings (CodeGenerator.generateBinary op l r).
Proof. unfold CodeGenerator.generateBinary. keeps_auto. Qed.

Lemma keeps_generateCall_emit f ids :
  keeps_bindings (CodeGenerator.generateCall_emit f ids).
Proof. unfold CodeGenerator.generateCall_emit. keeps_auto. Qed.

Lemma keeps_generate_arguments generate arguments :
  Forall (fun p => keeps_bindings (generate p)) arguments ->
  keeps_bindings (CodeGenerator.generate_arguments generate arguments).
Proof.
  induction 1 as [|p rest Hp _ IH]; simpl; keeps_auto; assumption.
Qed.

#[local] Hint Resolve keeps_generateLiteral keeps_generateVariable
  keeps_generateUnary keeps_generateBinary keeps_generateCall_emit : keeps.

Lemma keeps_generateExpression_ptr (p : ExprPtr) :
  on_ptr (fun e => keeps_bindings (CodeGenerator.generateExpressionNode stof_ok e)) p ->
  keeps_bindings (CodeGenerator.generateExpression stof_ok p).
Proof.
  destruct p as [e|]; simpl; intros H; [exact H|]. keeps_auto.
Qed.

Lemma keeps_generateExpressionNode (e : ExpressionNode) :
  keeps_bindings (CodeGenerator.generateExpressionNode stof_ok e).
Proof.
  induction e using ExpressionNode_nested_ind; simpl;
    repeat match goal with
           | H : on_ptr _ _ |- _ => apply keeps_generateExpression_ptr in H
           end;
    try solve [keeps_auto; assumption].
  - (* CallNode *)
    destruct callee as [[]|]; keeps_auto.
    apply keeps_generate_arguments.
    eapply Forall_impl; [eassumption|].
    intros p Hp. apply keeps_generateExpression_ptr in Hp. exact Hp.
Qed.

Lemma keeps_generateExpression (p : ExprPtr) :
  keeps_bindings (CodeGenerator.generateExpression stof_ok p).
Proof.
  apply keeps_generateExpression_ptr. destruct p; simpl; [|exact I].
  apply keeps_generateExpressionNode.
Qed.

End CodeGeneratorBindings.

(** ** Shadowing in the code generator *)

Lemma lookup_foldl_delete (names : list string) (m : gmap string Variable_) name :
  foldl (fun vars varName => delete varName vars) m names !! name
  = if bool_decide (name ∈ names) then None else m !! name.
Proof.
  revert m. induction names as [|n names IH]; intros m; simpl.
  - reflexivity.
  - rewrite IH. destruct (decide (name = n)) as [->|Hne].
    + rewrite lookup_delete_eq.
      rewrite (bool_decide_eq_true_2 (n ∈ n :: names)) by (apply elem_of_cons; auto).
      destruct (bool_decide _); reflexivity.
    + rewrite lookup_delete_ne by congruence.
      destruct (decide (name ∈ names)) as [Hin|Hnin].
      * rewrite !bool_decide_eq_true_2; auto. apply elem_of_cons; auto.
      * rewrite !bool_decide_eq_false_2; auto.
        rewrite elem_of_cons. tauto.
Qed.

(** The semantic phase of [compile] on a source text: the analyzer after
    [analyze], when it returned. *)
Definition analyze_source (inputFile sourceCode : string)
  : option SemanticAnalyzer.SemanticAnalyzer :=
  match SemanticAnalyzer.analyze (parse_source inputFile sourceCode)
          (SemanticAnalyzer.new Errors.empty_handler) with
  | Return _ a => Some a
  | _ => None
  end.

Section Shadowing.

Variable stof_ok : string -> bool.

Lemma translateType_state typeNode g ty g1 :
  CodeGenerator.translateType typeNode g = Return ty g1 ->
  g1 = CodeGenerator.set_errorHandler (CodeGenerator.errorHandler g1) g.
Proof.
  unfold CodeGenerator.translateType.
  repeat case_bool_decide; try (intros [= <- <-]; destruct g; reflexivity).
Qed.

(** A local declaration binds the name to a fresh var id, whatever the
    name was bound to before. *)
Lemma generateVariableDeclaration_binds vtype name init g g' :
  CodeGenerator.generateVariableDeclaration stof_ok vtype name init false g
    = Return tt g' ->
  exists ty,
    CodeGenerator.variables g' !! lexeme name
      = Some (mkVariable (lexeme name) (CodeGenerator.nextVarId g) ty).
Proof.
  unfold CodeGenerator.generateVariableDeclaration. intros H.
  apply bind_Return_inv in H as (ty & g1 & Hty & H).
  apply translateType_state in Hty.
  apply bind_Return_inv in H as (v & g2 & Hv & H).
  apply bind_Return_inv in H as ([] & g3 & Hb & H).
  apply bind_Return_inv in H as ([] & g4 & Hp & H).
  exists ty.
  assert (Hk : CodeGenerator.variables g' = CodeGenerator.variables g4).
  { set (tail := match init with Some _ => _ | None => _ end) in H.
    assert (Hkeeps : keeps_bindings tail).
    { subst tail. destruct init; keeps_auto. apply keeps_generateExpression. }
    specialize (Hkeeps g4). rewrite H in Hkeeps. apply Hkeeps. }
  rewrite Hk.
  unfold CodeGenerator.push_name in Hp.
  destruct (CodeGenerator.scopeStack g3); [discriminate|]. injection Hp as <-.
  unfold CodeGenerator.bind_variable, modify in Hb. injection Hb as <-.
  unfold CodeGenerator.getNextVarId in Hv. injection Hv as <- <-.
  simpl. rewrite lookup_insert_eq. rewrite Hty. reflexivity.
Qed.

(** Leaving a scope erases every name declared in it. *)
Lemma leaveScope_erases g top rest name :
  CodeGenerator.scopeStack g = top :: rest -> name ∈ top ->
  exists g',
    CodeGenerator.leaveScope g = Return tt g' /\
    CodeGenerator.scopeStack g' = rest /\
    CodeGenerator.variables g' !! name = None.
Proof.
  intros Hs Hin. eexists. unfold CodeGenerator.leaveScope, modify. rewrite Hs.
  split; [reflexivity|]. split; [reflexivity|]. simpl.
  rewrite lookup_foldl_delete. rewrite bool_decide_eq_true_2 by exact Hin.
  reflexivity.
Qed.


End Shadowing.

Definition token_int : Token := mkToken KW_INT "int" "t.c" 1 1.
Definition int_type : TypeNode := mkTypeNode token_int false false false 0.
Definition in_scope (g : CodeGenerator.CodeGenerator) : CodeGenerator.CodeGenerator :=
  state_after (CodeGenerator.enterScope g) g.


(** ** The symbol table during semantic analysis

    [keeps_table m]: whenever [m] returns or throws, the symbol table is
    what it was.  Visiting an expression is of this kind. *)

Definition keeps_table {A} (m : SemanticAnalyzer.Sem A) : Prop :=
  forall a,
    match m a with
    | Return _ a' | Throw _ a' =>
        SemanticAnalyzer.symbolTable a' = SemanticAnalyzer.symbolTable a
    | _ => True
    end.

Lemma keeps_table_ret {A} (x : A) : keeps_table (ret x).
Proof. intros a. reflexivity. Qed.

Lemma keeps_table_undefined {A} : keeps_table (@undefined _ A).
Proof. intros a. exact I. Qed.

Lemma keeps_table_bind {A B} (m : SemanticAnalyzer.Sem A)
    (k : A -> SemanticAnalyzer.Sem B) :
  keeps_table m -> (forall x, keeps_table (k x)) -> keeps_table (bind m k).
Proof.
  intros Hm Hk a. unfold bind. specialize (Hm a).
  destruct (m a) as [x a1|w a1| |]; try exact Hm; try exact I.
  specialize (Hk x a1). destruct (k x a1); try exact I; congruence.
Qed.

Lemma keeps_table_gets {A} (f : SemanticAnalyzer.SemanticAnalyzer -> A) :
  keeps_table (gets f).
Proof. intros a. reflexivity. Qed.

Lemma keeps_table_error l c msg : keeps_table (SemanticAnalyzer.error l c msg).
Proof. intros a. reflexivity. Qed.

Lemma keeps_table_warning l c msg : keeps_table (SemanticAnalyzer.warning l c msg).
Proof. intros a. reflexivity. Qed.

Lemma keeps_table_set_hasReturn b : keeps_table (SemanticAnalyzer.set_hasReturn b).
Proof. intros a. reflexivity. Qed.

Lemma keeps_table_set_currentFunctionReturnType r :
  keeps_table (SemanticAnalyzer.set_currentFunctionReturnType r).
Proof. intros a. reflexivity. Qed.

Lemma keeps_table_compatible s t : keeps_table (SemanticAnalyzer.compatible s t).
Proof.
  intros a. unfold SemanticAnalyzer.compatible.
  destruct (SemanticAnalyzer.areTypesCompatible s t); [reflexivity | exact I].
Qed.

Lemma keeps_table_deref_base t : keeps_table (SemanticAnalyzer.deref_base t).
Proof.
  intros a. unfold SemanticAnalyzer.deref_base.
  destruct (base t); [reflexivity | exact I].
Qed.

Lemma lookup_from_state name i st :
  match SymbolTable.lookup_from name i st with
  | Return _ st' | Throw _ st' => st' = st
  | _ => True
  end.
Proof.
  induction i as [|i IH]; simpl;
    destruct (SymbolTable.scopes st !! _); try exact I;
    destruct (_ !! name); try reflexivity.
  exact IH.
Qed.

Lemma keeps_table_lookup name :
  keeps_table (SemanticAnalyzer.on_table (SymbolTable.lookup name)).
Proof.
  intros a. unfold SemanticAnalyzer.on_table, SymbolTable.lookup, bind, gets.
  pose proof (lookup_from_state name
                (SymbolTable.currentScope (SemanticAnalyzer.symbolTable a))
                (SemanticAnalyzer.symbolTable a)) as H.
  destruct (SymbolTable.lookup_from _ _ _); try exact I; simpl; exact H.
Qed.

Lemma keeps_table_existsInCurrentScope name :
  keeps_table (SemanticAnalyzer.on_table (SymbolTable.existsInCurrentScope name)).
Proof.
  intros a. unfold SemanticAnalyzer.on_table, SymbolTable.existsInCurrentScope.
  destruct (_ !! _); [reflexivity | exact I].
Qed.

Create HintDb keeps_table.
#[local] Hint Resolve keeps_table_ret keeps_table_undefined keeps_table_gets
  keeps_table_error keeps_table_warning keeps_table_set_hasReturn
  keeps_table_set_currentFunctionReturnType keeps_table_compatible
  keeps_table_deref_base keeps_table_lookup keeps_table_existsInCurrentScope
  : keeps_table.

Ltac keeps_table_step :=
  match goal with
  | |- keeps_table (bind _ _) => apply keeps_table_bind; [|intros]
  | |- keeps_table (match ?x with _ => _ end) => destruct x
  | |- keeps_table (let _ := _ in _) => cbv zeta
  | |- keeps_table _ => solve [auto with keeps_table]
  end.

Ltac keeps_table_auto := repeat keeps_table_step.

Lemma keeps_table_getTypeFromTypeNode node :
  keeps_table (SemanticAnalyzer.getTypeFromTypeNode node).
Proof. unfold SemanticAnalyzer.getTypeFromTypeNode. keeps_table_auto. Qed.

Lemma keeps_table_visitLiteral token : keeps_table (SemanticAnalyzer.visitLiteral token).
Proof. unfold SemanticAnalyzer.visitLiteral. keeps_table_auto. Qed.

Lemma keeps_table_visitVariable name : keeps_table (SemanticAnalyzer.visitVariable name).
Proof. unfold SemanticAnalyzer.visitVariable. keeps_table_auto. Qed.

Lemma keeps_table_visitUnary op t : keeps_table (SemanticAnalyzer.visitUnary op t).
Proof. unfold SemanticAnalyzer.visitUnary. keeps_table_auto. Qed.

Lemma keeps_table_visitBinary op l r : keeps_table (SemanticAnalyzer.visitBinary op l r).
Proof. unfold SemanticAnalyzer.visitBinary. keeps_table_auto. Qed.

Lemma keeps_table_visitMemberAccess op t :
  keeps_table (SemanticAnalyzer.visitMemberAccess op t).
Proof. unfold SemanticAnalyzer.visitMemberAccess. keeps_table_auto. Qed.

Lemma keeps_table_visitConditional_types t f :
  keeps_table (SemanticAnalyzer.visitConditional_types t f).
Proof. unfold SemanticAnalyzer.visitConditional_types. keeps_table_auto. Qed.

#[local] Hint Resolve keeps_table_getTypeFromTypeNode keeps_table_visitLiteral
  keeps_table_visitVariable keeps_table_visitUnary keeps_table_visitBinary
  keeps_table_visitMemberAccess keeps_table_visitConditional_types : keeps_table.

Lemma keeps_table_visitCall_arguments visit arguments params :
  Forall (fun p => keeps_table (visit p)) arguments ->
  keeps_table (SemanticAnalyzer.visitCall_arguments visit arguments params).
Proof.
  intros H. revert params.
  induction H as [|p rest Hp _ IH]; intros params; simpl;
    keeps_table_auto; auto.
Qed.

Lemma keeps_table_visitExpression_ptr (p : ExprPtr) :
  on_ptr (fun e => keeps_table (SemanticAnalyzer.visitExpressionNode e)) p ->
  keeps_table (SemanticAnalyzer.visitExpression p).
Proof.
  destruct p as [e|]; simpl; intros H; [exact H|]. keeps_table_auto.
Qed.

Lemma keeps_table_visitExpressionNode (e : ExpressionNode) :
  keeps_table (SemanticAnalyzer.visitExpressionNode e).
Proof.
  induction e using ExpressionNode_nested_ind; simpl;
    repeat match goal with
           | H : on_ptr _ _ |- _ => apply keeps_table_visitExpression_ptr in H
           end;
    try solve [keeps_table_auto; assumption].
  - (* CallNode *)
    keeps_table_auto; try assumption.
    apply keeps_table_visitCall_arguments.
    eapply Forall_impl; [eassumption|].
    intros p Hp. apply keeps_table_visitExpression_ptr in Hp. exact Hp.
Qed.

Lemma keeps_table_visitExpression (p : ExprPtr) :
  keeps_table (SemanticAnalyzer.visitExpression p).
Proof.
  apply keeps_table_visitExpression_ptr. destruct p; simpl; [|exact I].
  apply keeps_table_visitExpressionNode.
Qed.

#[local] Hint Resolve keeps_table_visitExpression : keeps_table.

Lemma keeps_table_visitExpressionStatement e :
  keeps_table (SemanticAnalyzer.visitExpressionStatement e).
Proof. unfold SemanticAnalyzer.visitExpressionStatement. keeps_table_auto. Qed.

Lemma keeps_table_visitReturnStatement v :
  keeps_table (SemanticAnalyzer.visitReturnStatement v).
Proof. unfold SemanticAnalyzer.visitReturnStatement. keeps_table_auto. Qed.

Lemma keeps_table_check_condition what c :
  keeps_table (SemanticAnalyzer.check_condition what c).
Proof. unfold SemanticAnalyzer.check_condition. keeps_table_auto. Qed.

Lemma keeps_table_param_types params :
  keeps_table (SemanticAnalyzer.param_types params).
Proof. induction params; simpl; keeps_table_auto; assumption. Qed.

#[local] Hint Resolve keeps_table_visitExpressionStatement
  keeps_table_visitReturnStatement keeps_table_check_condition
  keeps_table_param_types : keeps_table.

(** *** The bottom frame

    [bottom_kept d d' m]: started at scope depth [d] on a table whose
    bottom frame is [F], [m] returns at depth [d'] with the same bottom
    frame (and if it throws, the bottom frame is still [F]). *)

Section BottomFrame.

Variable F : option (gmap string SymbolInfo).

Definition at_depth (d : nat) (a : SemanticAnalyzer.SemanticAnalyzer) : Prop :=
  let st := SemanticAnalyzer.symbolTable a in
  SymbolTable.scopes st !! 0%nat = F /\
  SymbolTable.currentScope st = d /\
  (d < length (SymbolTable.scopes st))%nat.

Definition bottom_kept {A} (d d' : nat) (m : SemanticAnalyzer.Sem A) : Prop :=
  forall a, at_depth d a ->
    match m a with
    | Return _ a' => at_depth d' a'
    | Throw _ a' =>
        SymbolTable.scopes (SemanticAnalyzer.symbolTable a') !! 0%nat = F
    | _ => True
    end.

Lemma bottom_kept_bind {A B} d d1 d2 (m : SemanticAnalyzer.Sem A)
    (k : A -> SemanticAnalyzer.Sem B) :
  bottom_kept d d1 m -> (forall x, bottom_kept d1 d2 (k x)) ->
  bottom_kept d d2 (bind m k).
Proof.
  intros Hm Hk a Ha. unfold bind. specialize (Hm a Ha).
  destruct (m a) as [x a1|w a1| |]; try exact Hm; try exact I.
  exact (Hk x a1 Hm).
Qed.

Lemma bottom_kept_keeps_table {A} d (m : SemanticAnalyzer.Sem A) :
  keeps_table m -> bottom_kept d d m.
Proof.
  intros Hm a Ha. specialize (Hm a). unfold at_depth in *.
  destruct (m a); try exact I; rewrite Hm; [exact Ha | apply Ha].
Qed.

Lemma bottom_kept_ret {A} d (x : A) : bottom_kept d d (ret x).
Proof. apply bottom_kept_keeps_table, keeps_table_ret. Qed.

Lemma bottom_kept_enterScope d :
  bottom_kept d (S d) (SemanticAnalyzer.on_table SymbolTable.enterScope).
Proof.
  intros a (H0 & Hd & Hlen). unfold at_depth. simpl. rewrite Hd.
  destruct (Nat.leb_spec (length (SymbolTable.scopes (SemanticAnalyzer.symbolTable a))) (S d)).
  - rewrite lookup_app_l by lia. rewrite length_app. simpl.
    repeat split; [exact H0 | lia].
  - repeat split; [exact H0 | lia].
Qed.

Lemma bottom_kept_leaveScope d :
  bottom_kept (S d) d (SemanticAnalyzer.on_table SymbolTable.leaveScope).
Proof.
  intros a (H0 & Hd & Hlen). unfold at_depth, SemanticAnalyzer.on_table,
    SymbolTable.leaveScope. rewrite Hd. simpl.
  repeat split; [exact H0 | lia].
Qed.

Lemma bottom_kept_assign d name sym :
  (1 <= d)%nat ->
  bottom_kept d d (SemanticAnalyzer.on_table (SymbolTable.assign d name sym)).
Proof.
  intros Hd a (H0 & Hc & Hlen). unfold at_depth, SemanticAnalyzer.on_table,
    SymbolTable.assign.
  destruct (SymbolTable.scopes (SemanticAnalyzer.symbolTable a) !! d) eqn:E;
    [|exact I].
  simpl. rewrite list_lookup_insert_ne by lia. rewrite length_insert.
  repeat split; assumption.
Qed.

Lemma bottom_kept_addVariable d name ty :
  (1 <= d)%nat ->
  bottom_kept d d (SemanticAnalyzer.on_table (SymbolTable.addVariable name ty)).
Proof.
  intros Hd a Ha. pose proof (bottom_kept_assign d name
    (mkSymbolInfo VARIABLE ty name d) Hd a Ha) as H.
  destruct Ha as (_ & Hc & _).
  unfold SemanticAnalyzer.on_table, SymbolTable.addVariable, bind, gets in *.
  rewrite Hc. exact H.
Qed.

Lemma bottom_kept_addParameter d name ty :
  (1 <= d)%nat ->
  bottom_kept d d (SemanticAnalyzer.on_table (SymbolTable.addParameter name ty)).
Proof.
  intros Hd a Ha. pose proof (bottom_kept_assign d name
    (mkSymbolInfo PARAMETER ty name d) Hd a Ha) as H.
  destruct Ha as (_ & Hc & _).
  unfold SemanticAnalyzer.on_table, SymbolTable.addParameter, bind, gets in *.
  rewrite Hc. exact H.
Qed.

Ltac bottom_step :=
  match goal with
  | |- bottom_kept ?d ?d (bind _ _) => apply (bottom_kept_bind d d d); [|intros]
  | |- bottom_kept _ _ (match ?x with _ => _ end) => destruct x
  | |- bottom_kept ?d ?d _ =>
      solve [apply bottom_kept_keeps_table; auto with keeps_table
            | apply bottom_kept_addVariable; assumption
            | apply bottom_kept_addParameter; assumption
            | auto]
  end.

Lemma bottom_kept_visitVariableDeclaration d ty name init :
  (1 <= d)%nat ->
  bottom_kept d d (SemanticAnalyzer.visitVariableDeclaration ty name init).
Proof.
  intros Hd. unfold SemanticAnalyzer.visitVariableDeclaration.
  repeat bottom_step.
Qed.

Lemma bottom_kept_visitParameter d p :
  (1 <= d)%nat -> bottom_kept d d (SemanticAnalyzer.visitParameter p).
Proof.
  intros Hd. unfold SemanticAnalyzer.visitParameter. repeat bottom_step.
Qed.

Lemma bottom_kept_visit_parameters d params :
  (1 <= d)%nat -> bottom_kept d d (SemanticAnalyzer.visit_parameters params).
Proof.
  intros Hd. induction params; simpl; repeat bottom_step.
  apply bottom_kept_visitParameter. exact Hd.
Qed.

Definition balanced (visit : StatementNode -> SemanticAnalyzer.Sem unit)
    (s : StatementNode) : Prop :=
  forall d, (1 <= d)%nat -> bottom_kept d d (visit s).

Lemma bottom_kept_visit_each visit statements d :
  Forall (balanced visit) statements -> (1 <= d)%nat ->
  bottom_kept d d (SemanticAnalyzer.visit_each visit statements).
Proof.
  intros H Hd. induction H as [|s rest Hs _ IH]; simpl; repeat bottom_step.
Qed.

Lemma bottom_kept_visitBlock_rec visit statements d :
  Forall (balanced visit) statements ->
  bottom_kept d d (SemanticAnalyzer.visitBlock_rec visit statements).
Proof.
  intros H. unfold SemanticAnalyzer.visitBlock_rec.
  apply (bottom_kept_bind d (S d) d); [apply bottom_kept_enterScope|intros _].
  apply (bottom_kept_bind (S d) (S d) d); [|intros _; apply bottom_kept_leaveScope].
  apply bottom_kept_visit_each; [exact H | lia].
Qed.

Lemma bottom_kept_scoped visit s d :
  balanced visit s ->
  bottom_kept d d
    (SemanticAnalyzer.on_table SymbolTable.enterScope ;;
     visit s ;;
     SemanticAnalyzer.on_table SymbolTable.leaveScope).
Proof.
  intros H.
  apply (bottom_kept_bind d (S d) d); [apply bottom_kept_enterScope|intros _].
  apply (bottom_kept_bind (S d) (S d) d); [|intros _; apply bottom_kept_leaveScope].
  apply H. lia.
Qed.

Lemma bottom_kept_visitNested s d :
  (1 <= d)%nat -> balanced SemanticAnalyzer.visitStatement s ->
  bottom_kept d d (SemanticAnalyzer.visitNested SemanticAnalyzer.visitStatement s).
Proof.
  intros Hd H. unfold SemanticAnalyzer.visitNested.
  destruct s; try (apply bottom_kept_scoped; exact H).
  exact (H d Hd).
Qed.

Lemma balanced_visitStatement s : balanced SemanticAnalyzer.visitStatement s.
Proof.
  induction s using StatementNode_nested_ind; intros d Hd; simpl.
  - apply bottom_kept_keeps_table. auto with keeps_table.
  - apply bottom_kept_visitBlock_rec. assumption.
  - apply bottom_kept_visitVariableDeclaration. exact Hd.
  - unfold SemanticAnalyzer.visitIfStatement_rec.
    apply (bottom_kept_bind d d d);
      [apply bottom_kept_keeps_table; auto with keeps_table|intros _].
    apply (bottom_kept_bind d d d);
      [apply bottom_kept_visitNested; assumption|intros _].
    destruct e as [s'|]; [|apply bottom_kept_ret].
    apply bottom_kept_visitNested; [exact Hd|]. apply H. reflexivity.
  - unfold SemanticAnalyzer.visitWhileStatement_rec.
    apply (bottom_kept_bind d d d);
      [apply bottom_kept_keeps_table; auto with keeps_table|intros _].
    apply bottom_kept_visitNested; assumption.
  - unfold SemanticAnalyzer.visitDoWhileStatement_rec.
    apply (bottom_kept_bind d d d);
      [apply bottom_kept_visitNested; assumption|intros _].
    apply bottom_kept_keeps_table; auto with keeps_table.
  - unfold SemanticAnalyzer.visitForStatement_rec.
    apply (bottom_kept_bind d (S d) d); [apply bottom_kept_enterScope|intros _].
    apply (bottom_kept_bind (S d) (S d) d).
    { destruct i as [[]|]; try apply bottom_kept_ret.
      - apply bottom_kept_keeps_table. auto with keeps_table.
      - apply bottom_kept_visitVariableDeclaration. lia. }
    intros _. apply (bottom_kept_bind (S d) (S d) d).
    { destruct c; [|apply bottom_kept_ret].
      apply bottom_kept_keeps_table. auto with keeps_table. }
    intros _. apply (bottom_kept_bind (S d) (S d) d).
    { destruct u; [|apply bottom_kept_ret].
      apply bottom_kept_keeps_table. keeps_table_auto. }
    intros _. apply (bottom_kept_bind (S d) (S d) d);
      [|intros _; apply bottom_kept_leaveScope].
    apply bottom_kept_visitNested; [lia | assumption].
  - apply bottom_kept_keeps_table. auto with keeps_table.
  - apply bottom_kept_ret.
  - apply bottom_kept_ret.
Qed.

End BottomFrame.

(** *** Registration of functions *)

Lemma getTypeFromTypeNode_returns node a :
  exists t a',
    SemanticAnalyzer.getTypeFromTypeNode node a = Return t a' /\
    SemanticAnalyzer.symbolTable a' = SemanticAnalyzer.symbolTable a.
Proof.
  unfold SemanticAnalyzer.getTypeFromTypeNode.
  repeat case_bool_decide; do 2 eexists; split; reflexivity.
Qed.

Lemma param_types_returns params a :
  exists ts a',
    SemanticAnalyzer.param_types params a = Return ts a' /\
    SemanticAnalyzer.symbolTable a' = SemanticAnalyzer.symbolTable a.
Proof.
  revert a. induction params as [|p rest IH]; intros a; simpl.
  - do 2 eexists. split; reflexivity.
  - destruct (getTypeFromTypeNode_returns (ptype p) a) as (t & a1 & Ht & Hs1).
    destruct (IH a1) as (ts & a2 & Hts & Hs2).
    exists (t :: ts), a2. unfold bind. rewrite Ht, Hts.
    split; [reflexivity | congruence].
Qed.

Lemma on_table_existsInCurrentScope name a b st :
  SemanticAnalyzer.symbolTable a = st ->
  SymbolTable.existsInCurrentScope name st = Return b st ->
  SemanticAnalyzer.on_table (SymbolTable.existsInCurrentScope name) a = Return b a.
Proof.
  intros <- H. unfold SemanticAnalyzer.on_table. rewrite H.
  destruct a; reflexivity.
Qed.

Definition function_symbol (name : string) (ty : TypeInfo) : SymbolInfo :=
  mkSymbolInfo FUNCTION_SYMBOL ty name 0.

(** C8, amended.  (1) [addFunction] writes the symbol, with scope level
    0, into the bottom frame whatever the current scope depth is, and
    changes nothing else.  (2) A function declaration whose name is not
    yet declared in the current scope: when the visit is over (by return
    or by exception) the bottom frame is the one before the visit with
    the name bound to a function symbol of level 0; this holds at every
    scope depth.  (3) A function declaration whose name is already
    declared in the current scope is not registered: the visit records an
    error and leaves the symbol table as it was. *)
Theorem function_registered_in_bottom_frame :
  (forall st name ty frame,
     SymbolTable.scopes st !! 0%nat = Some frame ->
     SymbolTable.addFunction name ty st
       = Return tt
           (SymbolTable.mkSymbolTable
              (<[0%nat := <[name := function_symbol name ty]> frame]> (SymbolTable.scopes st))
              (SymbolTable.currentScope st))) /\
  (forall node a frame,
     let st := SemanticAnalyzer.symbolTable a in
     let name := lexeme (fname node) in
     SymbolTable.scopes st !! 0%nat = Some frame ->
     (SymbolTable.currentScope st < length (SymbolTable.scopes st))%nat ->
     SymbolTable.existsInCurrentScope name st = Return false st ->
     match SemanticAnalyzer.visitFunctionDeclaration node a with
     | Return _ a' | Throw _ a' =>
         exists ty,
           kind ty = FUNCTION /\
           SymbolTable.scopes (SemanticAnalyzer.symbolTable a') !! 0%nat
             = Some (<[name := function_symbol name ty]> frame)
     | _ => True
     end) /\
  (forall node a,
     let st := SemanticAnalyzer.symbolTable a in
     SymbolTable.existsInCurrentScope (lexeme (fname node)) st = Return true st ->
     exists a',
       SemanticAnalyzer.visitFunctionDeclaration node a = Return tt a' /\
       SemanticAnalyzer.symbolTable a' = st /\
       hadError (SemanticAnalyzer.errorHandler a') = true).
Proof.
  split; [|split].
  - intros st name ty frame H0.
    unfold SymbolTable.addFunction, SymbolTable.assign. rewrite H0. reflexivity.
  - intros node a frame st name H0 Hlen Hfree.
    unfold SemanticAnalyzer.visitFunctionDeclaration.
    destruct (getTypeFromTypeNode_returns (returnType node) a) as (rt & a1 & Hrt & Hs1).
    destruct (param_types_returns (parameters node) a1) as (pts & a2 & Hpts & Hs2).
    rewrite (bind_Return _ _ _ _ _ Hrt), (bind_Return _ _ _ _ _ Hpts).
    cbv zeta.
    assert (Hst : SemanticAnalyzer.symbolTable a2 = st) by (subst st; congruence).
    rewrite (bind_Return _ _ _ _ _
               (on_table_existsInCurrentScope _ a2 false st Hst Hfree)).
    set (fty := createFunction rt pts).
    set (F := Some (<[lexeme (fname node) := function_symbol (lexeme (fname node)) fty]> frame)).
    set (rest := match fbody node with Some _ => _ | None => _ end).
    assert (Hrest : bottom_kept F (SymbolTable.currentScope st)
                      (SymbolTable.currentScope st) rest).
    { subst rest. destruct (fbody node) as [statements|]; [|apply bottom_kept_ret].
      set (d := SymbolTable.currentScope st).
      apply (bottom_kept_bind F d (S d) d); [apply bottom_kept_enterScope|intros _].
      apply (bottom_kept_bind F (S d) (S d) d);
        [apply bottom_kept_keeps_table; auto with keeps_table|intros _].
      apply (bottom_kept_bind F (S d) (S d) d);
        [apply bottom_kept_keeps_table; auto with keeps_table|intros _].
      apply (bottom_kept_bind F (S d) (S d) d);
        [apply bottom_kept_visit_parameters; lia|intros _].
      apply (bottom_kept_bind F (S d) (S d) d).
      { apply bottom_kept_visitBlock_rec. apply Forall_forall.
        intros s _. apply balanced_visitStatement. }
      intros _. apply (bottom_kept_bind F (S d) (S d) d);
        [apply bottom_kept_keeps_table; auto with keeps_table|intros seen].
      apply (bottom_kept_bind F (S d) (S d) d).
      { apply bottom_kept_keeps_table. destruct (_ && _); auto with keeps_table. }
      intros _. apply (bottom_kept_bind F (S d) (S d) d);
        [apply bottom_kept_keeps_table; auto with keeps_table|intros _].
      apply bottom_kept_leaveScope. }
    unfold bind at 1. unfold SemanticAnalyzer.on_table at 1.
    rewrite Hst. unfold SymbolTable.addFunction, SymbolTable.assign. rewrite H0.
    match goal with
    | |- match rest ?a3 with _ => _ end => specialize (Hrest a3)
    end.
    simpl in Hrest.
    assert (Hpre : at_depth F (SymbolTable.currentScope st)
              (SemanticAnalyzer.mkSemanticAnalyzer (SemanticAnalyzer.errorHandler a2)
                 (SymbolTable.mkSymbolTable
                    (<[0%nat := <[lexeme (fname node) := function_symbol (lexeme (fname node)) fty]> frame]>
                       (SymbolTable.scopes st))
                    (SymbolTable.currentScope st))
                 (SemanticAnalyzer.currentFunctionReturnType a2)
                 (SemanticAnalyzer.hasReturn a2))).
    { unfold at_depth. simpl. rewrite length_insert.
      split; [|split; [reflexivity | exact Hlen]].
      apply list_lookup_insert_eq. lia. }
    specialize (Hrest Hpre).
    destruct (rest _) as [x a'|w a'| |]; try exact I;
      exists fty; (split; [reflexivity|]); [apply Hrest | exact Hrest].
  - intros node a st Hdecl.
    unfold SemanticAnalyzer.visitFunctionDeclaration.
    destruct (getTypeFromTypeNode_returns (returnType node) a) as (rt & a1 & Hrt & Hs1).
    destruct (param_types_returns (parameters node) a1) as (pts & a2 & Hpts & Hs2).
    rewrite (bind_Return _ _ _ _ _ Hrt), (bind_Return _ _ _ _ _ Hpts).
    cbv zeta.
    assert (Hst : SemanticAnalyzer.symbolTable a2 = st) by (subst st; congruence).
    rewrite (bind_Return _ _ _ _ _
               (on_table_existsInCurrentScope _ a2 true st Hst Hdecl)).
    eexists. split; [reflexivity|]. split; [exact Hst | reflexivity].
Qed.

(** The declaration [int f(int a){return a;}], as the parser builds it. *)
Definition sample_function : option FunctionDeclarationNode :=
  Eval vm_compute in
    match parse_source "t.c" "int f(int a){return a;}" with
    | Some (mkProgramNode [FunctionDeclaration f]) => Some f
    | _ => None
    end.

Definition the_function (o : option FunctionDeclarationNode) : FunctionDeclarationNode :=
  match o with
  | Some f => f
  | None => mkFunctionDeclarationNode int_type token_x [] None
  end.

Lemma function_registered_in_bottom_frame_witness :
  let node := the_function sample_function in
  let a := SemanticAnalyzer.new Errors.empty_handler in
  (exists a', SemanticAnalyzer.visitFunctionDeclaration node a = Return tt a') /\
  match SemanticAnalyzer.visitFunctionDeclaration node a with
  | Return _ a' | Throw _ a' =>
      exists ty,
        kind ty = FUNCTION /\
        SymbolTable.scopes (SemanticAnalyzer.symbolTable a') !! 0%nat
          = Some (<[lexeme (fname node) := function_symbol (lexeme (fname node)) ty]> ∅)
  | _ => True
  end.
Proof.
  intros node a. split.
  - eexists. vm_compute. reflexivity.
  - apply (proj1 (proj2 function_registered_in_bottom_frame) node a ∅).
    + reflexivity.
    + simpl. lia.
    + reflexivity.
Defined.

(** C8, as stated, fails: in [int f;int f();] the function declaration
    [f] is processed by the analyzer but not registered; the bottom frame
    still binds the name to the variable and an error is recorded. *)
Lemma declared_name_is_not_registered :
  exists program v f a sym,
    parse_source "t.c" "int f;int f();" = Some program /\
    declarations program = [Statement v; FunctionDeclaration f] /\
    lexeme (fname f) = " f" /\
    analyze_source "t.c" "int f;int f();" = Some a /\
    SymbolTable.scopes (SemanticAnalyzer.symbolTable a) !! 0%nat ≫= (.!! " f")
      = Some sym /\
    skind sym = VARIABLE /\
    SemanticAnalyzer.hasErrors a = true.
Proof.
  do 5 eexists. split; [vm_compute; reflexivity|].
  split; [reflexivity|]. split; [reflexivity|].
  split; [vm_compute; reflexivity|].
  split; [vm_compute; reflexivity|]. split; reflexivity.
Qed.

(** ** The lexer: what a scan consumes

    [scans lx lx' cs]: going from [lx] to [lx'] the lexer advanced over
    the characters [cs] of the source and touched neither the token
    vector nor the diagnostics. *)

Definition consumed (lx lx' : Lexer.Lexer) : list ascii :=
  map (char_at (Lexer.source lx))
    (seq (Lexer.current lx) (Lexer.current lx' - Lexer.current lx)).

Record scans (lx lx' : Lexer.Lexer) (cs : list ascii) : Prop := mkScans {
  scans_source : Lexer.source lx' = Lexer.source lx;
  scans_filename : Lexer.filename lx' = Lexer.filename lx;
  scans_tokens : Lexer.tokens lx' = Lexer.tokens lx;
  scans_errors : Lexer.errorHandler lx' = Lexer.errorHandler lx;
  scans_start : Lexer.start lx' = Lexer.start lx;
  scans_line : Lexer.line lx' = Lexer.line lx;
  scans_current : Lexer.current lx' = (Lexer.current lx + length cs)%nat;
  scans_chars :
    cs = map (char_at (Lexer.source lx)) (seq (Lexer.current lx) (length cs));
}.

Lemma scans_refl lx : scans lx lx [].
Proof. split; try reflexivity. simpl. lia. Qed.

Lemma scans_trans lx1 lx2 lx3 cs1 cs2 :
  scans lx1 lx2 cs1 -> scans lx2 lx3 cs2 -> scans lx1 lx3 (cs1 ++ cs2).
Proof.
  intros [] []. split; try congruence.
  - rewrite length_app. lia.
  - rewrite length_app, seq_app, map_app. congruence.
Qed.

Lemma scans_consumed lx lx' cs : scans lx lx' cs -> consumed lx lx' = cs.
Proof.
  intros []. unfold consumed. rewrite scans_current0.
  replace (Lexer.current lx + length cs - Lexer.current lx)%nat with (length cs) by lia.
  symmetry. assumption.
Qed.

Lemma scans_advance lx :
  scans lx (Lexer.advance_ lx) [char_at (Lexer.source lx) (Lexer.current lx)].
Proof. split; try reflexivity. simpl. lia. Qed.

Lemma peek_not_NUL lx :
  Lexer.peek lx <> NUL ->
  Lexer.isAtEnd lx = false /\
  Lexer.peek lx = char_at (Lexer.source lx) (Lexer.current lx).
Proof.
  unfold Lexer.peek. destruct (Lexer.isAtEnd lx); [congruence|]. auto.
Qed.

(** [advance] over the character under [peek]. *)
Lemma scans_advance_peek lx :
  Lexer.peek lx <> NUL -> scans lx (Lexer.advance_ lx) [Lexer.peek lx].
Proof.
  intros H. destruct (peek_not_NUL lx H) as [_ ->]. apply scans_advance.
Qed.

Lemma scans_advance_while cond fuel lx :
  exists cs,
    scans lx (Lexer.advance_while cond fuel lx) cs /\
    (forall p, (forall l, cond l = true -> p (Lexer.peek l) = true /\ Lexer.peek l <> NUL) ->
               Forall (fun c => p c = true) cs).
Proof.
  revert lx. induction fuel as [|fuel IH]; intros lx; simpl.
  - exists []. split; [apply scans_refl | constructor].
  - destruct (cond lx) eqn:Hc.
    + destruct (IH (Lexer.advance_ lx)) as (cs & Hs & Hall).
      exists (char_at (Lexer.source lx) (Lexer.current lx) :: cs). split.
      * apply (scans_trans lx (Lexer.advance_ lx) _ [_] cs);
          [apply scans_advance | exact Hs].
      * intros p Hp. constructor; [|apply Hall; exact Hp].
        destruct (Hp lx Hc) as [Hpc Hn].
        destruct (peek_not_NUL lx Hn) as [_ <-]. exact Hpc.
    + exists []. split; [apply scans_refl | constructor].
Qed.

Lemma isdigit_not_NUL c : isdigit c = true -> c <> NUL.
Proof. intros H ->. discriminate. Qed.

Lemma scans_digits lx :
  exists ds, scans lx (Lexer.digits lx) ds /\ Forall (fun c => isdigit c = true) ds.
Proof.
  unfold Lexer.digits.
  destruct (scans_advance_while (fun l => isdigit (Lexer.peek l)) (Lexer.fuel_of lx) lx)
    as (ds & Hs & Hall).
  exists ds. split; [exact Hs|]. apply Hall.
  intros l Hl. split; [exact Hl | apply isdigit_not_NUL; exact Hl].
Qed.

(** A run of [digits] that starts on a digit consumes it. *)
Lemma scans_digits_nonempty lx :
  isdigit (Lexer.peek lx) = true ->
  exists d ds,
    scans lx (Lexer.digits lx) (d :: ds) /\
    Forall (fun c => isdigit c = true) (d :: ds).
Proof.
  intros H. destruct (scans_digits lx) as (ds & Hs & Hall).
  destruct ds as [|d ds]; [|exists d, ds; auto].
  exfalso. unfold Lexer.digits, Lexer.fuel_of in Hs. simpl in Hs.
  rewrite H in Hs.
  destruct (scans_advance_while (fun l => isdigit (Lexer.peek l))
              (String.length (Lexer.source lx)) (Lexer.advance_ lx)) as (cs & Hs' & _).
  pose proof (scans_current _ _ _ Hs) as H1.
  pose proof (scans_current _ _ _ Hs') as H2.
  simpl in H1, H2. lia.
Qed.

(** ** The form of a numeric literal

    What the specification calls a floating literal, read off the
    characters of the literal: a decimal point followed by a digit, an
    exponent part (e or E, an optional sign, a digit), or a final f or F. *)

Definition point_digit_at (l : list ascii) : bool :=
  match l with
  | c1 :: c2 :: _ => Ascii.eqb c1 "." && isdigit c2
  | _ => false
  end.

Fixpoint has_point_digit (l : list ascii) : bool :=
  match l with
  | [] => false
  | _ :: rest => point_digit_at l || has_point_digit rest
  end.

Definition exponent_at (l : list ascii) : bool :=
  match l with
  | e :: c :: rest =>
      Lexer.is_e e &&
      (isdigit c ||
       (Lexer.is_sign c && match rest with d :: _ => isdigit d | [] => false end))
  | _ => false
  end.

Fixpoint has_exponent (l : list ascii) : bool :=
  match l with
  | [] => false
  | _ :: rest => exponent_at l || has_exponent rest
  end.

Definition has_f_suffix (l : list ascii) : bool := Lexer.is_f (List.last l NUL).

Definition float_form (l : list ascii) : bool :=
  has_point_digit l || has_exponent l || has_f_suffix l.

(** The characters of an integer literal: digits and l, L, u, U. *)
Definition plain_char (c : ascii) : bool :=
  isdigit c || Lexer.is_l c || Lexer.is_u c.

Lemma point_digit_at_app l r :
  point_digit_at l = true -> point_digit_at (l ++ r) = true.
Proof. destruct l as [|c1 [|c2 l]]; simpl; auto; discriminate. Qed.

Lemma has_point_digit_app_l l r :
  has_point_digit l = true -> has_point_digit (l ++ r) = true.
Proof.
  induction l as [|c l IH]; [discriminate|].
  change ((c :: l) ++ r)%list with (c :: (l ++ r))%list.
  cbn [has_point_digit]. intros H. apply orb_true_iff in H as [H|H].
  - apply orb_true_iff. left. apply (point_digit_at_app (c :: l) r H).
  - apply orb_true_iff. right. apply IH, H.
Qed.

Lemma has_point_digit_app_r l r :
  has_point_digit r = true -> has_point_digit (l ++ r) = true.
Proof.
  intros H. induction l as [|c l IH]; [exact H|].
  change ((c :: l) ++ r)%list with (c :: (l ++ r))%list. cbn [has_point_digit].
  rewrite IH. apply orb_true_r.
Qed.

Lemma exponent_at_app l r : exponent_at l = true -> exponent_at (l ++ r) = true.
Proof.
  destruct l as [|e [|c [|d l]]]; simpl; auto; try discriminate.
  intros H. apply andb_true_iff in H as [He H]. rewrite He. simpl.
  apply orb_true_iff in H as [H|H]; [rewrite H; reflexivity|].
  rewrite andb_false_r in H. discriminate.
Qed.

Lemma has_exponent_app_l l r :
  has_exponent l = true -> has_exponent (l ++ r) = true.
Proof.
  induction l as [|c l IH]; [discriminate|].
  change ((c :: l) ++ r)%list with (c :: (l ++ r))%list.
  cbn [has_exponent]. intros H. apply orb_true_iff in H as [H|H].
  - apply orb_true_iff. left. apply (exponent_at_app (c :: l) r H).
  - apply orb_true_iff. right. apply IH, H.
Qed.

Lemma has_exponent_app_r l r :
  has_exponent r = true -> has_exponent (l ++ r) = true.
Proof.
  intros H. induction l as [|c l IH]; [exact H|].
  change ((c :: l) ++ r)%list with (c :: (l ++ r))%list. cbn [has_exponent].
  rewrite IH. apply orb_true_r.
Qed.

Definition float_body (l : list ascii) : bool := has_point_digit l || has_exponent l.

Lemma float_body_app_l l r : float_body l = true -> float_body (l ++ r) = true.
Proof.
  unfold float_body. intros H. apply orb_true_iff in H as [H|H].
  - rewrite has_point_digit_app_l by exact H. reflexivity.
  - rewrite has_exponent_app_l by exact H. apply orb_true_r.
Qed.

Lemma float_form_body l : float_body l = true -> float_form l = true.
Proof. unfold float_form, float_body. intros ->. reflexivity. Qed.

Lemma float_form_f_suffix l f : Lexer.is_f f = true -> float_form (l ++ [f]) = true.
Proof.
  intros H. unfold float_form, has_f_suffix. rewrite List.last_last, H.
  apply orb_true_r.
Qed.

Lemma plain_char_facts c :
  plain_char c = true ->
  Ascii.eqb c "." = false /\ Lexer.is_e c = false /\ Lexer.is_f c = false.
Proof.
  destruct c as [[] [] [] [] [] [] [] []]; vm_compute; intros H;
    try discriminate H; repeat split.
Qed.

Lemma isdigit_plain c : isdigit c = true -> plain_char c = true.
Proof. unfold plain_char. intros ->. reflexivity. Qed.

Lemma Forall_List_last {A} (P : A -> Prop) (l : list A) d :
  Forall P l -> l <> [] -> P (List.last l d).
Proof.
  induction 1 as [|x l Hx Hl IH]; [congruence|]. intros _.
  destruct l as [|y l]; [exact Hx|]. apply IH. discriminate.
Qed.

Lemma has_point_digit_plain l :
  Forall (fun c => plain_char c = true) l -> has_point_digit l = false.
Proof.
  induction 1 as [|c l Hc _ IH]; [reflexivity|]. cbn [has_point_digit].
  rewrite IH, orb_false_r. destruct l; [reflexivity|]. simpl.
  destruct (plain_char_facts c Hc) as (-> & _). reflexivity.
Qed.

Lemma has_exponent_plain l :
  Forall (fun c => plain_char c = true) l -> has_exponent l = false.
Proof.
  induction 1 as [|c l Hc _ IH]; [reflexivity|]. cbn [has_exponent].
  rewrite IH, orb_false_r. destruct l; [reflexivity|]. simpl.
  destruct (plain_char_facts c Hc) as (_ & -> & _). reflexivity.
Qed.

Lemma float_form_plain l :
  Forall (fun c => plain_char c = true) l -> float_form l = false.
Proof.
  intros H. unfold float_form.
  rewrite has_point_digit_plain, has_exponent_plain by exact H.
  simpl. unfold has_f_suffix.
  destruct l as [|c l]; [reflexivity|].
  apply (Forall_List_last _ (c :: l) NUL) in H; [|discriminate].
  apply (plain_char_facts _ H).
Qed.

(** ** [Lexer::number] *)

Lemma peek_advance lx : Lexer.peek (Lexer.advance_ lx) = Lexer.peekNext lx.
Proof.
  unfold Lexer.peek, Lexer.peekNext, Lexer.isAtEnd. simpl.
  rewrite Nat.add_1_r. reflexivity.
Qed.

Lemma scans_number_fraction lx :
  exists cs,
    scans lx (snd (Lexer.number_fraction lx)) cs /\
    (fst (Lexer.number_fraction lx) = true -> has_point_digit cs = true) /\
    (fst (Lexer.number_fraction lx) = false -> cs = []).
Proof.
  unfold Lexer.number_fraction.
  destruct (Ascii.eqb (Lexer.peek lx) "." && isdigit (Lexer.peekNext lx)) eqn:E; simpl.
  - apply andb_true_iff in E as [Hp Hd]. apply Ascii.eqb_eq in Hp.
    assert (Hs : scans lx (Lexer.advance_ lx) ["."%char]).
    { rewrite <- Hp. apply scans_advance_peek. rewrite Hp. discriminate. }
    rewrite <- peek_advance in Hd.
    destruct (scans_digits_nonempty _ Hd) as (d & ds & Hds & Hall).
    exists ("."%char :: d :: ds). split; [|split; [|discriminate]].
    + apply (scans_trans _ _ _ [_] _ Hs Hds).
    + intros _. simpl. inversion Hall as [|? ? Hd0 _]. rewrite Hd0. reflexivity.
  - exists []. split; [apply scans_refl|]. split; [discriminate | reflexivity].
Qed.

Lemma is_e_not_NUL c : Lexer.is_e c = true -> c <> NUL.
Proof. intros H ->. discriminate. Qed.
Lemma is_f_not_NUL c : Lexer.is_f c = true -> c <> NUL.
Proof. intros H ->. discriminate. Qed.
Lemma is_l_not_NUL c : Lexer.is_l c = true -> c <> NUL.
Proof. intros H ->. discriminate. Qed.
Lemma is_u_not_NUL c : Lexer.is_u c = true -> c <> NUL.
Proof. intros H ->. discriminate. Qed.
Lemma is_sign_not_NUL c : Lexer.is_sign c = true -> c <> NUL.
Proof. intros H ->. discriminate. Qed.

Lemma scans_report lx0 lx cs l c msg :
  scans lx0 lx cs ->
  Lexer.source (Lexer.report l c msg lx) = Lexer.source lx0 /\
  Lexer.tokens (Lexer.report l c msg lx) = Lexer.tokens lx0 /\
  hadError (Lexer.errorHandler (Lexer.report l c msg lx)) = true /\
  (Lexer.current lx0 <= Lexer.current (Lexer.report l c msg lx))%nat.
Proof. intros []. simpl. repeat split; auto. lia. Qed.

Lemma scans_number_exponent isFloat lx :
  match Lexer.number_exponent isFloat lx with
  | (Some b, lx') =>
      exists cs,
        scans lx lx' cs /\
        ((b = true /\ has_exponent cs = true) \/ (b = isFloat /\ cs = []))
  | (None, lx') =>
      Lexer.source lx' = Lexer.source lx /\
      Lexer.tokens lx' = Lexer.tokens lx /\
      hadError (Lexer.errorHandler lx') = true /\
      (Lexer.current lx <= Lexer.current lx')%nat
  end.
Proof.
  unfold Lexer.number_exponent.
  destruct (Lexer.is_e (Lexer.peek lx)) eqn:He.
  - cbv zeta.
    pose proof (scans_advance_peek lx (is_e_not_NUL _ He)) as Hs1.
    set (lx1 := Lexer.advance_ lx) in *.
    assert (Hsign : exists sgn,
              scans lx1 (if Lexer.is_sign (Lexer.peek lx1) then Lexer.advance_ lx1 else lx1) sgn /\
              (sgn = [] \/ exists s, sgn = [s] /\ Lexer.is_sign s = true)).
    { destruct (Lexer.is_sign (Lexer.peek lx1)) eqn:Hsg.
      - exists [Lexer.peek lx1]. split; [|right; eauto].
        apply scans_advance_peek, is_sign_not_NUL, Hsg.
      - exists []. split; [apply scans_refl | left; reflexivity]. }
    destruct Hsign as (sgn & Hs2 & Hsgn).
    set (lx2 := if Lexer.is_sign (Lexer.peek lx1) then Lexer.advance_ lx1 else lx1) in *.
    clearbody lx1 lx2.
    destruct (isdigit (Lexer.peek lx2)) eqn:Hd; cbn [negb].
    + destruct (scans_digits_nonempty _ Hd) as (d & ds & Hds & Hall).
      exists ([Lexer.peek lx] ++ sgn ++ d :: ds)%list. split.
      * apply (scans_trans _ _ _ _ _ Hs1). apply (scans_trans _ _ _ _ _ Hs2 Hds).
      * left. split; [reflexivity|]. inversion Hall as [|? ? Hd0 _].
        destruct Hsgn as [->|(s & -> & Hsg)]; simpl; rewrite He; simpl.
        -- rewrite Hd0. reflexivity.
        -- rewrite Hsg, Hd0. simpl. rewrite orb_true_r. reflexivity.
    + apply (scans_report lx lx2 ([Lexer.peek lx] ++ sgn)%list).
      apply (scans_trans _ _ _ _ _ Hs1 Hs2).
  - exists []. split; [apply scans_refl | right; auto].
Qed.

Lemma float_form_finish isFloat cs suf :
  (isFloat = true -> float_body cs = true) ->
  (isFloat = false -> Forall (fun c => plain_char c = true) cs) ->
  Forall (fun c => plain_char c = true) suf ->
  isFloat = float_form (cs ++ suf).
Proof.
  intros Ht Hf Hsuf. destruct isFloat.
  - symmetry. apply float_form_body, float_body_app_l, Ht. reflexivity.
  - symmetry. apply float_form_plain, Forall_app. split; [apply Hf; reflexivity | exact Hsuf].
Qed.

Lemma is_l_plain c : Lexer.is_l c = true -> plain_char c = true.
Proof. unfold plain_char. intros ->. rewrite orb_true_r. reflexivity. Qed.

Lemma is_u_plain c : Lexer.is_u c = true -> plain_char c = true.
Proof. unfold plain_char. intros ->. apply orb_true_r. Qed.

Lemma scans_number_suffix isFloat lx cs lx0 :
  scans lx0 lx cs ->
  (isFloat = true -> float_body cs = true) ->
  (isFloat = false -> Forall (fun c => plain_char c = true) cs) ->
  exists suf,
    scans lx0 (snd (Lexer.number_suffix isFloat lx)) (cs ++ suf) /\
    fst (Lexer.number_suffix isFloat lx) = float_form (cs ++ suf).
Proof.
  intros Hs Ht Hf. unfold Lexer.number_suffix.
  destruct (Lexer.is_f (Lexer.peek lx)) eqn:Hff; simpl.
  { exists [Lexer.peek lx]. split.
    - apply (scans_trans _ _ _ _ _ Hs). apply scans_advance_peek, is_f_not_NUL, Hff.
    - symmetry. apply float_form_f_suffix, Hff. }
  destruct (Lexer.is_l (Lexer.peek lx)) eqn:Hl; simpl.
  { pose proof (scans_advance_peek lx (is_l_not_NUL _ Hl)) as H1.
    destruct (Lexer.is_u (Lexer.peek (Lexer.advance_ lx))) eqn:Hu.
    - pose proof (scans_advance_peek _ (is_u_not_NUL _ Hu)) as H2.
      exists [Lexer.peek lx; Lexer.peek (Lexer.advance_ lx)]. split.
      + apply (scans_trans _ _ _ _ _ Hs (scans_trans _ _ _ _ _ H1 H2)).
      + apply float_form_finish; auto.
        repeat constructor; [apply is_l_plain, Hl | apply is_u_plain, Hu].
    - exists [Lexer.peek lx].
      split; [apply (scans_trans _ _ _ _ _ Hs H1)|].
      apply float_form_finish; auto. repeat constructor. apply is_l_plain, Hl. }
  destruct (Lexer.is_u (Lexer.peek lx)) eqn:Hu; simpl.
  { pose proof (scans_advance_peek lx (is_u_not_NUL _ Hu)) as H1.
    destruct (Lexer.is_l (Lexer.peek (Lexer.advance_ lx))) eqn:Hl2.
    - pose proof (scans_advance_peek _ (is_l_not_NUL _ Hl2)) as H2.
      exists [Lexer.peek lx; Lexer.peek (Lexer.advance_ lx)]. split.
      + apply (scans_trans _ _ _ _ _ Hs (scans_trans _ _ _ _ _ H1 H2)).
      + apply float_form_finish; auto.
        repeat constructor; [apply is_u_plain, Hu | apply is_l_plain, Hl2].
    - exists [Lexer.peek lx].
      split; [apply (scans_trans _ _ _ _ _ Hs H1)|].
      apply float_form_finish; auto. repeat constructor. apply is_u_plain, Hu. }
  exists []. split; [rewrite app_nil_r; exact Hs|].
  apply float_form_finish; auto.
Qed.

(** What [number] computes before it adds the token. *)
Lemma number_scan_spec lx :
  match Lexer.number_scan lx with
  | (Some isFloat, lx') =>
      exists cs, scans lx lx' cs /\ isFloat = float_form cs /\
                 (Lexer.current (Lexer.digits lx) <= Lexer.current lx')%nat
  | (None, lx') =>
      Lexer.source lx' = Lexer.source lx /\
      Lexer.tokens lx' = Lexer.tokens lx /\
      hadError (Lexer.errorHandler lx') = true /\
      (Lexer.current (Lexer.digits lx) <= Lexer.current lx')%nat
  end.
Proof.
  unfold Lexer.number_scan.
  destruct (scans_digits lx) as (d1 & Hs1 & Hd1).
  set (lx1 := Lexer.digits lx) in *.
  destruct (scans_number_fraction lx1) as (fr & Hs2 & Hfr_t & Hfr_f).
  destruct (Lexer.number_fraction lx1) as [isFloat1 lx2]. simpl in *.
  pose proof (scans_number_exponent isFloat1 lx2) as Hex.
  destruct (Lexer.number_exponent isFloat1 lx2) as [[isFloat2|] lx3].
  - destruct Hex as (ex & Hs3 & Hcase).
    pose proof (scans_trans _ _ _ _ _ Hs1 (scans_trans _ _ _ _ _ Hs2 Hs3)) as Hs.
    assert (Ht : isFloat2 = true -> float_body (d1 ++ fr ++ ex) = true).
    { intros ->. unfold float_body. destruct Hcase as [[_ He]|[<- ->]].
      - rewrite (has_exponent_app_r d1), orb_true_r; [reflexivity|].
        apply has_exponent_app_r, He.
      - rewrite (has_point_digit_app_r d1); [reflexivity|].
        apply has_point_digit_app_l, Hfr_t. reflexivity. }
    assert (Hf : isFloat2 = false ->
                 Forall (fun c => plain_char c = true) (d1 ++ fr ++ ex)).
    { intros ->. destruct Hcase as [[? _]|[<- ->]]; [discriminate|].
      rewrite Hfr_f by reflexivity. simpl. rewrite app_nil_r.
      eapply Forall_impl; [exact Hd1|]. intros c. apply isdigit_plain. }
    destruct (scans_number_suffix isFloat2 lx3 _ lx Hs Ht Hf) as (suf & Hcs & Hform).
    destruct (Lexer.number_suffix isFloat2 lx3) as [isFloat lx4]. simpl in *.
    exists ((d1 ++ fr ++ ex) ++ suf)%list.
    split; [exact Hcs|]. split; [exact Hform|].
    pose proof (scans_current _ _ _ Hs1). pose proof (scans_current _ _ _ Hcs).
    rewrite !length_app in *. lia.
  - destruct Hex as (Hsrc & Htok & Herr & Hcur).
    pose proof (scans_trans _ _ _ _ _ Hs1 Hs2) as [].
    pose proof (scans_current _ _ _ Hs2).
    repeat split; try congruence. lia.
Qed.

(** ** The extent of a numeric literal

    The literal that starts at a position of the source, as the
    specification describes it: digits; then a point and digits, when a
    digit follows the point; then an exponent part, [e] or [E], an
    optional sign and at least one digit (a missing digit is an error);
    then a suffix, [f]/[F], or [l]/[L] with an optional [u]/[U], or
    [u]/[U] with an optional [l]/[L]. *)

(** The characters the description names. *)
Definition decimal_digit (c : ascii) : bool :=
  existsb (Ascii.eqb c) ["0"; "1"; "2"; "3"; "4"; "5"; "6"; "7"; "8"; "9"]%char.
Definition exponent_letter (c : ascii) : bool := (Ascii.eqb c "e" || Ascii.eqb c "E")%bool.
Definition sign_character (c : ascii) : bool := (Ascii.eqb c "+" || Ascii.eqb c "-")%bool.
Definition float_suffix (c : ascii) : bool := (Ascii.eqb c "f" || Ascii.eqb c "F")%bool.
Definition long_suffix (c : ascii) : bool := (Ascii.eqb c "l" || Ascii.eqb c "L")%bool.
Definition unsigned_suffix (c : ascii) : bool := (Ascii.eqb c "u" || Ascii.eqb c "U")%bool.

(** The characters of the source from the current position on. *)
Definition rest_of (lx : Lexer.Lexer) : list ascii :=
  skipn (Lexer.current lx) (list_ascii_of_string (Lexer.source lx)).

Fixpoint leading_digits (l : list ascii) : list ascii :=
  match l with
  | c :: l' => if decimal_digit c then c :: leading_digits l' else []
  | [] => []
  end.

Definition literal_fraction (l : list ascii) : list ascii :=
  match l with
  | p :: d :: l' =>
      if (Ascii.eqb p "." && decimal_digit d)%bool
      then p :: d :: leading_digits l' else []
  | _ => []
  end.

Definition literal_sign (l : list ascii) : list ascii :=
  match l with
  | s :: _ => if sign_character s then [s] else []
  | [] => []
  end.

(** [None]: the exponent has no digits. *)
Definition literal_exponent (l : list ascii) : option (list ascii) :=
  match l with
  | e :: l1 =>
      if exponent_letter e then
        let sign := literal_sign l1 in
        match leading_digits (skipn (length sign) l1) with
        | [] => None
        | ds => Some (e :: sign ++ ds)%list
        end
      else Some []
  | [] => Some []
  end.

Definition literal_suffix (l : list ascii) : list ascii :=
  match l with
  | c :: l1 =>
      if float_suffix c then [c]
      else if long_suffix c then
        c :: match l1 with u :: _ => if unsigned_suffix u then [u] else [] | [] => [] end
      else if unsigned_suffix c then
        c :: match l1 with x :: _ => if long_suffix x then [x] else [] | [] => [] end
      else []
  | [] => []
  end.

Definition numeric_literal (l : list ascii) : option (list ascii) :=
  let ds := leading_digits l in
  let l1 := skipn (length ds) l in
  let fr := literal_fraction l1 in
  let l2 := skipn (length fr) l1 in
  match literal_exponent l2 with
  | None => None
  | Some ex =>
      let l3 := skipn (length ex) l2 in
      Some (ds ++ fr ++ ex ++ literal_suffix l3)%list
  end.

(** The literal is a floating one when it contains a decimal point
    followed by a digit, or an exponent part, or ends in f or F. *)
Definition point_then_digit (l : list ascii) : bool :=
  match l with
  | p :: d :: _ => Ascii.eqb p "." && decimal_digit d
  | _ => false
  end.

Fixpoint contains_point_then_digit (l : list ascii) : bool :=
  match l with
  | [] => false
  | _ :: rest => point_then_digit l || contains_point_then_digit rest
  end.

Definition exponent_part_at (l : list ascii) : bool :=
  match l with
  | e :: c :: rest =>
      exponent_letter e &&
      (decimal_digit c ||
       (sign_character c && match rest with d :: _ => decimal_digit d | [] => false end))
  | _ => false
  end.

Fixpoint contains_exponent_part (l : list ascii) : bool :=
  match l with
  | [] => false
  | _ :: rest => exponent_part_at l || contains_exponent_part rest
  end.

Definition ends_in_float_suffix (l : list ascii) : bool := float_suffix (List.last l NUL).

Definition float_literal (l : list ascii) : bool :=
  contains_point_then_digit l || contains_exponent_part l || ends_in_float_suffix l.

(** The tests of the scanner are the tests of the description. *)
Lemma isdigit_decimal c : isdigit c = decimal_digit c.
Proof. destruct c as [[] [] [] [] [] [] [] []]; reflexivity. Qed.

Lemma is_e_exponent_letter c : Lexer.is_e c = exponent_letter c.
Proof. reflexivity. Qed.
Lemma is_sign_sign_character c : Lexer.is_sign c = sign_character c.
Proof. reflexivity. Qed.
Lemma is_f_float_suffix c : Lexer.is_f c = float_suffix c.
Proof. reflexivity. Qed.
Lemma is_l_long_suffix c : Lexer.is_l c = long_suffix c.
Proof. reflexivity. Qed.
Lemma is_u_unsigned_suffix c : Lexer.is_u c = unsigned_suffix c.
Proof. reflexivity. Qed.

Ltac as_described :=
  change Lexer.is_e with exponent_letter in *;
  change Lexer.is_sign with sign_character in *;
  change Lexer.is_f with float_suffix in *;
  change Lexer.is_l with long_suffix in *;
  change Lexer.is_u with unsigned_suffix in *;
  rewrite ?isdigit_decimal in *.

Lemma float_literal_form l : float_literal l = float_form l.
Proof.
  assert (Hp : forall l, point_then_digit l = point_digit_at l)
    by (intros [|p [|d k]]; simpl; as_described; reflexivity).
  assert (He : forall l, exponent_part_at l = exponent_at l)
    by (intros [|e [|c [|d k]]]; simpl; as_described; reflexivity).
  unfold float_literal, float_form, ends_in_float_suffix, has_f_suffix.
  as_described. f_equal. f_equal.
  - induction l as [|c l IH]; [reflexivity|].
    cbn [contains_point_then_digit has_point_digit]. rewrite Hp, IH. reflexivity.
  - induction l as [|c l IH]; [reflexivity|].
    cbn [contains_exponent_part has_exponent]. rewrite He, IH. reflexivity.
Qed.

(** Each part is the beginning of the text it is read from. *)
Lemma leading_digits_prefix l :
  l = (leading_digits l ++ skipn (length (leading_digits l)) l)%list.
Proof.
  induction l as [|c l IH]; [reflexivity|]. simpl.
  destruct (decimal_digit c); [|reflexivity]. simpl. f_equal. exact IH.
Qed.

Lemma literal_fraction_prefix l :
  l = (literal_fraction l ++ skipn (length (literal_fraction l)) l)%list.
Proof.
  destruct l as [|p [|d l]]; try reflexivity. simpl.
  destruct (Ascii.eqb p "." && decimal_digit d)%bool; [|reflexivity].
  simpl. do 2 f_equal. apply leading_digits_prefix.
Qed.

Lemma literal_sign_prefix l :
  l = (literal_sign l ++ skipn (length (literal_sign l)) l)%list.
Proof.
  destruct l as [|s l]; [reflexivity|]. simpl. destruct (sign_character s); reflexivity.
Qed.

Lemma literal_exponent_prefix l ex :
  literal_exponent l = Some ex -> l = (ex ++ skipn (length ex) l)%list.
Proof.
  destruct l as [|e l1]; simpl; [intros [= <-]; reflexivity|].
  destruct (exponent_letter e); [|intros [= <-]; reflexivity].
  pose proof (leading_digits_prefix (skipn (length (literal_sign l1)) l1)) as Hd.
  destruct (leading_digits _) as [|d ds] eqn:E; [discriminate|].
  intros [= <-]. simpl. f_equal.
  rewrite length_app, <- app_assoc.
  rewrite (literal_sign_prefix l1) at 1. f_equal.
  rewrite Hd at 1. f_equal.
  rewrite skipn_skipn. f_equal. lia.
Qed.

Lemma literal_suffix_prefix l :
  l = (literal_suffix l ++ skipn (length (literal_suffix l)) l)%list.
Proof.
  destruct l as [|c l1]; [reflexivity|]. simpl.
  destruct (float_suffix c); [reflexivity|].
  destruct (long_suffix c).
  { destruct l1 as [|u l2]; [reflexivity|]. destruct (unsigned_suffix u); reflexivity. }
  destruct (unsigned_suffix c); [|reflexivity].
  destruct l1 as [|x l2]; [reflexivity|]. destruct (long_suffix x); reflexivity.
Qed.

Lemma numeric_literal_prefix l literal :
  numeric_literal l = Some literal -> firstn (length literal) l = literal.
Proof.
  unfold numeric_literal. cbv zeta.
  set (ds := leading_digits l).
  set (l1 := skipn (length ds) l).
  set (fr := literal_fraction l1).
  set (l2 := skipn (length fr) l1).
  pose proof (literal_exponent_prefix l2) as Hex.
  destruct (literal_exponent l2) as [ex|]; [|discriminate].
  specialize (Hex ex eq_refl).
  set (l3 := skipn (length ex) l2) in *.
  intros [= <-].
  assert (Hl : l = ((ds ++ fr ++ ex ++ literal_suffix l3) ++
                    skipn (length (literal_suffix l3)) l3)%list).
  { rewrite <- !app_assoc.
    rewrite (leading_digits_prefix l) at 1. fold ds l1. f_equal.
    rewrite (literal_fraction_prefix l1) at 1. fold fr l2. f_equal.
    rewrite Hex at 1. f_equal. apply literal_suffix_prefix. }
  rewrite Hl at 1. rewrite firstn_app, Nat.sub_diag, firstn_all. simpl.
  apply app_nil_r.
Qed.

(** *** The scanner follows the description *)

Lemma hd_skipn {A} (d : A) n l : hd d (skipn n l) = nth n l d.
Proof.
  revert l. induction n as [|n IH]; intros [|x l]; simpl; auto.
Qed.

Lemma tl_skipn {A} n (l : list A) : tl (skipn n l) = skipn (S n) l.
Proof.
  revert l. induction n as [|n IH]; intros [|x l]; simpl; auto.
Qed.

Lemma length_list_ascii (s : string) :
  length (list_ascii_of_string s) = String.length s.
Proof. induction s as [|c s IH]; simpl; [reflexivity | rewrite IH; reflexivity]. Qed.

Lemma peek_rest lx : Lexer.peek lx = hd NUL (rest_of lx).
Proof.
  unfold Lexer.peek, Lexer.isAtEnd, rest_of, char_at. rewrite hd_skipn.
  destruct (String.length (Lexer.source lx) <=? Lexer.current lx)%nat eqn:E;
    [|reflexivity].
  apply Nat.leb_le in E. symmetry. apply nth_overflow.
  rewrite length_list_ascii. exact E.
Qed.

Lemma rest_advance lx : rest_of (Lexer.advance_ lx) = tl (rest_of lx).
Proof. unfold rest_of. simpl. symmetry. apply tl_skipn. Qed.

Lemma peekNext_rest lx : Lexer.peekNext lx = hd NUL (tl (rest_of lx)).
Proof. rewrite <- peek_advance, peek_rest, rest_advance. reflexivity. Qed.

(** [lx'] is [n] characters further in the same source. *)
Definition reaches (lx lx' : Lexer.Lexer) (n : nat) : Prop :=
  Lexer.source lx' = Lexer.source lx /\
  Lexer.current lx' = (Lexer.current lx + n)%nat.

Lemma reaches_refl lx : reaches lx lx 0.
Proof. split; [reflexivity | lia]. Qed.

Lemma reaches_trans lx1 lx2 lx3 n m :
  reaches lx1 lx2 n -> reaches lx2 lx3 m -> reaches lx1 lx3 (n + m).
Proof. intros [] []. split; [congruence | lia]. Qed.

Lemma reaches_advance lx : reaches lx (Lexer.advance_ lx) 1.
Proof. split; simpl; [reflexivity | lia]. Qed.

Lemma reaches_rest lx lx' n : reaches lx lx' n -> rest_of lx' = skipn n (rest_of lx).
Proof.
  intros [Hs Hc]. unfold rest_of. rewrite Hs, Hc, skipn_skipn. f_equal. lia.
Qed.

Lemma reaches_digits_loop fuel :
  forall lx,
    (length (rest_of lx) < fuel)%nat ->
    reaches lx (Lexer.advance_while (fun l => isdigit (Lexer.peek l)) fuel lx)
      (length (leading_digits (rest_of lx))).
Proof.
  induction fuel as [|fuel IH]; intros lx Hfuel; [lia|]. simpl.
  rewrite peek_rest, isdigit_decimal. pose proof (rest_advance lx) as Hadv.
  destruct (rest_of lx) as [|c r] eqn:E; simpl; [apply reaches_refl|].
  destruct (decimal_digit c); [|apply reaches_refl].
  apply (reaches_trans _ _ _ 1 _ (reaches_advance lx)).
  simpl in Hadv. rewrite <- Hadv. apply IH. rewrite Hadv. simpl in Hfuel. lia.
Qed.

Lemma reaches_digits lx :
  reaches lx (Lexer.digits lx) (length (leading_digits (rest_of lx))).
Proof.
  apply reaches_digits_loop. unfold Lexer.fuel_of, rest_of.
  rewrite length_skipn, length_list_ascii. lia.
Qed.

Lemma reaches_number_fraction lx :
  reaches lx (snd (Lexer.number_fraction lx))
    (length (literal_fraction (rest_of lx))).
Proof.
  unfold Lexer.number_fraction. rewrite peek_rest, peekNext_rest, isdigit_decimal.
  pose proof (rest_advance lx) as Hadv.
  pose proof (reaches_digits (Lexer.advance_ lx)) as Hd.
  destruct (rest_of lx) as [|p [|d l]]; simpl.
  - apply reaches_refl.
  - rewrite andb_false_r. apply reaches_refl.
  - destruct (Ascii.eqb p "." && decimal_digit d)%bool eqn:E; [|apply reaches_refl].
    apply andb_true_iff in E as [_ E].
    simpl in Hadv. rewrite Hadv in Hd. simpl in Hd. rewrite E in Hd. simpl in Hd.
    apply (reaches_trans _ _ _ 1 _ (reaches_advance lx)). exact Hd.
Qed.

Lemma leading_digits_nil l :
  leading_digits l = [] <-> isdigit (hd NUL l) = false.
Proof.
  rewrite isdigit_decimal.
  destruct l as [|c l]; simpl; [split; reflexivity|].
  destruct (decimal_digit c); split; congruence.
Qed.

Lemma reaches_number_exponent isFloat lx :
  match Lexer.number_exponent isFloat lx, literal_exponent (rest_of lx) with
  | (Some _, lx'), Some ex => reaches lx lx' (length ex)
  | (None, _), None => True
  | _, _ => False
  end.
Proof.
  unfold Lexer.number_exponent. cbv zeta. rewrite peek_rest, is_e_exponent_letter.
  pose proof (rest_advance lx) as Hadv.
  destruct (rest_of lx) as [|e l1] eqn:E; simpl; [apply reaches_refl|].
  destruct (exponent_letter e); [|apply reaches_refl].
  simpl in Hadv.
  set (lx1 := Lexer.advance_ lx) in *.
  pose proof (reaches_advance lx : reaches lx lx1 1) as H1.
  assert (H2 : reaches lx1
                 (if Lexer.is_sign (Lexer.peek lx1) then Lexer.advance_ lx1 else lx1)
                 (length (literal_sign l1))).
  { rewrite peek_rest, Hadv, is_sign_sign_character. unfold literal_sign.
    destruct l1 as [|s l2]; simpl; [apply reaches_refl|].
    destruct (sign_character s); [apply reaches_advance | apply reaches_refl]. }
  set (lx2 := if Lexer.is_sign (Lexer.peek lx1) then Lexer.advance_ lx1 else lx1) in *.
  pose proof (reaches_rest _ _ _ H2) as Hr2. rewrite Hadv in Hr2.
  pose proof (reaches_digits lx2) as Hd. rewrite Hr2 in Hd.
  pose proof (leading_digits_nil (skipn (length (literal_sign l1)) l1)) as Hnil.
  rewrite <- Hr2, <- peek_rest in Hnil. rewrite Hr2 in Hnil.
  clearbody lx1 lx2.
  destruct (leading_digits (skipn (length (literal_sign l1)) l1)) as [|d ds] eqn:Eds.
  - rewrite (proj1 Hnil eq_refl). simpl. exact I.
  - destruct (isdigit (Lexer.peek lx2)) eqn:Ed.
    + simpl.
      pose proof (reaches_trans _ _ _ _ _ H1 (reaches_trans _ _ _ _ _ H2 Hd)) as H.
      rewrite length_app. simpl in *. exact H.
    + discriminate (proj2 Hnil eq_refl).
Qed.

Lemma reaches_number_suffix isFloat lx :
  reaches lx (snd (Lexer.number_suffix isFloat lx))
    (length (literal_suffix (rest_of lx))).
Proof.
  unfold Lexer.number_suffix. cbv zeta. rewrite peek_rest.
  pose proof (rest_advance lx) as Hadv.
  pose proof (peek_rest (Lexer.advance_ lx)) as Hp. rewrite Hadv in Hp.
  as_described.
  destruct (rest_of lx) as [|c l1]; simpl; [apply reaches_refl|].
  simpl in Hp.
  destruct (float_suffix c); simpl; [apply reaches_advance|].
  destruct (long_suffix c); simpl.
  { rewrite Hp. destruct l1 as [|u l2]; simpl; [apply reaches_advance|].
    destruct (unsigned_suffix u); simpl; [|apply reaches_advance].
    apply (reaches_trans _ _ _ 1 1 (reaches_advance lx)), reaches_advance. }
  destruct (unsigned_suffix c); simpl; [|apply reaches_refl].
  rewrite Hp. destruct l1 as [|x l2]; simpl; [apply reaches_advance|].
  destruct (long_suffix x); simpl; [|apply reaches_advance].
  apply (reaches_trans _ _ _ 1 1 (reaches_advance lx)), reaches_advance.
Qed.

(** [number] stops where the literal of the description ends, and gives
    up where the description has an error. *)
Lemma number_scan_extent lx :
  match Lexer.number_scan lx, numeric_literal (rest_of lx) with
  | (Some _, lx'), Some literal => reaches lx lx' (length literal)
  | (None, _), None => True
  | _, _ => False
  end.
Proof.
  unfold Lexer.number_scan, numeric_literal. cbv zeta.
  pose proof (reaches_digits lx) as H1.
  set (lx1 := Lexer.digits lx) in *.
  pose proof (reaches_rest _ _ _ H1) as R1.
  pose proof (reaches_number_fraction lx1) as H2.
  destruct (Lexer.number_fraction lx1) as [f lx2]. cbn [snd] in H2.
  pose proof (reaches_rest _ _ _ H2) as R2.
  pose proof (reaches_number_exponent f lx2) as H3.
  rewrite R1 in H2, R2. rewrite R2 in H3.
  destruct (Lexer.number_exponent f lx2) as [[f'|] lx3];
    destruct (literal_exponent _) as [ex|]; try contradiction; [|exact I].
  pose proof (reaches_rest _ _ _ H3) as R3. rewrite R2 in R3.
  pose proof (reaches_number_suffix f' lx3) as H4.
  destruct (Lexer.number_suffix f' lx3) as [f'' lx4]. cbn [snd] in H4.
  rewrite R3 in H4.
  pose proof (reaches_trans _ _ _ _ _ H1
                (reaches_trans _ _ _ _ _ H2 (reaches_trans _ _ _ _ _ H3 H4))) as H.
  rewrite !length_app. exact H.
Qed.

Lemma firstn_skipn_chars (l : list ascii) c n :
  (n <= length (skipn c l))%nat ->
  firstn n (skipn c l) = map (fun i => nth i l NUL) (seq c n).
Proof.
  revert c. induction n as [|n IH]; intros c Hn; [reflexivity|].
  simpl. rewrite <- IH.
  - rewrite <- tl_skipn. rewrite <- (hd_skipn NUL c l).
    destruct (skipn c l); [simpl in Hn; lia | reflexivity].
  - rewrite <- tl_skipn. destruct (skipn c l); simpl in *; lia.
Qed.

(** C9.  The numeric literal at the current position of the source is
    the text the specification describes ([numeric_literal], read off
    the characters of the source, not off the scanner).  When it
    is complete, [number] consumes exactly this text and appends one
    token; the lexeme of the token is the source from [start] to the
    end of the literal, and its kind is [FLOAT_LITERAL] if and only if
    the literal contains a decimal point followed by a digit, an
    exponent part, or ends in f or F; in every other case (the l, L, u,
    U suffixes among them) the kind is [INTEGER_LITERAL].  When the
    exponent has no digits the scan is abandoned: an error is recorded
    and no token is added. *)
Theorem number_token_kind (lx : Lexer.Lexer) :
  match numeric_literal (rest_of lx) with
  | Some literal =>
      substr (Lexer.source lx) (Lexer.current lx) (length literal)
        = string_of_list_ascii literal /\
      exists token,
        Lexer.tokens (Lexer.number lx) = (Lexer.tokens lx ++ [token])%list /\
        Lexer.current (Lexer.number lx) = (Lexer.current lx + length literal)%nat /\
        lexeme token
          = substr (Lexer.source lx) (Lexer.start lx)
              (Lexer.current lx + length literal - Lexer.start lx) /\
        (type token = FLOAT_LITERAL <-> float_literal literal = true) /\
        (type token = INTEGER_LITERAL <-> float_literal literal = false) /\
        Lexer.errorHandler (Lexer.number lx) = Lexer.errorHandler lx
  | None =>
      Lexer.tokens (Lexer.number lx) = Lexer.tokens lx /\
      hadError (Lexer.errorHandler (Lexer.number lx)) = true
  end.
Proof.
  pose proof (number_scan_spec lx) as H.
  pose proof (number_scan_extent lx) as Hext.
  pose proof (numeric_literal_prefix (rest_of lx)) as Hpre.
  unfold Lexer.number.
  destruct (Lexer.number_scan lx) as [[isFloat|] lx'];
    destruct (numeric_literal (rest_of lx)) as [literal|]; try contradiction.
  - specialize (Hpre literal eq_refl).
    destruct H as (cs & Hs & Hform & _). destruct Hext as [_ Hcur].
    assert (Hlen : length cs = length literal)
      by (pose proof (scans_current _ _ _ Hs); lia).
    assert (Hcs : cs = literal).
    { pose proof (f_equal length Hpre) as Hl. rewrite length_take in Hl.
      rewrite (scans_chars _ _ _ Hs), Hlen. rewrite <- Hpre at 2.
      unfold rest_of, char_at in *. symmetry. apply firstn_skipn_chars. lia. }
    subst cs. rewrite float_literal_form.
    split; [unfold substr; fold (rest_of lx); rewrite Hpre; reflexivity|].
    destruct Hs as [Hsrc _ Htok Herr Hst _ Hc _].
    exists (Lexer.makeToken (if isFloat then FLOAT_LITERAL else INTEGER_LITERAL) lx').
    unfold Lexer.addToken, Lexer.makeToken. simpl. rewrite Htok, Hsrc, Hst, Hc.
    repeat split; try assumption;
      destruct isFloat; simpl; intros; congruence.
  - destruct H as (_ & Htok & Herr & _). split; assumption.
Qed.

(** ** The lexer: progress and the token vector

    [extends lx lx']: the lexer went from [lx] to [lx'] on the same
    source, did not move backwards, and only appended tokens, none of
    them an end-of-file token. *)

Definition no_eof (ts : list Token) : Prop :=
  Forall (fun t => type t <> END_OF_FILE) ts.

Record extends (lx lx' : Lexer.Lexer) : Prop := mkExtends {
  ext_source : Lexer.source lx' = Lexer.source lx;
  ext_current : (Lexer.current lx <= Lexer.current lx')%nat;
  ext_tokens : exists new, Lexer.tokens lx' = (Lexer.tokens lx ++ new)%list /\ no_eof new;
}.

Lemma extends_same lx lx' :
  Lexer.source lx' = Lexer.source lx ->
  Lexer.current lx' = Lexer.current lx ->
  Lexer.tokens lx' = Lexer.tokens lx ->
  extends lx lx'.
Proof.
  intros Hs Hc Ht. split; [exact Hs | lia |].
  exists []. rewrite app_nil_r. split; [exact Ht | constructor].
Qed.

Lemma extends_refl lx : extends lx lx.
Proof. apply extends_same; reflexivity. Qed.

Lemma extends_trans lx1 lx2 lx3 : extends lx1 lx2 -> extends lx2 lx3 -> extends lx1 lx3.
Proof.
  intros [Hs1 Hc1 (n1 & Ht1 & Hn1)] [Hs2 Hc2 (n2 & Ht2 & Hn2)].
  split; [congruence | lia |].
  exists (n1 ++ n2)%list. rewrite Ht2, Ht1, app_assoc.
  split; [reflexivity | apply Forall_app; auto].
Qed.

Lemma scans_extends lx lx' cs : scans lx lx' cs -> extends lx lx'.
Proof.
  intros []. split; [assumption | lia |].
  exists []. rewrite app_nil_r. split; [assumption | constructor].
Qed.

Lemma extends_advance lx : extends lx (Lexer.advance_ lx).
Proof. exact (scans_extends _ _ _ (scans_advance lx)). Qed.

Lemma extends_report l c msg lx : extends lx (Lexer.report l c msg lx).
Proof. apply extends_same; reflexivity. Qed.

Lemma extends_set_line l lx : extends lx (Lexer.set_line l lx).
Proof. apply extends_same; reflexivity. Qed.

Lemma extends_set_column c lx : extends lx (Lexer.set_column c lx).
Proof. apply extends_same; reflexivity. Qed.

Lemma extends_set_start n lx : extends lx (Lexer.set_start n lx).
Proof. apply extends_same; reflexivity. Qed.

Lemma extends_addToken ty lx :
  ty <> END_OF_FILE -> extends lx (Lexer.addToken ty lx).
Proof.
  intros H. split; [reflexivity | simpl; lia |].
  eexists. split; [reflexivity|]. repeat constructor. exact H.
Qed.

Lemma extends_advance_while cond fuel lx : extends lx (Lexer.advance_while cond fuel lx).
Proof.
  destruct (scans_advance_while cond fuel lx) as (cs & Hs & _).
  exact (scans_extends _ _ _ Hs).
Qed.

Create HintDb lexer.
#[local] Hint Resolve extends_refl extends_advance extends_report extends_set_line
  extends_set_column extends_set_start extends_advance_while : lexer.

(** [extends] along a chain of calls [f (g (h lx))]. *)
Ltac extends_chain :=
  repeat match goal with
         | |- extends ?a ?a => apply extends_refl
         | |- extends _ (if ?b then _ else _) => destruct b eqn:?
         | |- extends _ (let _ := _ in _) => cbv zeta
         | |- extends ?a (?f ?x) =>
             first [ solve [auto with lexer]
                   | apply (extends_trans a x); [|solve [auto with lexer]] ]
         end.

Lemma extends_block_comment_loop fuel lx :
  extends lx (snd (Lexer.block_comment_loop fuel lx)).
Proof.
  revert lx. induction fuel as [|fuel IH]; intros lx; simpl.
  - apply extends_refl.
  - destruct (Lexer.isAtEnd lx); [apply extends_refl|].
    destruct (_ && _); simpl.
    + extends_chain.
    + eapply extends_trans; [|apply IH]. extends_chain.
Qed.

Lemma extends_comment lx : extends lx (Lexer.comment lx).
Proof.
  unfold Lexer.comment.
  destruct (_ && _).
  - extends_chain.
  - destruct (_ && _); [|apply extends_refl]. cbv zeta.
    pose proof (extends_block_comment_loop (Lexer.fuel_of lx)
                  (Lexer.advance_ (Lexer.advance_ lx))) as H.
    destruct (Lexer.block_comment_loop _ _) as [closed lx2]. simpl in H.
    assert (H' : extends lx lx2) by (eapply extends_trans; [|exact H]; extends_chain).
    destruct closed; [exact H'|].
    eapply extends_trans; [exact H' | apply extends_report].
Qed.

#[local] Hint Resolve extends_comment : lexer.

Lemma extends_skipWhitespace_loop fuel lx :
  extends lx (Lexer.skipWhitespace_loop fuel lx).
Proof.
  revert lx. induction fuel as [|fuel IH]; intros lx; simpl.
  - apply extends_refl.
  - repeat match goal with
           | |- extends _ (if ?b then _ else _) => destruct b
           end; try apply extends_refl;
      (eapply extends_trans; [|apply IH]); extends_chain.
Qed.

Lemma extends_skipWhitespace lx : extends lx (Lexer.skipWhitespace lx).
Proof. apply extends_skipWhitespace_loop. Qed.

Lemma Keywords_find_no_eof table text kw :
  Forall (fun p => snd p <> END_OF_FILE) table ->
  Keywords_find table text = Some kw -> kw <> END_OF_FILE.
Proof.
  induction 1 as [|[k t] rest Hk _ IH]; simpl; [discriminate|].
  destruct (String.eqb k text); [intros [= <-]; exact Hk | exact IH].
Qed.

Lemma Keywords_no_eof : Forall (fun p => snd p <> END_OF_FILE) Keywords.
Proof. unfold Keywords. repeat constructor; discriminate. Qed.

Lemma extends_identifier lx : extends lx (Lexer.identifier lx).
Proof.
  unfold Lexer.identifier. cbv zeta.
  destruct (Keywords_find Keywords _) eqn:E.
  - eapply extends_trans; [apply extends_advance_while|].
    apply extends_addToken. exact (Keywords_find_no_eof _ _ _ Keywords_no_eof E).
  - eapply extends_trans; [apply extends_advance_while|].
    apply extends_addToken. discriminate.
Qed.

Lemma extends_number lx : extends lx (Lexer.number lx).
Proof.
  unfold Lexer.number. pose proof (number_scan_spec lx) as H.
  destruct (Lexer.number_scan lx) as [[isFloat|] lx'].
  - destruct H as (cs & Hs & _).
    eapply extends_trans; [exact (scans_extends _ _ _ Hs)|].
    apply extends_addToken. destruct isFloat; discriminate.
  - destruct H as (Hsrc & Htok & _ & Hcur).
    split; [exact Hsrc | |].
    + pose proof (extends_advance_while (fun l => isdigit (Lexer.peek l))
                    (Lexer.fuel_of lx) lx) as [_ Hd _].
      unfold Lexer.digits in Hcur. lia.
    + exists []. rewrite app_nil_r. split; [exact Htok | constructor].
Qed.

Lemma extends_string_loop sl sc fuel lx : extends lx (Lexer.string_loop sl sc fuel lx).
Proof.
  revert lx. induction fuel as [|fuel IH]; intros lx; simpl.
  - apply extends_refl.
  - destruct (_ && _); [|apply extends_refl].
    set (lx1 := if Ascii.eqb (Lexer.peek lx) NEWLINE then _ else lx).
    assert (H1 : extends lx lx1) by (subst lx1; extends_chain).
    clearbody lx1.
    destruct (Ascii.eqb (Lexer.peek lx1) BACKSLASH).
    + destruct (Lexer.isAtEnd (Lexer.advance_ lx1)).
      * eapply extends_trans; [exact H1|]. extends_chain.
      * eapply extends_trans; [exact H1|].
        eapply extends_trans; [|apply IH]. extends_chain.
    + eapply extends_trans; [exact H1|].
      eapply extends_trans; [|apply IH]. extends_chain.
Qed.

Lemma extends_string_ lx : extends lx (Lexer.string_ lx).
Proof.
  unfold Lexer.string_. cbv zeta.
  destruct (Lexer.isAtEnd _).
  - eapply extends_trans; [apply extends_string_loop | apply extends_report].
  - eapply extends_trans; [apply extends_string_loop|].
    eapply extends_trans; [apply extends_advance|].
    apply extends_addToken. discriminate.
Qed.

Lemma extends_character lx : extends lx (Lexer.character lx).
Proof.
  unfold Lexer.character. cbv zeta.
  assert (Hclosing : forall l,
    extends l
      (if Ascii.eqb
            (Lexer.peek
               (if negb (Ascii.eqb (Lexer.peek l) SQUOTE)
                then
                  Lexer.advance_while
                    (fun l0 => negb (Ascii.eqb (Lexer.peek l0) SQUOTE) && negb (Lexer.isAtEnd l0))
                    (Lexer.fuel_of
                       (Lexer.report (Lexer.line lx) (Lexer.column lx - 1)
                          "Multi-character character literal or missing closing quote" l))
                    (Lexer.report (Lexer.line lx) (Lexer.column lx - 1)
                       "Multi-character character literal or missing closing quote" l)
                else l)) SQUOTE
       then
         Lexer.addToken CHAR_LITERAL
           (Lexer.advance_
              (if negb (Ascii.eqb (Lexer.peek l) SQUOTE)
               then
                 Lexer.advance_while
                   (fun l0 => negb (Ascii.eqb (Lexer.peek l0) SQUOTE) && negb (Lexer.isAtEnd l0))
                   (Lexer.fuel_of
                      (Lexer.report (Lexer.line lx) (Lexer.column lx - 1)
                         "Multi-character character literal or missing closing quote" l))
                   (Lexer.report (Lexer.line lx) (Lexer.column lx - 1)
                      "Multi-character character literal or missing closing quote" l)
               else l))
       else
         Lexer.report (Lexer.line lx) (Lexer.column lx - 1)
           "Unterminated character literal"
           (if negb (Ascii.eqb (Lexer.peek l) SQUOTE)
            then
              Lexer.advance_while
                (fun l0 => negb (Ascii.eqb (Lexer.peek l0) SQUOTE) && negb (Lexer.isAtEnd l0))
                (Lexer.fuel_of
                   (Lexer.report (Lexer.line lx) (Lexer.column lx - 1)
                      "Multi-character character literal or missing closing quote" l))
                (Lexer.report (Lexer.line lx) (Lexer.column lx - 1)
                   "Multi-character character literal or missing closing quote" l)
            else l))).
  { intros l.
    set (l1 := if negb (Ascii.eqb (Lexer.peek l) SQUOTE) then _ else l).
    assert (H1 : extends l l1).
    { subst l1. destruct (negb _); [|apply extends_refl].
      eapply extends_trans; [apply extends_report | apply extends_advance_while]. }
    clearbody l1.
    destruct (Ascii.eqb (Lexer.peek l1) SQUOTE).
    - eapply extends_trans; [exact H1|].
      eapply extends_trans; [apply extends_advance|].
      apply extends_addToken. discriminate.
    - eapply extends_trans; [exact H1 | apply extends_report]. }
  destruct (Ascii.eqb (Lexer.peek lx) BACKSLASH).
  - destruct (Lexer.isAtEnd (Lexer.advance_ lx)).
    + extends_chain.
    + eapply extends_trans; [|apply Hclosing]. extends_chain.
  - destruct (_ && _).
    + eapply extends_trans; [|apply Hclosing]. extends_chain.
    + extends_chain.
Qed.

Lemma extends_match_ c lx : extends lx (snd (Lexer.match_ c lx)).
Proof.
  unfold Lexer.match_. destruct (_ || _); simpl; [apply extends_refl|].
  split; [reflexivity | simpl; lia |].
  exists []. rewrite app_nil_r. split; [reflexivity | constructor].
Qed.

Lemma extends_match_chain alts otherwise lx :
  Forall (fun p => snd p <> END_OF_FILE) alts -> otherwise <> END_OF_FILE ->
  extends lx (Lexer.match_chain alts otherwise lx).
Proof.
  intros Halts Ho. induction Halts as [|[c t] rest Ht _ IH]; simpl.
  - apply extends_addToken. exact Ho.
  - pose proof (extends_match_ c lx) as Hm.
    destruct (Lexer.match_ c lx) as [[] lx']; simpl in Hm.
    + eapply extends_trans; [exact Hm | apply extends_addToken; exact Ht].
    + exact IH.
Qed.

(** *** Progress *)

Lemma isAtEnd_false lx :
  Lexer.isAtEnd lx = false <->
  (Lexer.current lx < String.length (Lexer.source lx))%nat.
Proof. unfold Lexer.isAtEnd. apply Nat.leb_gt. Qed.

Lemma isAtEnd_true lx :
  Lexer.isAtEnd lx = true <->
  (String.length (Lexer.source lx) <= Lexer.current lx)%nat.
Proof. unfold Lexer.isAtEnd. apply Nat.leb_le. Qed.

Lemma advance_while_progress cond fuel lx :
  cond lx = true ->
  (Lexer.current lx < Lexer.current (Lexer.advance_while cond (S fuel) lx))%nat.
Proof.
  intros H. simpl. rewrite H.
  pose proof (extends_advance_while cond fuel (Lexer.advance_ lx)) as [_ Hc _].
  simpl in Hc. lia.
Qed.

Lemma identifier_progress lx :
  (isalpha (Lexer.peek lx) || Ascii.eqb (Lexer.peek lx) "_")%bool = true ->
  (Lexer.current lx < Lexer.current (Lexer.identifier lx))%nat.
Proof.
  intros H. unfold Lexer.identifier. cbv zeta.
  assert (Hp : (Lexer.current lx <
                Lexer.current
                  (Lexer.advance_while
                     (fun l => isalnum (Lexer.peek l) || Ascii.eqb (Lexer.peek l) "_")%bool
                     (Lexer.fuel_of lx) lx))%nat).
  { apply advance_while_progress. unfold isalnum.
    apply orb_true_iff in H as [->| ->]; [reflexivity | apply orb_true_r]. }
  destruct (Keywords_find Keywords _); exact Hp.
Qed.

Lemma number_progress lx :
  isdigit (Lexer.peek lx) = true ->
  (Lexer.current lx < Lexer.current (Lexer.number lx))%nat.
Proof.
  intros H.
  assert (Hd : (Lexer.current lx < Lexer.current (Lexer.digits lx))%nat)
    by (apply advance_while_progress; exact H).
  unfold Lexer.number. pose proof (number_scan_spec lx) as Hspec.
  destruct (Lexer.number_scan lx) as [[isFloat|] lx'].
  - destruct Hspec as (cs & _ & _ & Hcur). simpl. lia.
  - destruct Hspec as (_ & _ & _ & Hcur). lia.
Qed.

Lemma peek_char_at lx :
  Lexer.isAtEnd lx = false ->
  Lexer.peek lx = char_at (Lexer.source lx) (Lexer.current lx).
Proof. unfold Lexer.peek. intros ->. reflexivity. Qed.

Lemma advance_peek lx :
  Lexer.isAtEnd lx = false ->
  Lexer.advance lx = (Lexer.peek lx, Lexer.advance_ lx).
Proof.
  intros H. rewrite (peek_char_at lx H). reflexivity.
Qed.

(** The lexer put back on the character that [advance] returned. *)
Definition retreat (lx : Lexer.Lexer) : Lexer.Lexer :=
  Lexer.set_column (Lexer.column lx - 1) (Lexer.set_current (Lexer.current lx - 1) lx).

Lemma retreat_advance lx :
  Lexer.source (retreat (Lexer.advance_ lx)) = Lexer.source lx /\
  Lexer.current (retreat (Lexer.advance_ lx)) = Lexer.current lx /\
  Lexer.tokens (retreat (Lexer.advance_ lx)) = Lexer.tokens lx /\
  Lexer.peek (retreat (Lexer.advance_ lx)) = Lexer.peek lx.
Proof.
  unfold retreat, Lexer.peek, Lexer.isAtEnd. simpl.
  rewrite Nat.sub_0_r. auto.
Qed.

Ltac scan_branches :=
  repeat match goal with
         | |- context [if ?b then _ else _] => destruct b
         end.

(** After the first character the remaining branches of [scanToken]
    only go forward. *)
Lemma scanToken_extends_and_progress lx :
  extends lx (Lexer.scanToken lx) /\
  (Lexer.isAtEnd lx = false ->
   (Lexer.current lx < Lexer.current (Lexer.scanToken lx))%nat).
Proof.
  unfold Lexer.scanToken. cbv zeta.
  pose proof (extends_skipWhitespace lx) as Hws.
  set (lx1 := Lexer.skipWhitespace lx) in *. clearbody lx1.
  destruct (Lexer.isAtEnd lx1) eqn:Hend.
  { split; [exact Hws|]. intros Hne.
    apply isAtEnd_false in Hne. apply isAtEnd_true in Hend.
    destruct Hws as [Hsrc _ _]. rewrite Hsrc in Hend. lia. }
  rewrite (advance_peek lx1 Hend). cbv beta iota.
  fold (retreat (Lexer.advance_ lx1)).
  destruct (retreat_advance lx1) as (Rsrc & Rcur & Rtok & Rpeek).
  set (lx2 := Lexer.advance_ lx1) in *.
  assert (H2 : extends lx1 lx2) by apply extends_advance.
  assert (Hc2 : Lexer.current lx2 = S (Lexer.current lx1)) by reflexivity.
  assert (Hback : extends lx1 (retreat lx2)).
  { apply extends_same; assumption. }
  clearbody lx2.
  (* every branch: a state that extends [lx1] and lies strictly after it *)
  match goal with
  | |- extends _ ?r /\ _ =>
      cut (extends lx1 r /\ (Lexer.current lx1 < Lexer.current r)%nat)
  end.
  { intros [He Hlt]. split.
    - eapply extends_trans; [exact Hws | exact He].
    - intros _. destruct Hws as [_ Hc _]. lia. }
  destruct (isalpha (Lexer.peek lx1) || Ascii.eqb (Lexer.peek lx1) "_")%bool eqn:Hid.
  { split.
    - eapply extends_trans; [exact Hback | apply extends_identifier].
    - rewrite <- Rcur. apply identifier_progress. rewrite Rpeek. exact Hid. }
  destruct (isdigit (Lexer.peek lx1)) eqn:Hdig.
  { split.
    - eapply extends_trans; [exact Hback | apply extends_number].
    - rewrite <- Rcur. apply number_progress. rewrite Rpeek. exact Hdig. }
  match goal with
  | |- extends _ ?r /\ _ => cut (extends lx2 r)
  end.
  { intros He. split.
    - eapply extends_trans; [exact H2 | exact He].
    - destruct He as [_ Hc _]. lia. }
  assert (Hadd : forall ty l, ty <> END_OF_FILE -> extends lx2 l ->
                              extends lx2 (Lexer.addToken ty l)).
  { intros ty l Hty Hl. eapply extends_trans; [exact Hl|].
    apply extends_addToken. exact Hty. }
  assert (Hchain : forall alts o l,
             Forall (fun p => snd p <> END_OF_FILE) alts -> o <> END_OF_FILE ->
             extends lx2 l -> extends lx2 (Lexer.match_chain alts o l)).
  { intros alts o l Ha Ho Hl. eapply extends_trans; [exact Hl|].
    apply extends_match_chain; assumption. }
  pose proof (extends_match_ "=" lx2) as Hm1.
  pose proof (extends_match_ "<" lx2) as Hm2.
  pose proof (extends_match_ ">" lx2) as Hm3.
  destruct (Lexer.match_ "=" lx2) as [b1 l1].
  destruct (Lexer.match_ "<" lx2) as [b2 l2].
  destruct (Lexer.match_ ">" lx2) as [b3 l3].
  simpl in Hm1, Hm2, Hm3.
  scan_branches;
    first [ apply Hadd; [discriminate|]
          | apply Hchain; [repeat constructor; discriminate | discriminate |]
          | idtac ];
    first [ assumption
          | apply extends_refl
          | apply extends_string_
          | apply extends_character
          | apply extends_report
          | eapply extends_trans; apply extends_advance ].
Qed.

Lemma tokenize_loop_spec fuel lx :
  (String.length (Lexer.source lx) - Lexer.current lx < fuel)%nat ->
  extends lx (Lexer.tokenize_loop fuel lx) /\
  Lexer.isAtEnd (Lexer.tokenize_loop fuel lx) = true.
Proof.
  revert lx. induction fuel as [|fuel IH]; intros lx Hfuel; [lia|].
  simpl. destruct (Lexer.isAtEnd lx) eqn:Hend.
  - split; [apply extends_refl | exact Hend].
  - destruct (scanToken_extends_and_progress (Lexer.set_start (Lexer.current lx) lx))
      as [Hext Hprog].
    specialize (Hprog Hend). simpl in Hprog.
    set (lx' := Lexer.scanToken _) in *. clearbody lx'.
    destruct (IH lx') as [Hext' Hend'].
    { destruct Hext as [Hsrc _ _]. rewrite Hsrc. simpl.
      apply isAtEnd_false in Hend. lia. }
    split; [|exact Hend'].
    eapply extends_trans; [|exact Hext'].
    eapply extends_trans; [apply extends_set_start | exact Hext].
Qed.

(** C10: for every lexer object, whatever its source, [tokenize]
    returns a token sequence whose last element is an [END_OF_FILE]
    token and none of whose earlier elements is one.  The main loop is
    left because its condition [!isAtEnd()] failed: the lexer stands at
    the end of the source. *)
Theorem tokenize_ends_with_the_only_eof (lx : Lexer.Lexer) :
  exists body eof,
    fst (Lexer.tokenize lx) = (body ++ [eof])%list /\
    type eof = END_OF_FILE /\
    Forall (fun t => type t <> END_OF_FILE) body /\
    Lexer.isAtEnd (snd (Lexer.tokenize lx)) = true.
Proof.
  unfold Lexer.tokenize. cbv zeta.
  set (lx0 := Lexer.set_tokens [] _).
  destruct (tokenize_loop_spec (Lexer.fuel_of lx0) lx0) as [[_ _ (body & Htok & Hbody)] Hend].
  { unfold Lexer.fuel_of. simpl. lia. }
  simpl in Htok.
  exists body. eexists. split; [|split; [|split]].
  - simpl. rewrite Htok. reflexivity.
  - reflexivity.
  - exact Hbody.
  - exact Hend.
Qed.

(** *** The loop bounds

    The loops of the lexer are embedded with a bound on the number of
    iterations.  Each iteration consumes at least one character, so a
    bound above the number of characters left is never reached: a
    larger one gives the same result. *)

Definition left_to_scan (lx : Lexer.Lexer) : nat :=
  String.length (Lexer.source lx) - Lexer.current lx.

Lemma left_to_scan_advance lx :
  Lexer.isAtEnd lx = false ->
  (S (left_to_scan (Lexer.advance_ lx)) = left_to_scan lx)%nat.
Proof.
  intros H. apply isAtEnd_false in H. unfold left_to_scan. simpl. lia.
Qed.

Lemma left_to_scan_extends lx lx' :
  extends lx lx' -> (left_to_scan lx' <= left_to_scan lx)%nat.
Proof. intros [Hs Hc _]. unfold left_to_scan. rewrite Hs. lia. Qed.

Lemma left_to_scan_fuel_of lx lx' :
  Lexer.source lx' = Lexer.source lx -> (left_to_scan lx' < Lexer.fuel_of lx)%nat.
Proof. intros H. unfold left_to_scan, Lexer.fuel_of. rewrite H. lia. Qed.

Lemma advance_while_bound cond :
  (forall l, cond l = true -> Lexer.isAtEnd l = false) ->
  forall fuel fuel' lx,
    (left_to_scan lx < fuel)%nat -> (fuel <= fuel')%nat ->
    Lexer.advance_while cond fuel' lx = Lexer.advance_while cond fuel lx.
Proof.
  intros Hcond. induction fuel as [|fuel IH]; intros fuel' lx Hleft Hle; [lia|].
  destruct fuel' as [|fuel']; [lia|]. simpl.
  destruct (cond lx) eqn:Hc; [|reflexivity].
  apply IH; [|lia].
  pose proof (left_to_scan_advance lx (Hcond lx Hc)). lia.
Qed.

Lemma block_comment_loop_bound fuel fuel' lx :
  (left_to_scan lx < fuel)%nat -> (fuel <= fuel')%nat ->
  Lexer.block_comment_loop fuel' lx = Lexer.block_comment_loop fuel lx.
Proof.
  revert fuel' lx. induction fuel as [|fuel IH]; intros fuel' lx Hleft Hle; [lia|].
  destruct fuel' as [|fuel']; [lia|]. simpl.
  destruct (Lexer.isAtEnd lx) eqn:Hend; [reflexivity|].
  destruct (_ && _); [reflexivity|].
  apply IH; [|lia].
  pose proof (left_to_scan_advance lx Hend) as H.
  destruct (Ascii.eqb (Lexer.peek lx) NEWLINE);
    unfold left_to_scan in *; simpl in *; lia.
Qed.

Lemma comment_progress lx :
  Ascii.eqb (Lexer.peek lx) "/" = true ->
  (Ascii.eqb (Lexer.peekNext lx) "/" || Ascii.eqb (Lexer.peekNext lx) "*")%bool = true ->
  (Lexer.current lx < Lexer.current (Lexer.comment lx))%nat.
Proof.
  intros Hslash Hnext. unfold Lexer.comment. rewrite Hslash. simpl andb.
  destruct (Ascii.eqb (Lexer.peekNext lx) "/").
  - cbv zeta.
    match goal with
    | |- (_ < Lexer.current (Lexer.advance_while ?c ?f ?l))%nat =>
        pose proof (extends_advance_while c f l) as [_ Hc _]
    end.
    change (Lexer.current (Lexer.advance_ (Lexer.advance_ lx)))
      with (S (S (Lexer.current lx))) in Hc.
    lia.
  - simpl in Hnext. rewrite Hnext. cbv zeta.
    pose proof (extends_block_comment_loop (Lexer.fuel_of lx)
                  (Lexer.advance_ (Lexer.advance_ lx))) as [_ Hc _].
    change (Lexer.current (Lexer.advance_ (Lexer.advance_ lx)))
      with (S (S (Lexer.current lx))) in Hc.
    destruct (Lexer.block_comment_loop _ _) as [[] lx2]; simpl in *; lia.
Qed.

Lemma peek_is c lx :
  Ascii.eqb (Lexer.peek lx) c = true -> c <> NUL -> Lexer.isAtEnd lx = false.
Proof.
  intros H Hc. apply Ascii.eqb_eq in H.
  apply (peek_not_NUL lx). congruence.
Qed.

Lemma skipWhitespace_loop_bound fuel fuel' lx :
  (left_to_scan lx < fuel)%nat -> (fuel <= fuel')%nat ->
  Lexer.skipWhitespace_loop fuel' lx = Lexer.skipWhitespace_loop fuel lx.
Proof.
  revert fuel' lx. induction fuel as [|fuel IH]; intros fuel' lx Hleft Hle; [lia|].
  destruct fuel' as [|fuel']; [lia|]. simpl.
  destruct (_ || _) eqn:Hblank.
  { apply IH; [|lia].
    assert (Hend : Lexer.isAtEnd lx = false).
    { apply orb_true_iff in Hblank as [Hblank|Hcr];
        [apply orb_true_iff in Hblank as [Hsp|Htab]|].
      - apply (peek_is " "); [exact Hsp | discriminate].
      - apply (peek_is TAB); [exact Htab | discriminate].
      - apply (peek_is CR); [exact Hcr | discriminate]. }
    pose proof (left_to_scan_advance lx Hend). lia. }
  destruct (Ascii.eqb (Lexer.peek lx) NEWLINE) eqn:Hnl.
  { apply IH; [|lia].
    assert (Hend : Lexer.isAtEnd lx = false)
      by (apply (peek_is NEWLINE); [exact Hnl | discriminate]).
    pose proof (left_to_scan_advance lx Hend).
    unfold left_to_scan in *; simpl in *; lia. }
  destruct (Ascii.eqb (Lexer.peek lx) "/") eqn:Hslash; [|reflexivity].
  destruct (Ascii.eqb (Lexer.peekNext lx) "/" || Ascii.eqb (Lexer.peekNext lx) "*")%bool
    eqn:Hnext; [|reflexivity].
  apply IH; [|lia].
  pose proof (comment_progress lx Hslash Hnext) as Hp.
  pose proof (extends_comment lx) as [Hs _ _].
  unfold left_to_scan in *. rewrite Hs.
  assert (Hend : Lexer.isAtEnd lx = false)
    by (apply (peek_is "/"); [exact Hslash | discriminate]).
  apply isAtEnd_false in Hend. lia.
Qed.

Lemma string_loop_bound sl sc fuel fuel' lx :
  (left_to_scan lx < fuel)%nat -> (fuel <= fuel')%nat ->
  Lexer.string_loop sl sc fuel' lx = Lexer.string_loop sl sc fuel lx.
Proof.
  revert fuel' lx. induction fuel as [|fuel IH]; intros fuel' lx Hleft Hle; [lia|].
  destruct fuel' as [|fuel']; [lia|]. simpl.
  destruct (_ && _) eqn:Hcond; [|reflexivity].
  apply andb_true_iff in Hcond as [_ Hend]. apply negb_true_iff in Hend.
  set (lx1 := if Ascii.eqb (Lexer.peek lx) NEWLINE then _ else lx).
  assert (H1 : left_to_scan lx1 = left_to_scan lx /\ Lexer.isAtEnd lx1 = false).
  { subst lx1. destruct (Ascii.eqb _ _); auto. }
  clearbody lx1. destruct H1 as [Hl1 Hend1].
  pose proof (left_to_scan_advance lx1 Hend1) as Hadv.
  destruct (Ascii.eqb (Lexer.peek lx1) BACKSLASH).
  - destruct (Lexer.isAtEnd (Lexer.advance_ lx1)) eqn:Hend2; [reflexivity|].
    apply IH; [|lia].
    pose proof (left_to_scan_advance _ Hend2). lia.
  - apply IH; lia.
Qed.

Lemma tokenize_loop_bound fuel fuel' lx :
  (left_to_scan lx < fuel)%nat -> (fuel <= fuel')%nat ->
  Lexer.tokenize_loop fuel' lx = Lexer.tokenize_loop fuel lx.
Proof.
  revert fuel' lx. induction fuel as [|fuel IH]; intros fuel' lx Hleft Hle; [lia|].
  destruct fuel' as [|fuel']; [lia|]. simpl.
  destruct (Lexer.isAtEnd lx) eqn:Hend; [reflexivity|].
  apply IH; [|lia].
  destruct (scanToken_extends_and_progress (Lexer.set_start (Lexer.current lx) lx))
    as [[Hs _ _] Hprog].
  specialize (Hprog Hend). simpl in Hprog.
  unfold left_to_scan in *. rewrite Hs. simpl.
  apply isAtEnd_false in Hend. lia.
Qed.

(** The conditions of the [while (...) advance();] loops all fail at the
    end of the source. *)
Lemma peek_at_end lx : Lexer.isAtEnd lx = true -> Lexer.peek lx = NUL.
Proof. unfold Lexer.peek. intros ->. reflexivity. Qed.

Lemma identifier_loop_stops l :
  (isalnum (Lexer.peek l) || Ascii.eqb (Lexer.peek l) "_")%bool = true ->
  Lexer.isAtEnd l = false.
Proof.
  destruct (Lexer.isAtEnd l) eqn:H; [|reflexivity].
  rewrite (peek_at_end l H). discriminate.
Qed.

Lemma digits_loop_stops l :
  isdigit (Lexer.peek l) = true -> Lexer.isAtEnd l = false.
Proof.
  destruct (Lexer.isAtEnd l) eqn:H; [|reflexivity].
  rewrite (peek_at_end l H). discriminate.
Qed.

Lemma until_loop_stops c l :
  (negb (Ascii.eqb (Lexer.peek l) c) && negb (Lexer.isAtEnd l))%bool = true ->
  Lexer.isAtEnd l = false.
Proof.
  intros H. apply andb_true_iff in H as [_ H]. apply negb_true_iff. exact H.
Qed.

(** * Further properties *)

#[local] Set Warnings "-clear-no-such-hyp".

(** ** The diagnostics store (error.h) *)

(** The calls a client can make on an [ErrorHandler]. *)
Inductive HandlerCall : Type :=
| CallInfo (l c : Z) (msg : string)
| CallWarning (l c : Z) (msg : string)
| CallError (l c : Z) (msg : string)
| CallAddError (lvl : ErrorLevel) (msg fname : string) (l c : Z)
| CallSetCurrentFilename (fname : string)
| CallClear.

Definition handler_call (h : ErrorHandler) (call : HandlerCall) : ErrorHandler :=
  match call with
  | CallInfo l c msg => Errors.info l c msg h
  | CallWarning l c msg => Errors.warning l c msg h
  | CallError l c msg => Errors.error l c msg h
  | CallAddError lvl msg fname l c => Errors.addError lvl msg fname l c h
  | CallSetCurrentFilename fname => Errors.setCurrentFilename fname h
  | CallClear => Errors.clear h
  end.

(** A handler as the default constructor leaves it, after [calls]. *)
Definition handler_after (calls : list HandlerCall) : ErrorHandler :=
  fold_left handler_call calls Errors.empty_handler.

Definition is_error (e : ErrorEntry) : bool := bool_decide (level e = ERROR).

(** The flag [hadError] agrees with the entries. *)
Definition flag_agrees (h : ErrorHandler) : Prop :=
  hadError h = existsb is_error (errors h).

Lemma flag_agrees_empty : flag_agrees Errors.empty_handler.
Proof. reflexivity. Qed.

Lemma flag_agrees_addError lvl msg fname l c h :
  flag_agrees h -> flag_agrees (Errors.addError lvl msg fname l c h).
Proof.
  unfold flag_agrees, Errors.addError. simpl. intros ->.
  rewrite existsb_app. simpl. unfold is_error at 2. simpl.
  destruct lvl; simpl; rewrite ?orb_false_r, ?orb_true_r; reflexivity.
Qed.

Lemma flag_agrees_error l c msg h : flag_agrees h -> flag_agrees (Errors.error l c msg h).
Proof.
  unfold flag_agrees, Errors.error, Errors.addError. simpl. intros _.
  rewrite existsb_app. simpl. apply eq_sym, orb_true_r.
Qed.

Lemma flag_agrees_warning l c msg h : flag_agrees h -> flag_agrees (Errors.warning l c msg h).
Proof. apply flag_agrees_addError. Qed.

Lemma flag_agrees_info l c msg h : flag_agrees h -> flag_agrees (Errors.info l c msg h).
Proof. apply flag_agrees_addError. Qed.

Lemma flag_agrees_call h call : flag_agrees h -> flag_agrees (handler_call h call).
Proof.
  intros H. destruct call; simpl;
    auto using flag_agrees_addError, flag_agrees_error, flag_agrees_warning,
      flag_agrees_info.
  reflexivity.
Qed.

Lemma flag_agrees_calls calls h :
  flag_agrees h -> flag_agrees (fold_left handler_call calls h).
Proof.
  revert h. induction calls as [|call calls IH]; intros h H; simpl; [exact H|].
  apply IH, flag_agrees_call, H.
Qed.

Lemma count_level_positive lvl h :
  (0 < Errors.count_level lvl h)%nat <->
  existsb (fun e => bool_decide (level e = lvl)) (errors h) = true.
Proof.
  unfold Errors.count_level. induction (errors h) as [|e es IH]; simpl.
  - split; [lia | discriminate].
  - rewrite filter_cons. case_bool_decide as He; simpl.
    + destruct (decide (level e = lvl)); [simpl; split; [reflexivity | lia] | contradiction].
    + destruct (decide (level e = lvl)); [contradiction | exact IH].
Qed.

(** X1.  Whatever calls were made on a handler since its construction,
    [hasErrors()] is true exactly when [errorCount()] is positive, and
    [hasWarnings()] exactly when [warningCount()] is positive; the two
    counts together never exceed the number of stored entries. *)
Theorem hasErrors_iff_errorCount (calls : list HandlerCall) :
  let h := handler_after calls in
  (Errors.hasErrors h = true <-> (0 < Errors.errorCount h)%nat) /\
  (Errors.hasWarnings h = true <-> (0 < Errors.warningCount h)%nat) /\
  (Errors.errorCount h + Errors.warningCount h <= length (errors h))%nat.
Proof.
  cbv zeta. set (h := handler_after calls).
  assert (Hflag : flag_agrees h) by apply flag_agrees_calls, flag_agrees_empty.
  clearbody h. split; [|split].
  - unfold Errors.hasErrors, Errors.errorCount. rewrite Hflag.
    symmetry. apply count_level_positive.
  - unfold Errors.hasWarnings, Errors.warningCount.
    symmetry. apply count_level_positive.
  - unfold Errors.errorCount, Errors.warningCount, Errors.count_level.
    induction (errors h) as [|e es IH]; simpl; [lia|].
    rewrite !filter_cons.
    destruct (decide (level e = ERROR)) as [He|He];
      destruct (decide (level e = WARNING)) as [Hw|Hw]; simpl; try lia.
    congruence.
Qed.

(** ** Types of the analyzer *)

(** A type is well formed when every array, pointer and function type in
    it has its [base]: the types the [create] functions build are. *)
Fixpoint wf_type (t : TypeInfo) : bool :=
  match t with
  | mkTypeInfo k _ _ _ b ps =>
      match b with
      | Some b' => wf_type b'
      | None => negb (bool_decide (k ∈ [ARRAY; POINTER; FUNCTION]))
      end && forallb wf_type ps
  end.

Section TypeInfo_induction.

Variable P : TypeInfo -> Prop.
Hypothesis Hleaf : forall k c v s ps, P (mkTypeInfo k c v s None ps).
Hypothesis Hbase : forall k c v s b ps, P b -> P (mkTypeInfo k c v s (Some b) ps).

Fixpoint TypeInfo_base_ind (t : TypeInfo) : P t :=
  match t with
  | mkTypeInfo k c v s None ps => Hleaf k c v s ps
  | mkTypeInfo k c v s (Some b) ps => Hbase k c v s b ps (TypeInfo_base_ind b)
  end.

End TypeInfo_induction.

Lemma wf_type_base t b : wf_type t = true -> base t = Some b -> wf_type b = true.
Proof.
  destruct t as [k c v s [b'|] ps]; simpl; intros H [= <-].
  apply andb_true_iff in H. tauto.
Qed.

Lemma wf_type_has_base t :
  wf_type t = true -> kind t ∈ [ARRAY; POINTER; FUNCTION] -> is_Some (base t).
Proof.
  destruct t as [k c v s [b'|] ps]; simpl; intros H Hk; [eauto|].
  apply andb_true_iff in H as [H _]. apply negb_true_iff in H.
  apply bool_decide_eq_false in H. contradiction.
Qed.

Lemma wf_type_parameters t :
  wf_type t = true -> Forall (fun p => wf_type p = true) (tparameters t).
Proof.
  destruct t as [k c v s b ps]; simpl; intros H.
  apply andb_true_iff in H as [_ H]. apply List.Forall_forall.
  rewrite forallb_forall in H. exact H.
Qed.

Lemma wf_create :
  wf_type createVoid = true /\ wf_type createChar = true /\
  wf_type createInt = true /\ wf_type createFloat = true /\
  wf_type createDouble = true.
Proof. repeat split. Qed.

Lemma wf_createPointer t : wf_type t = true -> wf_type (createPointer t) = true.
Proof. simpl. intros ->. reflexivity. Qed.

Lemma wf_createArray t n : wf_type t = true -> wf_type (createArray t n) = true.
Proof. simpl. intros ->. reflexivity. Qed.

Lemma wf_createFunction r ps :
  wf_type r = true -> Forall (fun p => wf_type p = true) ps ->
  wf_type (createFunction r ps) = true.
Proof.
  simpl. intros -> H. simpl. apply forallb_forall.
  apply List.Forall_forall. exact H.
Qed.

Lemma wf_wrap_pointers n t :
  wf_type t = true -> wf_type (SemanticAnalyzer.wrap_pointers n t) = true.
Proof.
  revert t. induction n as [|n IH]; intros t H; simpl; [exact H|].
  apply IH, wf_createPointer, H.
Qed.

Lemma areTypesCompatible_defined s :
  forall t, wf_type s = true -> wf_type t = true ->
            is_Some (SemanticAnalyzer.areTypesCompatible s t).
Proof.
  induction s as [k c v sz ps | k c v sz b ps IH] using TypeInfo_base_ind;
    intros t Hs Ht.
  - simpl in Hs. apply andb_true_iff in Hs as [Hk _].
    apply negb_true_iff, bool_decide_eq_false in Hk.
    simpl. repeat case_bool_decide; try destruct (_ && _); try solve [eauto];
      exfalso; set_solver.
  - assert (Hb : wf_type b = true) by (apply (wf_type_base _ b Hs); reflexivity).
    assert (Htb : forall tb, base t = Some tb -> wf_type tb = true)
      by (intros tb; apply wf_type_base, Ht).
    assert (Hhas : kind t ∈ [ARRAY; POINTER; FUNCTION] -> is_Some (base t))
      by (apply wf_type_has_base, Ht).
    simpl. repeat case_bool_decide; try destruct (_ && _); try solve [eauto];
      (destruct Hhas as [tb Etb]; [set_solver|]); rewrite Etb; apply IH; auto.
Qed.

Lemma areTypesCompatible_refl t :
  wf_type t = true -> SemanticAnalyzer.areTypesCompatible t t = Some true.
Proof.
  induction t as [k c v sz ps | k c v sz b ps IH] using TypeInfo_base_ind; intros Ht.
  - simpl in Ht. apply andb_true_iff in Ht as [Hk _].
    apply negb_true_iff, bool_decide_eq_false in Hk.
    simpl. rewrite bool_decide_eq_true_2 by reflexivity.
    rewrite bool_decide_eq_false_2 by exact Hk. reflexivity.
  - simpl. rewrite bool_decide_eq_true_2 by reflexivity.
    case_bool_decide; [|reflexivity].
    apply IH. apply (wf_type_base _ b Ht). reflexivity.
Qed.

(** The rank of a numeric kind in the implicit conversions. *)
Definition conversion_rank (t : TypeInfo) : nat :=
  match kind t with
  | CHAR => 0
  | INT => 1
  | FLOAT => 2
  | DOUBLE => 3
  | _ => 4
  end.

(** X2.  [areTypesCompatible] on well-formed types never dereferences a
    null [base]; every well-formed type is compatible with itself; and
    between numeric types the accepted conversions are exactly the
    widening ones, char -> int -> float -> double. *)
Theorem areTypesCompatible_widening :
  (forall s t, wf_type s = true -> wf_type t = true ->
               exists b, SemanticAnalyzer.areTypesCompatible s t = Some b) /\
  (forall t, wf_type t = true -> SemanticAnalyzer.areTypesCompatible t t = Some true) /\
  (forall s t, isNumeric s = true -> isNumeric t = true ->
               SemanticAnalyzer.areTypesCompatible s t =
               Some (conversion_rank s <=? conversion_rank t)%nat).
Proof.
  split; [|split].
  - intros s t Hs Ht. exact (areTypesCompatible_defined s t Hs Ht).
  - exact areTypesCompatible_refl.
  - intros [ks c v sz b ps] t Hs Ht.
    unfold isNumeric in *. apply bool_decide_eq_true in Hs, Ht.
    unfold conversion_rank. simpl in *.
    destruct t as [kt ct vt szt bt pst]; simpl in *.
    assert (Hks : ks = CHAR \/ ks = INT \/ ks = FLOAT \/ ks = DOUBLE) by set_solver.
    assert (Hkt : kt = CHAR \/ kt = INT \/ kt = FLOAT \/ kt = DOUBLE) by set_solver.
    destruct Hks as [->|[->|[->| ->]]]; destruct Hkt as [->|[->|[->| ->]]];
      reflexivity.
Qed.

(** ** The analyzer always completes

    [sem_total d d' keep Q m]: started at scope depth [d] on a valid
    symbol table holding well-formed types, [m] returns (no exception,
    nothing undefined), at depth [d'], on a table of the same kind whose
    first [keep] frames are the ones it had, with a result satisfying
    [Q]. *)

Definition frame_wf (frame : gmap string SymbolInfo) : Prop :=
  map_Forall (fun _ sym => wf_type (stype sym) = true) frame.

Definition depth_of (a : SemanticAnalyzer.SemanticAnalyzer) : nat :=
  SymbolTable.currentScope (SemanticAnalyzer.symbolTable a).

Definition frames_of (a : SemanticAnalyzer.SemanticAnalyzer)
  : list (gmap string SymbolInfo) :=
  SymbolTable.scopes (SemanticAnalyzer.symbolTable a).

Definition sem_inv (a : SemanticAnalyzer.SemanticAnalyzer) : Prop :=
  (depth_of a < length (frames_of a))%nat /\
  Forall frame_wf (frames_of a) /\
  (forall r, SemanticAnalyzer.currentFunctionReturnType a = Some r ->
             wf_type r = true).

Definition sem_total {A} (d d' keep : nat) (Q : A -> Prop)
    (m : SemanticAnalyzer.Sem A) : Prop :=
  forall a, sem_inv a -> depth_of a = d ->
    exists x a',
      m a = Return x a' /\ sem_inv a' /\ depth_of a' = d' /\
      take keep (frames_of a') = take keep (frames_of a) /\ Q x.

Lemma sem_total_ret {A} d keep (Q : A -> Prop) (x : A) :
  Q x -> sem_total d d keep Q (ret x).
Proof. intros HQ a Hinv Hd. exists x, a. auto. Qed.

Lemma sem_total_bind {A B} d d1 d2 keep (Q1 : A -> Prop) (Q2 : B -> Prop)
    (m : SemanticAnalyzer.Sem A) (k : A -> SemanticAnalyzer.Sem B) :
  sem_total d d1 keep Q1 m ->
  (forall x, Q1 x -> sem_total d1 d2 keep Q2 (k x)) ->
  sem_total d d2 keep Q2 (bind m k).
Proof.
  intros Hm Hk a Hinv Hd.
  destruct (Hm a Hinv Hd) as (x & a1 & E1 & Hinv1 & Hd1 & Hf1 & HQ1).
  destruct (Hk x HQ1 a1 Hinv1 Hd1) as (y & a2 & E2 & Hinv2 & Hd2 & Hf2 & HQ2).
  exists y, a2. rewrite (bind_Return _ _ _ _ _ E1).
  split; [exact E2|]. split; [exact Hinv2|]. split; [exact Hd2|].
  split; [congruence | exact HQ2].
Qed.

Lemma sem_total_weaken {A} d d' keep keep' (Q Q' : A -> Prop) m :
  (keep' <= keep)%nat -> (forall x, Q x -> Q' x) ->
  sem_total d d' keep Q m -> sem_total d d' keep' Q' m.
Proof.
  intros Hle HQ Hm a Hinv Hd.
  destruct (Hm a Hinv Hd) as (x & a1 & E1 & Hinv1 & Hd1 & Hf1 & HQ1).
  exists x, a1. repeat (split; [assumption|]). split; [|auto].
  assert (Htake : forall l : list (gmap string SymbolInfo),
             take keep' l = take keep' (take keep l))
    by (intros l; rewrite take_take, Nat.min_l by exact Hle; reflexivity).
  rewrite (Htake (frames_of a1)), Hf1, <- Htake. reflexivity.
Qed.

(** Code that leaves the table and the expected return type alone. *)
Lemma sem_total_quiet {A} d keep (Q : A -> Prop) (m : SemanticAnalyzer.Sem A) :
  (forall a, sem_inv a ->
     exists x a', m a = Return x a' /\
       SemanticAnalyzer.symbolTable a' = SemanticAnalyzer.symbolTable a /\
       SemanticAnalyzer.currentFunctionReturnType a' =
       SemanticAnalyzer.currentFunctionReturnType a /\ Q x) ->
  sem_total d d keep Q m.
Proof.
  intros H a Hinv Hd. destruct (H a Hinv) as (x & a' & E & Ht & Hr & HQ).
  exists x, a'. split; [exact E|].
  unfold sem_inv, depth_of, frames_of in *. rewrite Ht, Hr. auto.
Qed.

Lemma sem_total_error d keep l c msg :
  sem_total d d keep (fun _ => True) (SemanticAnalyzer.error l c msg).
Proof. apply sem_total_quiet. intros a _. eexists _, _. split; [reflexivity|]. auto. Qed.

Lemma sem_total_warning d keep l c msg :
  sem_total d d keep (fun _ => True) (SemanticAnalyzer.warning l c msg).
Proof. apply sem_total_quiet. intros a _. eexists _, _. split; [reflexivity|]. auto. Qed.

Lemma sem_total_set_hasReturn d keep b :
  sem_total d d keep (fun _ => True) (SemanticAnalyzer.set_hasReturn b).
Proof. apply sem_total_quiet. intros a _. eexists _, _. split; [reflexivity|]. auto. Qed.

Lemma sem_total_gets_hasReturn d keep :
  sem_total d d keep (fun _ => True) (gets SemanticAnalyzer.hasReturn).
Proof. apply sem_total_quiet. intros a _. eexists _, _. split; [reflexivity|]. auto. Qed.

Lemma sem_total_gets_returnType d keep :
  sem_total d d keep (fun o => forall r, o = Some r -> wf_type r = true)
    (gets SemanticAnalyzer.currentFunctionReturnType).
Proof.
  apply sem_total_quiet. intros a (_ & _ & Hr). eexists _, _.
  split; [reflexivity|]. auto.
Qed.

Lemma sem_total_set_returnType d keep o :
  (forall r, o = Some r -> wf_type r = true) ->
  sem_total d d keep (fun _ => True) (SemanticAnalyzer.set_currentFunctionReturnType o).
Proof.
  intros Ho a (Hv & Hwf & _) Hd. eexists _, _. split; [reflexivity|].
  unfold sem_inv, depth_of, frames_of in *. simpl. auto.
Qed.

Lemma sem_total_compatible d keep s t :
  wf_type s = true -> wf_type t = true ->
  sem_total d d keep (fun _ => True) (SemanticAnalyzer.compatible s t).
Proof.
  intros Hs Ht. apply sem_total_quiet. intros a _.
  unfold SemanticAnalyzer.compatible.
  destruct (areTypesCompatible_defined s t Hs Ht) as [b ->].
  exists b, a. auto.
Qed.

Lemma sem_total_deref_base d keep t :
  wf_type t = true -> kind t ∈ [ARRAY; POINTER; FUNCTION] ->
  sem_total d d keep (fun b => wf_type b = true) (SemanticAnalyzer.deref_base t).
Proof.
  intros Ht Hk. apply sem_total_quiet. intros a _.
  unfold SemanticAnalyzer.deref_base.
  destruct (wf_type_has_base t Ht Hk) as [b Hb]. rewrite Hb.
  exists b, a. split; [reflexivity|]. split; [reflexivity|]. split; [reflexivity|].
  exact (wf_type_base t b Ht Hb).
Qed.

(** *** The symbol table operations *)

Lemma lookup_from_total name st i :
  (i < length (SymbolTable.scopes st))%nat ->
  Forall frame_wf (SymbolTable.scopes st) ->
  exists r, SymbolTable.lookup_from name i st = Return r st /\
            (forall sym, r = Some sym -> wf_type (stype sym) = true).
Proof.
  intros Hi Hwf. induction i as [|i IH]; simpl.
  - destruct (SymbolTable.scopes st !! 0%nat) as [frame|] eqn:E;
      [|apply lookup_ge_None in E; lia].
    destruct (frame !! name) as [sym|] eqn:Es.
    + exists (Some sym). split; [reflexivity|]. intros ? [= <-].
      rewrite Forall_lookup in Hwf. exact (Hwf _ _ E _ _ Es).
    + exists None. split; [reflexivity | discriminate].
  - destruct (SymbolTable.scopes st !! S i) as [frame|] eqn:E;
      [|apply lookup_ge_None in E; lia].
    destruct (frame !! name) as [sym|] eqn:Es.
    + exists (Some sym). split; [reflexivity|]. intros ? [= <-].
      rewrite Forall_lookup in Hwf. exact (Hwf _ _ E _ _ Es).
    + apply IH. lia.
Qed.

Lemma sem_total_lookup d keep name :
  sem_total d d keep (fun r => forall sym, r = Some sym -> wf_type (stype sym) = true)
    (SemanticAnalyzer.on_table (SymbolTable.lookup name)).
Proof.
  apply sem_total_quiet. intros a (Hv & Hwf & _).
  unfold SemanticAnalyzer.on_table, SymbolTable.lookup, bind, gets.
  destruct (lookup_from_total name (SemanticAnalyzer.symbolTable a)
              (depth_of a) Hv Hwf) as (r & E & Hr).
  unfold depth_of in E. rewrite E. eexists _, _. split; [reflexivity|].
  destruct a; simpl. auto.
Qed.

Lemma sem_total_existsInCurrentScope d keep name :
  sem_total d d keep (fun _ => True)
    (SemanticAnalyzer.on_table (SymbolTable.existsInCurrentScope name)).
Proof.
  apply sem_total_quiet. intros a (Hv & _ & _).
  unfold SemanticAnalyzer.on_table, SymbolTable.existsInCurrentScope.
  unfold depth_of, frames_of in Hv.
  destruct (SymbolTable.scopes _ !! _) as [frame|] eqn:E;
    [|apply lookup_ge_None in E; lia].
  eexists _, _. split; [reflexivity|]. destruct a; simpl. auto.
Qed.

Lemma frame_wf_insert name sym frame :
  wf_type (stype sym) = true -> frame_wf frame -> frame_wf (<[name := sym]> frame).
Proof. intros Hs Hf. apply map_Forall_insert_2; assumption. Qed.

Lemma sem_total_assign d i name sym :
  (i <= d)%nat -> wf_type (stype sym) = true ->
  sem_total d d i (fun _ => True)
    (SemanticAnalyzer.on_table (SymbolTable.assign i name sym)).
Proof.
  intros Hi Hs a (Hv & Hwf & Hr) Hd.
  unfold SemanticAnalyzer.on_table, SymbolTable.assign.
  unfold depth_of, frames_of in *.
  destruct (SymbolTable.scopes _ !! i) as [frame|] eqn:E;
    [|apply lookup_ge_None in E; lia].
  eexists _, _. split; [reflexivity|].
  unfold sem_inv, depth_of, frames_of.
  cbn [SemanticAnalyzer.symbolTable SymbolTable.scopes SymbolTable.currentScope
       SemanticAnalyzer.currentFunctionReturnType].
  split; [|split; [assumption|split; [|exact I]]].
  - split; [rewrite length_insert; exact Hv|]. split; [|exact Hr].
    apply Forall_insert; [exact Hwf|].
    apply frame_wf_insert; [exact Hs|].
    rewrite Forall_lookup in Hwf. exact (Hwf _ _ E).
  - apply take_insert_ge. lia.
Qed.

Lemma sem_total_addVariable d name ty :
  wf_type ty = true ->
  sem_total d d d (fun _ => True)
    (SemanticAnalyzer.on_table (SymbolTable.addVariable name ty)).
Proof.
  intros Hty a Hinv Hd.
  destruct (sem_total_assign d d name (mkSymbolInfo VARIABLE ty name d)
              (Nat.le_refl d) Hty a Hinv Hd) as (x & a' & E & H).
  exists x, a'. split; [|exact H].
  unfold SemanticAnalyzer.on_table, SymbolTable.addVariable, bind, gets in *.
  unfold depth_of in Hd. rewrite Hd. exact E.
Qed.

Lemma sem_total_addParameter d name ty :
  wf_type ty = true ->
  sem_total d d d (fun _ => True)
    (SemanticAnalyzer.on_table (SymbolTable.addParameter name ty)).
Proof.
  intros Hty a Hinv Hd.
  destruct (sem_total_assign d d name (mkSymbolInfo PARAMETER ty name d)
              (Nat.le_refl d) Hty a Hinv Hd) as (x & a' & E & H).
  exists x, a'. split; [|exact H].
  unfold SemanticAnalyzer.on_table, SymbolTable.addParameter, bind, gets in *.
  unfold depth_of in Hd. rewrite Hd. exact E.
Qed.

Lemma sem_total_addFunction d name ty :
  wf_type ty = true ->
  sem_total d d 0 (fun _ => True)
    (SemanticAnalyzer.on_table (SymbolTable.addFunction name ty)).
Proof.
  intros Hty. apply sem_total_assign; [lia | exact Hty].
Qed.

Lemma sem_total_enterScope d :
  sem_total d (S d) (S d) (fun _ => True)
    (SemanticAnalyzer.on_table SymbolTable.enterScope).
Proof.
  intros a (Hv & Hwf & Hr) Hd. eexists _, _. split; [reflexivity|].
  unfold sem_inv, depth_of, frames_of in *. simpl.
  destruct (length _ <=? S _)%nat eqn:E.
  - apply Nat.leb_le in E. split; [|split; [lia|split; [|exact I]]].
    + split; [rewrite length_app; simpl; lia|]. split; [|exact Hr].
      apply Forall_app. split; [exact Hwf|]. repeat constructor.
      apply map_Forall_empty.
    + apply take_app_le. lia.
  - apply Nat.leb_gt in E. split; [|split; [lia|split; [reflexivity|exact I]]].
    split; [exact E|]. auto.
Qed.

Lemma sem_total_leaveScope d keep :
  sem_total (S d) d keep (fun _ => True)
    (SemanticAnalyzer.on_table SymbolTable.leaveScope).
Proof.
  intros a (Hv & Hwf & Hr) Hd.
  unfold SemanticAnalyzer.on_table, SymbolTable.leaveScope.
  unfold sem_inv, depth_of, frames_of in *. rewrite Hd.
  eexists _, _. split; [reflexivity|]. simpl.
  split; [|auto]. split; [lia|]. auto.
Qed.

Create HintDb sem.
#[local] Hint Resolve sem_total_error sem_total_warning sem_total_set_hasReturn
  sem_total_gets_hasReturn sem_total_gets_returnType sem_total_set_returnType
  sem_total_compatible sem_total_deref_base sem_total_lookup
  sem_total_existsInCurrentScope sem_total_addVariable sem_total_addParameter
  sem_total_addFunction sem_total_enterScope sem_total_leaveScope
  wf_createPointer wf_createArray wf_createFunction wf_wrap_pointers : sem.

Ltac sem_step :=
  lazymatch goal with
  | |- sem_total _ _ _ _ (bind _ _) =>
      eapply sem_total_bind; [|intros ? ?; cbv beta in *]
  | |- sem_total _ _ _ _ (let _ := _ in _) => cbv zeta
  | |- sem_total _ _ _ _ (ret _) =>
      apply sem_total_ret; first [exact I | solve [eauto with sem]]
  | |- sem_total _ _ _ ?Q ?m =>
      first
        [ solve [eauto with sem]
        | lazymatch m with
          | (if ?b then _ else _) =>
              try (is_evar Q; unify Q (fun _ : unit => True));
              try (is_evar Q; unify Q (fun _ : bool => True));
              destruct b eqn:?
          | (match ?x with _ => _ end) =>
              try (is_evar Q; unify Q (fun _ : unit => True));
              try (is_evar Q; unify Q (fun _ : bool => True));
              destruct x eqn:?
          end ]
  end.

Ltac sem_auto := repeat sem_step.

Lemma getCommonType_wf a b :
  wf_type a = true -> wf_type b = true ->
  wf_type (SemanticAnalyzer.getCommonType a b) = true.
Proof.
  intros Ha Hb. unfold SemanticAnalyzer.getCommonType.
  repeat case_bool_decide; try assumption; try reflexivity.
  destruct (_ && _); [|assumption]. destruct (_ <=? _); assumption.
Qed.

#[local] Hint Resolve getCommonType_wf : sem.

Lemma sem_total_getTypeFromTypeNode d keep node :
  sem_total d d keep (fun t => wf_type t = true)
    (SemanticAnalyzer.getTypeFromTypeNode node).
Proof.
  unfold SemanticAnalyzer.getTypeFromTypeNode.
  eapply (sem_total_bind d d d keep
            (fun p => negb (bool_decide (fst p ∈ [ARRAY; POINTER; FUNCTION])) = true)).
  - repeat case_bool_decide; try (apply sem_total_ret; reflexivity).
    eapply sem_total_bind; [apply sem_total_error|intros ? _].
    apply sem_total_ret. reflexivity.
  - intros [k sz] Hk. simpl in Hk. apply sem_total_ret.
    assert (Hwf : wf_type (mkTypeInfo k (isConst node) (isVolatile node) sz None []) = true)
      by (simpl; rewrite Hk; reflexivity).
    destruct (isPointer node); [apply wf_wrap_pointers|]; exact Hwf.
Qed.

Lemma sem_total_visitLiteral d keep token :
  sem_total d d keep (fun t => wf_type t = true) (SemanticAnalyzer.visitLiteral token).
Proof. unfold SemanticAnalyzer.visitLiteral. sem_auto. Qed.

Lemma sem_total_visitVariable d keep name :
  sem_total d d keep (fun t => wf_type t = true) (SemanticAnalyzer.visitVariable name).
Proof. unfold SemanticAnalyzer.visitVariable. sem_auto. Qed.

Lemma sem_total_visitUnary d keep op t :
  wf_type t = true ->
  sem_total d d keep (fun t => wf_type t = true) (SemanticAnalyzer.visitUnary op t).
Proof.
  intros Ht. unfold SemanticAnalyzer.visitUnary. sem_auto.
  apply sem_total_deref_base; [exact Ht|].
  match goal with
  | H : negb (bool_decide _) = false |- _ =>
      apply negb_false_iff, bool_decide_eq_true in H; rewrite H
  end.
  set_solver.
Qed.

Lemma sem_total_visitBinary d keep op l r :
  wf_type l = true -> wf_type r = true ->
  sem_total d d keep (fun t => wf_type t = true) (SemanticAnalyzer.visitBinary op l r).
Proof.
  intros Hl Hr. unfold SemanticAnalyzer.visitBinary. sem_auto.
Qed.

Lemma sem_total_visitMemberAccess d keep op t :
  sem_total d d keep (fun t => wf_type t = true)
    (SemanticAnalyzer.visitMemberAccess op t).
Proof. unfold SemanticAnalyzer.visitMemberAccess. sem_auto. Qed.

Lemma sem_total_visitConditional_types d keep t f :
  wf_type t = true -> wf_type f = true ->
  sem_total d d keep (fun t => wf_type t = true)
    (SemanticAnalyzer.visitConditional_types t f).
Proof. intros Ht Hf. unfold SemanticAnalyzer.visitConditional_types. sem_auto. Qed.

#[local] Hint Resolve sem_total_getTypeFromTypeNode sem_total_visitLiteral
  sem_total_visitVariable sem_total_visitUnary sem_total_visitBinary
  sem_total_visitMemberAccess sem_total_visitConditional_types : sem.

Lemma sem_total_visitCall_arguments d keep visit arguments :
  Forall (fun p => sem_total d d keep (fun t => wf_type t = true) (visit p)) arguments ->
  forall params,
    length arguments = length params ->
    Forall (fun p => wf_type p = true) params ->
    sem_total d d keep (fun _ => True)
      (SemanticAnalyzer.visitCall_arguments visit arguments params).
Proof.
  induction 1 as [|arg rest Harg _ IH]; intros params Hlen Hwf; simpl.
  - apply sem_total_ret. exact I.
  - destruct params as [|param params]; [discriminate|].
    apply Forall_cons in Hwf as [Hparam Hparams].
    eapply sem_total_bind; [exact Harg|intros argType HargType; cbv beta in *].
    sem_auto.
Qed.

Lemma sem_total_visitExpression_ptr (p : ExprPtr) :
  on_ptr (fun e => forall d keep,
            sem_total d d keep (fun t => wf_type t = true)
              (SemanticAnalyzer.visitExpressionNode e)) p ->
  forall d keep,
    sem_total d d keep (fun t => wf_type t = true) (SemanticAnalyzer.visitExpression p).
Proof.
  destruct p as [e|]; simpl; intros H d keep; [apply H|].
  apply sem_total_ret. reflexivity.
Qed.

Lemma sem_total_visitExpressionNode (e : ExpressionNode) :
  forall d keep,
    sem_total d d keep (fun t => wf_type t = true)
      (SemanticAnalyzer.visitExpressionNode e).
Proof.
  induction e using ExpressionNode_nested_ind; intros d keep; simpl;
    repeat match goal with
           | H : on_ptr _ _ |- _ =>
               let H' := fresh "IH" in
               pose proof (sem_total_visitExpression_ptr _ H) as H'; clear H
           end;
    try solve [sem_auto].
  - (* CallNode *)
    eapply sem_total_bind; [apply IH|intros calleeType Hcallee; cbv beta in *].
    destruct (negb (bool_decide (kind calleeType = FUNCTION))) eqn:Hkind;
      [sem_auto|].
    destruct (negb (length arguments =? length (tparameters calleeType))%nat) eqn:Hlen;
      [sem_auto|].
    apply negb_false_iff, bool_decide_eq_true in Hkind.
    apply negb_false_iff, Nat.eqb_eq in Hlen.
    eapply sem_total_bind.
    + apply sem_total_visitCall_arguments;
        [|exact Hlen | apply wf_type_parameters, Hcallee].
      eapply Forall_impl; [eassumption|].
      intros p Hp. exact (sem_total_visitExpression_ptr p Hp d keep).
    + intros _ _. apply sem_total_deref_base; [exact Hcallee|].
      rewrite Hkind. set_solver.
  - (* ArrayAccessNode *)
    eapply sem_total_bind; [apply IH0|intros arrayType Harray; cbv beta in *].
    eapply sem_total_bind; [apply IH|intros indexType Hindex; cbv beta in *].
    destruct (negb (bool_decide (kind arrayType ∈ [ARRAY; POINTER]))) eqn:Hkind;
      [sem_auto|].
    destruct (negb (isInteger indexType)); [sem_auto|].
    apply negb_false_iff, bool_decide_eq_true in Hkind.
    apply sem_total_deref_base; [exact Harray | set_solver].
Qed.

Lemma sem_total_visitExpression d keep (p : ExprPtr) :
  sem_total d d keep (fun t => wf_type t = true) (SemanticAnalyzer.visitExpression p).
Proof.
  apply sem_total_visitExpression_ptr. destruct p; simpl; [|exact I].
  apply sem_total_visitExpressionNode.
Qed.

#[local] Hint Resolve sem_total_visitExpression : sem.

(** *** Statements *)

Lemma sem_total_visitExpressionStatement d keep e :
  sem_total d d keep (fun _ => True) (SemanticAnalyzer.visitExpressionStatement e).
Proof. unfold SemanticAnalyzer.visitExpressionStatement. sem_auto. Qed.

Lemma sem_total_visitReturnStatement d keep v :
  sem_total d d keep (fun _ => True) (SemanticAnalyzer.visitReturnStatement v).
Proof. unfold SemanticAnalyzer.visitReturnStatement. sem_auto. Qed.

Lemma sem_total_check_condition d keep what c :
  sem_total d d keep (fun _ => True) (SemanticAnalyzer.check_condition what c).
Proof. unfold SemanticAnalyzer.check_condition. sem_auto. Qed.

Lemma sem_total_visitVariableDeclaration d ty name init :
  sem_total d d d (fun _ => True)
    (SemanticAnalyzer.visitVariableDeclaration ty name init).
Proof. unfold SemanticAnalyzer.visitVariableDeclaration. sem_auto. Qed.

#[local] Hint Resolve sem_total_visitExpressionStatement
  sem_total_visitReturnStatement sem_total_check_condition
  sem_total_visitVariableDeclaration : sem.

(** A declaration changes the current frame; every other statement
    leaves it, too, as it was. *)
Definition kept_by (s : StatementNode) (d : nat) : nat :=
  match s with
  | VariableDeclarationNode _ _ _ => d
  | _ => S d
  end.

Definition statement_total (visit : StatementNode -> SemanticAnalyzer.Sem unit)
    (s : StatementNode) : Prop :=
  forall d, sem_total d d (kept_by s d) (fun _ => True) (visit s).

Lemma kept_by_ge s d : (d <= kept_by s d)%nat.
Proof. destruct s; simpl; lia. Qed.

Lemma sem_total_visit_each visit statements d :
  Forall (statement_total visit) statements ->
  sem_total d d d (fun _ => True) (SemanticAnalyzer.visit_each visit statements).
Proof.
  induction 1 as [|s rest Hs _ IH]; simpl; [apply sem_total_ret; exact I|].
  eapply sem_total_bind; [|intros _ _; exact IH].
  apply (sem_total_weaken d d (kept_by s d) d (fun _ => True) (fun _ => True));
    [apply kept_by_ge | auto | apply Hs].
Qed.

Lemma sem_total_visitBlock_rec visit statements d :
  Forall (statement_total visit) statements ->
  sem_total d d (S d) (fun _ => True)
    (SemanticAnalyzer.visitBlock_rec visit statements).
Proof.
  intros H. unfold SemanticAnalyzer.visitBlock_rec.
  eapply sem_total_bind; [apply sem_total_enterScope|intros _ _].
  eapply sem_total_bind; [apply sem_total_visit_each; exact H|intros _ _].
  apply sem_total_leaveScope.
Qed.

Lemma sem_total_visitNested s d :
  statement_total SemanticAnalyzer.visitStatement s ->
  sem_total d d (S d) (fun _ => True)
    (SemanticAnalyzer.visitNested SemanticAnalyzer.visitStatement s).
Proof.
  intros Hs.
  assert (Hscoped :
            sem_total d d (S d) (fun _ => True)
              (SemanticAnalyzer.on_table SymbolTable.enterScope ;;
               SemanticAnalyzer.visitStatement s ;;
               SemanticAnalyzer.on_table SymbolTable.leaveScope)).
  { eapply sem_total_bind; [apply sem_total_enterScope|intros _ _].
    eapply sem_total_bind; [|intros _ _; apply sem_total_leaveScope].
    apply (sem_total_weaken (S d) (S d) (kept_by s (S d)) (S d)
             (fun _ => True) (fun _ => True));
      [apply kept_by_ge | auto | apply Hs]. }
  destruct s; try exact Hscoped.
  exact (Hs d).
Qed.

Lemma statement_total_visitStatement s :
  statement_total SemanticAnalyzer.visitStatement s.
Proof.
  induction s using StatementNode_nested_ind; intros d; simpl.
  - apply sem_total_visitExpressionStatement.
  - apply sem_total_visitBlock_rec. assumption.
  - apply sem_total_visitVariableDeclaration.
  - unfold SemanticAnalyzer.visitIfStatement_rec.
    eapply sem_total_bind; [apply sem_total_check_condition|intros _ _].
    eapply sem_total_bind; [apply sem_total_visitNested; assumption|intros _ _].
    destruct e as [s'|]; [|apply sem_total_ret; exact I].
    apply sem_total_visitNested. apply H. reflexivity.
  - unfold SemanticAnalyzer.visitWhileStatement_rec.
    eapply sem_total_bind; [apply sem_total_check_condition|intros _ _].
    apply sem_total_visitNested; assumption.
  - unfold SemanticAnalyzer.visitDoWhileStatement_rec.
    eapply sem_total_bind; [apply sem_total_visitNested; assumption|intros _ _].
    apply sem_total_check_condition.
  - unfold SemanticAnalyzer.visitForStatement_rec.
    eapply sem_total_bind; [apply sem_total_enterScope|intros _ _].
    eapply (sem_total_bind (S d) (S d) d (S d) (fun _ => True)).
    { destruct i as [[]|]; try (apply sem_total_ret; exact I).
      - apply sem_total_visitExpressionStatement.
      - apply sem_total_visitVariableDeclaration. }
    intros _ _.
    eapply (sem_total_bind (S d) (S d) d (S d) (fun _ => True)).
    { destruct c; [|apply sem_total_ret; exact I].
      apply sem_total_check_condition. }
    intros _ _.
    eapply (sem_total_bind (S d) (S d) d (S d) (fun _ => True)).
    { destruct u; [|apply sem_total_ret; exact I]. sem_auto. }
    intros _ _.
    eapply sem_total_bind; [|intros _ _; apply sem_total_leaveScope].
    apply (sem_total_weaken (S d) (S d) (S (S d)) (S d)
             (fun _ => True) (fun _ => True)); [lia | auto|].
    apply sem_total_visitNested. assumption.
  - apply sem_total_visitReturnStatement.
  - apply sem_total_ret. exact I.
  - apply sem_total_ret. exact I.
Qed.

Lemma sem_total_visitBlock statements d :
  sem_total d d (S d) (fun _ => True) (SemanticAnalyzer.visitBlock statements).
Proof.
  apply sem_total_visitBlock_rec.
  apply Forall_forall. intros s _. apply statement_total_visitStatement.
Qed.

Lemma sem_total_visitParameter d p :
  sem_total d d d (fun _ => True) (SemanticAnalyzer.visitParameter p).
Proof. unfold SemanticAnalyzer.visitParameter. sem_auto. Qed.

Lemma sem_total_visit_parameters d params :
  sem_total d d d (fun _ => True) (SemanticAnalyzer.visit_parameters params).
Proof.
  induction params as [|p rest IH]; simpl; [apply sem_total_ret; exact I|].
  eapply sem_total_bind; [apply sem_total_visitParameter|intros _ _; exact IH].
Qed.

Lemma sem_total_param_types d keep params :
  sem_total d d keep (fun tys => Forall (fun t => wf_type t = true) tys)
    (SemanticAnalyzer.param_types params).
Proof.
  induction params as [|p rest IH]; simpl.
  - apply sem_total_ret. constructor.
  - eapply sem_total_bind; [apply sem_total_getTypeFromTypeNode|].
    intros ty Hty. cbv beta in Hty.
    eapply sem_total_bind; [exact IH|].
    intros tys Htys. apply sem_total_ret. constructor; assumption.
Qed.

Lemma sem_total_visitFunctionDeclaration d node :
  sem_total d d 0 (fun _ => True) (SemanticAnalyzer.visitFunctionDeclaration node).
Proof.
  unfold SemanticAnalyzer.visitFunctionDeclaration.
  eapply sem_total_bind; [apply sem_total_getTypeFromTypeNode|].
  intros returnType HreturnType. cbv beta in HreturnType.
  eapply sem_total_bind; [apply sem_total_param_types|].
  intros paramTypes HparamTypes. cbv beta zeta in *.
  eapply sem_total_bind; [apply sem_total_existsInCurrentScope|].
  intros declared _. destruct declared; [apply sem_total_error|].
  eapply sem_total_bind;
    [apply sem_total_addFunction, wf_createFunction; assumption|intros _ _].
  destruct (fbody node) as [statements|]; [|apply sem_total_ret; exact I].
  eapply sem_total_bind;
    [apply (sem_total_weaken d (S d) (S d) 0 (fun _ => True) (fun _ => True));
     [lia | auto | apply sem_total_enterScope]|intros _ _].
  eapply sem_total_bind;
    [apply sem_total_set_returnType; intros r [= <-]; exact HreturnType|intros _ _].
  eapply sem_total_bind; [apply sem_total_set_hasReturn|intros _ _].
  eapply sem_total_bind;
    [apply (sem_total_weaken (S d) (S d) (S d) 0 (fun _ => True) (fun _ => True));
     [lia | auto | apply sem_total_visit_parameters]|intros _ _].
  eapply sem_total_bind;
    [apply (sem_total_weaken (S d) (S d) (S (S d)) 0 (fun _ => True) (fun _ => True));
     [lia | auto | apply sem_total_visitBlock]|intros _ _].
  eapply sem_total_bind; [apply sem_total_gets_hasReturn|intros seen _].
  eapply (sem_total_bind (S d) (S d) d 0 (fun _ => True)).
  { destruct (_ && _); [apply sem_total_error | apply sem_total_ret; exact I]. }
  intros _ _.
  eapply sem_total_bind;
    [apply sem_total_set_returnType; discriminate|intros _ _].
  apply sem_total_leaveScope.
Qed.

Lemma sem_total_visitProgram_loop d declarations :
  sem_total d d 0 (fun _ => True) (SemanticAnalyzer.visitProgram_loop declarations).
Proof.
  induction declarations as [|declaration rest IH]; simpl;
    [apply sem_total_ret; exact I|].
  eapply sem_total_bind; [|intros _ _; exact IH].
  destruct declaration as [f|s].
  - apply sem_total_visitFunctionDeclaration.
  - destruct s; try (apply sem_total_ret; exact I).
    apply (sem_total_weaken d d d 0 (fun _ => True) (fun _ => True));
      [lia | auto | apply sem_total_visitVariableDeclaration].
Qed.


(** *** Name resolution *)

(** [lookup] reads the frames up to the current one only. *)
Lemma lookup_from_frames name st st' d i r :
  (i <= d)%nat ->
  take (S d) (SymbolTable.scopes st') = take (S d) (SymbolTable.scopes st) ->
  SymbolTable.lookup_from name i st = Return r st ->
  SymbolTable.lookup_from name i st' = Return r st'.
Proof.
  intros Hi Htake.
  assert (Hframe : forall j, (j <= d)%nat ->
            SymbolTable.scopes st' !! j = SymbolTable.scopes st !! j).
  { intros j Hj.
    rewrite <- (lookup_take_lt (SymbolTable.scopes st') (S d) j) by lia.
    rewrite <- (lookup_take_lt (SymbolTable.scopes st) (S d) j) by lia.
    rewrite Htake. reflexivity. }
  induction i as [|i IH]; simpl; rewrite Hframe by lia;
    destruct (SymbolTable.scopes st !! _) as [frame|]; try discriminate;
    destruct (frame !! name); try (intros [= <-]; reflexivity).
  apply IH. lia.
Qed.

Definition is_declaration (s : StatementNode) : bool :=
  match s with
  | VariableDeclarationNode _ _ _ => true
  | _ => false
  end.


Lemma sem_inv_new h : sem_inv (SemanticAnalyzer.new h).
Proof.
  unfold sem_inv, depth_of, frames_of. simpl.
  split; [lia|]. split; [|discriminate].
  repeat constructor. apply map_Forall_empty.
Defined.

Definition token_y : Token := mkToken IDENTIFIER "y" "t.c" 1 5.
Definition token_int_kw : Token := mkToken KW_INT "int" "t.c" 1 1.
Definition int_node : TypeNode := mkTypeNode token_int_kw false false false 0.


(** X5.  Declaring and looking up.  On a valid table (the current scope
    index is within the frame vector), [addVariable] returns, the new
    symbol is what [lookup] finds for the name (it shadows any binding
    of an outer frame), it carries the current scope level, the name now
    exists in the current scope, and every other name resolves as
    before. *)
Theorem addVariable_then_lookup (st : SymbolTable.SymbolTable) (name : string)
    (ty : TypeInfo) :
  (SymbolTable.currentScope st < length (SymbolTable.scopes st))%nat ->
  exists st',
    SymbolTable.addVariable name ty st = Return tt st' /\
    SymbolTable.currentScope st' = SymbolTable.currentScope st /\
    SymbolTable.lookup name st' =
      Return (Some (mkSymbolInfo VARIABLE ty name (SymbolTable.currentScope st))) st' /\
    SymbolTable.existsInCurrentScope name st' = Return true st' /\
    forall other r,
      other <> name ->
      SymbolTable.lookup other st = Return r st ->
      SymbolTable.lookup other st' = Return r st'.
Proof.
  intros Hvalid.
  unfold SymbolTable.addVariable, SymbolTable.assign, bind, gets.
  destruct (SymbolTable.scopes st !! SymbolTable.currentScope st) as [frame|] eqn:E;
    [|apply lookup_ge_None in E; lia].
  eexists. split; [reflexivity|]. split; [reflexivity|].
  set (d := SymbolTable.currentScope st) in *.
  set (sym := mkSymbolInfo VARIABLE ty name d).
  set (st' := SymbolTable.mkSymbolTable _ _).
  assert (Hframe : SymbolTable.scopes st' !! d = Some (<[name := sym]> frame))
    by (apply list_lookup_insert_eq; exact Hvalid).
  assert (Hrest : forall j, j <> d ->
            SymbolTable.scopes st' !! j = SymbolTable.scopes st !! j)
    by (intros j Hj; apply list_lookup_insert_ne; congruence).
  assert (Hcur : SymbolTable.currentScope st' = d) by reflexivity.
  clearbody st'.
  assert (Hnow : SymbolTable.lookup_from name d st' = Return (Some sym) st').
  { destruct d; simpl; rewrite Hframe, lookup_insert_eq; reflexivity. }
  split; [unfold SymbolTable.lookup, bind, gets; rewrite Hcur; exact Hnow|]. split.
  - unfold SymbolTable.existsInCurrentScope.
    rewrite Hcur, Hframe, lookup_insert_eq. reflexivity.
  - intros other r Hother. unfold SymbolTable.lookup, bind, gets. rewrite Hcur.
    assert (Hothers : forall i, (i <= d)%nat ->
              SymbolTable.lookup_from other i st = Return r st ->
              SymbolTable.lookup_from other i st' = Return r st').
    { induction i as [|i IH]; intros Hi; simpl.
      - destruct (decide (0%nat = d)) as [Heq|Hne].
        + rewrite Heq, Hframe, E, lookup_insert_ne by congruence.
          destruct (frame !! other); intros [= <-]; reflexivity.
        + rewrite Hrest by exact Hne.
          destruct (SymbolTable.scopes st !! 0%nat) as [fr|]; [|discriminate].
          destruct (fr !! other); intros [= <-]; reflexivity.
      - destruct (decide (S i = d)) as [Heq|Hne].
        + rewrite Heq, Hframe, E, lookup_insert_ne by congruence.
          destruct (frame !! other); [intros [= <-]; reflexivity|].
          apply IH. lia.
        + rewrite Hrest by exact Hne.
          destruct (SymbolTable.scopes st !! S i) as [fr|]; [|discriminate].
          destruct (fr !! other); [intros [= <-]; reflexivity|].
          apply IH. lia. }
    apply Hothers. lia.
Qed.

Lemma addVariable_then_lookup_witness :
  exists st',
    SymbolTable.addVariable "x" createInt SymbolTable.new = Return tt st' /\
    SymbolTable.lookup "x" st' =
      Return (Some (mkSymbolInfo VARIABLE createInt "x" 0)) st'.
Proof.
  destruct (addVariable_then_lookup SymbolTable.new "x" createInt)
    as (st' & E & _ & Hlookup & _).
  - simpl. lia.
  - exists st'. split; [exact E | exact Hlookup].
Defined.

(** ** Diagnostics are only ever appended

    [diag_step P h h']: the handler [h'] holds the entries of [h]
    followed by new ones, each with a severity and message in [P]; the
    error flag was raised if one of the new entries is an error, and
    otherwise is as before. *)

Definition diag_step (P : ErrorLevel -> string -> Prop) (h h' : ErrorHandler) : Prop :=
  exists new,
    errors h' = (errors h ++ new)%list /\
    Forall (fun e => P (level e) (message e)) new /\
    hadError h' = (hadError h || existsb is_error new)%bool /\
    currentFilename h' = currentFilename h.

Lemma diag_step_refl P h : diag_step P h h.
Proof.
  exists []. rewrite app_nil_r, orb_false_r. repeat split. constructor.
Qed.

Lemma diag_step_trans P h1 h2 h3 :
  diag_step P h1 h2 -> diag_step P h2 h3 -> diag_step P h1 h3.
Proof.
  intros (n1 & E1 & P1 & F1 & C1) (n2 & E2 & P2 & F2 & C2).
  exists (n1 ++ n2)%list. rewrite E2, E1, app_assoc, F2, F1, existsb_app, orb_assoc.
  repeat split; [|congruence]. apply Forall_app. auto.
Qed.

Lemma diag_step_weaken (P Q : ErrorLevel -> string -> Prop) h h' :
  (forall lvl msg, P lvl msg -> Q lvl msg) -> diag_step P h h' -> diag_step Q h h'.
Proof.
  intros HPQ (new & E & HP & F & C). exists new. repeat split; try assumption.
  eapply Forall_impl; [exact HP|]. intros e. apply HPQ.
Qed.

Lemma diag_step_error (P : ErrorLevel -> string -> Prop) l c msg h :
  P ERROR msg -> diag_step P h (Errors.error l c msg h).
Proof.
  intros HP. eexists [_]. unfold Errors.error, Errors.addError. simpl.
  split; [reflexivity|]. split; [repeat constructor; exact HP|].
  split; [|reflexivity]. unfold is_error. simpl. rewrite orb_true_r. reflexivity.
Qed.

Lemma diag_step_warning (P : ErrorLevel -> string -> Prop) l c msg h :
  P WARNING msg -> diag_step P h (Errors.warning l c msg h).
Proof.
  intros HP. eexists [_]. unfold Errors.warning, Errors.addError. simpl.
  split; [reflexivity|]. split; [repeat constructor; exact HP|].
  split; [|reflexivity]. unfold is_error. simpl. rewrite orb_false_r. reflexivity.
Qed.

Lemma diag_step_flag_agrees P h h' :
  diag_step P h h' -> flag_agrees h -> flag_agrees h'.
Proof.
  intros (new & E & _ & F & _) H. unfold flag_agrees in *.
  rewrite F, E, existsb_app, H. reflexivity.
Qed.

(** [reports eh P m]: whatever way [m] ends, the handler [eh] of the
    state has only been appended to, with entries in [P]. *)
Definition reports {S A} (eh : S -> ErrorHandler) (P : ErrorLevel -> string -> Prop)
    (m : M S A) : Prop :=
  forall s,
    match m s with
    | Return _ s' | Throw _ s' => diag_step P (eh s) (eh s')
    | _ => True
    end.

Section Reports.

Context {S : Type} (eh : S -> ErrorHandler) (P : ErrorLevel -> string -> Prop).

Lemma reports_ret {A} (x : A) : reports eh P (ret x).
Proof. intros s. apply diag_step_refl. Qed.

Lemma reports_throw {A} w : reports eh P (@throw S A w).
Proof. intros s. apply diag_step_refl. Qed.

Lemma reports_undefined {A} : reports eh P (@undefined S A).
Proof. intros s. exact I. Qed.

Lemma reports_out_of_fuel {A} : reports eh P (@out_of_fuel S A).
Proof. intros s. exact I. Qed.

Lemma reports_get : reports eh P get.
Proof. intros s. apply diag_step_refl. Qed.

Lemma reports_gets {A} (f : S -> A) : reports eh P (gets f).
Proof. intros s. apply diag_step_refl. Qed.

Lemma reports_modify (f : S -> S) :
  (forall s, diag_step P (eh s) (eh (f s))) -> reports eh P (modify f).
Proof. intros H s. apply H. Qed.

Lemma reports_bind {A B} (m : M S A) (k : A -> M S B) :
  reports eh P m -> (forall x, reports eh P (k x)) -> reports eh P (bind m k).
Proof.
  intros Hm Hk s. unfold bind. specialize (Hm s).
  destruct (m s) as [x s1|w s1| |]; try exact Hm; try exact I.
  specialize (Hk x s1). destruct (k x s1); try exact I;
    exact (diag_step_trans _ _ _ _ Hm Hk).
Qed.

Lemma reports_try_catch {A} (body : M S A) (handler : string -> M S A) :
  reports eh P body -> (forall w, reports eh P (handler w)) ->
  reports eh P (try_catch body handler).
Proof.
  intros Hb Hh s. unfold try_catch. specialize (Hb s).
  destruct (body s) as [x s1|w s1| |]; try exact Hb; try exact I.
  specialize (Hh w s1). destruct (handler w s1); try exact I;
    exact (diag_step_trans _ _ _ _ Hb Hh).
Qed.

End Reports.

Lemma reports_weaken {S A} (eh : S -> ErrorHandler)
    (P Q : ErrorLevel -> string -> Prop) (m : M S A) :
  (forall lvl msg, P lvl msg -> Q lvl msg) -> reports eh P m -> reports eh Q m.
Proof.
  intros HPQ Hm s. specialize (Hm s).
  destruct (m s); try exact I; exact (diag_step_weaken _ _ _ _ HPQ Hm).
Qed.

Create HintDb reports.
#[local] Hint Resolve reports_ret reports_throw reports_undefined
  reports_out_of_fuel reports_get reports_gets : reports.

(** The side conditions on messages are closed booleans or trivial. *)
Ltac message_ok := first [exact I | reflexivity | assumption].

Ltac reports_step :=
  lazymatch goal with
  | |- reports _ _ (bind _ _) => apply reports_bind; [|intros ?]
  | |- reports _ _ (try_catch _ _) => apply reports_try_catch; [|intros ?]
  | |- reports _ _ (let _ := _ in _) => cbv zeta
  | |- reports _ _ ?m =>
      first
        [ solve [eauto with reports]
        | lazymatch m with
          | (if ?b then _ else _) => destruct b
          | (match ?x with _ => _ end) => destruct x
          end ]
  end.

Ltac reports_auto := repeat reports_step.

(** *** The analyzer's diagnostics *)

Lemma sem_reports_error (P : ErrorLevel -> string -> Prop) l c msg :
  P ERROR msg -> reports SemanticAnalyzer.errorHandler P (SemanticAnalyzer.error l c msg).
Proof. intros HP a. apply diag_step_error. exact HP. Qed.

Lemma sem_reports_warning (P : ErrorLevel -> string -> Prop) l c msg :
  P WARNING msg ->
  reports SemanticAnalyzer.errorHandler P (SemanticAnalyzer.warning l c msg).
Proof. intros HP a. apply diag_step_warning. exact HP. Qed.

Lemma sem_reports_on_table P {A} (op : SymbolTable.T A) :
  reports SemanticAnalyzer.errorHandler P (SemanticAnalyzer.on_table op).
Proof.
  intros a. unfold SemanticAnalyzer.on_table.
  destruct (op _); try exact I; apply diag_step_refl.
Qed.

Lemma sem_reports_set_hasReturn P b :
  reports SemanticAnalyzer.errorHandler P (SemanticAnalyzer.set_hasReturn b).
Proof. intros a. apply diag_step_refl. Qed.

Lemma sem_reports_set_returnType P r :
  reports SemanticAnalyzer.errorHandler P
    (SemanticAnalyzer.set_currentFunctionReturnType r).
Proof. intros a. apply diag_step_refl. Qed.

Lemma sem_reports_compatible P s t :
  reports SemanticAnalyzer.errorHandler P (SemanticAnalyzer.compatible s t).
Proof.
  unfold SemanticAnalyzer.compatible.
  destruct (SemanticAnalyzer.areTypesCompatible s t); auto with reports.
Qed.

Lemma sem_reports_deref_base P t :
  reports SemanticAnalyzer.errorHandler P (SemanticAnalyzer.deref_base t).
Proof.
  unfold SemanticAnalyzer.deref_base. destruct (base t); auto with reports.
Qed.

#[local] Hint Resolve sem_reports_on_table sem_reports_set_hasReturn
  sem_reports_set_returnType sem_reports_compatible sem_reports_deref_base : reports.
#[local] Hint Extern 1 (reports _ _ (SemanticAnalyzer.error _ _ _)) =>
  apply sem_reports_error; cbv beta; message_ok : reports.
#[local] Hint Extern 1 (reports _ _ (SemanticAnalyzer.warning _ _ _)) =>
  apply sem_reports_warning; cbv beta; message_ok : reports.

(** The messages of the statement and expression visitors: none of them
    starts like the messages of [visitFunctionDeclaration]. *)
Definition statement_message (lvl : ErrorLevel) (msg : string) : Prop :=
  String.prefix "Function '" msg = false.

Abbreviation sem_reports := (reports SemanticAnalyzer.errorHandler statement_message).

Lemma sem_reports_getTypeFromTypeNode node :
  sem_reports (SemanticAnalyzer.getTypeFromTypeNode node).
Proof. unfold SemanticAnalyzer.getTypeFromTypeNode. reports_auto. Qed.

Lemma sem_reports_visitLiteral token : sem_reports (SemanticAnalyzer.visitLiteral token).
Proof. unfold SemanticAnalyzer.visitLiteral. reports_auto. Qed.

Lemma sem_reports_visitVariable name : sem_reports (SemanticAnalyzer.visitVariable name).
Proof. unfold SemanticAnalyzer.visitVariable. reports_auto. Qed.

Lemma sem_reports_visitUnary op t : sem_reports (SemanticAnalyzer.visitUnary op t).
Proof. unfold SemanticAnalyzer.visitUnary. reports_auto. Qed.

Lemma sem_reports_visitBinary op l r : sem_reports (SemanticAnalyzer.visitBinary op l r).
Proof. unfold SemanticAnalyzer.visitBinary. reports_auto. Qed.

Lemma sem_reports_visitMemberAccess op t :
  sem_reports (SemanticAnalyzer.visitMemberAccess op t).
Proof. unfold SemanticAnalyzer.visitMemberAccess. reports_auto. Qed.

Lemma sem_reports_visitConditional_types t f :
  sem_reports (SemanticAnalyzer.visitConditional_types t f).
Proof. unfold SemanticAnalyzer.visitConditional_types. reports_auto. Qed.

#[local] Hint Resolve sem_reports_getTypeFromTypeNode sem_reports_visitLiteral
  sem_reports_visitVariable sem_reports_visitUnary sem_reports_visitBinary
  sem_reports_visitMemberAccess sem_reports_visitConditional_types : reports.

Lemma sem_reports_visitCall_arguments visit arguments params :
  Forall (fun p => sem_reports (visit p)) arguments ->
  sem_reports (SemanticAnalyzer.visitCall_arguments visit arguments params).
Proof.
  intros H. revert params.
  induction H as [|p rest Hp _ IH]; intros params; simpl; reports_auto.
Qed.

Lemma sem_reports_visitExpression_ptr (p : ExprPtr) :
  on_ptr (fun e => sem_reports (SemanticAnalyzer.visitExpressionNode e)) p ->
  sem_reports (SemanticAnalyzer.visitExpression p).
Proof.
  destruct p as [e|]; simpl; intros H; [exact H|]. reports_auto.
Qed.

Lemma sem_reports_visitExpressionNode (e : ExpressionNode) :
  sem_reports (SemanticAnalyzer.visitExpressionNode e).
Proof.
  induction e using ExpressionNode_nested_ind; simpl;
    repeat match goal with
           | H : on_ptr _ _ |- _ => apply sem_reports_visitExpression_ptr in H
           end;
    try solve [reports_auto].
  - (* CallNode *)
    reports_auto.
    apply sem_reports_visitCall_arguments.
    eapply Forall_impl; [eassumption|].
    intros p Hp. apply sem_reports_visitExpression_ptr in Hp. exact Hp.
Qed.

Lemma sem_reports_visitExpression (p : ExprPtr) :
  sem_reports (SemanticAnalyzer.visitExpression p).
Proof.
  apply sem_reports_visitExpression_ptr. destruct p; simpl; [|exact I].
  apply sem_reports_visitExpressionNode.
Qed.

#[local] Hint Resolve sem_reports_visitExpression : reports.

Lemma sem_reports_visitExpressionStatement e :
  sem_reports (SemanticAnalyzer.visitExpressionStatement e).
Proof. unfold SemanticAnalyzer.visitExpressionStatement. reports_auto. Qed.

Lemma sem_reports_visitReturnStatement v :
  sem_reports (SemanticAnalyzer.visitReturnStatement v).
Proof. unfold SemanticAnalyzer.visitReturnStatement. reports_auto. Qed.

Lemma sem_reports_check_condition what c :
  statement_message ERROR (what ++ " condition must be a scalar type") ->
  sem_reports (SemanticAnalyzer.check_condition what c).
Proof. intros H. unfold SemanticAnalyzer.check_condition. reports_auto. Qed.

Lemma sem_reports_visitVariableDeclaration ty name init :
  sem_reports (SemanticAnalyzer.visitVariableDeclaration ty name init).
Proof. unfold SemanticAnalyzer.visitVariableDeclaration. reports_auto. Qed.

#[local] Hint Resolve sem_reports_visitExpressionStatement
  sem_reports_visitReturnStatement sem_reports_visitVariableDeclaration : reports.
#[local] Hint Extern 1 (reports _ _ (SemanticAnalyzer.check_condition _ _)) =>
  apply sem_reports_check_condition; reflexivity : reports.

Lemma sem_reports_visit_each visit statements :
  Forall (fun s => sem_reports (visit s)) statements ->
  sem_reports (SemanticAnalyzer.visit_each visit statements).
Proof. induction 1; simpl; reports_auto. Qed.

Lemma sem_reports_visitNested s :
  sem_reports (SemanticAnalyzer.visitStatement s) ->
  sem_reports (SemanticAnalyzer.visitNested SemanticAnalyzer.visitStatement s).
Proof.
  intros H. destruct s; simpl; try exact H; reports_auto.
Qed.

Lemma sem_reports_visitStatement s : sem_reports (SemanticAnalyzer.visitStatement s).
Proof.
  induction s using StatementNode_nested_ind; simpl;
    try solve [reports_auto].
  - unfold SemanticAnalyzer.visitBlock_rec. reports_auto.
    apply sem_reports_visit_each. assumption.
  - unfold SemanticAnalyzer.visitIfStatement_rec. reports_auto;
      apply sem_reports_visitNested; auto.
  - unfold SemanticAnalyzer.visitWhileStatement_rec. reports_auto.
    apply sem_reports_visitNested; auto.
  - unfold SemanticAnalyzer.visitDoWhileStatement_rec. reports_auto.
    apply sem_reports_visitNested; auto.
  - unfold SemanticAnalyzer.visitForStatement_rec. reports_auto;
      apply sem_reports_visitNested; auto.
Qed.

(** *** The [hasReturn] flag

    [tracks_return b m]: inside a function (the expected return type is
    set), [m] leaves the expected return type alone and raises
    [hasReturn] exactly when [b], whenever it returns. *)

Fixpoint contains_return (s : StatementNode) : bool :=
  match s with
  | ReturnNode _ => true
  | BlockNode statements => existsb contains_return statements
  | IfNode _ thenBranch elseBranch =>
      contains_return thenBranch ||
      match elseBranch with
      | Some s' => contains_return s'
      | None => false
      end
  | WhileNode _ body | DoWhileNode body _ | ForNode _ _ _ body => contains_return body
  | _ => false
  end.

Definition tracks_return {A} (b : bool) (m : SemanticAnalyzer.Sem A) : Prop :=
  forall a r,
    SemanticAnalyzer.currentFunctionReturnType a = Some r ->
    match m a with
    | Return _ a' =>
        SemanticAnalyzer.currentFunctionReturnType a' = Some r /\
        SemanticAnalyzer.hasReturn a' = (SemanticAnalyzer.hasReturn a || b)%bool
    | _ => True
    end.

Lemma tracks_ret {A} (x : A) : tracks_return false (ret x).
Proof. intros a r Hr. simpl. rewrite orb_false_r. auto. Qed.

Lemma tracks_undefined {A} b : tracks_return b (@undefined _ A).
Proof. intros a r Hr. exact I. Qed.

Lemma tracks_bind {A B} b1 b2 (m : SemanticAnalyzer.Sem A)
    (k : A -> SemanticAnalyzer.Sem B) :
  tracks_return b1 m -> (forall x, tracks_return b2 (k x)) ->
  tracks_return (b1 || b2) (bind m k).
Proof.
  intros Hm Hk a r Hr. unfold bind. specialize (Hm a r Hr).
  destruct (m a) as [x a1|w a1| |]; try exact I.
  destruct Hm as [Hr1 Hf1]. specialize (Hk x a1 r Hr1).
  destruct (k x a1); try exact I.
  destruct Hk as [Hr2 Hf2]. split; [exact Hr2|].
  rewrite Hf2, Hf1, orb_assoc. reflexivity.
Qed.

Lemma tracks_quiet_bind {A B} (m : SemanticAnalyzer.Sem A)
    (k : A -> SemanticAnalyzer.Sem B) :
  tracks_return false m -> (forall x, tracks_return false (k x)) ->
  tracks_return false (bind m k).
Proof. intros Hm Hk. exact (tracks_bind false false m k Hm Hk). Qed.

Lemma tracks_eq {A} b b' (m : SemanticAnalyzer.Sem A) :
  b = b' -> tracks_return b m -> tracks_return b' m.
Proof. intros ->. auto. Qed.

(** Code that touches neither field. *)
Lemma tracks_fields {A} (m : SemanticAnalyzer.Sem A) :
  (forall a, match m a with
             | Return _ a' =>
                 SemanticAnalyzer.currentFunctionReturnType a' =
                 SemanticAnalyzer.currentFunctionReturnType a /\
                 SemanticAnalyzer.hasReturn a' = SemanticAnalyzer.hasReturn a
             | _ => True
             end) ->
  tracks_return false m.
Proof.
  intros H a r Hr. specialize (H a). destruct (m a); try exact I.
  destruct H as [-> ->]. rewrite orb_false_r. auto.
Qed.

Lemma tracks_error l c msg : tracks_return false (SemanticAnalyzer.error l c msg).
Proof. apply tracks_fields. intros a. simpl. auto. Qed.

Lemma tracks_warning l c msg : tracks_return false (SemanticAnalyzer.warning l c msg).
Proof. apply tracks_fields. intros a. simpl. auto. Qed.

Lemma tracks_on_table {A} (op : SymbolTable.T A) :
  tracks_return false (SemanticAnalyzer.on_table op).
Proof.
  apply tracks_fields. intros a. unfold SemanticAnalyzer.on_table.
  destruct (op _); try exact I. simpl. auto.
Qed.

Lemma tracks_compatible s t : tracks_return false (SemanticAnalyzer.compatible s t).
Proof.
  unfold SemanticAnalyzer.compatible.
  destruct (SemanticAnalyzer.areTypesCompatible s t);
    [apply tracks_ret | apply tracks_undefined].
Qed.

Lemma tracks_deref_base t : tracks_return false (SemanticAnalyzer.deref_base t).
Proof.
  unfold SemanticAnalyzer.deref_base.
  destruct (base t); [apply tracks_ret | apply tracks_undefined].
Qed.

Create HintDb tracks.
#[local] Hint Resolve tracks_ret tracks_undefined tracks_error tracks_warning
  tracks_on_table tracks_compatible tracks_deref_base : tracks.

Ltac tracks_step :=
  lazymatch goal with
  | |- tracks_return false (bind _ _) => apply tracks_quiet_bind; [|intros ?]
  | |- tracks_return _ (let _ := _ in _) => cbv zeta
  | |- tracks_return _ ?m =>
      first
        [ solve [eauto with tracks]
        | lazymatch m with
          | (if ?b then _ else _) => destruct b
          | (match ?x with _ => _ end) => destruct x
          end ]
  end.

Ltac tracks_auto := repeat tracks_step.

Lemma tracks_getTypeFromTypeNode node :
  tracks_return false (SemanticAnalyzer.getTypeFromTypeNode node).
Proof. unfold SemanticAnalyzer.getTypeFromTypeNode. tracks_auto. Qed.

Lemma tracks_visitLiteral token : tracks_return false (SemanticAnalyzer.visitLiteral token).
Proof. unfold SemanticAnalyzer.visitLiteral. tracks_auto. Qed.

Lemma tracks_visitVariable name : tracks_return false (SemanticAnalyzer.visitVariable name).
Proof. unfold SemanticAnalyzer.visitVariable. tracks_auto. Qed.

Lemma tracks_visitUnary op t : tracks_return false (SemanticAnalyzer.visitUnary op t).
Proof. unfold SemanticAnalyzer.visitUnary. tracks_auto. Qed.

Lemma tracks_visitBinary op l r : tracks_return false (SemanticAnalyzer.visitBinary op l r).
Proof. unfold SemanticAnalyzer.visitBinary. tracks_auto. Qed.

Lemma tracks_visitMemberAccess op t :
  tracks_return false (SemanticAnalyzer.visitMemberAccess op t).
Proof. unfold SemanticAnalyzer.visitMemberAccess. tracks_auto. Qed.

Lemma tracks_visitConditional_types t f :
  tracks_return false (SemanticAnalyzer.visitConditional_types t f).
Proof. unfold SemanticAnalyzer.visitConditional_types. tracks_auto. Qed.

#[local] Hint Resolve tracks_getTypeFromTypeNode tracks_visitLiteral
  tracks_visitVariable tracks_visitUnary tracks_visitBinary
  tracks_visitMemberAccess tracks_visitConditional_types : tracks.

Lemma tracks_visitCall_arguments visit arguments params :
  Forall (fun p => tracks_return false (visit p)) arguments ->
  tracks_return false (SemanticAnalyzer.visitCall_arguments visit arguments params).
Proof.
  intros H. revert params.
  induction H as [|p rest Hp _ IH]; intros params; simpl; tracks_auto.
Qed.

Lemma tracks_visitExpression_ptr (p : ExprPtr) :
  on_ptr (fun e => tracks_return false (SemanticAnalyzer.visitExpressionNode e)) p ->
  tracks_return false (SemanticAnalyzer.visitExpression p).
Proof.
  destruct p as [e|]; simpl; intros H; [exact H|]. tracks_auto.
Qed.

Lemma tracks_visitExpressionNode (e : ExpressionNode) :
  tracks_return false (SemanticAnalyzer.visitExpressionNode e).
Proof.
  induction e using ExpressionNode_nested_ind; simpl;
    repeat match goal with
           | H : on_ptr _ _ |- _ => apply tracks_visitExpression_ptr in H
           end;
    try solve [tracks_auto].
  - (* CallNode *)
    tracks_auto.
    apply tracks_visitCall_arguments.
    eapply Forall_impl; [eassumption|].
    intros p Hp. apply tracks_visitExpression_ptr in Hp. exact Hp.
Qed.

Lemma tracks_visitExpression (p : ExprPtr) :
  tracks_return false (SemanticAnalyzer.visitExpression p).
Proof.
  apply tracks_visitExpression_ptr. destruct p; simpl; [|exact I].
  apply tracks_visitExpressionNode.
Qed.

#[local] Hint Resolve tracks_visitExpression : tracks.

Lemma tracks_visitExpressionStatement e :
  tracks_return false (SemanticAnalyzer.visitExpressionStatement e).
Proof. unfold SemanticAnalyzer.visitExpressionStatement. tracks_auto. Qed.

Lemma tracks_check_condition what c :
  tracks_return false (SemanticAnalyzer.check_condition what c).
Proof. unfold SemanticAnalyzer.check_condition. tracks_auto. Qed.

Lemma tracks_visitVariableDeclaration ty name init :
  tracks_return false (SemanticAnalyzer.visitVariableDeclaration ty name init).
Proof. unfold SemanticAnalyzer.visitVariableDeclaration. tracks_auto. Qed.

Lemma tracks_visitReturnStatement v :
  tracks_return true (SemanticAnalyzer.visitReturnStatement v).
Proof.
  intros a r Hr. unfold SemanticAnalyzer.visitReturnStatement.
  unfold bind at 1, gets. rewrite Hr.
  assert (Hrest : forall m : SemanticAnalyzer.Sem unit, tracks_return false m ->
            match bind (SemanticAnalyzer.set_hasReturn true) (fun _ => m) a with
            | Return _ a' =>
                SemanticAnalyzer.currentFunctionReturnType a' = Some r /\
                SemanticAnalyzer.hasReturn a' = (SemanticAnalyzer.hasReturn a || true)%bool
            | _ => True
            end).
  { intros m Hm. unfold bind, SemanticAnalyzer.set_hasReturn, modify.
    specialize (Hm (SemanticAnalyzer.mkSemanticAnalyzer
                      (SemanticAnalyzer.errorHandler a)
                      (SemanticAnalyzer.symbolTable a)
                      (SemanticAnalyzer.currentFunctionReturnType a) true) r Hr).
    destruct (m _); try exact I. destruct Hm as [Hr' Hf]. split; [exact Hr'|].
    rewrite Hf, orb_true_r. reflexivity. }
  apply Hrest. tracks_auto.
Qed.

#[local] Hint Resolve tracks_visitExpressionStatement tracks_check_condition
  tracks_visitVariableDeclaration : tracks.

Lemma tracks_visit_each visit statements :
  Forall (fun s => tracks_return (contains_return s) (visit s)) statements ->
  tracks_return (existsb contains_return statements)
    (SemanticAnalyzer.visit_each visit statements).
Proof.
  induction 1 as [|s rest Hs _ IH]; simpl; [apply tracks_ret|].
  apply tracks_bind; [exact Hs | intros _; exact IH].
Qed.

Lemma tracks_scoped {A} b (m : SemanticAnalyzer.Sem A) :
  tracks_return b m ->
  tracks_return b
    (SemanticAnalyzer.on_table SymbolTable.enterScope ;;
     m ;;
     SemanticAnalyzer.on_table SymbolTable.leaveScope).
Proof.
  intros Hm. apply (tracks_eq (false || (b || false))).
  - rewrite orb_false_r. reflexivity.
  - apply tracks_bind; [apply tracks_on_table|intros _].
    apply tracks_bind; [exact Hm|intros _; apply tracks_on_table].
Qed.

Lemma tracks_visitNested s :
  tracks_return (contains_return s) (SemanticAnalyzer.visitStatement s) ->
  tracks_return (contains_return s)
    (SemanticAnalyzer.visitNested SemanticAnalyzer.visitStatement s).
Proof.
  intros H. destruct s; try exact H; apply tracks_scoped; exact H.
Qed.

Lemma tracks_visitStatement s :
  tracks_return (contains_return s) (SemanticAnalyzer.visitStatement s).
Proof.
  induction s using StatementNode_nested_ind; simpl.
  - apply tracks_visitExpressionStatement.
  - apply tracks_scoped, tracks_visit_each. assumption.
  - apply tracks_visitVariableDeclaration.
  - unfold SemanticAnalyzer.visitIfStatement_rec.
    apply (tracks_bind false); [apply tracks_check_condition|intros _].
    apply tracks_bind; [apply tracks_visitNested; assumption|intros _].
    destruct e as [s'|]; [|apply tracks_ret].
    apply tracks_visitNested. apply H. reflexivity.
  - unfold SemanticAnalyzer.visitWhileStatement_rec.
    apply (tracks_bind false); [apply tracks_check_condition|intros _].
    apply tracks_visitNested; assumption.
  - unfold SemanticAnalyzer.visitDoWhileStatement_rec.
    apply (tracks_eq (contains_return s || false)); [apply orb_false_r|].
    apply tracks_bind; [apply tracks_visitNested; assumption|intros _].
    apply tracks_check_condition.
  - unfold SemanticAnalyzer.visitForStatement_rec.
    apply (tracks_bind false); [apply tracks_on_table|intros _].
    apply (tracks_bind false).
    { destruct i as [[]|]; tracks_auto. }
    intros _. apply (tracks_bind false).
    { destruct c; tracks_auto. }
    intros _. apply (tracks_bind false).
    { destruct u; tracks_auto. }
    intros _. apply (tracks_eq (contains_return s || false)); [apply orb_false_r|].
    apply tracks_bind; [apply tracks_visitNested; assumption|intros _].
    apply tracks_on_table.
  - apply tracks_visitReturnStatement.
  - apply tracks_ret.
  - apply tracks_ret.
Qed.

Lemma tracks_visitParameter p : tracks_return false (SemanticAnalyzer.visitParameter p).
Proof. unfold SemanticAnalyzer.visitParameter. tracks_auto. Qed.

Lemma tracks_visit_parameters params :
  tracks_return false (SemanticAnalyzer.visit_parameters params).
Proof.
  induction params; simpl; tracks_auto. apply tracks_visitParameter.
Qed.

Lemma sem_reports_visitParameter p : sem_reports (SemanticAnalyzer.visitParameter p).
Proof. unfold SemanticAnalyzer.visitParameter. reports_auto. Qed.

Lemma sem_reports_visit_parameters params :
  sem_reports (SemanticAnalyzer.visit_parameters params).
Proof.
  induction params; simpl; reports_auto. apply sem_reports_visitParameter.
Qed.

Lemma sem_reports_param_types params :
  sem_reports (SemanticAnalyzer.param_types params).
Proof. induction params; simpl; reports_auto. Qed.

Lemma sem_reports_visitBlock statements :
  sem_reports (SemanticAnalyzer.visitBlock statements).
Proof. exact (sem_reports_visitStatement (BlockNode statements)). Qed.

(** What a computation that is total, reports and tracks does on a
    state, in one statement. *)
Lemma sem_run {A} d d' keep (Q : A -> Prop) P b (m : SemanticAnalyzer.Sem A) a r :
  sem_total d d' keep Q m ->
  reports SemanticAnalyzer.errorHandler P m ->
  tracks_return b m ->
  sem_inv a -> depth_of a = d ->
  SemanticAnalyzer.currentFunctionReturnType a = Some r ->
  exists x a',
    m a = Return x a' /\ sem_inv a' /\ depth_of a' = d' /\ Q x /\
    diag_step P (SemanticAnalyzer.errorHandler a) (SemanticAnalyzer.errorHandler a') /\
    SemanticAnalyzer.currentFunctionReturnType a' = Some r /\
    SemanticAnalyzer.hasReturn a' = (SemanticAnalyzer.hasReturn a || b)%bool.
Proof.
  intros Ht Hr Hk Hinv Hd Hcrt.
  destruct (Ht a Hinv Hd) as (x & a' & E & Hinv' & Hd' & _ & HQ).
  specialize (Hr a). specialize (Hk a r Hcrt). rewrite E in Hr, Hk.
  exists x, a'. tauto.
Qed.

Lemma sem_run_top {A} d d' keep (Q : A -> Prop) P (m : SemanticAnalyzer.Sem A) a :
  sem_total d d' keep Q m ->
  reports SemanticAnalyzer.errorHandler P m ->
  sem_inv a -> depth_of a = d ->
  exists x a',
    m a = Return x a' /\ sem_inv a' /\ depth_of a' = d' /\ Q x /\
    diag_step P (SemanticAnalyzer.errorHandler a) (SemanticAnalyzer.errorHandler a').
Proof.
  intros Ht Hr Hinv Hd.
  destruct (Ht a Hinv Hd) as (x & a' & E & Hinv' & Hd' & _ & HQ).
  specialize (Hr a). rewrite E in Hr.
  exists x, a'. tauto.
Qed.

Lemma diag_step_exact P h h' extra :
  diag_step P h h' ->
  exists new,
    (errors h' ++ extra = errors h ++ new ++ extra)%list /\
    Forall (fun e => P (level e) (message e)) new /\
    currentFilename h' = currentFilename h.
Proof.
  intros (new & E & HP & _ & C). exists new. rewrite E, app_assoc. auto.
Qed.

(** The diagnostic of a function that may not return a value. *)
Definition missing_return (node : FunctionDeclarationNode) (file : string) : ErrorEntry :=
  mkErrorEntry ERROR
    ("Function '" ++ lexeme (fname node) ++ "' may not return a value")
    file (line (fname node)) (column (fname node)).


Definition token_f : Token := mkToken IDENTIFIER "f" "t.c" 1 5.

(** [int f() { }] *)
Definition function_without_return : FunctionDeclarationNode :=
  mkFunctionDeclarationNode int_node token_f [] (Some []).


Definition any_message (lvl : ErrorLevel) (msg : string) : Prop := True.

Lemma reports_any {S A} (eh : S -> ErrorHandler) P (m : M S A) :
  reports eh P m -> reports eh any_message m.
Proof. apply reports_weaken. intros lvl msg _. exact I. Qed.

Lemma analyze_reports root :
  reports SemanticAnalyzer.errorHandler any_message (SemanticAnalyzer.analyze root).
Proof.
  assert (Hfunction : forall node,
            reports SemanticAnalyzer.errorHandler any_message
              (SemanticAnalyzer.visitFunctionDeclaration node)).
  { intros node. unfold SemanticAnalyzer.visitFunctionDeclaration.
    apply reports_bind;
      [apply (reports_any _ _ _ (sem_reports_getTypeFromTypeNode _))|intros ?].
    apply reports_bind;
      [apply (reports_any _ _ _ (sem_reports_param_types _))|intros ?].
    cbv zeta. reports_auto.
    - apply (reports_any _ _ _ (sem_reports_visit_parameters _)).
    - apply (reports_any _ _ _ (sem_reports_visitBlock _)). }
  assert (Hloop : forall decls,
            reports SemanticAnalyzer.errorHandler any_message
              (SemanticAnalyzer.visitProgram_loop decls)).
  { induction decls as [|decl rest IH]; simpl; reports_auto.
    apply (reports_any _ _ _ (sem_reports_visitVariableDeclaration _ _ _)). }
  destruct root as [program|]; simpl; reports_auto.
  all: try apply Hloop.
Qed.

(** ** The code generator *)

(** *** Its diagnostics *)

Abbreviation gen_reports := (reports CodeGenerator.errorHandler any_message).

Lemma gen_reports_error l c msg : gen_reports (CodeGenerator.error l c msg).
Proof. intros g. apply diag_step_error. exact I. Qed.

Lemma gen_reports_warning l c msg : gen_reports (CodeGenerator.warning l c msg).
Proof. intros g. apply diag_step_warning. exact I. Qed.

(** A step that does not touch the handler. *)
Lemma gen_reports_silent {A} (m : CodeGenerator.Gen A) :
  (forall g, match m g with
             | Return _ g' | Throw _ g' =>
                 CodeGenerator.errorHandler g' = CodeGenerator.errorHandler g
             | _ => True
             end) ->
  gen_reports m.
Proof.
  intros H g. specialize (H g). destruct (m g); try exact I;
    rewrite H; apply diag_step_refl.
Qed.

Lemma gen_reports_modify f :
  (forall g, CodeGenerator.errorHandler (f g) = CodeGenerator.errorHandler g) ->
  gen_reports (modify f).
Proof. intros H. apply gen_reports_silent. intros g. apply H. Qed.

Lemma gen_reports_getNextVarId : gen_reports CodeGenerator.getNextVarId.
Proof. apply gen_reports_silent. intros g. reflexivity. Qed.

Lemma gen_reports_emitInstruction op ops :
  gen_reports (CodeGenerator.emitInstruction op ops).
Proof. apply gen_reports_modify. reflexivity. Qed.

Lemma gen_reports_emitVarDeclaration v ty i :
  gen_reports (CodeGenerator.emitVarDeclaration v ty i).
Proof. apply gen_reports_emitInstruction. Qed.

Lemma gen_reports_addSymbol name attrs sec :
  gen_reports (CodeGenerator.addSymbol name attrs sec).
Proof.
  apply gen_reports_silent. intros g. unfold CodeGenerator.addSymbol.
  destruct (negb _); reflexivity.
Qed.

Lemma gen_reports_generateLabel prefix : gen_reports (CodeGenerator.generateLabel prefix).
Proof. apply gen_reports_silent. intros g. reflexivity. Qed.

Lemma gen_reports_enterScope : gen_reports CodeGenerator.enterScope.
Proof. apply gen_reports_modify. reflexivity. Qed.

Lemma gen_reports_leaveScope : gen_reports CodeGenerator.leaveScope.
Proof.
  apply gen_reports_modify. intros g. destruct (CodeGenerator.scopeStack g); reflexivity.
Qed.

Lemma gen_reports_push_name name : gen_reports (CodeGenerator.push_name name).
Proof.
  apply gen_reports_silent. intros g. unfold CodeGenerator.push_name.
  destruct (CodeGenerator.scopeStack g); [exact I | reflexivity].
Qed.

Lemma gen_reports_bind_variable name v ty :
  gen_reports (CodeGenerator.bind_variable name v ty).
Proof. apply gen_reports_modify. reflexivity. Qed.

#[local] Hint Resolve gen_reports_error gen_reports_warning gen_reports_getNextVarId
  gen_reports_emitInstruction gen_reports_emitVarDeclaration gen_reports_addSymbol
  gen_reports_generateLabel gen_reports_enterScope gen_reports_leaveScope
  gen_reports_push_name gen_reports_bind_variable : reports.
#[local] Hint Extern 2 (reports CodeGenerator.errorHandler _ (modify _)) =>
  apply gen_reports_modify; reflexivity : reports.

Lemma gen_reports_emitLabel label : gen_reports (CodeGenerator.emitLabel label).
Proof. unfold CodeGenerator.emitLabel. reports_auto. Qed.

Lemma gen_reports_branch_to label : gen_reports (CodeGenerator.branch_to label).
Proof. unfold CodeGenerator.branch_to. reports_auto. Qed.

Lemma gen_reports_compare_with_zero v : gen_reports (CodeGenerator.compare_with_zero v).
Proof. unfold CodeGenerator.compare_with_zero. reports_auto. Qed.

Lemma gen_reports_translateType ty : gen_reports (CodeGenerator.translateType ty).
Proof. unfold CodeGenerator.translateType. reports_auto. Qed.

Lemma gen_reports_initialize : gen_reports CodeGenerator.initialize.
Proof.
  unfold CodeGenerator.initialize. cbv zeta.
  repeat (apply reports_bind; [|intros ?]);
    try solve [eauto with reports];
    apply gen_reports_silent; intros g;
    try destruct (Coil.addSymbol _ _); try destruct (Coil.addSection _ _);
    reflexivity.
Qed.

#[local] Hint Resolve gen_reports_emitLabel gen_reports_branch_to
  gen_reports_compare_with_zero gen_reports_translateType
  gen_reports_initialize : reports.

Section GeneratorReports.

Variable stof_ok : string -> bool.

Lemma gen_reports_generateLiteral token :
  gen_reports (CodeGenerator.generateLiteral stof_ok token).
Proof. unfold CodeGenerator.generateLiteral. reports_auto. Qed.

Lemma gen_reports_generateVariable name :
  gen_reports (CodeGenerator.generateVariable name).
Proof. unfold CodeGenerator.generateVariable. reports_auto. Qed.

Lemma gen_reports_generateUnary op v : gen_reports (CodeGenerator.generateUnary op v).
Proof. unfold CodeGenerator.generateUnary. reports_auto. Qed.

Lemma gen_reports_generateBinary op l r :
  gen_reports (CodeGenerator.generateBinary op l r).
Proof. unfold CodeGenerator.generateBinary. reports_auto. Qed.

Lemma gen_reports_generateCall_emit f ids :
  gen_reports (CodeGenerator.generateCall_emit f ids).
Proof. unfold CodeGenerator.generateCall_emit. reports_auto. Qed.

Lemma gen_reports_generate_arguments generate arguments :
  Forall (fun p => gen_reports (generate p)) arguments ->
  gen_reports (CodeGenerator.generate_arguments generate arguments).
Proof. induction 1; simpl; reports_auto. Qed.

#[local] Hint Resolve gen_reports_generateLiteral gen_reports_generateVariable
  gen_reports_generateUnary gen_reports_generateBinary
  gen_reports_generateCall_emit : reports.

Lemma gen_reports_generateExpression_ptr (p : ExprPtr) :
  on_ptr (fun e => gen_reports (CodeGenerator.generateExpressionNode stof_ok e)) p ->
  gen_reports (CodeGenerator.generateExpression stof_ok p).
Proof.
  destruct p as [e|]; simpl; intros H; [exact H|]. reports_auto.
Qed.

Lemma gen_reports_generateExpressionNode (e : ExpressionNode) :
  gen_reports (CodeGenerator.generateExpressionNode stof_ok e).
Proof.
  induction e using ExpressionNode_nested_ind; simpl;
    repeat match goal with
           | H : on_ptr _ _ |- _ => apply gen_reports_generateExpression_ptr in H
           end;
    try solve [reports_auto].
  - (* CallNode *)
    destruct callee as [[]|]; reports_auto.
    apply gen_reports_generate_arguments.
    eapply Forall_impl; [eassumption|].
    intros p Hp. apply gen_reports_generateExpression_ptr in Hp. exact Hp.
Qed.

Lemma gen_reports_generateExpression (p : ExprPtr) :
  gen_reports (CodeGenerator.generateExpression stof_ok p).
Proof.
  apply gen_reports_generateExpression_ptr. destruct p; simpl; [|exact I].
  apply gen_reports_generateExpressionNode.
Qed.

#[local] Hint Resolve gen_reports_generateExpression : reports.

Lemma gen_reports_generateVariableDeclaration ty name init isGlobal :
  gen_reports (CodeGenerator.generateVariableDeclaration stof_ok ty name init isGlobal).
Proof. unfold CodeGenerator.generateVariableDeclaration. reports_auto. Qed.

Lemma gen_reports_generateReturnStatement v :
  gen_reports (CodeGenerator.generateReturnStatement stof_ok v).
Proof. unfold CodeGenerator.generateReturnStatement. reports_auto. Qed.

#[local] Hint Resolve gen_reports_generateVariableDeclaration
  gen_reports_generateReturnStatement : reports.

Lemma gen_reports_generate_each generate statements :
  Forall (fun s => gen_reports (generate s)) statements ->
  gen_reports (CodeGenerator.generate_each generate statements).
Proof. induction 1; simpl; reports_auto. Qed.

Lemma gen_reports_generateStatement s :
  gen_reports (CodeGenerator.generateStatement stof_ok s).
Proof.
  induction s using StatementNode_nested_ind; simpl.
  - unfold CodeGenerator.generateExpressionStatement. reports_auto.
  - unfold CodeGenerator.generateBlock_rec, CodeGenerator.emitScopeEnter,
      CodeGenerator.emitScopeLeave. reports_auto.
    apply gen_reports_generate_each. assumption.
  - reports_auto.
  - unfold CodeGenerator.generateIfStatement_rec. reports_auto; auto.
  - unfold CodeGenerator.generateWhileStatement_rec. reports_auto; auto.
  - unfold CodeGenerator.generateDoWhileStatement_rec. reports_auto; auto.
  - unfold CodeGenerator.generateForStatement_rec, CodeGenerator.emitScopeEnter,
      CodeGenerator.emitScopeLeave. reports_auto; auto.
  - reports_auto.
  - unfold CodeGenerator.generateBreakStatement. reports_auto.
  - unfold CodeGenerator.generateContinueStatement. reports_auto.
Qed.

Lemma gen_reports_generate_parameters params :
  forall i, gen_reports (CodeGenerator.generate_parameters i params).
Proof. induction params; intros i; simpl; reports_auto. Qed.

Lemma gen_reports_generateFunctionDeclaration node :
  gen_reports (CodeGenerator.generateFunctionDeclaration stof_ok node).
Proof.
  unfold CodeGenerator.generateFunctionDeclaration. cbv zeta. reports_auto.
  - apply gen_reports_generate_parameters.
  - exact (gen_reports_generateStatement (BlockNode _)).
Qed.

Lemma gen_reports_generate root :
  gen_reports (CodeGenerator.generate stof_ok root).
Proof.
  assert (Hloop : forall decls,
            gen_reports (CodeGenerator.generateProgram_loop stof_ok decls)).
  { induction decls as [|decl rest IH]; simpl; reports_auto.
    apply gen_reports_generateFunctionDeclaration. }
  destruct root as [program|]; simpl; reports_auto.
  all: try apply Hloop.
Qed.

End GeneratorReports.

(** ** The parser's diagnostics *)

Abbreviation parser_reports := (reports Parser.errorHandler any_message).

Lemma parser_reports_report l c msg : parser_reports (Parser.report l c msg).
Proof. intros p. apply diag_step_error. exact I. Qed.

Lemma parser_reports_set_current n : parser_reports (Parser.set_current n).
Proof. intros p. apply diag_step_refl. Qed.

Lemma parser_reports_peek : parser_reports Parser.peek.
Proof.
  intros p. unfold Parser.peek. destruct (_ !! _); [apply diag_step_refl | exact I].
Qed.

Lemma parser_reports_previous : parser_reports Parser.previous.
Proof.
  intros p. unfold Parser.previous. destruct (Parser.current p); [exact I|].
  destruct (_ !! _); [apply diag_step_refl | exact I].
Qed.

#[local] Hint Resolve parser_reports_report parser_reports_set_current
  parser_reports_peek parser_reports_previous : reports.

Lemma parser_reports_isAtEnd : parser_reports Parser.isAtEnd.
Proof. unfold Parser.isAtEnd. reports_auto. Qed.

#[local] Hint Resolve parser_reports_isAtEnd : reports.

Lemma parser_reports_advance : parser_reports Parser.advance.
Proof. unfold Parser.advance. reports_auto. Qed.

#[local] Hint Resolve parser_reports_advance : reports.

Lemma parser_reports_check ty : parser_reports (Parser.check ty).
Proof. unfold Parser.check. reports_auto. Qed.

#[local] Hint Resolve parser_reports_check : reports.

Lemma parser_reports_match_ ty : parser_reports (Parser.match_ ty).
Proof. unfold Parser.match_. reports_auto. Qed.

#[local] Hint Resolve parser_reports_match_ : reports.

Lemma parser_reports_match_any types : parser_reports (Parser.match_any types).
Proof. induction types; simpl; reports_auto. Qed.

Lemma parser_reports_consume ty msg : parser_reports (Parser.consume ty msg).
Proof. unfold Parser.consume. reports_auto. Qed.

Lemma parser_reports_tokens_size : parser_reports Parser.tokens_size.
Proof. unfold Parser.tokens_size. reports_auto. Qed.

#[local] Hint Resolve parser_reports_match_any parser_reports_consume
  parser_reports_tokens_size : reports.

Lemma parser_reports_synchronize : parser_reports Parser.synchronize.
Proof.
  assert (Hloop : forall fuel, parser_reports (Parser.synchronize_loop fuel))
    by (induction fuel; simpl; reports_auto).
  unfold Parser.synchronize. reports_auto.
Qed.

Lemma parser_reports_typeSpecifier : parser_reports Parser.typeSpecifier.
Proof.
  assert (Hq : forall fuel acc, parser_reports (Parser.typeSpecifier_qualifiers fuel acc)).
  { induction fuel; intros acc; simpl; reports_auto.
    unfold Parser.typeSpecifier_qualifiers_step. reports_auto. }
  assert (Hp : forall fuel acc, parser_reports (Parser.typeSpecifier_pointers fuel acc))
    by (induction fuel; intros acc; simpl; reports_auto).
  unfold Parser.typeSpecifier. reports_auto.
Qed.

#[local] Hint Resolve parser_reports_synchronize parser_reports_typeSpecifier : reports.

Lemma parser_reports_parameterList : parser_reports Parser.parameterList.
Proof.
  assert (Hparameter : parser_reports Parser.parameter)
    by (unfold Parser.parameter; reports_auto).
  assert (Hloop : forall fuel acc, parser_reports (Parser.parameterList_loop fuel acc))
    by (induction fuel; intros acc; simpl; reports_auto).
  unfold Parser.parameterList. reports_auto.
Qed.

Lemma parser_reports_binary_level ops operand :
  parser_reports operand -> parser_reports (Parser.binary_level ops operand).
Proof.
  intros H.
  assert (Hloop : forall iters expr,
            parser_reports (Parser.binary_loop ops operand iters expr))
    by (induction iters; intros expr; simpl; reports_auto).
  unfold Parser.binary_level. reports_auto.
Qed.

Lemma parser_reports_arguments_loop expression iters :
  parser_reports expression ->
  forall acc, parser_reports (Parser.arguments_loop expression iters acc).
Proof. intros H. induction iters; intros acc; simpl; reports_auto. Qed.

Lemma parser_reports_postfix_loop expression iters :
  parser_reports expression ->
  forall expr, parser_reports (Parser.postfix_loop expression iters expr).
Proof.
  intros H. induction iters; intros expr; simpl; reports_auto.
  apply parser_reports_arguments_loop. exact H.
Qed.

#[local] Hint Resolve parser_reports_parameterList parser_reports_binary_level
  parser_reports_arguments_loop parser_reports_postfix_loop : reports.

Lemma parser_reports_expressions fuel :
  parser_reports (Parser.expression fuel) /\
  parser_reports (Parser.assignment fuel) /\
  parser_reports (Parser.conditionalExpr fuel) /\
  parser_reports (Parser.logicalOr fuel) /\
  parser_reports (Parser.logicalAnd fuel) /\
  parser_reports (Parser.bitwiseOr fuel) /\
  parser_reports (Parser.bitwiseXor fuel) /\
  parser_reports (Parser.bitwiseAnd fuel) /\
  parser_reports (Parser.equality fuel) /\
  parser_reports (Parser.comparison fuel) /\
  parser_reports (Parser.shift fuel) /\
  parser_reports (Parser.term fuel) /\
  parser_reports (Parser.factor fuel) /\
  parser_reports (Parser.unary fuel) /\
  parser_reports (Parser.postfix fuel) /\
  parser_reports (Parser.primary fuel).
Proof.
  induction fuel as [|fuel IH].
  - repeat split; apply reports_out_of_fuel.
  - destruct IH as (? & ? & ? & ? & ? & ? & ? & ? & ? & ? & ? & ? & ? & ? & ? & ?).
    repeat split; simpl; reports_auto.
Qed.

Lemma parser_reports_expression fuel : parser_reports (Parser.expression fuel).
Proof. apply parser_reports_expressions. Qed.

#[local] Hint Resolve parser_reports_expression : reports.

Lemma parser_reports_variableDeclaration efuel :
  parser_reports (Parser.variableDeclaration efuel).
Proof. unfold Parser.variableDeclaration. reports_auto. Qed.

Lemma parser_reports_expressionStatement efuel :
  parser_reports (Parser.expressionStatement efuel).
Proof. unfold Parser.expressionStatement. reports_auto. Qed.

Lemma parser_reports_returnStatement efuel :
  parser_reports (Parser.returnStatement efuel).
Proof. unfold Parser.returnStatement. reports_auto. Qed.

Lemma parser_reports_breakStatement : parser_reports Parser.breakStatement.
Proof. unfold Parser.breakStatement. reports_auto. Qed.

Lemma parser_reports_continueStatement : parser_reports Parser.continueStatement.
Proof. unfold Parser.continueStatement. reports_auto. Qed.

Lemma parser_reports_block_loop statement iters :
  parser_reports statement ->
  forall acc, parser_reports (Parser.block_loop statement iters acc).
Proof. intros H. induction iters; intros acc; simpl; reports_auto. Qed.

#[local] Hint Resolve parser_reports_variableDeclaration
  parser_reports_expressionStatement parser_reports_returnStatement
  parser_reports_breakStatement parser_reports_continueStatement
  parser_reports_block_loop : reports.

Lemma parser_reports_statements efuel fuel :
  parser_reports (Parser.statement efuel fuel) /\
  parser_reports (Parser.block efuel fuel) /\
  parser_reports (Parser.ifStatement efuel fuel) /\
  parser_reports (Parser.whileStatement efuel fuel) /\
  parser_reports (Parser.doWhileStatement efuel fuel) /\
  parser_reports (Parser.forStatement efuel fuel).
Proof.
  induction fuel as [|fuel IH].
  - repeat split; apply reports_out_of_fuel.
  - destruct IH as (? & ? & ? & ? & ? & ?).
    repeat split; simpl; reports_auto.
Qed.

Lemma parser_reports_parse fuel : parser_reports (Parser.parse fuel).
Proof.
  destruct (parser_reports_statements fuel fuel) as (_ & Hblock & _).
  assert (Hfunction : parser_reports (Parser.functionDeclaration fuel))
    by (unfold Parser.functionDeclaration; reports_auto).
  assert (Hdeclaration : parser_reports (Parser.declaration fuel))
    by (unfold Parser.declaration; reports_auto).
  assert (Hloop : forall iters acc, parser_reports (Parser.program_loop fuel iters acc))
    by (induction iters; intros acc; simpl; reports_auto).
  unfold Parser.parse, Parser.program. reports_auto.
Qed.

(** ** The lexer's diagnostics *)

Definition lexer_step (lx lx' : Lexer.Lexer) : Prop :=
  diag_step any_message (Lexer.errorHandler lx) (Lexer.errorHandler lx').

Lemma lexer_step_same lx lx' :
  Lexer.errorHandler lx' = Lexer.errorHandler lx -> lexer_step lx lx'.
Proof. unfold lexer_step. intros ->. apply diag_step_refl. Qed.

Lemma lexer_step_refl lx : lexer_step lx lx.
Proof. apply lexer_step_same. reflexivity. Qed.

Lemma lexer_step_trans lx1 lx2 lx3 :
  lexer_step lx1 lx2 -> lexer_step lx2 lx3 -> lexer_step lx1 lx3.
Proof. apply diag_step_trans. Qed.

Lemma lexer_step_report l c msg lx : lexer_step lx (Lexer.report l c msg lx).
Proof. apply diag_step_error. exact I. Qed.

Lemma lexer_step_advance lx : lexer_step lx (Lexer.advance_ lx).
Proof. apply lexer_step_same. reflexivity. Qed.

Lemma lexer_step_set_line l lx : lexer_step lx (Lexer.set_line l lx).
Proof. apply lexer_step_same. reflexivity. Qed.

Lemma lexer_step_set_column c lx : lexer_step lx (Lexer.set_column c lx).
Proof. apply lexer_step_same. reflexivity. Qed.

Lemma lexer_step_set_current n lx : lexer_step lx (Lexer.set_current n lx).
Proof. apply lexer_step_same. reflexivity. Qed.

Lemma lexer_step_set_start n lx : lexer_step lx (Lexer.set_start n lx).
Proof. apply lexer_step_same. reflexivity. Qed.

Lemma lexer_step_set_tokens ts lx : lexer_step lx (Lexer.set_tokens ts lx).
Proof. apply lexer_step_same. reflexivity. Qed.

Lemma lexer_step_addToken ty lx : lexer_step lx (Lexer.addToken ty lx).
Proof. apply lexer_step_same. reflexivity. Qed.

Lemma lexer_step_advance_while cond fuel lx :
  lexer_step lx (Lexer.advance_while cond fuel lx).
Proof.
  destruct (scans_advance_while cond fuel lx) as (cs & [] & _).
  apply lexer_step_same. assumption.
Qed.

Lemma lexer_step_digits lx : lexer_step lx (Lexer.digits lx).
Proof. apply lexer_step_advance_while. Qed.

Create HintDb lexdiag.
#[local] Hint Resolve lexer_step_refl lexer_step_report lexer_step_advance
  lexer_step_set_line lexer_step_set_column lexer_step_set_current
  lexer_step_set_start lexer_step_set_tokens lexer_step_addToken
  lexer_step_advance_while lexer_step_digits : lexdiag.

Ltac lexer_chain :=
  repeat match goal with
         | |- lexer_step ?a ?a => apply lexer_step_refl
         | |- lexer_step _ (if ?b then _ else _) => destruct b eqn:?
         | |- lexer_step _ (match ?x with _ => _ end) => destruct x eqn:?
         | |- lexer_step _ (let _ := _ in _) => cbv zeta
         | |- lexer_step _ (snd (_, _)) => cbn [snd]
         | |- lexer_step _ (snd (if ?b then _ else _)) => destruct b eqn:?
         | |- lexer_step ?a (?f ?x) =>
             first [ solve [auto with lexdiag]
                   | apply (lexer_step_trans a x); [|solve [auto with lexdiag]] ]
         end.

Lemma lexer_step_block_comment_loop fuel lx :
  lexer_step lx (snd (Lexer.block_comment_loop fuel lx)).
Proof.
  revert lx. induction fuel as [|fuel IH]; intros lx; simpl.
  - apply lexer_step_refl.
  - destruct (Lexer.isAtEnd lx); [apply lexer_step_refl|].
    destruct (_ && _); cbn [snd].
    + lexer_chain.
    + eapply lexer_step_trans; [|apply IH]. lexer_chain.
Qed.

Lemma lexer_step_comment lx : lexer_step lx (Lexer.comment lx).
Proof.
  unfold Lexer.comment.
  destruct (_ && _); [lexer_chain|].
  destruct (_ && _); [|apply lexer_step_refl]. cbv zeta.
  pose proof (lexer_step_block_comment_loop (Lexer.fuel_of lx)
                (Lexer.advance_ (Lexer.advance_ lx))) as H.
  destruct (Lexer.block_comment_loop _ _) as [closed lx2]. cbn [snd] in H.
  assert (H' : lexer_step lx lx2) by (eapply lexer_step_trans; [|exact H]; lexer_chain).
  destruct closed; [exact H'|].
  eapply lexer_step_trans; [exact H' | apply lexer_step_report].
Qed.

#[local] Hint Resolve lexer_step_comment : lexdiag.

Lemma lexer_step_skipWhitespace lx : lexer_step lx (Lexer.skipWhitespace lx).
Proof.
  unfold Lexer.skipWhitespace. generalize (Lexer.fuel_of lx) as fuel.
  intros fuel. revert lx. induction fuel as [|fuel IH]; intros lx; simpl.
  - apply lexer_step_refl.
  - repeat match goal with
           | |- lexer_step _ (if ?b then _ else _) => destruct b
           end; try apply lexer_step_refl;
      (eapply lexer_step_trans; [|apply IH]); lexer_chain.
Qed.

Lemma lexer_step_identifier lx : lexer_step lx (Lexer.identifier lx).
Proof.
  unfold Lexer.identifier. cbv zeta.
  destruct (Keywords_find Keywords _);
    (eapply lexer_step_trans; [apply lexer_step_advance_while|]);
    apply lexer_step_addToken.
Qed.

Lemma lexer_step_number lx : lexer_step lx (Lexer.number lx).
Proof.
  unfold Lexer.number, Lexer.number_scan.
  assert (H1 : lexer_step lx (Lexer.digits lx)) by apply lexer_step_digits.
  set (lx1 := Lexer.digits lx) in *. clearbody lx1.
  assert (H2 : lexer_step lx1 (snd (Lexer.number_fraction lx1)))
    by (unfold Lexer.number_fraction; lexer_chain).
  destruct (Lexer.number_fraction lx1) as [isFloat lx2]. cbn [snd] in H2.
  assert (H3 : lexer_step lx2 (snd (Lexer.number_exponent isFloat lx2)))
    by (unfold Lexer.number_exponent; lexer_chain).
  destruct (Lexer.number_exponent isFloat lx2) as [[isFloat2|] lx3]; cbn [snd] in H3.
  - assert (H4 : lexer_step lx3 (snd (Lexer.number_suffix isFloat2 lx3)))
      by (unfold Lexer.number_suffix; lexer_chain).
    destruct (Lexer.number_suffix isFloat2 lx3) as [isFloat3 lx4]. cbn [snd] in H4.
    eapply lexer_step_trans; [|apply lexer_step_addToken].
    eauto using lexer_step_trans.
  - eauto using lexer_step_trans.
Qed.

Lemma lexer_step_string_loop sl sc fuel lx :
  lexer_step lx (Lexer.string_loop sl sc fuel lx).
Proof.
  revert lx. induction fuel as [|fuel IH]; intros lx; simpl.
  - apply lexer_step_refl.
  - destruct (_ && _); [|apply lexer_step_refl].
    set (lx1 := if Ascii.eqb (Lexer.peek lx) NEWLINE then _ else lx).
    assert (H1 : lexer_step lx lx1) by (subst lx1; lexer_chain).
    clearbody lx1.
    destruct (Ascii.eqb (Lexer.peek lx1) BACKSLASH).
    + destruct (Lexer.isAtEnd (Lexer.advance_ lx1)).
      * eapply lexer_step_trans; [exact H1|]. lexer_chain.
      * eapply lexer_step_trans; [exact H1|].
        eapply lexer_step_trans; [|apply IH]. lexer_chain.
    + eapply lexer_step_trans; [exact H1|].
      eapply lexer_step_trans; [|apply IH]. lexer_chain.
Qed.

Lemma lexer_step_string_ lx : lexer_step lx (Lexer.string_ lx).
Proof.
  unfold Lexer.string_. cbv zeta.
  destruct (Lexer.isAtEnd _).
  - eapply lexer_step_trans; [apply lexer_step_string_loop | apply lexer_step_report].
  - eapply lexer_step_trans; [apply lexer_step_string_loop|].
    eapply lexer_step_trans; [apply lexer_step_advance | apply lexer_step_addToken].
Qed.

Lemma lexer_step_character lx : lexer_step lx (Lexer.character lx).
Proof.
  unfold Lexer.character. cbv zeta.
  repeat match goal with
         | |- lexer_step _ (if ?b then _ else _) => destruct b
         | |- context [if ?b then Lexer.advance_while _ _ _ else _] => destruct b
         end;
    repeat first
      [ apply lexer_step_refl
      | match goal with
        | |- lexer_step ?a (?f ?x) =>
            apply (lexer_step_trans a x); [|solve [auto with lexdiag]]
        end ].
Qed.

Lemma lexer_step_match_ c lx : lexer_step lx (snd (Lexer.match_ c lx)).
Proof. unfold Lexer.match_. destruct (_ || _); cbn [snd]; lexer_chain. Qed.

Lemma lexer_step_match_chain alts otherwise lx :
  lexer_step lx (Lexer.match_chain alts otherwise lx).
Proof.
  induction alts as [|[c t] rest IH]; simpl.
  - apply lexer_step_addToken.
  - pose proof (lexer_step_match_ c lx) as Hm.
    destruct (Lexer.match_ c lx) as [[] lx']; cbn [snd] in Hm; [|exact IH].
    eapply lexer_step_trans; [exact Hm | apply lexer_step_addToken].
Qed.

Lemma lexer_step_scanToken lx : lexer_step lx (Lexer.scanToken lx).
Proof.
  unfold Lexer.scanToken. cbv zeta.
  pose proof (lexer_step_skipWhitespace lx) as Hws.
  set (lx1 := Lexer.skipWhitespace lx) in *. clearbody lx1.
  destruct (Lexer.isAtEnd lx1) eqn:Hend; [exact Hws|].
  rewrite (advance_peek lx1 Hend). cbv beta iota.
  assert (H2 : lexer_step lx (Lexer.advance_ lx1))
    by (eapply lexer_step_trans; [exact Hws | apply lexer_step_advance]).
  set (lx2 := Lexer.advance_ lx1) in *. clearbody lx2.
  pose proof (lexer_step_match_ "=" lx2) as Hm1.
  pose proof (lexer_step_match_ "<" lx2) as Hm2.
  pose proof (lexer_step_match_ ">" lx2) as Hm3.
  destruct (Lexer.match_ "=" lx2) as [b1 l1].
  destruct (Lexer.match_ "<" lx2) as [b2 l2].
  destruct (Lexer.match_ ">" lx2) as [b3 l3].
  cbn [snd] in Hm1, Hm2, Hm3.
  assert (Hto : forall l, lexer_step lx2 l -> lexer_step lx l)
    by (intros l; apply lexer_step_trans; exact H2).
  repeat match goal with
         | |- lexer_step _ (if ?b then _ else _) => destruct b
         end;
    apply Hto;
    repeat first
      [ assumption
      | apply lexer_step_refl
      | apply lexer_step_identifier
      | apply lexer_step_number
      | apply lexer_step_string_
      | apply lexer_step_character
      | apply lexer_step_match_chain
      | match goal with
        | |- lexer_step ?a (Lexer.identifier ?x) => apply (lexer_step_trans a x)
        | |- lexer_step ?a (Lexer.number ?x) => apply (lexer_step_trans a x)
        | |- lexer_step ?a (Lexer.match_chain ?alts ?o ?x) =>
            apply (lexer_step_trans a x)
        | |- lexer_step ?a (?f ?x) =>
            apply (lexer_step_trans a x); [|solve [auto with lexdiag]]
        end ].
Qed.

Lemma lexer_step_tokenize lx : lexer_step lx (snd (Lexer.tokenize lx)).
Proof.
  assert (Hloop : forall fuel l, lexer_step l (Lexer.tokenize_loop fuel l)).
  { induction fuel as [|fuel IH]; intros l; simpl; [apply lexer_step_refl|].
    destruct (Lexer.isAtEnd l); [apply lexer_step_refl|].
    eapply lexer_step_trans; [|apply IH].
    eapply lexer_step_trans; [apply lexer_step_set_start | apply lexer_step_scanToken]. }
  unfold Lexer.tokenize. cbv zeta. cbn [snd].
  eapply lexer_step_trans; [|apply lexer_step_set_tokens].
  eapply lexer_step_trans; [|apply Hloop].
  lexer_chain.
Qed.

(** ** The driver *)

Lemma flag_agrees_no_error h :
  flag_agrees h -> Errors.hasErrors h = false ->
  Forall (fun e => level e <> ERROR) (errors h).
Proof.
  unfold flag_agrees, Errors.hasErrors. intros -> H.
  apply List.Forall_forall. intros e He Hlevel.
  assert (Hex : existsb is_error (errors h) = true).
  { apply existsb_exists. exists e. split; [exact He|].
    unfold is_error. apply bool_decide_eq_true. exact Hlevel. }
  congruence.
Qed.

(** X7.  The exit code of the driver.  Whenever the compilation of a
    source text ends, the exit code is 0 or 1, and it is 0 only if none
    of the diagnostics recorded by the four phases has error severity:
    the compiler never reports success after an error diagnostic. *)
Theorem exit_code_reflects_errors (stof_ok : string -> bool)
    (inputFile sourceCode : string) (code : Z) (diagnostics : list ErrorEntry) :
  compile stof_ok inputFile sourceCode = Exited code diagnostics ->
  (code = 0 \/ code = 1) /\
  (code = 0 -> Forall (fun e => level e <> ERROR) diagnostics).
Proof.
  unfold compile.
  pose proof (lexer_step_tokenize (Lexer.new sourceCode inputFile Errors.empty_handler))
    as Hlex.
  destruct (Lexer.tokenize _) as [tokens lexer]. cbn [snd] in Hlex.
  assert (F1 : flag_agrees (Lexer.errorHandler lexer))
    by (exact (diag_step_flag_agrees _ _ _ Hlex flag_agrees_empty)).
  destruct (Errors.hasErrors (Lexer.errorHandler lexer)) eqn:E1.
  { intros [= <- <-]. split; [auto | discriminate]. }
  pose proof (parser_reports_parse (Parser.fuel_for tokens)
                (Parser.new tokens (Lexer.errorHandler lexer))) as Hparse.
  destruct (Parser.parse _ _) as [ast parser|w parser| |]; try discriminate.
  2:{ intros [= <- <-]. split; [auto | discriminate]. }
  assert (F2 : flag_agrees (Parser.errorHandler parser))
    by (exact (diag_step_flag_agrees _ _ _ Hparse F1)).
  destruct (Errors.hasErrors (Parser.errorHandler parser)) eqn:E2.
  { intros [= <- <-]. split; [auto | discriminate]. }
  pose proof (analyze_reports ast (SemanticAnalyzer.new (Parser.errorHandler parser)))
    as Hsem.
  destruct (SemanticAnalyzer.analyze _ _) as [[] analyzer|w analyzer| |];
    try discriminate.
  2:{ intros [= <- <-]. split; [auto | discriminate]. }
  assert (F3 : flag_agrees (SemanticAnalyzer.errorHandler analyzer))
    by (exact (diag_step_flag_agrees _ _ _ Hsem F2)).
  destruct (Errors.hasErrors (SemanticAnalyzer.errorHandler analyzer)) eqn:E3.
  { intros [= <- <-]. split; [auto | discriminate]. }
  pose proof (gen_reports_generate stof_ok ast
                (CodeGenerator.new 0 (SemanticAnalyzer.errorHandler analyzer)))
    as Hgen.
  destruct (CodeGenerator.generate _ _ _) as [[] codeGen|w codeGen| |];
    try discriminate.
  2:{ intros [= <- <-]. split; [auto | discriminate]. }
  assert (F4 : flag_agrees (CodeGenerator.errorHandler codeGen))
    by (exact (diag_step_flag_agrees _ _ _ Hgen F3)).
  destruct (Errors.hasErrors (CodeGenerator.errorHandler codeGen)) eqn:E4.
  { intros [= <- <-]. split; [auto | discriminate]. }
  intros [= <- <-]. split; [auto|]. intros _.
  apply flag_agrees_no_error; assumption.
Qed.

Lemma exit_code_reflects_errors_witness :
  compile (fun _ => true) "t.c" "void f(){break;}"
  = Exited 0 [mkErrorEntry WARNING "Break statement not fully implemented"
                EmptyString 0 0] /\
  Forall (fun e => level e <> ERROR)
    [mkErrorEntry WARNING "Break statement not fully implemented" EmptyString 0 0].
Proof.
  assert (E : compile (fun _ => true) "t.c" "void f(){break;}"
              = Exited 0 [mkErrorEntry WARNING "Break statement not fully implemented"
                            EmptyString 0 0])
    by (vm_compute; reflexivity).
  split; [exact E|].
  exact (proj2 (exit_code_reflects_errors _ _ _ _ _ E) eq_refl).
Defined.

(** *** Scopes and bindings of the generator *)

(** Every call in the expression has a callee (the parser never builds
    a call without one). *)
Fixpoint callees_present (e : ExpressionNode) : bool :=
  match e with
  | LiteralNode _ | VariableNode _ => true
  | UnaryNode _ operand =>
      match operand with Some e' => callees_present e' | None => true end
  | BinaryNode lhs _ rhs =>
      match lhs with Some e' => callees_present e' | None => true end &&
      match rhs with Some e' => callees_present e' | None => true end
  | CallNode callee arguments =>
      match callee with Some e' => callees_present e' | None => false end &&
      forallb (fun p => match p with Some e' => callees_present e' | None => true end)
        arguments
  | ArrayAccessNode array index =>
      match array with Some e' => callees_present e' | None => true end &&
      match index with Some e' => callees_present e' | None => true end
  | MemberAccessNode object _ _ =>
      match object with Some e' => callees_present e' | None => true end
  | ConditionalNode condition trueExpr falseExpr =>
      match condition with Some e' => callees_present e' | None => true end &&
      match trueExpr with Some e' => callees_present e' | None => true end &&
      match falseExpr with Some e' => callees_present e' | None => true end
  end.

Definition callees_present_ptr (p : ExprPtr) : bool :=
  match p with Some e => callees_present e | None => true end.

Fixpoint statement_callees_present (s : StatementNode) : bool :=
  match s with
  | ExpressionStatementNode e => callees_present_ptr e
  | BlockNode statements => forallb statement_callees_present statements
  | VariableDeclarationNode _ _ init => callees_present_ptr init
  | IfNode c t e =>
      callees_present_ptr c && statement_callees_present t &&
      match e with Some s' => statement_callees_present s' | None => true end
  | WhileNode c b => callees_present_ptr c && statement_callees_present b
  | DoWhileNode b c => statement_callees_present b && callees_present_ptr c
  | ForNode i c u b =>
      match i with Some s' => statement_callees_present s' | None => true end &&
      callees_present_ptr c && callees_present_ptr u && statement_callees_present b
  | ReturnNode v => callees_present_ptr v
  | BreakNode | ContinueNode => true
  end.

(** [quiet m]: [m] returns or throws, and leaves the [variables] map and
    the scope stack as they were. *)
Definition quiet {A} (m : CodeGenerator.Gen A) : Prop :=
  forall g,
    match m g with
    | Return _ g' | Throw _ g' =>
        CodeGenerator.variables g' = CodeGenerator.variables g /\
        CodeGenerator.scopeStack g' = CodeGenerator.scopeStack g
    | _ => False
    end.

Lemma quiet_ret {A} (x : A) : quiet (ret x).
Proof. intros g. split; reflexivity. Qed.

Lemma quiet_throw {A} w : quiet (@throw _ A w).
Proof. intros g. split; reflexivity. Qed.

Lemma quiet_bind {A B} (m : CodeGenerator.Gen A) (k : A -> CodeGenerator.Gen B) :
  quiet m -> (forall x, quiet (k x)) -> quiet (bind m k).
Proof.
  intros Hm Hk g. unfold bind. specialize (Hm g).
  destruct (m g) as [x g1|w g1| |]; try exact Hm.
  specialize (Hk x g1). destruct (k x g1); try exact Hk;
    (destruct Hm as [Hv Hs]; destruct Hk as [Hv' Hs']; split; congruence).
Qed.

Lemma quiet_gets {A} (f : CodeGenerator.CodeGenerator -> A) : quiet (gets f).
Proof. intros g. split; reflexivity. Qed.

Lemma quiet_error l c msg : quiet (CodeGenerator.error l c msg).
Proof. intros g. split; reflexivity. Qed.

Lemma quiet_warning l c msg : quiet (CodeGenerator.warning l c msg).
Proof. intros g. split; reflexivity. Qed.

Lemma quiet_getNextVarId : quiet CodeGenerator.getNextVarId.
Proof. intros g. split; reflexivity. Qed.

Lemma quiet_emitInstruction op ops : quiet (CodeGenerator.emitInstruction op ops).
Proof. intros g. split; reflexivity. Qed.

Lemma quiet_emitVarDeclaration v ty i : quiet (CodeGenerator.emitVarDeclaration v ty i).
Proof. apply quiet_emitInstruction. Qed.

Lemma quiet_generateLabel prefix : quiet (CodeGenerator.generateLabel prefix).
Proof. intros g. split; reflexivity. Qed.

Lemma quiet_addSymbol name attrs sec : quiet (CodeGenerator.addSymbol name attrs sec).
Proof.
  intros g. unfold CodeGenerator.addSymbol.
  destruct (negb _); split; reflexivity.
Qed.

Create HintDb quiet.
#[local] Hint Resolve quiet_ret quiet_throw quiet_gets quiet_error quiet_warning
  quiet_getNextVarId quiet_emitInstruction quiet_emitVarDeclaration
  quiet_generateLabel quiet_addSymbol : quiet.

Ltac quiet_step :=
  lazymatch goal with
  | |- quiet (bind _ _) => apply quiet_bind; [|intros ?]
  | |- quiet (let _ := _ in _) => cbv zeta
  | |- quiet ?m =>
      first
        [ solve [eauto with quiet]
        | lazymatch m with
          | (if ?b then _ else _) => destruct b
          | (match ?x with _ => _ end) => destruct x
          end ]
  end.

Ltac quiet_auto := repeat quiet_step.

Lemma quiet_emitLabel label : quiet (CodeGenerator.emitLabel label).
Proof. unfold CodeGenerator.emitLabel. quiet_auto. Qed.

Lemma quiet_branch_to label : quiet (CodeGenerator.branch_to label).
Proof. unfold CodeGenerator.branch_to. quiet_auto. Qed.

Lemma quiet_compare_with_zero v : quiet (CodeGenerator.compare_with_zero v).
Proof. apply quiet_emitInstruction. Qed.

Lemma quiet_translateType ty : quiet (CodeGenerator.translateType ty).
Proof. unfold CodeGenerator.translateType. quiet_auto. Qed.

#[local] Hint Resolve quiet_emitLabel quiet_branch_to quiet_compare_with_zero
  quiet_translateType : quiet.

Section GeneratorScopes.

Variable stof_ok : string -> bool.

Lemma quiet_generateLiteral token : quiet (CodeGenerator.generateLiteral stof_ok token).
Proof. unfold CodeGenerator.generateLiteral. quiet_auto. Qed.

Lemma quiet_generateVariable name : quiet (CodeGenerator.generateVariable name).
Proof. unfold CodeGenerator.generateVariable. quiet_auto. Qed.

Lemma quiet_generateUnary op v : quiet (CodeGenerator.generateUnary op v).
Proof. unfold CodeGenerator.generateUnary. quiet_auto. Qed.

Lemma quiet_generateBinary op l r : quiet (CodeGenerator.generateBinary op l r).
Proof. unfold CodeGenerator.generateBinary. quiet_auto. Qed.

Lemma quiet_generateCall_emit f ids : quiet (CodeGenerator.generateCall_emit f ids).
Proof. unfold CodeGenerator.generateCall_emit. quiet_auto. Qed.

Lemma quiet_generate_arguments generate arguments :
  Forall (fun p => quiet (generate p)) arguments ->
  quiet (CodeGenerator.generate_arguments generate arguments).
Proof. induction 1; simpl; quiet_auto. Qed.

#[local] Hint Resolve quiet_generateLiteral quiet_generateVariable
  quiet_generateUnary quiet_generateBinary quiet_generateCall_emit : quiet.

Lemma quiet_generateExpression_ptr (p : ExprPtr) :
  on_ptr (fun e => callees_present e = true ->
                   quiet (CodeGenerator.generateExpressionNode stof_ok e)) p ->
  callees_present_ptr p = true ->
  quiet (CodeGenerator.generateExpression stof_ok p).
Proof.
  destruct p as [e|]; simpl; intros H Hc; [exact (H Hc)|]. quiet_auto.
Qed.

Lemma quiet_generateExpressionNode (e : ExpressionNode) :
  callees_present e = true ->
  quiet (CodeGenerator.generateExpressionNode stof_ok e).
Proof.
  induction e using ExpressionNode_nested_ind; simpl; intros Hc;
    repeat match goal with
           | H : _ && _ = true |- _ => apply andb_true_iff in H as [? ?]
           end;
    repeat match goal with
           | H : on_ptr _ ?p, Hp : match ?p with Some _ => _ | None => _ end = true |- _ =>
               pose proof (quiet_generateExpression_ptr p H Hp); clear H
           end;
    try solve [quiet_auto].
  - (* CallNode *)
    destruct callee as [callee|]; [|discriminate].
    destruct callee; quiet_auto.
    apply quiet_generate_arguments.
    match goal with
    | Hall : Forall _ arguments, Hargs : forallb _ arguments = true |- _ =>
        rewrite forallb_forall in Hargs; rewrite List.Forall_forall in Hall;
        apply List.Forall_forall; intros p Hp;
        exact (quiet_generateExpression_ptr p (Hall p Hp) (Hargs p Hp))
    end.
Qed.

Lemma quiet_generateExpression (p : ExprPtr) :
  callees_present_ptr p = true ->
  quiet (CodeGenerator.generateExpression stof_ok p).
Proof.
  destruct p as [e|]; simpl; [apply quiet_generateExpressionNode|].
  intros _. quiet_auto.
Qed.

End GeneratorScopes.

(** The names a statement declares in the scope it is generated in: the
    generator opens a scope for a block and for a [for] statement, but
    not for the branch of an [if] or the body of a [while]. *)
Fixpoint declared_in (s : StatementNode) : list string :=
  match s with
  | VariableDeclarationNode _ name _ => [lexeme name]
  | IfNode _ thenBranch elseBranch =>
      declared_in thenBranch ++
      match elseBranch with Some s' => declared_in s' | None => [] end
  | WhileNode _ body | DoWhileNode body _ => declared_in body
  | _ => []
  end.

Definition bound (g : CodeGenerator.CodeGenerator) : gset string :=
  dom (CodeGenerator.variables g).

(** [binds names m]: in an open scope, [m] does not fail undefinedly;
    when it returns, it has appended [names] to the list of the scope
    and bound nothing but these names. *)
Definition binds {A} (names : list string) (m : CodeGenerator.Gen A) : Prop :=
  forall g top rest,
    CodeGenerator.scopeStack g = top :: rest ->
    match m g with
    | Return _ g' =>
        CodeGenerator.scopeStack g' = (top ++ names)%list :: rest /\
        bound g' ⊆ bound g ∪ list_to_set names
    | Throw _ _ => True
    | _ => False
    end.

(** [closes m]: [m] runs to the end of the scope that is open and leaves
    it; no name declared in the scope stays bound. *)
Definition closes {A} (m : CodeGenerator.Gen A) : Prop :=
  forall g top rest (outer : gset string),
    CodeGenerator.scopeStack g = top :: rest ->
    bound g ⊆ outer ∪ list_to_set top ->
    match m g with
    | Return _ g' => CodeGenerator.scopeStack g' = rest /\ bound g' ⊆ outer
    | Throw _ _ => True
    | _ => False
    end.

(** [scoped m]: [m] as a whole leaves the scope stack as it found it
    and binds no new name. *)
Definition scoped {A} (m : CodeGenerator.Gen A) : Prop :=
  forall g,
    match m g with
    | Return _ g' =>
        CodeGenerator.scopeStack g' = CodeGenerator.scopeStack g /\
        bound g' ⊆ bound g
    | Throw _ _ => True
    | _ => False
    end.

Lemma scoped_quiet {A} (m : CodeGenerator.Gen A) : quiet m -> scoped m.
Proof.
  intros H g. specialize (H g). destruct (m g); try exact H; try exact I.
  destruct H as [Hv Hs]. unfold bound. rewrite Hv, Hs. split; [reflexivity|set_solver].
Qed.

Lemma binds_scoped {A} (m : CodeGenerator.Gen A) : scoped m -> binds [] m.
Proof.
  intros H g top rest Hs. specialize (H g). destruct (m g); try exact H.
  destruct H as [Hs' Hb]. rewrite Hs', Hs, app_nil_r. split; [reflexivity|set_solver].
Qed.

Lemma binds_quiet {A} (m : CodeGenerator.Gen A) : quiet m -> binds [] m.
Proof. intros H. apply binds_scoped, scoped_quiet, H. Qed.

Lemma binds_eq {A} names names' (m : CodeGenerator.Gen A) :
  names = names' -> binds names m -> binds names' m.
Proof. intros ->. auto. Qed.

Lemma binds_bind {A B} n1 n2 (m : CodeGenerator.Gen A) (k : A -> CodeGenerator.Gen B) :
  binds n1 m -> (forall x, binds n2 (k x)) -> binds (n1 ++ n2) (bind m k).
Proof.
  intros Hm Hk g top rest Hs. unfold bind. specialize (Hm g top rest Hs).
  destruct (m g) as [x g1|w g1| |]; try exact Hm.
  destruct Hm as [Hs1 Hb1]. specialize (Hk x g1 _ _ Hs1).
  destruct (k x g1); try exact Hk.
  destruct Hk as [Hs2 Hb2]. rewrite Hs2, app_assoc. split; [reflexivity|].
  rewrite list_to_set_app_L. set_solver.
Qed.

Lemma closes_bind {A B} names (m : CodeGenerator.Gen A) (k : A -> CodeGenerator.Gen B) :
  binds names m -> (forall x, closes (k x)) -> closes (bind m k).
Proof.
  intros Hm Hk g top rest outer Hs Hb. unfold bind. specialize (Hm g top rest Hs).
  destruct (m g) as [x g1|w g1| |]; try exact Hm.
  destruct Hm as [Hs1 Hb1]. apply (Hk x g1 _ _ outer Hs1).
  rewrite list_to_set_app_L. set_solver.
Qed.

Lemma bound_leave (vars : gmap string Variable_) names :
  dom (foldl (fun vars varName => delete varName vars) vars names)
  ⊆ dom vars ∖ list_to_set names.
Proof.
  intros name Hin. apply elem_of_dom in Hin as [v Hv].
  rewrite lookup_foldl_delete in Hv.
  case_bool_decide as Hnames; [discriminate|].
  apply elem_of_difference. split; [apply elem_of_dom; eauto|].
  rewrite elem_of_list_to_set. exact Hnames.
Qed.

Lemma closes_leaveScope {A} (tail : CodeGenerator.Gen A) :
  quiet tail -> closes (CodeGenerator.leaveScope ;; tail).
Proof.
  intros Htail g top rest outer Hs Hb.
  unfold bind, CodeGenerator.leaveScope, modify. rewrite Hs.
  specialize (Htail (CodeGenerator.set_scopeStack rest
                       (CodeGenerator.set_variables
                          (foldl (fun vars varName => delete varName vars)
                             (CodeGenerator.variables g) top) g))).
  destruct (tail _); try exact Htail; try exact I.
  destruct Htail as [Hv Hs']. simpl in Hv, Hs'. unfold bound in *. rewrite Hv, Hs'.
  split; [reflexivity|].
  pose proof (bound_leave (CodeGenerator.variables g) top). set_solver.
Qed.

Lemma closes_leaveScope_last : closes CodeGenerator.leaveScope.
Proof.
  intros g top rest outer Hs Hb.
  unfold CodeGenerator.leaveScope, modify. rewrite Hs. simpl.
  split; [reflexivity|]. unfold bound in *. simpl.
  pose proof (bound_leave (CodeGenerator.variables g) top). set_solver.
Qed.

Lemma scoped_enterScope {A} (m : CodeGenerator.Gen A) :
  closes m -> scoped (CodeGenerator.enterScope ;; m).
Proof.
  intros Hm g. unfold bind, CodeGenerator.enterScope, modify.
  specialize (Hm (CodeGenerator.set_scopeStack ([] :: CodeGenerator.scopeStack g) g)
                [] (CodeGenerator.scopeStack g) (bound g) eq_refl).
  destruct (m _); try (apply Hm; unfold bound; simpl; set_solver); exact I.
Qed.

Lemma scoped_bind {A B} (m : CodeGenerator.Gen A) (k : A -> CodeGenerator.Gen B) :
  scoped m -> (forall x, scoped (k x)) -> scoped (bind m k).
Proof.
  intros Hm Hk g. unfold bind. specialize (Hm g).
  destruct (m g) as [x g1|w g1| |]; try exact Hm.
  destruct Hm as [Hs1 Hb1]. specialize (Hk x g1).
  destruct (k x g1); try exact Hk.
  destruct Hk as [Hs2 Hb2]. split; [congruence | set_solver].
Qed.

Lemma binds_push_declaration name varId ty :
  binds [name]
    (CodeGenerator.bind_variable name varId ty ;; CodeGenerator.push_name name).
Proof.
  intros g top rest Hs.
  unfold bind, CodeGenerator.bind_variable, CodeGenerator.push_name, modify. simpl.
  rewrite Hs. split; [reflexivity|].
  unfold bound. simpl. rewrite dom_insert_L. set_solver.
Qed.

Lemma binds_quiet_then {A B} names (m : CodeGenerator.Gen A)
    (k : A -> CodeGenerator.Gen B) :
  quiet m -> (forall x, binds names (k x)) -> binds names (bind m k).
Proof. intros Hm Hk. exact (binds_bind [] names m k (binds_quiet m Hm) Hk). Qed.

Lemma binds_then_quiet {A B} names (m : CodeGenerator.Gen A)
    (k : A -> CodeGenerator.Gen B) :
  binds names m -> (forall x, quiet (k x)) -> binds names (bind m k).
Proof.
  intros Hm Hk. apply (binds_eq (names ++ [])); [apply app_nil_r|].
  apply binds_bind; [exact Hm|]. intros x. apply binds_quiet, Hk.
Qed.

Lemma closes_quiet_then {A B} (m : CodeGenerator.Gen A) (k : A -> CodeGenerator.Gen B) :
  quiet m -> (forall x, closes (k x)) -> closes (bind m k).
Proof. intros Hm Hk. exact (closes_bind [] m k (binds_quiet m Hm) Hk). Qed.

Lemma binds_declare {A} name varId ty (tail : CodeGenerator.Gen A) :
  quiet tail ->
  binds [name]
    (CodeGenerator.bind_variable name varId ty ;;
     CodeGenerator.push_name name ;;
     tail).
Proof.
  intros Htail g top rest Hs.
  unfold bind, CodeGenerator.bind_variable, CodeGenerator.push_name, modify. simpl.
  rewrite Hs.
  specialize (Htail (CodeGenerator.set_scopeStack ((top ++ [name])%list :: rest)
                       (CodeGenerator.set_variables
                          (<[name := mkVariable name varId ty]>
                             (CodeGenerator.variables g)) g))).
  destruct (tail _); try exact Htail; try exact I.
  destruct Htail as [Hv Hs']. simpl in Hv, Hs'. unfold bound. rewrite Hv, Hs'.
  split; [reflexivity|]. rewrite dom_insert_L. set_solver.
Qed.

Section GeneratorStatements.

Variable stof_ok : string -> bool.

Lemma binds_generateVariableDeclaration ty name init :
  callees_present_ptr init = true ->
  binds [lexeme name]
    (CodeGenerator.generateVariableDeclaration stof_ok ty name init false).
Proof.
  intros Hinit. unfold CodeGenerator.generateVariableDeclaration.
  apply binds_quiet_then; [apply quiet_translateType|intros varType].
  apply binds_quiet_then; [apply quiet_getNextVarId|intros varId].
  apply binds_declare.
  destruct init; quiet_auto. apply (quiet_generateExpression stof_ok _ Hinit).
Qed.

Definition statement_binds (generate : StatementNode -> CodeGenerator.Gen unit)
    (s : StatementNode) : Prop :=
  statement_callees_present s = true -> binds (declared_in s) (generate s).

Lemma binds_generate_each generate statements :
  Forall (statement_binds generate) statements ->
  forallb statement_callees_present statements = true ->
  binds (flat_map declared_in statements)
    (CodeGenerator.generate_each generate statements).
Proof.
  induction 1 as [|s rest Hs _ IH]; simpl; intros Hc.
  - apply binds_quiet, quiet_ret.
  - apply andb_true_iff in Hc as [Hc1 Hc2].
    apply binds_bind; [exact (Hs Hc1)|intros _; exact (IH Hc2)].
Qed.

Lemma scoped_generateBlock_rec generate statements :
  Forall (statement_binds generate) statements ->
  forallb statement_callees_present statements = true ->
  scoped (CodeGenerator.generateBlock_rec generate statements).
Proof.
  intros H Hc. unfold CodeGenerator.generateBlock_rec.
  apply scoped_bind; [apply scoped_quiet, quiet_emitInstruction|intros _].
  apply scoped_enterScope.
  apply (closes_bind (flat_map declared_in statements));
    [apply binds_generate_each; assumption|intros _].
  apply closes_leaveScope, quiet_emitInstruction.
Qed.

Ltac expression_ok :=
  first [ apply quiet_generateExpression; assumption
        | apply quiet_compare_with_zero | apply quiet_branch_to
        | apply quiet_emitLabel | apply quiet_generateLabel
        | apply quiet_emitInstruction | apply quiet_ret ].

Lemma statement_binds_generateStatement s :
  statement_binds (CodeGenerator.generateStatement stof_ok) s.
Proof.
  induction s using StatementNode_nested_ind; intros Hc; simpl in Hc |- *;
    repeat match goal with
           | H : _ && _ = true |- _ => apply andb_true_iff in H as [? ?]
           end.
  - apply binds_quiet. unfold CodeGenerator.generateExpressionStatement.
    quiet_auto. expression_ok.
  - apply binds_scoped, scoped_generateBlock_rec; assumption.
  - apply binds_generateVariableDeclaration. exact Hc.
  - unfold CodeGenerator.generateIfStatement_rec.
    do 5 (apply binds_quiet_then; [expression_ok|intros ?]).
    apply binds_bind; [auto|intros _].
    do 2 (apply binds_quiet_then; [expression_ok|intros ?]).
    apply binds_then_quiet; [|intros ?; expression_ok].
    destruct e as [s'|]; [|apply binds_quiet, quiet_ret].
    apply H; [reflexivity | assumption].
  - unfold CodeGenerator.generateWhileStatement_rec.
    do 6 (apply binds_quiet_then; [expression_ok|intros ?]).
    apply binds_then_quiet; [auto|intros ?].
    quiet_auto; expression_ok.
  - unfold CodeGenerator.generateDoWhileStatement_rec.
    do 4 (apply binds_quiet_then; [expression_ok|intros ?]).
    apply binds_then_quiet; [auto|intros ?].
    quiet_auto; expression_ok.
  - unfold CodeGenerator.generateForStatement_rec, CodeGenerator.emitScopeEnter,
      CodeGenerator.emitScopeLeave.
    apply binds_scoped.
    do 4 (apply scoped_bind; [apply scoped_quiet; expression_ok|intros ?]).
    apply scoped_enterScope.
    apply (closes_bind (match i with Some s' => declared_in s' | None => [] end)).
    { destruct i as [s'|]; [|apply binds_quiet, quiet_ret].
      apply H; [reflexivity | assumption]. }
    intros _. apply closes_quiet_then; [expression_ok|intros ?].
    apply closes_quiet_then.
    { destruct c; quiet_auto; expression_ok. }
    intros _. apply (closes_bind (declared_in s)); [auto|intros _].
    apply closes_quiet_then; [expression_ok|intros ?].
    apply closes_quiet_then.
    { destruct u; quiet_auto; expression_ok. }
    intros _.
    do 2 (apply closes_quiet_then; [expression_ok|intros ?]).
    apply closes_leaveScope. expression_ok.
  - apply binds_quiet. unfold CodeGenerator.generateReturnStatement.
    destruct v; quiet_auto; expression_ok.
  - apply binds_quiet, quiet_warning.
  - apply binds_quiet, quiet_warning.
Qed.

Lemma scoped_generateBlock statements :
  forallb statement_callees_present statements = true ->
  scoped (CodeGenerator.generateBlock stof_ok statements).
Proof.
  apply scoped_generateBlock_rec.
  apply List.Forall_forall. intros s _. apply statement_binds_generateStatement.
Qed.

End GeneratorStatements.

Definition function_callees_present (f : FunctionDeclarationNode) : bool :=
  match fbody f with
  | Some statements => forallb statement_callees_present statements
  | None => true
  end.

Definition program_callees_present (root : option ProgramNode) : bool :=
  match root with
  | Some program =>
      forallb (fun declaration =>
                 match declaration with
                 | FunctionDeclaration f => function_callees_present f
                 | Statement s => statement_callees_present s
                 end) (declarations program)
  | None => true
  end.

Definition parameter_names (params : list ParameterNode) : list string :=
  flat_map (fun p => if String.eqb (lexeme (pname p)) EmptyString then []
                     else [lexeme (pname p)]) params.

Section GeneratorProgram.

Variable stof_ok : string -> bool.

Lemma binds_generate_parameters params :
  forall i, binds (parameter_names params) (CodeGenerator.generate_parameters i params).
Proof.
  induction params as [|p rest IH]; intros i; simpl.
  - apply binds_quiet, quiet_ret.
  - apply binds_bind; [|intros _; apply IH].
    destruct (String.eqb (lexeme (pname p)) EmptyString); simpl.
    + apply binds_quiet, quiet_ret.
    + apply binds_quiet_then; [apply quiet_translateType|intros paramType].
      apply binds_quiet_then; [apply quiet_getNextVarId|intros paramVarId].
      apply binds_declare. quiet_auto.
Qed.

Lemma quiet_set_currentFunction f :
  quiet (modify (CodeGenerator.set_currentFunction f)).
Proof. intros g. split; reflexivity. Qed.

Lemma scoped_generateFunctionDeclaration node :
  function_callees_present node = true ->
  scoped (CodeGenerator.generateFunctionDeclaration stof_ok node).
Proof.
  intros Hc. unfold CodeGenerator.generateFunctionDeclaration. cbv zeta.
  apply scoped_bind; [apply scoped_quiet, quiet_set_currentFunction|intros _].
  apply scoped_bind; [apply scoped_quiet, quiet_gets|intros text].
  apply scoped_bind; [apply scoped_quiet, quiet_addSymbol|intros functionSymbol].
  apply scoped_bind; [apply scoped_quiet, quiet_emitLabel|intros _].
  apply scoped_bind; [apply scoped_quiet, quiet_emitInstruction|intros _].
  apply scoped_bind; [|intros _; apply scoped_quiet, quiet_set_currentFunction].
  unfold function_callees_present in Hc.
  destruct (fbody node) as [statements|]; [|apply scoped_quiet, quiet_ret].
  apply scoped_enterScope.
  apply (closes_bind (parameter_names (parameters node)));
    [apply binds_generate_parameters|intros _].
  apply (closes_bind []);
    [apply binds_scoped, scoped_generateBlock; exact Hc|intros _].
  apply closes_quiet_then; [apply quiet_gets|intros f].
  apply (closes_bind []); [|intros _; apply closes_leaveScope_last].
  apply binds_quiet. destruct (String.eqb f "main"); apply quiet_emitInstruction.
Qed.

Lemma scoped_generateProgram_loop decls :
  forallb (fun declaration =>
             match declaration with
             | FunctionDeclaration f => function_callees_present f
             | Statement s => statement_callees_present s
             end) decls = true ->
  scoped (CodeGenerator.generateProgram_loop stof_ok decls).
Proof.
  induction decls as [|decl rest IH]; simpl; intros Hc.
  - apply scoped_quiet, quiet_ret.
  - apply andb_true_iff in Hc as [Hc1 Hc2].
    apply scoped_bind; [|intros _; exact (IH Hc2)].
    destruct decl as [f|s].
    + apply scoped_generateFunctionDeclaration. exact Hc1.
    + destruct s; try (apply scoped_quiet, quiet_ret).
      apply scoped_quiet. unfold CodeGenerator.generateVariableDeclaration.
      quiet_auto.
Qed.

Lemma initialize_resets g :
  exists g',
    CodeGenerator.initialize g = Return tt g' /\
    CodeGenerator.scopeStack g' = [] /\ CodeGenerator.variables g' = ∅.
Proof.
  unfold CodeGenerator.initialize.
  cbv beta zeta iota delta [bind modify Coil.addSymbol Coil.addSection
                            CodeGenerator.emitInstruction].
  eexists. split; [reflexivity|]. split; reflexivity.
Qed.



End GeneratorProgram.



(** ** The lexemes cover the source *)

(** [makeToken] copies [source.substr(start, current - start)] and
    [tokenize] sets [start = current] before every [scanToken], so a run
    of the lexer that reports nothing cuts the source into consecutive
    lexemes. *)

Definition in_bounds (lx : Lexer.Lexer) : Prop :=
  (Lexer.current lx <= String.length (Lexer.source lx))%nat.

(** [lx'] is reached from [lx] by going forward inside the source,
    possibly reporting errors, without adding a token. *)
Record walks (lx lx' : Lexer.Lexer) : Prop := mkWalks {
  walks_source : Lexer.source lx' = Lexer.source lx;
  walks_start : Lexer.start lx' = Lexer.start lx;
  walks_tokens : Lexer.tokens lx' = Lexer.tokens lx;
  walks_current : (Lexer.current lx <= Lexer.current lx')%nat;
  walks_bounds : in_bounds lx -> in_bounds lx';
  walks_errors :
    hadError (Lexer.errorHandler lx') = true \/
    Lexer.errorHandler lx' = Lexer.errorHandler lx;
}.

Lemma walks_refl lx : walks lx lx.
Proof. split; auto. Qed.

Lemma walks_trans lx1 lx2 lx3 : walks lx1 lx2 -> walks lx2 lx3 -> walks lx1 lx3.
Proof.
  intros [] []. split; try congruence; try lia; auto.
  destruct walks_errors1 as [H|H]; [auto|].
  destruct walks_errors0 as [H0|H0]; [left|right]; congruence.
Qed.

Lemma walks_advance lx : Lexer.isAtEnd lx = false -> walks lx (Lexer.advance_ lx).
Proof.
  intros H. apply isAtEnd_false in H.
  split; simpl; auto; unfold in_bounds; simpl; lia.
Qed.

Lemma walks_advance2 lx :
  Lexer.isAtEnd (Lexer.advance_ lx) = false ->
  walks lx (Lexer.advance_ (Lexer.advance_ lx)).
Proof.
  intros H. eapply walks_trans; [|apply walks_advance; exact H].
  apply walks_advance. apply isAtEnd_false in H. apply isAtEnd_false.
  simpl in H. lia.
Qed.

Lemma walks_report l c msg lx : walks lx (Lexer.report l c msg lx).
Proof. split; simpl; auto. Qed.

Lemma walks_set_line l lx : walks lx (Lexer.set_line l lx).
Proof. split; simpl; auto. Qed.

Lemma walks_set_column c lx : walks lx (Lexer.set_column c lx).
Proof. split; simpl; auto. Qed.

(** The source ends where a guard on [peek] or [peekNext] fails. *)
Ltac not_at_end :=
  try assumption;
  rewrite <- ?peek_advance in *;
  match goal with
  | |- Lexer.isAtEnd ?l = false =>
      let Hguard := fresh "Hguard" in
      destruct (Lexer.isAtEnd l) eqn:Hguard; [exfalso | reflexivity];
      try discriminate;
      rewrite ?(peek_at_end l Hguard) in *;
      repeat match goal with
             | H : (_ && _)%bool = true |- _ => apply andb_true_iff in H as [? ?]
             end;
      solve [ discriminate
            | match goal with
              | H : negb ?b = true |- _ => apply negb_true_iff in H; congruence
              end ]
  end.

Lemma walks_advance_while cond fuel lx :
  (forall l, cond l = true -> Lexer.isAtEnd l = false) ->
  walks lx (Lexer.advance_while cond fuel lx).
Proof.
  intros Hcond. revert lx. induction fuel as [|fuel IH]; intros lx; simpl.
  - apply walks_refl.
  - destruct (cond lx) eqn:Hc; [|apply walks_refl].
    eapply walks_trans; [apply walks_advance; auto | apply IH].
Qed.

Lemma walks_digits lx : walks lx (Lexer.digits lx).
Proof. apply walks_advance_while. exact digits_loop_stops. Qed.

Lemma walks_block_comment_loop fuel lx :
  walks lx (snd (Lexer.block_comment_loop fuel lx)).
Proof.
  revert lx. induction fuel as [|fuel IH]; intros lx; simpl.
  - apply walks_refl.
  - destruct (Lexer.isAtEnd lx) eqn:Hend; [apply walks_refl|].
    destruct (_ && _)%bool eqn:Hclose; cbn [snd].
    + apply walks_advance2. not_at_end.
    + eapply walks_trans; [|apply IH].
      destruct (Ascii.eqb (Lexer.peek lx) NEWLINE).
      * eapply walks_trans; [|apply walks_advance; exact Hend].
        eapply walks_trans; [apply walks_set_line | apply walks_set_column].
      * apply walks_advance; exact Hend.
Qed.

Lemma walks_comment lx : walks lx (Lexer.comment lx).
Proof.
  unfold Lexer.comment. cbv zeta.
  destruct (Ascii.eqb (Lexer.peek lx) "/" && Ascii.eqb (Lexer.peekNext lx) "/")%bool
    eqn:Hline.
  { eapply walks_trans; [apply walks_advance2; not_at_end|].
    apply walks_advance_while. exact (until_loop_stops NEWLINE). }
  destruct (Ascii.eqb (Lexer.peek lx) "/" && Ascii.eqb (Lexer.peekNext lx) "*")%bool
    eqn:Hblock; [|apply walks_refl].
  assert (H2 : walks lx (Lexer.advance_ (Lexer.advance_ lx)))
    by (apply walks_advance2; not_at_end).
  pose proof (walks_block_comment_loop (Lexer.fuel_of lx)
                (Lexer.advance_ (Lexer.advance_ lx))) as Hloop.
  destruct (Lexer.block_comment_loop _ _) as [closed lx2]. cbn [snd] in Hloop.
  destruct closed.
  - eapply walks_trans; eassumption.
  - eapply walks_trans; [|apply walks_report].
    eapply walks_trans; eassumption.
Qed.

Lemma walks_skipWhitespace_loop fuel lx :
  walks lx (Lexer.skipWhitespace_loop fuel lx).
Proof.
  revert lx. induction fuel as [|fuel IH]; intros lx; simpl.
  - apply walks_refl.
  - destruct (_ || _)%bool eqn:Hblank.
    { eapply walks_trans; [|apply IH]. apply walks_advance.
      destruct (Lexer.isAtEnd lx) eqn:Hend; [|reflexivity].
      rewrite (peek_at_end lx Hend) in Hblank. discriminate. }
    destruct (Ascii.eqb (Lexer.peek lx) NEWLINE) eqn:Hnl.
    { eapply walks_trans; [|apply IH].
      eapply walks_trans; [|apply walks_advance].
      - eapply walks_trans; [apply walks_set_line | apply walks_set_column].
      - change (Lexer.isAtEnd lx = false). not_at_end. }
    destruct (Ascii.eqb (Lexer.peek lx) "/"); [|apply walks_refl].
    destruct (Ascii.eqb (Lexer.peekNext lx) "/" || Ascii.eqb (Lexer.peekNext lx) "*")%bool;
      [|apply walks_refl].
    eapply walks_trans; [apply walks_comment | apply IH].
Qed.

Lemma walks_skipWhitespace lx : walks lx (Lexer.skipWhitespace lx).
Proof. apply walks_skipWhitespace_loop. Qed.

Lemma walks_match_ c lx : walks lx (snd (Lexer.match_ c lx)).
Proof.
  unfold Lexer.match_.
  destruct (Lexer.isAtEnd lx) eqn:Hend; simpl; [apply walks_refl|].
  destruct (negb _); cbn [snd]; [apply walks_refl|].
  apply isAtEnd_false in Hend.
  split; simpl; auto; unfold in_bounds; simpl; lia.
Qed.

Lemma walks_number_fraction lx : walks lx (snd (Lexer.number_fraction lx)).
Proof.
  unfold Lexer.number_fraction.
  destruct (_ && _)%bool eqn:H; cbn [snd]; [|apply walks_refl].
  eapply walks_trans; [apply walks_advance; not_at_end | apply walks_digits].
Qed.

Lemma walks_number_exponent isFloat lx :
  walks lx (snd (Lexer.number_exponent isFloat lx)).
Proof.
  unfold Lexer.number_exponent. cbv zeta.
  destruct (Lexer.is_e (Lexer.peek lx)) eqn:He; cbn [snd]; [|apply walks_refl].
  assert (H1 : walks lx (Lexer.advance_ lx)) by (apply walks_advance; not_at_end).
  set (lx1 := Lexer.advance_ lx) in *. clearbody lx1. clear He.
  assert (H2 : walks lx (if Lexer.is_sign (Lexer.peek lx1)
                         then Lexer.advance_ lx1 else lx1)).
  { destruct (Lexer.is_sign (Lexer.peek lx1)) eqn:Hs; [|exact H1].
    eapply walks_trans; [exact H1 | apply walks_advance; not_at_end]. }
  set (lx2 := if Lexer.is_sign _ then _ else _) in *. clearbody lx2.
  destruct (negb _); cbn [snd].
  - eapply walks_trans; [exact H2 | apply walks_report].
  - eapply walks_trans; [exact H2 | apply walks_digits].
Qed.

Lemma walks_number_suffix isFloat lx :
  walks lx (snd (Lexer.number_suffix isFloat lx)).
Proof.
  unfold Lexer.number_suffix. cbv zeta.
  destruct (Lexer.is_f (Lexer.peek lx)) eqn:Hf; cbn [snd].
  { apply walks_advance; not_at_end. }
  destruct (Lexer.is_l (Lexer.peek lx)) eqn:Hl; cbn [snd].
  { assert (H1 : walks lx (Lexer.advance_ lx)) by (apply walks_advance; not_at_end).
    set (lx1 := Lexer.advance_ lx) in *. clearbody lx1. clear Hf Hl.
    destruct (Lexer.is_u (Lexer.peek lx1)) eqn:Hu; [|exact H1].
    eapply walks_trans; [exact H1 | apply walks_advance; not_at_end]. }
  destruct (Lexer.is_u (Lexer.peek lx)) eqn:Hu; cbn [snd]; [|apply walks_refl].
  assert (H1 : walks lx (Lexer.advance_ lx)) by (apply walks_advance; not_at_end).
  set (lx1 := Lexer.advance_ lx) in *. clearbody lx1. clear Hf Hl Hu.
  destruct (Lexer.is_l (Lexer.peek lx1)) eqn:Hl; [|exact H1].
  eapply walks_trans; [exact H1 | apply walks_advance; not_at_end].
Qed.

Lemma walks_number_scan lx : walks lx (snd (Lexer.number_scan lx)).
Proof.
  unfold Lexer.number_scan. cbv zeta.
  pose proof (walks_digits lx) as H1.
  set (lx1 := Lexer.digits lx) in *. clearbody lx1.
  pose proof (walks_number_fraction lx1) as H2.
  destruct (Lexer.number_fraction lx1) as [f lx2]. cbn [snd] in H2.
  pose proof (walks_number_exponent f lx2) as H3.
  destruct (Lexer.number_exponent f lx2) as [[f'|] lx3]; cbn [snd] in H3.
  - pose proof (walks_number_suffix f' lx3) as H4.
    destruct (Lexer.number_suffix f' lx3) as [f'' lx4]. cbn [snd] in *.
    eauto using walks_trans.
  - cbn [snd]. eauto using walks_trans.
Qed.

Lemma walks_string_loop startLine startColumn fuel lx :
  walks lx (Lexer.string_loop startLine startColumn fuel lx).
Proof.
  revert lx. induction fuel as [|fuel IH]; intros lx; simpl.
  - apply walks_refl.
  - destruct (_ && _)%bool eqn:Hgo; [|apply walks_refl].
    assert (Hend : Lexer.isAtEnd lx = false) by not_at_end.
    assert (H1 : walks lx (if Ascii.eqb (Lexer.peek lx) NEWLINE
                           then Lexer.set_column 1 (Lexer.set_line (Lexer.line lx + 1) lx)
                           else lx) /\
                 Lexer.isAtEnd (if Ascii.eqb (Lexer.peek lx) NEWLINE
                           then Lexer.set_column 1 (Lexer.set_line (Lexer.line lx + 1) lx)
                           else lx) = false).
    { destruct (Ascii.eqb (Lexer.peek lx) NEWLINE); split; try exact Hend.
      - eapply walks_trans; [apply walks_set_line | apply walks_set_column].
      - apply walks_refl. }
    destruct H1 as [H1 Hend1].
    set (lx1 := if Ascii.eqb _ NEWLINE then _ else _) in *. clearbody lx1.
    assert (H2 : walks lx (Lexer.advance_ lx1))
      by (eapply walks_trans; [exact H1 | apply walks_advance; exact Hend1]).
    destruct (Ascii.eqb (Lexer.peek lx1) BACKSLASH).
    + destruct (Lexer.isAtEnd (Lexer.advance_ lx1)) eqn:Hend2.
      * eapply walks_trans; [exact H2 | apply walks_report].
      * eapply walks_trans; [|apply IH].
        eapply walks_trans; [exact H2 | apply walks_advance; exact Hend2].
    + eapply walks_trans; [exact H2 | apply IH].
Qed.

(** What the branches of [scanToken] leave once a character is left
    after the white space: an error, or one more token whose lexeme is
    the text from [start] to the new [current]. *)
Definition lexed (lx lx' : Lexer.Lexer) : Prop :=
  Lexer.source lx' = Lexer.source lx /\
  (Lexer.current lx <= Lexer.current lx')%nat /\
  (in_bounds lx -> in_bounds lx') /\
  (hadError (Lexer.errorHandler lx') = true \/
   Lexer.errorHandler lx' = Lexer.errorHandler lx /\
   exists t,
     Lexer.tokens lx' = (Lexer.tokens lx ++ [t])%list /\
     lexeme t = substr (Lexer.source lx) (Lexer.start lx)
                  (Lexer.current lx' - Lexer.start lx)).

Lemma lexed_addToken ty lx lx1 :
  walks lx lx1 -> lexed lx (Lexer.addToken ty lx1).
Proof.
  intros [Hs Hst Ht Hc Hb He]. repeat split; simpl; auto.
  destruct He as [He|He]; [left; exact He|right].
  split; [exact He|]. eexists. split; [rewrite Ht; reflexivity|].
  simpl. rewrite Hs, Hst. reflexivity.
Qed.

Lemma lexed_failed lx lx1 :
  walks lx lx1 -> hadError (Lexer.errorHandler lx1) = true -> lexed lx lx1.
Proof. intros [Hs Hst Ht Hc Hb He] H. repeat split; auto. Qed.

Lemma lexed_report l c msg lx lx1 :
  walks lx lx1 -> lexed lx (Lexer.report l c msg lx1).
Proof.
  intros H. apply lexed_failed; [|reflexivity].
  eapply walks_trans; [exact H | apply walks_report].
Qed.

Lemma lexed_after lx lx1 lx2 : walks lx lx1 -> lexed lx1 lx2 -> lexed lx lx2.
Proof.
  intros [Hs Hst Ht Hc Hb He] (Hs' & Hc' & Hb' & He').
  repeat split; [congruence | lia | auto |].
  destruct He' as [He'|[He' Hr]]; [left; exact He'|].
  destruct He as [He|He]; [left; congruence|right].
  split; [congruence|]. rewrite <- Hs, <- Hst, <- Ht. exact Hr.
Qed.

Lemma lexed_identifier lx : lexed lx (Lexer.identifier lx).
Proof.
  unfold Lexer.identifier. cbv zeta.
  destruct (Keywords_find _ _); apply lexed_addToken;
    apply walks_advance_while; exact identifier_loop_stops.
Qed.

Lemma lexed_number lx : lexed lx (Lexer.number lx).
Proof.
  unfold Lexer.number.
  pose proof (walks_number_scan lx) as H.
  destruct (Lexer.number_scan lx) as [[f|] lx1] eqn:E; cbn [snd] in H.
  - apply lexed_addToken. exact H.
  - apply lexed_failed; [exact H|].
    unfold Lexer.number_scan in E. cbv zeta in E.
    destruct (Lexer.number_fraction (Lexer.digits lx)) as [f0 lx2].
    unfold Lexer.number_exponent in E. cbv zeta in E.
    destruct (Lexer.is_e (Lexer.peek lx2)).
    + destruct (negb _) in E.
      * injection E as <-. reflexivity.
      * destruct (Lexer.number_suffix _ _). discriminate.
    + destruct (Lexer.number_suffix _ _). discriminate.
Qed.

Lemma lexed_string_ lx : lexed lx (Lexer.string_ lx).
Proof.
  unfold Lexer.string_. cbv zeta.
  pose proof (walks_string_loop (Lexer.line lx) (Lexer.column lx - 1)
                (Lexer.fuel_of lx) lx) as H.
  set (lx1 := Lexer.string_loop _ _ _ _) in *. clearbody lx1.
  destruct (Lexer.isAtEnd lx1) eqn:Hend.
  - apply lexed_report. exact H.
  - apply lexed_addToken.
    eapply walks_trans; [exact H | apply walks_advance; exact Hend].
Qed.

Lemma lexed_closing startLine startColumn lx lx1 :
  walks lx lx1 ->
  lexed lx
    (let lx2 :=
       if negb (Ascii.eqb (Lexer.peek lx1) SQUOTE) then
         let lx2 := Lexer.report startLine startColumn
                      "Multi-character character literal or missing closing quote" lx1 in
         Lexer.advance_while
           (fun l => negb (Ascii.eqb (Lexer.peek l) SQUOTE) && negb (Lexer.isAtEnd l))%bool
           (Lexer.fuel_of lx2) lx2
       else lx1 in
     if Ascii.eqb (Lexer.peek lx2) SQUOTE
     then Lexer.addToken CHAR_LITERAL (Lexer.advance_ lx2)
     else Lexer.report startLine startColumn "Unterminated character literal" lx2).
Proof.
  intros H. cbv zeta.
  assert (H2 : walks lx
            (if negb (Ascii.eqb (Lexer.peek lx1) SQUOTE) then
               Lexer.advance_while
                 (fun l => negb (Ascii.eqb (Lexer.peek l) SQUOTE) && negb (Lexer.isAtEnd l))%bool
                 (Lexer.fuel_of (Lexer.report startLine startColumn
                      "Multi-character character literal or missing closing quote" lx1))
                 (Lexer.report startLine startColumn
                      "Multi-character character literal or missing closing quote" lx1)
             else lx1)).
  { destruct (negb _); [|exact H].
    eapply walks_trans; [exact H|].
    eapply walks_trans; [apply walks_report|].
    apply walks_advance_while. exact (until_loop_stops SQUOTE). }
  set (lx2 := if negb _ then _ else _) in *. clearbody lx2.
  destruct (Ascii.eqb (Lexer.peek lx2) SQUOTE) eqn:Hq.
  - apply lexed_addToken.
    eapply walks_trans; [exact H2 | apply walks_advance; not_at_end].
  - apply lexed_report. exact H2.
Qed.

Lemma lexed_character lx : lexed lx (Lexer.character lx).
Proof.
  unfold Lexer.character. cbv zeta.
  destruct (Ascii.eqb (Lexer.peek lx) BACKSLASH) eqn:Hb.
  { assert (H1 : walks lx (Lexer.advance_ lx)) by (apply walks_advance; not_at_end).
    destruct (Lexer.isAtEnd (Lexer.advance_ lx)) eqn:Hend.
    - apply lexed_report. exact H1.
    - apply (lexed_closing (Lexer.line lx) (Lexer.column lx - 1)).
      eapply walks_trans; [exact H1 | apply walks_advance; exact Hend]. }
  destruct (negb (Ascii.eqb (Lexer.peek lx) SQUOTE) && negb (Lexer.isAtEnd lx))%bool
    eqn:Hgo.
  { apply (lexed_closing (Lexer.line lx) (Lexer.column lx - 1)).
    apply walks_advance. not_at_end. }
  change (Lexer.peek (Lexer.report _ _ _ lx)) with (Lexer.peek lx).
  destruct (Ascii.eqb (Lexer.peek lx) SQUOTE) eqn:Hq.
  - apply lexed_failed; [|reflexivity].
    eapply walks_trans; [apply walks_report|].
    apply walks_advance. change (Lexer.isAtEnd lx = false). not_at_end.
  - apply lexed_report. apply walks_refl.
Qed.

Lemma lexed_match_chain alts otherwise lx :
  lexed lx (Lexer.match_chain alts otherwise lx).
Proof.
  induction alts as [|[c t] rest IH]; simpl.
  - apply lexed_addToken, walks_refl.
  - pose proof (walks_match_ c lx) as H.
    destruct (Lexer.match_ c lx) as [[] lx1]; cbn [snd] in H.
    + apply lexed_addToken. exact H.
    + exact IH.
Qed.

Lemma scanToken_at_end lx :
  Lexer.isAtEnd (Lexer.skipWhitespace lx) = true ->
  Lexer.scanToken lx = Lexer.skipWhitespace lx.
Proof. unfold Lexer.scanToken. cbv zeta. intros ->. reflexivity. Qed.

Lemma lexed_scanToken lx :
  Lexer.isAtEnd (Lexer.skipWhitespace lx) = false -> lexed lx (Lexer.scanToken lx).
Proof.
  unfold Lexer.scanToken. cbv zeta.
  pose proof (walks_skipWhitespace lx) as Hws.
  set (lx1 := Lexer.skipWhitespace lx) in *. clearbody lx1.
  intros Hend. rewrite Hend.
  rewrite (advance_peek lx1 Hend). cbv beta iota.
  assert (H2 : walks lx (Lexer.advance_ lx1))
    by (eapply walks_trans; [exact Hws | apply walks_advance; exact Hend]).
  assert (Hback : walks lx
            (Lexer.set_column (Lexer.column (Lexer.advance_ lx1) - 1)
               (Lexer.set_current (Lexer.current (Lexer.advance_ lx1) - 1)
                  (Lexer.advance_ lx1)))).
  { eapply walks_trans; [exact Hws|].
    split; simpl; auto; unfold in_bounds; simpl; lia. }
  set (c := Lexer.peek lx1). clearbody c.
  set (lx2 := Lexer.advance_ lx1) in *. clearbody lx2. clear Hend.
  pose proof (walks_match_ "=" lx2) as Hm1.
  pose proof (walks_match_ "<" lx2) as Hm2.
  pose proof (walks_match_ ">" lx2) as Hm3.
  destruct (Lexer.match_ "=" lx2) as [b1 l1].
  destruct (Lexer.match_ "<" lx2) as [b2 l2].
  destruct (Lexer.match_ ">" lx2) as [b3 l3].
  cbn [snd] in Hm1, Hm2, Hm3.
  repeat match goal with
         | |- lexed _ (if ?b then _ else _) => destruct b eqn:?
         end;
    first
      [ apply lexed_addToken; first
          [ exact H2
          | eapply walks_trans; [exact H2 | eassumption]
          | eapply walks_trans; [exact H2 | apply walks_advance2; not_at_end] ]
      | apply lexed_report; exact H2
      | eapply lexed_after; [exact Hback | first [apply lexed_identifier | apply lexed_number]]
      | eapply lexed_after; [exact H2 | first
          [ apply lexed_match_chain | apply lexed_string_ | apply lexed_character ]]
      | eapply lexed_after; [|apply lexed_match_chain];
        eapply walks_trans; [exact H2 | assumption] ].
Qed.

(** The text of the tokens, one lexeme after the other. *)
Definition lexemes (ts : list Token) : string :=
  fold_right (fun t rest => (lexeme t ++ rest)%string) EmptyString ts.

Lemma string_append_assoc (s1 s2 s3 : string) :
  ((s1 ++ s2) ++ s3 = s1 ++ (s2 ++ s3))%string.
Proof.
  induction s1 as [|c s1 IH]; [reflexivity|].
  change (String c ((s1 ++ s2) ++ s3) = String c (s1 ++ (s2 ++ s3)))%string.
  f_equal. exact IH.
Qed.

Lemma string_append_empty (s : string) : (s ++ EmptyString)%string = s.
Proof.
  induction s as [|c s IH]; [reflexivity|].
  change (String c (s ++ EmptyString) = String c s)%string.
  f_equal. exact IH.
Qed.

Lemma string_of_list_ascii_append (l1 l2 : list ascii) :
  string_of_list_ascii (l1 ++ l2) =
  (string_of_list_ascii l1 ++ string_of_list_ascii l2)%string.
Proof.
  induction l1 as [|c l1 IH]; [reflexivity|].
  change (String c (string_of_list_ascii (l1 ++ l2)) =
          String c (string_of_list_ascii l1 ++ string_of_list_ascii l2))%string.
  f_equal. exact IH.
Qed.

Lemma substr_all (s : string) (k : nat) :
  (String.length s <= k)%nat -> substr s 0 k = s.
Proof.
  intros H. unfold substr. rewrite drop_0.
  rewrite firstn_all2 by (rewrite length_list_ascii; lia).
  apply string_of_list_ascii_of_string.
Qed.

Lemma length_substr (s : string) (k : nat) :
  (k <= String.length s)%nat -> String.length (substr s 0 k) = k.
Proof.
  intros H. rewrite <- length_list_ascii. unfold substr. rewrite drop_0.
  rewrite list_ascii_of_string_of_list_ascii, length_take, length_list_ascii. lia.
Qed.

Lemma lexemes_app ts1 ts2 :
  lexemes (ts1 ++ ts2) = (lexemes ts1 ++ lexemes ts2)%string.
Proof.
  induction ts1 as [|t ts1 IH]; [reflexivity|].
  change (lexemes ((t :: ts1) ++ ts2)) with (lexeme t ++ lexemes (ts1 ++ ts2))%string.
  change (lexemes (t :: ts1)) with (lexeme t ++ lexemes ts1)%string.
  rewrite IH, string_append_assoc. reflexivity.
Qed.

Lemma substr_app (s : string) (k c : nat) :
  (k <= c)%nat ->
  (substr s 0 k ++ substr s k (c - k))%string = substr s 0 c.
Proof.
  intros H. unfold substr. rewrite <- string_of_list_ascii_append, !drop_0.
  rewrite take_take_drop. f_equal. f_equal. lia.
Qed.

Lemma substr_rest (s : string) (k : nat) :
  (substr s 0 k ++ substr s k (String.length s - k))%string = s.
Proof.
  destruct (Nat.le_gt_cases k (String.length s)) as [H|H].
  - rewrite (substr_app s k _ H). apply substr_all. lia.
  - replace (String.length s - k)%nat with 0%nat by lia.
    unfold substr at 2. rewrite firstn_O.
    change (string_of_list_ascii []) with EmptyString.
    rewrite string_append_empty. apply substr_all. lia.
Qed.

(** The invariant of the loop of [tokenize]: as long as nothing was
    reported, the lexemes are the source up to a position [k], which is
    the current one unless the source ended in white space or comments,
    skipped from [k] by [skipWhitespace]. *)
Definition covered (lx : Lexer.Lexer) : Prop :=
  in_bounds lx /\
  (hadError (Lexer.errorHandler lx) = false ->
   exists k,
     (k <= Lexer.current lx)%nat /\
     lexemes (Lexer.tokens lx) = substr (Lexer.source lx) 0 k /\
     (k = Lexer.current lx \/
      Lexer.isAtEnd lx = true /\
      exists lx0,
        Lexer.source lx0 = Lexer.source lx /\ Lexer.current lx0 = k /\
        Lexer.isAtEnd (Lexer.skipWhitespace lx0) = true)).

Lemma covered_scanToken lx :
  covered lx -> Lexer.isAtEnd lx = false ->
  covered (Lexer.scanToken (Lexer.set_start (Lexer.current lx) lx)) /\
  Lexer.source (Lexer.scanToken (Lexer.set_start (Lexer.current lx) lx)) =
  Lexer.source lx.
Proof.
  intros [Hb Hcov] Hend.
  set (lx0 := Lexer.set_start (Lexer.current lx) lx).
  destruct (Lexer.isAtEnd (Lexer.skipWhitespace lx0)) eqn:Hblank.
  - rewrite (scanToken_at_end lx0 Hblank).
    destruct (walks_skipWhitespace lx0) as [Hs _ Ht Hc Hb' He].
    split; [|exact Hs]. split; [exact (Hb' Hb)|].
    intros Hno. destruct He as [He|He]; [congruence|].
    rewrite He in Hno. destruct (Hcov Hno) as (k & Hle & Hk & Hpos).
    exists k. rewrite Ht, Hs. simpl in Hc.
    split; [lia|]. split; [exact Hk|].
    destruct Hpos as [->|[Hend' _]]; [|simpl in Hend'; congruence].
    right. split; [exact Hblank|]. exists lx0. auto.
  - destruct (lexed_scanToken lx0 Hblank) as (Hs & Hc & Hb' & He).
    split; [|exact Hs]. split; [exact (Hb' Hb)|].
    intros Hno. destruct He as [He|(He & t & Ht & Hlex)]; [congruence|].
    rewrite He in Hno. destruct (Hcov Hno) as (k & Hle & Hk & Hpos).
    destruct Hpos as [->|[Hend' _]]; [|congruence].
    exists (Lexer.current (Lexer.scanToken lx0)).
    split; [lia|]. split; [|left; reflexivity].
    rewrite Ht, Hs, lexemes_app.
    change (lexemes [t]) with (lexeme t ++ EmptyString)%string.
    rewrite string_append_empty, Hlex. simpl in Hk |- *. rewrite Hk.
    apply substr_app. exact Hc.
Qed.

Lemma covered_tokenize_loop fuel lx :
  covered lx ->
  covered (Lexer.tokenize_loop fuel lx) /\
  Lexer.source (Lexer.tokenize_loop fuel lx) = Lexer.source lx.
Proof.
  revert lx. induction fuel as [|fuel IH]; intros lx Hcov; simpl; [auto|].
  destruct (Lexer.isAtEnd lx) eqn:Hend; [auto|].
  destruct (covered_scanToken lx Hcov Hend) as [Hcov' Hs].
  destruct (IH _ Hcov') as [Hcov'' Hs'].
  split; [exact Hcov'' | congruence].
Qed.

(** X10. A run of the lexer that reports no error loses no character:
    the lexemes of the tokens, one after the other, are the beginning of
    the source, and what follows them is skipped by [skipWhitespace] up
    to the end of the source (white space and comments).  A lexeme
    starts where the previous one ended, so it holds the white space and
    comments before its token. *)
Theorem tokenize_lexemes_cover_source (source filename : string) (h : ErrorHandler) :
  let result := Lexer.tokenize (Lexer.new source filename h) in
  hadError (Lexer.errorHandler (snd result)) = false ->
  exists trailing,
    source = (lexemes (fst result) ++ trailing)%string /\
    (trailing = EmptyString \/
     exists lx,
       Lexer.source lx = source /\
       Lexer.current lx = String.length (lexemes (fst result)) /\
       Lexer.isAtEnd (Lexer.skipWhitespace lx) = true).
Proof.
  unfold Lexer.tokenize. cbv zeta.
  set (lx0 := Lexer.set_tokens [] _).
  assert (Hcov0 : covered lx0).
  { split; [unfold in_bounds; simpl; lia|].
    intros _. exists 0%nat. split; [simpl; lia|].
    split; [reflexivity | left; reflexivity]. }
  destruct (covered_tokenize_loop (Lexer.fuel_of lx0) lx0 Hcov0) as [[Hb Hcov] Hs].
  destruct (tokenize_loop_spec (Lexer.fuel_of lx0) lx0) as [_ Hend].
  { unfold Lexer.fuel_of. simpl. lia. }
  set (lx1 := Lexer.tokenize_loop _ lx0) in *. clearbody lx1.
  cbn [fst snd]. simpl Lexer.errorHandler. simpl Lexer.tokens.
  intros Hno. destruct (Hcov Hno) as (k & Hle & Hk & Hpos).
  rewrite lexemes_app.
  change (lexemes [_]) with (EmptyString ++ EmptyString)%string.
  rewrite !string_append_empty, Hk.
  change (Lexer.source lx0) with source in Hs. rewrite Hs in *.
  exists (substr source k (String.length source - k)).
  split; [symmetry; apply substr_rest|].
  apply isAtEnd_true in Hend. rewrite Hs in Hend. unfold in_bounds in Hb.
  rewrite Hs in Hb.
  destruct Hpos as [->|(_ & lx & Hsrc & Hcur & Hblank)].
  - left. replace (String.length source - Lexer.current lx1)%nat with 0%nat by lia.
    unfold substr. rewrite firstn_O. reflexivity.
  - right. exists lx. split; [exact Hsrc|]. split; [|exact Hblank].
    rewrite Hcur. symmetry. apply length_substr. lia.
Qed.

Lemma tokenize_lexemes_cover_source_witness :
  let source := "int x = 10; /* ten */ x = x + 1; // done" in
  let result := Lexer.tokenize (Lexer.new source "a.c" Errors.empty_handler) in
  hadError (Lexer.errorHandler (snd result)) = false /\
  exists trailing,
    source = (lexemes (fst result) ++ trailing)%string /\
    (trailing = EmptyString \/
     exists lx,
       Lexer.source lx = source /\
       Lexer.current lx = String.length (lexemes (fst result)) /\
       Lexer.isAtEnd (Lexer.skipWhitespace lx) = true).
Proof.
  cbv zeta. split; [vm_compute; reflexivity|].
  apply (tokenize_lexemes_cover_source
           "int x = 10; /* ten */ x = x + 1; // done" "a.c" Errors.empty_handler).
  vm_compute. reflexivity.
Defined.

(** ** The parser on the token lists of the lexer

    [tokenize] ends every token list with an [END_OF_FILE] token.  On
    such a list the parser never reads outside the vector: [peek] is
    only evaluated below the size, [previous] only after a token was
    consumed, and every loop and every recursive call comes after a
    token was consumed, so the depth of the descent is bounded by the
    size of the list.

    The fuel of the parsing functions is the depth of nested calls a
    descent may use, one unit per call.  The program has no such
    parameter: there the depth is limited by the call stack alone, and
    a descent that needs more than the stack holds ends the process.
    [OutOfFuel] is this outcome in the embedding. *)

(** An expression pointer that is not null and whose calls all have a
    callee. *)
Definition present (v : ExprPtr) : bool :=
  match v with Some e => callees_present e | None => false end.

Lemma present_ptr v : present v = true -> callees_present_ptr v = true.
Proof. destruct v; [auto | discriminate]. Qed.

Section ParserRuns.

Variable T : list Token.
Hypothesis T_ends :
  exists body eof, T = (body ++ [eof])%list /\ type eof = END_OF_FILE.

(** What is known when a descent has used up its fuel. *)
Variable exhausted : Prop.

Definition at_end (c : nat) : bool :=
  ((length T <=? c)%nat ||
   match T !! c with
   | Some t => bool_decide (type t = END_OF_FILE)
   | None => true
   end)%bool.

(** [parses lo c Q m]: started on the tokens [T] at a position [c] with
    [lo <= c < length T], [m] returns or throws, or uses up its fuel and
    then [exhausted] holds; it has no undefined behaviour; after it the
    position is in [lo .. length T - 1], and a result [a] left at
    position [c'] has [Q a c']. *)
Definition parses {A} (lo c : nat) (Q : A -> nat -> Prop) (m : Parser.P A) : Prop :=
  forall p,
    Parser.tokens p = T -> Parser.current p = c -> (lo <= c < length T)%nat ->
    match m p with
    | Return a p' =>
        Parser.tokens p' = T /\ (lo <= Parser.current p' < length T)%nat /\
        Q a (Parser.current p')
    | Throw _ p' =>
        Parser.tokens p' = T /\ (lo <= Parser.current p' < length T)%nat
    | OutOfFuel => exhausted
    | Undefined => False
    end.

Lemma parses_pre {A} lo c (Q : A -> nat -> Prop) m :
  ((lo <= c < length T)%nat -> parses lo c Q m) -> parses lo c Q m.
Proof. intros H p Ht Hc Hlo. exact (H Hlo p Ht Hc Hlo). Qed.

Lemma parses_ret {A} lo c (Q : A -> nat -> Prop) (a : A) :
  Q a c -> parses lo c Q (ret a).
Proof. intros H p Ht Hc Hlo. simpl. rewrite Hc. auto. Qed.

Lemma parses_throw {A} lo c (Q : A -> nat -> Prop) w : parses lo c Q (throw w).
Proof. intros p Ht Hc Hlo. simpl. rewrite Hc. auto. Qed.

Lemma parses_out_of_fuel {A} lo c (Q : A -> nat -> Prop) :
  exhausted -> parses lo c Q out_of_fuel.
Proof. intros H p Ht Hc Hlo. exact H. Qed.

Lemma parses_bind {A B} lo c (Q1 : A -> nat -> Prop) (Q : B -> nat -> Prop)
    (m : Parser.P A) (k : A -> Parser.P B) :
  parses lo c Q1 m ->
  (forall a c', (lo <= c' < length T)%nat -> Q1 a c' -> parses lo c' Q (k a)) ->
  parses lo c Q (bind m k).
Proof.
  intros Hm Hk p Ht Hc Hlo. unfold bind.
  specialize (Hm p Ht Hc Hlo). destruct (m p) as [a p'| w p'| |]; try exact Hm.
  destruct Hm as (Ht' & Hlo' & HQ).
  exact (Hk a _ Hlo' HQ p' Ht' eq_refl Hlo').
Qed.

Lemma parses_weaken {A} lo c (Q1 Q : A -> nat -> Prop) (m : Parser.P A) :
  parses lo c Q1 m ->
  (forall a c', (lo <= c' < length T)%nat -> Q1 a c' -> Q a c') ->
  parses lo c Q m.
Proof.
  intros Hm HQ p Ht Hc Hlo.
  specialize (Hm p Ht Hc Hlo). destruct (m p) as [a p'| w p'| |]; try exact Hm.
  destruct Hm as (Ht' & Hlo' & H). auto.
Qed.

(** The body of a [try] is followed from its own start [c]: the handler
    runs where the exception was thrown, at or after [c]. *)
Lemma parses_try_catch {A} lo c (Q : A -> nat -> Prop)
    (m : Parser.P A) (h : string -> Parser.P A) :
  parses c c Q m ->
  (forall w c', (c <= c' < length T)%nat -> parses lo c' Q (h w)) ->
  parses lo c Q (try_catch m h).
Proof.
  intros Hm Hh p Ht Hc Hlo. unfold try_catch.
  assert (Hcc : (c <= c < length T)%nat) by lia.
  specialize (Hm p Ht Hc Hcc). destruct (m p) as [a p'| w p'| |]; try exact Hm.
  - destruct Hm as (Ht' & Hlo' & H). split; [auto|]. split; [lia|auto].
  - destruct Hm as (Ht' & Hlo'). apply (Hh w _ Hlo' p' Ht' eq_refl). lia.
Qed.

(** *** The primitives *)

Lemma at_end_false c : at_end c = false -> (S c < length T)%nat.
Proof.
  unfold at_end. intros H. apply orb_false_iff in H as [Hlen Htok].
  apply Nat.leb_gt in Hlen.
  destruct T_ends as (body & eof & -> & Heof).
  rewrite length_app in *. simpl in *.
  destruct (decide (c = length body)) as [->|Hne]; [|lia].
  rewrite lookup_app_r, Nat.sub_diag in Htok by lia. simpl in Htok.
  rewrite bool_decide_eq_false in Htok. contradiction.
Qed.

Lemma parses_gets {A} lo c (f : Parser.Parser -> A) :
  parses lo c (fun _ c' => c' = c) (gets f).
Proof. intros p Ht Hc Hlo. simpl. rewrite Hc. auto. Qed.

Lemma parses_tokens_size lo c :
  parses lo c (fun n c' => n = length T /\ c' = c) Parser.tokens_size.
Proof. intros p Ht Hc Hlo. simpl. rewrite Hc, Ht. auto. Qed.

Lemma parses_gets_current lo c :
  parses lo c (fun n c' => n = c /\ c' = c) (gets Parser.current).
Proof. intros p Ht Hc Hlo. simpl. rewrite Hc. auto. Qed.

Lemma parses_set_current lo c n :
  (lo <= n < length T)%nat ->
  parses lo c (fun _ c' => c' = n) (Parser.set_current n).
Proof. intros Hn p Ht Hc Hlo. simpl. auto. Qed.

Lemma parses_report lo c l col msg :
  parses lo c (fun _ c' => c' = c) (Parser.report l col msg).
Proof. intros p Ht Hc Hlo. simpl. rewrite Hc. auto. Qed.

Lemma parses_isAtEnd lo c :
  parses lo c (fun e c' => c' = c /\ e = at_end c) Parser.isAtEnd.
Proof.
  intros p Ht Hc Hlo. unfold Parser.isAtEnd, gets, at_end. rewrite Ht, Hc. auto.
Qed.

Lemma parses_peek lo c :
  parses lo c (fun t c' => c' = c /\ T !! c = Some t) Parser.peek.
Proof.
  intros p Ht Hc Hlo. unfold Parser.peek. rewrite Ht, Hc.
  destruct (T !! c) as [t|] eqn:E; [simpl; rewrite Hc; auto|].
  apply lookup_ge_None in E. lia.
Qed.

Lemma parses_previous lo c :
  (0 < c)%nat -> parses lo c (fun _ c' => c' = c) Parser.previous.
Proof.
  intros Hpos p Ht Hc Hlo. unfold Parser.previous. rewrite Ht, Hc.
  destruct c as [|n]; [lia|].
  destruct (T !! n) as [t|] eqn:E; [simpl; rewrite Hc; auto|].
  apply lookup_ge_None in E. lia.
Qed.

Lemma parses_advance lo c :
  (at_end c = false \/ 0 < c)%nat ->
  parses lo c (fun _ c' => c' = if at_end c then c else S c) Parser.advance.
Proof.
  intros Hpre. unfold Parser.advance.
  eapply parses_bind; [apply parses_isAtEnd|]. intros e c1 Hc1 [-> ->].
  destruct (at_end c) eqn:Hend.
  - apply (parses_bind lo c (fun _ c' => c' = c)); [apply parses_ret; reflexivity|].
    intros _ c1 Hc1' ->.
    apply parses_previous. destruct Hpre; [discriminate|assumption].
  - eapply parses_bind.
    { eapply parses_bind; [apply parses_gets_current|]. intros n c1 _ [-> ->].
      apply parses_set_current. apply at_end_false in Hend. lia. }
    intros _ c1 Hc1' ->. apply parses_previous. lia.
Qed.

Lemma parses_check lo c ty :
  parses lo c (fun b c' => c' = c /\ (b = true -> at_end c = false)) (Parser.check ty).
Proof.
  unfold Parser.check.
  eapply parses_bind; [apply parses_isAtEnd|]. intros e c1 Hc1 [-> ->].
  destruct (at_end c) eqn:Hend.
  - apply parses_ret. split; [reflexivity | discriminate].
  - eapply parses_bind; [apply parses_peek|]. intros t c1 Hc1' [-> Ht].
    apply parses_ret. auto.
Qed.

Lemma parses_match_ lo c ty :
  parses lo c (fun (b : bool) c1 => c1 = if b then S c else c) (Parser.match_ ty).
Proof.
  unfold Parser.match_.
  eapply parses_bind; [apply parses_check|]. intros b c1 Hc1 [-> Hb].
  destruct b.
  - eapply parses_bind; [apply parses_advance; auto|]. intros _ c1 Hc1' ->.
    rewrite (Hb eq_refl). apply parses_ret. reflexivity.
  - apply parses_ret. reflexivity.
Qed.

Lemma parses_match_any lo c types :
  parses lo c (fun (b : bool) c1 => c1 = if b then S c else c) (Parser.match_any types).
Proof.
  induction types as [|ty rest IH]; simpl.
  - apply parses_ret. reflexivity.
  - eapply parses_bind; [apply parses_match_|]. intros b c1 Hc1 ->.
    destruct b; [apply parses_ret; reflexivity | exact IH].
Qed.

Lemma parses_consume lo c ty msg :
  parses lo c (fun _ c' => c' = S c) (Parser.consume ty msg).
Proof.
  unfold Parser.consume.
  eapply parses_bind; [apply parses_check|]. intros b c1 Hc1 [-> Hb].
  destruct b.
  - eapply parses_bind; [apply parses_advance; auto|]. intros _ c1 Hc1' ->.
    rewrite (Hb eq_refl). apply parses_ret. reflexivity.
  - eapply parses_bind; [apply parses_peek|]. intros t c1 Hc1' [-> Ht].
    eapply parses_bind; [apply parses_report|]. intros _ c1 Hc1'' ->.
    apply parses_throw.
Qed.

(** *** Error recovery *)

Lemma parses_synchronize_loop fuel :
  forall lo c,
    (0 < c)%nat -> (length T - c < fuel)%nat ->
    parses lo c (fun _ c' => c <= c')%nat (Parser.synchronize_loop fuel).
Proof.
  induction fuel as [|fuel IH]; intros lo c Hpos Hfuel; [lia|]. simpl.
  eapply parses_bind; [apply parses_isAtEnd|]. intros e c1 Hc1 [-> ->].
  destruct (at_end c) eqn:Hend; [apply parses_ret; lia|].
  eapply parses_bind; [apply parses_previous; exact Hpos|]. intros t c1 _ ->.
  destruct (bool_decide _); [apply parses_ret; lia|].
  eapply parses_bind; [apply parses_peek|]. intros t' c1 _ [-> _].
  destruct (bool_decide _); [apply parses_ret; lia|].
  eapply parses_bind; [apply parses_advance; auto|]. intros _ c1 Hc1' ->.
  rewrite Hend in *.
  eapply parses_weaken; [apply IH; lia|]. cbv beta. intros _ c' _ H. lia.
Qed.

(** [synchronize] goes forward, by at least one token unless it starts
    on the final [END_OF_FILE]. *)
Lemma parses_synchronize lo c :
  (at_end c = false \/ 0 < c)%nat ->
  parses lo c (fun _ c' => c <= c' /\ (at_end c = false -> c < c'))%nat
    Parser.synchronize.
Proof.
  intros Hpre. unfold Parser.synchronize.
  eapply parses_bind; [apply parses_advance; exact Hpre|]. intros _ c1 Hc1 ->.
  eapply parses_bind; [apply parses_tokens_size|]. intros n c2 _ [-> ->].
  eapply parses_weaken.
  - apply parses_synchronize_loop; [|lia].
    destruct (at_end c); [destruct Hpre; [discriminate|assumption] | lia].
  - cbv beta. intros _ c' _ H. destruct (at_end c); split; try lia; discriminate.
Qed.


#[local] Arguments Parser.match_any : simpl never.
#[local] Arguments Parser.synchronize_loop : simpl never.

(** *** Steps of a proof *)

Ltac pleaf :=
  first [ apply parses_isAtEnd | apply parses_peek | apply parses_check
        | apply parses_match_ | apply parses_match_any | apply parses_consume
        | apply parses_report | apply parses_tokens_size
        | apply parses_gets_current | apply parses_gets
        | apply parses_previous; lia
        | apply parses_advance; auto; lia
        | apply parses_set_current; lia ].

Ltac psimp :=
  cbv beta iota in *;
  repeat match goal with
         | H : _ /\ _ |- _ => destruct H
         | H : ?x = _ |- _ => is_var x; subst x
         | H : _ = ?x |- _ => is_var x; subst x
         end.

(** One primitive followed by the rest of the function. *)
Ltac pnext :=
  eapply parses_bind; [pleaf|]; cbv beta;
  let v := fresh "v" in let c := fresh "c" in
  let Hc := fresh "Hc" in let HQ := fresh "HQ" in
  intros v c Hc HQ; psimp.

(** A call of a function with a known behaviour [lem]. *)
Ltac pcall lem :=
  eapply parses_bind; [lem|]; cbv beta;
  let v := fresh "v" in let c := fresh "c" in
  let Hc := fresh "Hc" in let HQ := fresh "HQ" in
  intros v c Hc HQ; psimp.

Ltac pret := apply parses_ret; cbv beta; repeat split; auto; try lia.

(** The fuel left is enough for a call, or the fuel was short from the
    start. *)
Ltac fuel_left :=
  match goal with
  | H : exhausted \/ _ |- exhausted \/ _ =>
      destruct H as [H|H]; [left; exact H | right; lia]
  end.

(** The two branches of a test. *)
Ltac pif :=
  match goal with
  | |- parses _ _ _ (if ?b then _ else _) =>
      let E := fresh "E" in destruct b eqn:E; cbv iota in *
  | |- parses _ _ _ (bind (if ?b then _ else _) _) =>
      let E := fresh "E" in destruct b eqn:E; cbv iota in *
  end.

(** *** Type specifiers and parameters *)

Lemma type_specifier_not_at_end c t :
  T !! c = Some t -> Parser.isTypeSpecifier t = true -> at_end c = false.
Proof.
  intros Ht Hs. unfold at_end. rewrite Ht.
  apply lookup_lt_Some in Ht.
  apply orb_false_iff. split; [apply Nat.leb_gt; exact Ht|].
  apply bool_decide_eq_false. intros E.
  unfold Parser.isTypeSpecifier in Hs. rewrite E in Hs. discriminate.
Qed.

Lemma parses_typeSpecifier_qualifiers fuel :
  forall lo c acc,
    (length T - c < fuel)%nat ->
    parses lo c (fun _ c' => c <= c')%nat (Parser.typeSpecifier_qualifiers fuel acc).
Proof.
  induction fuel as [|fuel IH]; intros lo c acc Hfuel; [lia|]. simpl.
  pnext. pif; [|pret].
  eapply (parses_bind _ _ (fun _ c' => c' = S c)).
  { unfold Parser.typeSpecifier_qualifiers_step. pnext.
    repeat destruct (bool_decide _); apply parses_ret; reflexivity. }
  cbv beta. intros acc' c1 Hc1 ->.
  eapply parses_weaken; [apply IH; lia|]. cbv beta. intros; lia.
Qed.

Lemma parses_typeSpecifier_pointers fuel :
  forall lo c acc,
    (length T - c < fuel)%nat ->
    parses lo c (fun _ c' => c <= c')%nat (Parser.typeSpecifier_pointers fuel acc).
Proof.
  induction fuel as [|fuel IH]; intros lo c acc Hfuel; [lia|]. simpl.
  pnext. pif; [|pret].
  eapply parses_weaken; [apply IH; lia|]. cbv beta. intros; lia.
Qed.

#[local] Arguments Parser.typeSpecifier_qualifiers : simpl never.
#[local] Arguments Parser.typeSpecifier_pointers : simpl never.

Lemma parses_typeSpecifier lo c :
  parses lo c (fun _ c' => c < c')%nat Parser.typeSpecifier.
Proof.
  unfold Parser.typeSpecifier. apply parses_pre. intros Hlo.
  pnext.
  pcall ltac:(apply parses_typeSpecifier_qualifiers; lia).
  destruct v as [isConst isVolatile].
  pnext. pif.
  - pnext. apply parses_throw.
  - apply negb_false_iff in E.
    assert (Hend : at_end c0 = false)
      by (eapply type_specifier_not_at_end; eassumption).
    pnext. rewrite Hend in *.
    pcall ltac:(apply parses_typeSpecifier_pointers; lia).
    destruct v1. pret.
Qed.

Lemma parses_parameter lo c :
  parses lo c (fun _ c' => c < c')%nat Parser.parameter.
Proof.
  unfold Parser.parameter.
  pcall ltac:(apply parses_typeSpecifier).
  pnext.
  eapply (parses_bind _ _ (fun _ c' => c0 <= c')%nat).
  { destruct v0.
    - eapply parses_weaken; [apply parses_advance; auto|].
      cbv beta. intros _ c1 _ ->. destruct (at_end c0); lia.
    - pret. }
  cbv beta. intros name c1 Hc1 Hle. pret.
Qed.

Lemma parses_parameterList_loop fuel :
  forall lo c acc,
    (length T - c < fuel)%nat ->
    parses lo c (fun _ c' => c <= c')%nat (Parser.parameterList_loop fuel acc).
Proof.
  induction fuel as [|fuel IH]; intros lo c acc Hfuel; [lia|]. simpl.
  pnext. pif; [|pret].
  pcall ltac:(apply parses_parameter).
  eapply parses_weaken; [apply IH; lia|]. cbv beta. intros; lia.
Qed.

#[local] Arguments Parser.parameterList_loop : simpl never.

Lemma parses_parameterList lo c :
  parses lo c (fun _ c' => c < c')%nat Parser.parameterList.
Proof.
  unfold Parser.parameterList. apply parses_pre. intros Hlo.
  pcall ltac:(apply parses_parameter).
  pnext.
  eapply parses_weaken; [apply parses_parameterList_loop; lia|].
  cbv beta. intros; lia.
Qed.

(** *** Expressions *)

(** What every expression function leaves: a tree that is not null, all
    of whose calls have a callee, and at least one token consumed. *)
Definition expr_post (c : nat) (v : ExprPtr) (c' : nat) : Prop :=
  present v = true /\ (c < c')%nat.

Definition parses_expr (m : Parser.P ExprPtr) (c : nat) : Prop :=
  forall lo, parses lo c (expr_post c) m.

Lemma present_binary l op r :
  present l = true -> present r = true -> present (Some (BinaryNode l op r)) = true.
Proof.
  destruct l, r; simpl; try discriminate. intros -> ->. reflexivity.
Qed.

Lemma present_unary op operand :
  present operand = true -> present (Some (UnaryNode op operand)) = true.
Proof. destruct operand; simpl; [auto | discriminate]. Qed.

Lemma present_array array index :
  present array = true -> present index = true ->
  present (Some (ArrayAccessNode array index)) = true.
Proof.
  destruct array, index; simpl; try discriminate. intros -> ->. reflexivity.
Qed.

Lemma present_member object op member :
  present object = true -> present (Some (MemberAccessNode object op member)) = true.
Proof. destruct object; simpl; [auto | discriminate]. Qed.

Lemma present_call callee arguments :
  present callee = true -> forallb present arguments = true ->
  present (Some (CallNode callee arguments)) = true.
Proof.
  destruct callee; simpl; [|discriminate]. intros -> H. simpl.
  induction arguments as [|a rest IH]; simpl in *; [reflexivity|].
  apply andb_true_iff in H as [Ha Hrest].
  rewrite (IH Hrest), andb_true_r. destruct a; [exact Ha | discriminate].
Qed.

Lemma present_conditional c t e :
  present c = true -> present t = true -> present e = true ->
  present (Some (ConditionalNode c t e)) = true.
Proof.
  destruct c, t, e; simpl; try discriminate. intros -> -> ->. reflexivity.
Qed.

Lemma present_assignment_build expr op value :
  present expr = true -> present value = true ->
  present (Parser.assignment_build expr op value) = true.
Proof.
  intros He Hv. unfold Parser.assignment_build, move. cbv zeta.
  destruct (negb _).
  - simpl. destruct expr, value; simpl in *; try discriminate.
    rewrite He, Hv. reflexivity.
  - apply present_binary; assumption.
Qed.

Lemma parses_binary_loop ops operand iters :
  forall lo c expr,
    (forall c1, c < c1 -> parses_expr operand c1)%nat ->
    present expr = true ->
    (length T - c < iters)%nat ->
    parses lo c (fun v c' => present v = true /\ c <= c')%nat
      (Parser.binary_loop ops operand iters expr).
Proof.
  induction iters as [|iters IH]; intros lo c expr Hop He Hfuel; [lia|]. simpl.
  pnext. pif; [|pret].
  pnext.
  pcall ltac:(apply Hop; lia). unfold expr_post in *. psimp.
  eapply parses_weaken.
  - apply IH; [intros; apply Hop; lia | apply present_binary; assumption | lia].
  - cbv beta. intros v' c' _ [? ?]. split; [assumption | lia].
Qed.

#[local] Arguments Parser.binary_loop : simpl never.

Lemma parses_binary_level ops operand c :
  (forall c1, c <= c1 -> parses_expr operand c1)%nat ->
  parses_expr (Parser.binary_level ops operand) c.
Proof.
  intros Hop lo. unfold Parser.binary_level. apply parses_pre. intros Hlo.
  pcall ltac:(apply Hop; lia). unfold expr_post in *. psimp.
  pnext.
  eapply parses_weaken.
  - apply parses_binary_loop; [intros; apply Hop; lia | eassumption | lia].
  - cbv beta. intros v' c' _ [? ?]. split; [assumption | lia].
Qed.

Lemma forallb_present_snoc acc e :
  forallb present acc = true -> present e = true ->
  forallb present (acc ++ [e]) = true.
Proof.
  intros Ha He. rewrite forallb_app, Ha. simpl. rewrite He. reflexivity.
Qed.

Lemma parses_arguments_loop expression iters :
  forall lo c acc,
    (forall c1, c <= c1 -> parses_expr expression c1)%nat ->
    forallb present acc = true ->
    (length T - c < iters)%nat ->
    parses lo c (fun v c' => forallb present v = true /\ c < c')%nat
      (Parser.arguments_loop expression iters acc).
Proof.
  induction iters as [|iters IH]; intros lo c acc Hex Ha Hfuel; [lia|]. simpl.
  pcall ltac:(apply Hex; lia). unfold expr_post in *. psimp.
  pnext. pif.
  - eapply parses_weaken.
    + apply IH; [intros; apply Hex; lia | apply forallb_present_snoc; assumption | lia].
    + cbv beta. intros v' c' _ [? ?]. split; [assumption | lia].
  - apply parses_ret. split; [apply forallb_present_snoc; assumption | lia].
Qed.

#[local] Arguments Parser.arguments_loop : simpl never.

Lemma parses_postfix_loop expression iters :
  forall lo c expr,
    (forall c1, c < c1 -> parses_expr expression c1)%nat ->
    present expr = true ->
    (length T - c < iters)%nat ->
    parses lo c (fun v c' => present v = true /\ c <= c')%nat
      (Parser.postfix_loop expression iters expr).
Proof.
  induction iters as [|iters IH]; intros lo c expr Hex He Hfuel; [lia|]. simpl.
  assert (Hloop : forall lo c1 expr1,
            (c < c1)%nat -> present expr1 = true ->
            parses lo c1 (fun v c' => present v = true /\ c <= c')%nat
              (Parser.postfix_loop expression iters expr1)).
  { intros lo1 c1 expr1 Hc1 He1. apply parses_pre. intros Hlo1.
    eapply parses_weaken.
    - apply IH; [intros; apply Hex; lia | exact He1 | lia].
    - cbv beta. intros v' c' _ [? ?]. split; [assumption | lia]. }
  pnext. pif.
  { pcall ltac:(apply Hex; lia). unfold expr_post in *. psimp.
    pnext. apply Hloop; [lia | apply present_array; assumption]. }
  pnext. pif.
  { pnext. pnext.
    eapply (parses_bind _ _ (fun v c' => forallb present v = true /\ S c <= c')%nat).
    { pif.
      - eapply parses_weaken.
        + apply parses_arguments_loop; [intros; apply Hex; lia | reflexivity | lia].
        + cbv beta. intros v' c' _ [? ?]. split; [assumption | lia].
      - pret. }
    cbv beta. intros arguments c1 Hc1 [Hargs Hle].
    pnext. apply Hloop; [lia | apply present_call; assumption]. }
  pnext. pif.
  { pnext. pnext. pnext. apply Hloop; [lia | apply present_member; assumption]. }
  pnext. pif.
  { pnext. apply Hloop; [lia | apply present_unary; assumption]. }
  pret.
Qed.

#[local] Arguments Parser.postfix_loop : simpl never.

(** The descent through the sixteen expression functions costs one unit
    of fuel per function, and comes back to [expression] only after a
    token was consumed. *)
Lemma parses_expressions fuel :
  forall c,
    (exhausted \/ (16 * (length T - c) + 16 <= fuel)%nat ->
     parses_expr (Parser.expression fuel) c) /\
    (exhausted \/ (16 * (length T - c) + 15 <= fuel)%nat ->
     parses_expr (Parser.assignment fuel) c) /\
    (exhausted \/ (16 * (length T - c) + 14 <= fuel)%nat ->
     parses_expr (Parser.conditionalExpr fuel) c) /\
    (exhausted \/ (16 * (length T - c) + 13 <= fuel)%nat ->
     parses_expr (Parser.logicalOr fuel) c) /\
    (exhausted \/ (16 * (length T - c) + 12 <= fuel)%nat ->
     parses_expr (Parser.logicalAnd fuel) c) /\
    (exhausted \/ (16 * (length T - c) + 11 <= fuel)%nat ->
     parses_expr (Parser.bitwiseOr fuel) c) /\
    (exhausted \/ (16 * (length T - c) + 10 <= fuel)%nat ->
     parses_expr (Parser.bitwiseXor fuel) c) /\
    (exhausted \/ (16 * (length T - c) + 9 <= fuel)%nat ->
     parses_expr (Parser.bitwiseAnd fuel) c) /\
    (exhausted \/ (16 * (length T - c) + 8 <= fuel)%nat ->
     parses_expr (Parser.equality fuel) c) /\
    (exhausted \/ (16 * (length T - c) + 7 <= fuel)%nat ->
     parses_expr (Parser.comparison fuel) c) /\
    (exhausted \/ (16 * (length T - c) + 6 <= fuel)%nat ->
     parses_expr (Parser.shift fuel) c) /\
    (exhausted \/ (16 * (length T - c) + 5 <= fuel)%nat ->
     parses_expr (Parser.term fuel) c) /\
    (exhausted \/ (16 * (length T - c) + 4 <= fuel)%nat ->
     parses_expr (Parser.factor fuel) c) /\
    (exhausted \/ (16 * (length T - c) + 3 <= fuel)%nat ->
     parses_expr (Parser.unary fuel) c) /\
    (exhausted \/ (16 * (length T - c) + 2 <= fuel)%nat ->
     parses_expr (Parser.postfix fuel) c) /\
    (exhausted \/ (16 * (length T - c) + 1 <= fuel)%nat ->
     parses_expr (Parser.primary fuel) c).
Proof.
  induction fuel as [|fuel IH]; intros c.
  { repeat split; (intros [H|H]; [|lia]); intros lo; apply parses_out_of_fuel, H. }
  assert (E0 : forall c1, exhausted \/ (16 * (length T - c1) + 16 <= fuel)%nat ->
                        parses_expr (Parser.expression fuel) c1)
    by (intros c1; apply (IH c1)).
  assert (E1 : forall c1, exhausted \/ (16 * (length T - c1) + 15 <= fuel)%nat ->
                        parses_expr (Parser.assignment fuel) c1)
    by (intros c1; apply (IH c1)).
  assert (E2 : forall c1, exhausted \/ (16 * (length T - c1) + 14 <= fuel)%nat ->
                        parses_expr (Parser.conditionalExpr fuel) c1)
    by (intros c1; apply (IH c1)).
  assert (E3 : forall c1, exhausted \/ (16 * (length T - c1) + 13 <= fuel)%nat ->
                        parses_expr (Parser.logicalOr fuel) c1)
    by (intros c1; apply (IH c1)).
  assert (E4 : forall c1, exhausted \/ (16 * (length T - c1) + 12 <= fuel)%nat ->
                        parses_expr (Parser.logicalAnd fuel) c1)
    by (intros c1; apply (IH c1)).
  assert (E5 : forall c1, exhausted \/ (16 * (length T - c1) + 11 <= fuel)%nat ->
                        parses_expr (Parser.bitwiseOr fuel) c1)
    by (intros c1; apply (IH c1)).
  assert (E6 : forall c1, exhausted \/ (16 * (length T - c1) + 10 <= fuel)%nat ->
                        parses_expr (Parser.bitwiseXor fuel) c1)
    by (intros c1; apply (IH c1)).
  assert (E7 : forall c1, exhausted \/ (16 * (length T - c1) + 9 <= fuel)%nat ->
                        parses_expr (Parser.bitwiseAnd fuel) c1)
    by (intros c1; apply (IH c1)).
  assert (E8 : forall c1, exhausted \/ (16 * (length T - c1) + 8 <= fuel)%nat ->
                        parses_expr (Parser.equality fuel) c1)
    by (intros c1; apply (IH c1)).
  assert (E9 : forall c1, exhausted \/ (16 * (length T - c1) + 7 <= fuel)%nat ->
                        parses_expr (Parser.comparison fuel) c1)
    by (intros c1; apply (IH c1)).
  assert (E10 : forall c1, exhausted \/ (16 * (length T - c1) + 6 <= fuel)%nat ->
                        parses_expr (Parser.shift fuel) c1)
    by (intros c1; apply (IH c1)).
  assert (E11 : forall c1, exhausted \/ (16 * (length T - c1) + 5 <= fuel)%nat ->
                        parses_expr (Parser.term fuel) c1)
    by (intros c1; apply (IH c1)).
  assert (E12 : forall c1, exhausted \/ (16 * (length T - c1) + 4 <= fuel)%nat ->
                        parses_expr (Parser.factor fuel) c1)
    by (intros c1; apply (IH c1)).
  assert (E13 : forall c1, exhausted \/ (16 * (length T - c1) + 3 <= fuel)%nat ->
                        parses_expr (Parser.unary fuel) c1)
    by (intros c1; apply (IH c1)).
  assert (E14 : forall c1, exhausted \/ (16 * (length T - c1) + 2 <= fuel)%nat ->
                        parses_expr (Parser.postfix fuel) c1)
    by (intros c1; apply (IH c1)).
  assert (E15 : forall c1, exhausted \/ (16 * (length T - c1) + 1 <= fuel)%nat ->
                        parses_expr (Parser.primary fuel) c1)
    by (intros c1; apply (IH c1)).
  clear IH.
  repeat split; intros Hfuel; simpl;
    try (apply parses_binary_level; intros c1 Hc1;
         first [apply E4|apply E5|apply E6|apply E7|apply E8|apply E9|apply E10
               |apply E11|apply E12|apply E13]; fuel_left);
    intros lo; apply parses_pre; intros Hlo.
  - (* expression *)
    apply E1; fuel_left.
  - (* assignment *)
    pcall ltac:(apply E2; fuel_left). unfold expr_post in *. psimp.
    pnext. pif; [|pret].
    pnext.
    pcall ltac:(apply E1; fuel_left). unfold expr_post in *. psimp.
    apply parses_ret. split; [apply present_assignment_build; assumption | lia].
  - (* conditionalExpr *)
    pcall ltac:(apply E3; fuel_left). unfold expr_post in *. psimp.
    pnext. pif; [|pret].
    pcall ltac:(apply E0; fuel_left). unfold expr_post in *. psimp.
    pnext.
    pcall ltac:(apply E2; fuel_left). unfold expr_post in *. psimp.
    apply parses_ret. split; [apply present_conditional; assumption | lia].
  - (* unary *)
    pnext. pif.
    + pnext.
      pcall ltac:(apply E13; fuel_left). unfold expr_post in *. psimp.
      apply parses_ret. split; [apply present_unary; assumption | lia].
    + apply E14; fuel_left.
  - (* postfix *)
    pcall ltac:(apply E15; fuel_left). unfold expr_post in *. psimp.
    pnext.
    eapply parses_weaken.
    + apply parses_postfix_loop; [|eassumption|lia].
      intros c1 Hc1 lo1. apply parses_pre. intros Hlo1. apply E0; fuel_left.
    + cbv beta. intros v' c' _ [? ?]. split; [assumption | lia].
  - (* primary *)
    pnext. pif.
    { pnext. apply parses_ret. split; [reflexivity | lia]. }
    pnext. pif.
    { pnext. apply parses_ret. split; [reflexivity | lia]. }
    pnext. pif.
    { pcall ltac:(apply E0; fuel_left). unfold expr_post in *. psimp.
      pnext. apply parses_ret. split; [assumption | lia]. }
    pnext. pnext. apply parses_throw.
Qed.

Lemma parses_expression fuel c :
  exhausted \/ (16 * S (length T) <= fuel)%nat ->
  parses_expr (Parser.expression fuel) c.
Proof.
  intros Hfuel lo. apply parses_pre. intros Hlo.
  apply (parses_expressions fuel c). fuel_left.
Qed.

(** *** Statements *)

Section ParserStatements.

(** The fuel of the expression functions. *)
Variable efuel : nat.
Hypothesis efuel_enough : exhausted \/ (16 * S (length T) <= efuel)%nat.

Definition stmt_post (c : nat) (s : StatementNode) (c' : nat) : Prop :=
  statement_callees_present s = true /\ (c < c')%nat.

Definition parses_stmt (m : Parser.P StatementNode) (c : nat) : Prop :=
  forall lo, parses lo c (stmt_post c) m.

Definition block_post (c : nat) (statements : list StatementNode) (c' : nat) : Prop :=
  forallb statement_callees_present statements = true /\ (c < c')%nat.

(** An optional expression: [expression()] or the null pointer. *)
Lemma parses_optional_expression lo c (b : bool) :
  parses lo c (fun v c' => callees_present_ptr v = true /\ c <= c')%nat
    (if b then Parser.expression efuel else ret None).
Proof.
  destruct b; [|pret].
  eapply parses_weaken; [apply parses_expression; exact efuel_enough|].
  cbv beta. intros v c' _ [Hv Hc]. split; [apply present_ptr; exact Hv | lia].
Qed.

Lemma parses_variableDeclaration c :
  parses_stmt (Parser.variableDeclaration efuel) c.
Proof.
  intros lo. unfold Parser.variableDeclaration.
  pcall ltac:(apply parses_typeSpecifier).
  pnext. pnext. pnext.
  pcall ltac:(apply parses_optional_expression).
  pnext. apply parses_ret. split; [assumption | destruct v2; lia].
Qed.

Lemma parses_expressionStatement c :
  parses_stmt (Parser.expressionStatement efuel) c.
Proof.
  intros lo. unfold Parser.expressionStatement.
  pcall ltac:(apply parses_expression; exact efuel_enough).
  unfold expr_post in *. psimp.
  pnext. apply parses_ret. split; [apply present_ptr; assumption | lia].
Qed.

Lemma parses_returnStatement c :
  parses_stmt (Parser.returnStatement efuel) c.
Proof.
  intros lo. unfold Parser.returnStatement.
  pnext.
  pcall ltac:(apply parses_optional_expression).
  pnext. apply parses_ret. split; [assumption | lia].
Qed.

Lemma parses_breakStatement c : parses_stmt Parser.breakStatement c.
Proof.
  intros lo. unfold Parser.breakStatement. pnext.
  apply parses_ret. split; [reflexivity | lia].
Qed.

Lemma parses_continueStatement c : parses_stmt Parser.continueStatement c.
Proof.
  intros lo. unfold Parser.continueStatement. pnext.
  apply parses_ret. split; [reflexivity | lia].
Qed.

(** The [catch] clauses of [block] and [program]: the exception was
    thrown at [c'], not before the statement started at [c], where a
    token was left. *)
Lemma parses_recover {A} lo c c' what (acc : A) :
  at_end c = false -> (c <= c')%nat ->
  parses lo c' (fun v c'' => v = acc /\ c < c'')%nat
    (t <- Parser.peek ;;
     Parser.report (line t) (column t) what ;;
     Parser.synchronize ;;
     ret acc).
Proof.
  intros Hend Hle.
  pnext. pnext.
  assert (Hpre : at_end c' = false \/ (0 < c')%nat).
  { destruct (decide (c' = c)) as [->|Hne]; [left; exact Hend | right; lia]. }
  pcall ltac:(apply parses_synchronize; exact Hpre).
  apply parses_ret. split; [reflexivity|].
  destruct (decide (c' = c)) as [->|Hne]; [auto | lia].
Qed.

Lemma forallb_snoc {A} (f : A -> bool) acc x :
  forallb f acc = true -> f x = true -> forallb f (acc ++ [x]) = true.
Proof. intros Ha Hx. rewrite forallb_app, Ha. simpl. rewrite Hx. reflexivity. Qed.

Lemma parses_block_loop statement iters :
  forall lo c acc,
    (forall c1, c <= c1 -> parses_stmt statement c1)%nat ->
    forallb statement_callees_present acc = true ->
    (length T - c < iters)%nat ->
    parses lo c
      (fun v c' => forallb statement_callees_present v = true /\ c <= c')%nat
      (Parser.block_loop statement iters acc).
Proof.
  induction iters as [|iters IH]; intros lo c acc Hst Ha Hfuel; [lia|]. simpl.
  pnext. pnext. pif; [|pret].
  apply andb_true_iff in E as [_ Hend]. apply negb_true_iff in Hend.
  eapply (parses_bind _ _
            (fun v c' => forallb statement_callees_present v = true /\ c < c')%nat).
  { apply parses_try_catch.
    - pcall ltac:(apply Hst; lia). unfold stmt_post in *. psimp.
      apply parses_ret. split; [apply forallb_snoc; assumption | lia].
    - intros what c' Hc'.
      eapply parses_weaken; [apply (parses_recover lo c c' what acc Hend); lia|].
      cbv beta. intros v' c'' _ [-> ?]. auto. }
  cbv beta. intros acc' c1 Hc1 [Hacc' Hlt].
  eapply parses_weaken.
  - apply IH; [intros; apply Hst; lia | exact Hacc' | lia].
  - cbv beta. intros v' c' _ [? ?]. split; [assumption | lia].
Qed.

#[local] Arguments Parser.block_loop : simpl never.

(** A nested statement costs at most three units of fuel and comes
    after a token was consumed. *)
Lemma parses_statements fuel :
  forall c,
    (exhausted \/ (3 * (length T - c) + 3 <= fuel)%nat ->
     parses_stmt (Parser.statement efuel fuel) c) /\
    (exhausted \/ (3 * (length T - c) + 2 <= fuel)%nat ->
     forall lo, parses lo c (block_post c) (Parser.block efuel fuel)) /\
    (exhausted \/ (3 * (length T - c) + 4 <= fuel)%nat ->
     parses_stmt (Parser.ifStatement efuel fuel) c) /\
    (exhausted \/ (3 * (length T - c) + 4 <= fuel)%nat ->
     parses_stmt (Parser.whileStatement efuel fuel) c) /\
    (exhausted \/ (3 * (length T - c) + 4 <= fuel)%nat ->
     parses_stmt (Parser.doWhileStatement efuel fuel) c) /\
    (exhausted \/ (3 * (length T - c) + 4 <= fuel)%nat ->
     parses_stmt (Parser.forStatement efuel fuel) c).
Proof.
  induction fuel as [|fuel IH]; intros c.
  { repeat split; (intros [H|H]; [|lia]); intros lo; apply parses_out_of_fuel, H. }
  assert (Hstatement : forall c1, exhausted \/ (3 * (length T - c1) + 3 <= fuel)%nat ->
                         parses_stmt (Parser.statement efuel fuel) c1)
    by (intros c1; apply (IH c1)).
  assert (Hblock : forall c1, exhausted \/ (3 * (length T - c1) + 2 <= fuel)%nat ->
                     forall lo, parses lo c1 (block_post c1) (Parser.block efuel fuel))
    by (intros c1; apply (IH c1)).
  assert (Hif : forall c1, exhausted \/ (3 * (length T - c1) + 4 <= fuel)%nat ->
                  parses_stmt (Parser.ifStatement efuel fuel) c1)
    by (intros c1; apply (IH c1)).
  assert (Hwhile : forall c1, exhausted \/ (3 * (length T - c1) + 4 <= fuel)%nat ->
                     parses_stmt (Parser.whileStatement efuel fuel) c1)
    by (intros c1; apply (IH c1)).
  assert (Hdo : forall c1, exhausted \/ (3 * (length T - c1) + 4 <= fuel)%nat ->
                  parses_stmt (Parser.doWhileStatement efuel fuel) c1)
    by (intros c1; apply (IH c1)).
  assert (Hfor : forall c1, exhausted \/ (3 * (length T - c1) + 4 <= fuel)%nat ->
                   parses_stmt (Parser.forStatement efuel fuel) c1)
    by (intros c1; apply (IH c1)).
  clear IH.
  assert (Hexpr : forall lo c1,
            parses lo c1 (fun v c' => callees_present_ptr v = true /\ c1 < c')%nat
              (Parser.expression efuel)).
  { intros lo c1.
    eapply parses_weaken; [apply parses_expression; exact efuel_enough|].
    cbv beta. intros v c' _ [Hv Hc]. split; [apply present_ptr; exact Hv | exact Hc]. }
  repeat split; intros Hfuel lo; apply parses_pre; intros Hlo; simpl.
  - (* statement *)
    pnext. pif.
    { pnext. pnext.
      pcall ltac:(apply Hblock; fuel_left). unfold block_post in *. psimp.
      apply parses_ret. split; [assumption | lia]. }
    pnext. pif.
    { eapply parses_weaken; [apply Hif; fuel_left|].
      cbv beta. intros v' c' _ [? ?]. split; [assumption | lia]. }
    pnext. pif.
    { eapply parses_weaken; [apply Hwhile; fuel_left|].
      cbv beta. intros v' c' _ [? ?]. split; [assumption | lia]. }
    pnext. pif.
    { eapply parses_weaken; [apply Hdo; fuel_left|].
      cbv beta. intros v' c' _ [? ?]. split; [assumption | lia]. }
    pnext. pif.
    { eapply parses_weaken; [apply Hfor; fuel_left|].
      cbv beta. intros v' c' _ [? ?]. split; [assumption | lia]. }
    pnext. pif.
    { eapply parses_weaken; [apply parses_returnStatement|].
      cbv beta. intros v' c' _ [? ?]. split; [assumption | lia]. }
    pnext. pif.
    { eapply parses_weaken; [apply parses_breakStatement|].
      cbv beta. intros v' c' _ [? ?]. split; [assumption | lia]. }
    pnext. pif.
    { eapply parses_weaken; [apply parses_continueStatement|].
      cbv beta. intros v' c' _ [? ?]. split; [assumption | lia]. }
    pnext. pif.
    + apply parses_variableDeclaration.
    + apply parses_expressionStatement.
  - (* block *)
    pnext. pnext.
    pcall ltac:(apply parses_block_loop;
                [intros c1 Hc1 lo1; apply parses_pre; intros Hlo1;
                 apply Hstatement; fuel_left
                | reflexivity | lia]).
    pnext. apply parses_ret. split; [assumption | lia].
  - (* ifStatement *)
    pnext.
    pcall ltac:(apply Hexpr).
    pnext.
    pcall ltac:(apply Hstatement; fuel_left). unfold stmt_post in *. psimp.
    pnext.
    eapply (parses_bind _ _
              (fun v c' => match v with
                           | Some s' => statement_callees_present s' = true
                           | None => True
                           end /\ c < c')%nat).
    { pif.
      - pcall ltac:(apply Hstatement; fuel_left). unfold stmt_post in *. psimp.
        apply parses_ret. split; [assumption | lia].
      - apply parses_ret. split; [exact I | lia]. }
    cbv beta. intros elseBranch c' Hc' [Helse Hlt].
    apply parses_ret. split; [|lia]. simpl.
    repeat (apply andb_true_iff; split); try assumption.
    destruct elseBranch; [assumption | reflexivity].
  - (* whileStatement *)
    pnext.
    pcall ltac:(apply Hexpr).
    pnext.
    pcall ltac:(apply Hstatement; fuel_left). unfold stmt_post in *. psimp.
    apply parses_ret. split; [|lia]. simpl.
    apply andb_true_iff; split; assumption.
  - (* doWhileStatement *)
    pcall ltac:(apply Hstatement; fuel_left). unfold stmt_post in *. psimp.
    pnext. pnext.
    pcall ltac:(apply Hexpr).
    pnext. pnext.
    apply parses_ret. split; [|lia]. simpl.
    apply andb_true_iff; split; assumption.
  - (* forStatement *)
    pnext. pnext.
    eapply (parses_bind _ _
              (fun v c' => match v with
                           | Some s' => statement_callees_present s' = true
                           | None => True
                           end /\ c < c')%nat).
    { pif.
      - pnext. pif.
        + pcall ltac:(apply parses_variableDeclaration).
          unfold stmt_post in *. psimp.
          apply parses_ret. split; [assumption | lia].
        + pcall ltac:(apply parses_expressionStatement).
          unfold stmt_post in *. psimp.
          apply parses_ret. split; [assumption | lia].
      - pnext. apply parses_ret. split; [exact I | lia]. }
    cbv beta. intros initializer c1 Hc1 [Hinit Hlt1].
    pnext.
    pcall ltac:(apply parses_optional_expression).
    pnext. pnext.
    pcall ltac:(apply parses_optional_expression).
    pnext.
    pcall ltac:(apply Hstatement; fuel_left). unfold stmt_post in *. psimp.
    apply parses_ret. split; [|lia]. simpl.
    repeat (apply andb_true_iff; split); try assumption.
    destruct initializer; [assumption | reflexivity].
Qed.

Lemma parses_block c lo :
  parses lo c (block_post c) (Parser.block efuel efuel).
Proof.
  apply parses_pre. intros Hlo.
  apply (parses_statements efuel c).
  destruct efuel_enough as [H|H]; [left; exact H | right; lia].
Qed.

(** *** Declarations and the program *)

Definition declaration_callees_present (d : ASTNode) : bool :=
  match d with
  | FunctionDeclaration f => function_callees_present f
  | Statement s => statement_callees_present s
  end.

Lemma parses_functionDeclaration lo c :
  parses lo c (fun f c' => function_callees_present f = true /\ c < c')%nat
    (Parser.functionDeclaration efuel).
Proof.
  unfold Parser.functionDeclaration. apply parses_pre. intros Hlo.
  pcall ltac:(apply parses_typeSpecifier).
  pnext. pnext. pnext. pnext.
  eapply (parses_bind _ _ (fun _ c' => c < c')%nat).
  { pif.
    - eapply parses_weaken; [apply parses_parameterList|].
      cbv beta. intros; lia.
    - apply parses_ret. lia. }
  cbv beta. intros params c1 Hc1 Hlt.
  pnext. pnext.
  eapply (parses_bind _ _
            (fun v c' => match v with
                         | Some statements =>
                             forallb statement_callees_present statements = true
                         | None => True
                         end /\ c < c')%nat).
  { pif.
    - pnext. pnext.
      pcall ltac:(apply parses_block). unfold block_post in *. psimp.
      apply parses_ret. split; [assumption | lia].
    - pnext. apply parses_ret. split; [exact I | lia]. }
  cbv beta. intros body c2 Hc2 [Hbody Hlt2].
  apply parses_ret. split; [|lia].
  unfold function_callees_present. simpl.
  destruct body; [assumption | reflexivity].
Qed.

Lemma parses_declaration lo c :
  at_end c = false ->
  parses lo c
    (fun d c' => match d with
                 | Some d' => declaration_callees_present d' = true
                 | None => True
                 end /\ c < c')%nat
    (Parser.declaration efuel).
Proof.
  intros Hend. unfold Parser.declaration. apply parses_pre. intros Hlo.
  pnext. pif.
  - pnext.
    pcall ltac:(apply parses_typeSpecifier).
    pnext. pnext. pif.
    + pnext.
      pcall ltac:(apply parses_functionDeclaration). psimp.
      apply parses_ret. split; [assumption | lia].
    + pnext.
      pcall ltac:(apply parses_variableDeclaration). unfold stmt_post in *. psimp.
      apply parses_ret. split; [assumption | lia].
  - pnext.
    pcall ltac:(apply parses_synchronize; left; exact Hend).
    apply parses_ret. split; [exact I | auto].
Qed.

Lemma parses_program_loop iters :
  forall lo c acc,
    forallb declaration_callees_present acc = true ->
    (length T - c < iters)%nat ->
    parses lo c
      (fun v c' => forallb declaration_callees_present v = true /\ c <= c')%nat
      (Parser.program_loop efuel iters acc).
Proof.
  induction iters as [|iters IH]; intros lo c acc Ha Hfuel; [lia|]. simpl.
  pnext. pif; [pret|].
  eapply (parses_bind _ _
            (fun v c' => forallb declaration_callees_present v = true /\ c < c')%nat).
  { apply parses_try_catch.
    - pcall ltac:(apply parses_declaration; assumption).
      apply parses_ret. split; [|lia].
      destruct v as [d|]; [apply forallb_snoc; assumption | assumption].
    - intros what c' Hc'.
      eapply parses_weaken; [apply (parses_recover lo c c' what acc); [assumption|lia]|].
      cbv beta. intros v' c'' _ [-> ?]. auto. }
  cbv beta. intros acc' c1 Hc1 [Hacc' Hlt].
  eapply parses_weaken.
  - apply IH; [exact Hacc' | lia].
  - cbv beta. intros v' c' _ [? ?]. split; [assumption | lia].
Qed.

#[local] Arguments Parser.program_loop : simpl never.

Lemma parses_program lo c :
  parses lo c (fun prog _ => program_callees_present (Some prog) = true)
    (Parser.program efuel).
Proof.
  unfold Parser.program. apply parses_pre. intros Hlo.
  pnext.
  pcall ltac:(apply parses_program_loop; [reflexivity | lia]).
  apply parses_ret. assumption.
Qed.

(** [parse] catches what [program] throws. *)
Lemma parse_outcome p :
  Parser.tokens p = T -> Parser.current p = 0%nat ->
  match Parser.parse efuel p with
  | Return root _ => program_callees_present root = true
  | OutOfFuel => exhausted
  | Throw _ _ | Undefined => False
  end.
Proof.
  intros Ht Hc.
  assert (Hlen : (0 <= 0 < length T)%nat).
  { destruct T_ends as (body & eof & -> & _). rewrite length_app. simpl. lia. }
  pose proof (parses_program 0 0 p Ht Hc Hlen) as H.
  unfold Parser.parse, try_catch, bind in *.
  destruct (Parser.program efuel p) as [prog p'|what p'| |]; try exact H.
  - destruct H as (_ & _ & H). exact H.
  - reflexivity.
Qed.

End ParserStatements.

End ParserRuns.
(** X11.  The parser on the output of the lexer.  On every token list
    that ends with an [END_OF_FILE] token, as every list returned by
    [tokenize] does, and whatever tokens come before it, [parse] never
    evaluates [tokens[current]] or [tokens[current - 1]] outside the
    vector and lets no exception of [consume] escape, however deep its
    descent may go ([fuel] nested calls of the statement functions, and
    as many of the expression functions under a statement).  Its loops
    end, and neither descent nests deeper than sixteen calls per token:
    with that depth available [parse] returns, and in the tree it
    returns no call lacks its callee.  The program itself has no bound
    on the depth but its call stack; a descent that the stack cannot
    hold is the outcome [OutOfFuel] here. *)
Theorem parse_descent_is_bounded
    (tokens : list Token) (h : ErrorHandler) (fuel : nat) :
  (exists body eof, tokens = (body ++ [eof])%list /\ type eof = END_OF_FILE) ->
  match Parser.parse fuel (Parser.new tokens h) with
  | Return root _ => program_callees_present root = true
  | OutOfFuel => (fuel < 16 * S (length tokens))%nat
  | Throw _ _ | Undefined => False
  end.
Proof.
  intros Hends.
  apply (parse_outcome tokens Hends (fuel < 16 * S (length tokens))%nat fuel).
  - lia.
  - reflexivity.
  - reflexivity.
Qed.

Lemma parse_descent_is_bounded_witness :
  let tokens :=
    fst (Lexer.tokenize
           (Lexer.new "int f(int a){return(g(a,1)+a[0]);}int x=;" "t.c"
              Errors.empty_handler)) in
  (exists body eof, tokens = (body ++ [eof])%list /\ type eof = END_OF_FILE) /\
  match Parser.parse (Parser.fuel_for tokens) (Parser.new tokens Errors.empty_handler) with
  | Return root _ => program_callees_present root = true
  | OutOfFuel => (Parser.fuel_for tokens < 16 * S (length tokens))%nat
  | Throw _ _ | Undefined => False
  end.
Proof.
  intros tokens.
  assert (H : exists body eof,
            tokens = (body ++ [eof])%list /\ type eof = END_OF_FILE).
  { exists (removelast tokens),
           (List.last tokens (mkToken UNKNOWN EmptyString EmptyString 0 0)).
    split; vm_compute; reflexivity. }
  split; [exact H|].
  exact (parse_descent_is_bounded tokens Errors.empty_handler
           (Parser.fuel_for tokens) H).
Defined.

(** *** The whole pipeline *)

Lemma tokenize_ends_with_eof lx :
  exists body eof,
    fst (Lexer.tokenize lx) = (body ++ [eof])%list /\ type eof = END_OF_FILE.
Proof. unfold Lexer.tokenize. cbv zeta. simpl. eexists _, _. split; reflexivity. Qed.

Lemma analyze_returns (root : option ProgramNode) (h : ErrorHandler) :
  exists a', SemanticAnalyzer.analyze root (SemanticAnalyzer.new h) = Return tt a'.
Proof.
  destruct root as [program|]; simpl; [|eexists; reflexivity].
  assert (Hinv : forall a,
            SemanticAnalyzer.symbolTable a = SymbolTable.new ->
            SemanticAnalyzer.currentFunctionReturnType a = None ->
            sem_inv a /\ depth_of a = 0%nat).
  { intros a Ht Hr. unfold sem_inv, depth_of, frames_of. rewrite Ht, Hr. simpl.
    split; [|reflexivity]. split; [lia|]. split; [|discriminate].
    repeat constructor. apply map_Forall_empty. }
  assert (Hclear : exists a0,
            SemanticAnalyzer.on_table SymbolTable.clear (SemanticAnalyzer.new h)
            = Return tt a0 /\ sem_inv a0 /\ depth_of a0 = 0%nat).
  { eexists. split; [reflexivity|]. apply Hinv; reflexivity. }
  destruct Hclear as (a0 & E0 & Hinv0 & Hd0).
  destruct (sem_total_visitProgram_loop 0 (declarations program) a0 Hinv0 Hd0)
    as ([] & a' & E & _).
  exists a'. rewrite (bind_Return _ _ _ _ _ E0). exact E.
Qed.

Lemma generate_defined stof_ok (root : option ProgramNode) g :
  program_callees_present root = true ->
  match CodeGenerator.generate stof_ok root g with
  | Return _ _ | Throw _ _ => True
  | Undefined | OutOfFuel => False
  end.
Proof.
  intros Hc. destruct root as [program|]; simpl; [|exact I].
  destruct (initialize_resets g) as (g1 & E1 & _).
  rewrite (bind_Return _ _ _ _ _ E1).
  pose proof (scoped_generateProgram_loop stof_ok (declarations program) Hc g1) as H.
  unfold CodeGenerator.generateProgram.
  destruct (CodeGenerator.generateProgram_loop _ _ _); auto.
Qed.

(** X12.  No source text takes the compiler to one of the operations
    without defined behaviour that the four phases contain: an index
    outside the token vector or the vector of scope frames, a null
    callee or base type that is dereferenced, [top()] or [pop()] on an
    empty scope stack.  The parser hands the later phases a tree in
    which every call has its callee, the analyzer keeps its scope index
    inside the frame vector, the generator closes the scopes it opens.
    Nothing is said here of the depth of the recursion over nested
    syntax, which the driver does not bound: the call stack is not part
    of the embedding of the driver. *)
Theorem compile_reaches_no_undefined_operation
    (stof_ok : string -> bool) (inputFile sourceCode : string) :
  compile stof_ok inputFile sourceCode <> ExitUndefined.
Proof.
  unfold compile. cbv zeta.
  pose proof (tokenize_ends_with_eof
                (Lexer.new sourceCode inputFile Errors.empty_handler)) as Hends.
  destruct (Lexer.tokenize _) as [tokens lexer]. cbn [fst] in Hends.
  destruct (Errors.hasErrors (Lexer.errorHandler lexer)); [discriminate|].
  pose proof (parse_outcome tokens Hends False (Parser.fuel_for tokens)
                ltac:(right; unfold Parser.fuel_for; lia)
                (Parser.new tokens (Lexer.errorHandler lexer)) eq_refl eq_refl)
    as Hparse.
  destruct (Parser.parse _ _) as [root p'| | |]; try contradiction.
  destruct (Errors.hasErrors (Parser.errorHandler p')); [discriminate|].
  destruct (analyze_returns root (Parser.errorHandler p')) as (a' & ->).
  destruct (Errors.hasErrors (SemanticAnalyzer.errorHandler a')); [discriminate|].
  pose proof (generate_defined stof_ok root
                (CodeGenerator.new 0 (SemanticAnalyzer.errorHandler a')) Hparse) as Hg.
  destruct (CodeGenerator.generate _ _ _) as [? g'|? g'| |]; try contradiction.
  - destruct (Errors.hasErrors (CodeGenerator.errorHandler g')); discriminate.
  - discriminate.
Qed.
